(** * FTP-Backup-Tool: the archive-set reconciliation and retention engine

    A shallow embedding of [backup_ftp.py] (class [FTPBackup]) and the
    properties of its reconciliation, transfer and retention logic.

    Conventions of the embedding.
    - File names are ASCII strings; a [Path] is represented by its [name]
      (the tool works in one flat source directory and one remote directory),
      and a name, being the name of a directory entry, holds no ['/'].
    - The FTP server, local file sizes and I/O errors are the environment: a
      [World] answers every operation, indexed by a logical clock.  The
      environment also fixes the hashes of strings, on which the order of
      iteration of a Python [set] depends.
    - Methods of [FTPBackup] are computations in a state-and-exception monad
      whose state also carries the trace of performed operations.
    - The calls of [self.logger] have no influence on control flow and are
      left out, and so is what the logging handlers do to the log file.  Of
      the rotation of the log ([RotatingLogHandler]) the removal of old
      archives is modelled, on its own; the one place where [FTPBackup]
      calls the rotation, the head of the [finally] block of [run], is not
      part of [run] here (see [run_finally]). *)

From Stdlib Require Import String Ascii List ZArith Lia Bool Arith PeanoNat.
From Stdlib Require Import Permutation Sorted.
Import ListNotations.
Local Open Scope string_scope.
Local Open Scope list_scope.

(* ===================================================================== *)
(** ** Python string primitives used by the tool                          *)
(* ===================================================================== *)

Module PyStr.

(** [s.startswith(p)] *)
Definition startswith (s p : string) : bool := String.prefix p s.

(** [s.endswith(suf)]: some suffix of [s] equals [suf]. *)
Fixpoint endswith (s suf : string) : bool :=
  String.eqb s suf ||
  match s with
  | EmptyString => false
  | String _ s' => endswith s' suf
  end.

(** [sub in s] *)
Fixpoint contains (sub s : string) : bool :=
  String.prefix sub s ||
  match s with
  | EmptyString => false
  | String _ s' => contains sub s'
  end.

(** The text before the last ['.'], if there is a dot. *)
Fixpoint before_last_dot (s : string) : option string :=
  match s with
  | EmptyString => None
  | String c s' =>
      match before_last_dot s' with
      | Some h => Some (String c h)
      | None => if Ascii.eqb c "." then Some EmptyString else None
      end
  end.

(** [s.rsplit('.', 1)[0]] *)
Definition rsplit_dot_head (s : string) : string :=
  match before_last_dot s with
  | Some h => h
  | None => s
  end.

(** [s.split('.')[-1]] *)
Fixpoint split_dot_last (s : string) : string :=
  match s with
  | EmptyString => EmptyString
  | String c s' =>
      if contains "." s' then split_dot_last s'
      else if Ascii.eqb c "." then s' else s
  end.

Definition is_digit (c : ascii) : bool :=
  let n := nat_of_ascii c in (48 <=? n)%nat && (n <=? 57)%nat.

Definition digit_val (c : ascii) : Z := Z.of_nat (nat_of_ascii c - 48).

(** [str.isspace] on ASCII: what [str.strip] removes. *)
Definition is_space (c : ascii) : bool :=
  let n := nat_of_ascii c in
  ((9 <=? n)%nat && (n <=? 13)%nat) || ((28 <=? n)%nat && (n <=? 32)%nat).

Fixpoint lstrip (s : string) : string :=
  match s with
  | EmptyString => EmptyString
  | String c s' => if is_space c then lstrip s' else s
  end.

Fixpoint rstrip (s : string) : string :=
  match s with
  | EmptyString => EmptyString
  | String c s' =>
      match rstrip s' with
      | EmptyString => if is_space c then EmptyString else String c EmptyString
      | r => String c r
      end
  end.

(** The blanks [int] skips around a number: tab to carriage return, and
    the space. *)
Definition is_blank (c : ascii) : bool :=
  let n := nat_of_ascii c in
  ((9 <=? n)%nat && (n <=? 13)%nat) || (n =? 32)%nat.

Fixpoint lskip_blank (s : string) : string :=
  match s with
  | EmptyString => EmptyString
  | String c s' => if is_blank c then lskip_blank s' else s
  end.

Fixpoint rskip_blank (s : string) : string :=
  match s with
  | EmptyString => EmptyString
  | String c s' =>
      match rskip_blank s' with
      | EmptyString => if is_blank c then EmptyString else String c EmptyString
      | r => String c r
      end
  end.

Fixpoint count_digits (s : string) : nat :=
  match s with
  | EmptyString => 0
  | String c s' => (if is_digit c then 1 else 0) + count_digits s'
  end.

(** [sys.get_int_max_str_digits()], at its default: [int] refuses a
    string with more digits. *)
Definition int_max_str_digits : Z := 4300.

(** Decimal digits, single underscores allowed between digits. *)
Fixpoint int_digits (s : string) (acc : Z) (after_digit : bool) : option Z :=
  match s with
  | EmptyString => if after_digit then Some acc else None
  | String c s' =>
      if is_digit c then int_digits s' (10 * acc + digit_val c)%Z true
      else if Ascii.eqb c "_" then
        (if after_digit then int_digits s' acc false else None)
      else None
  end.

(** [int(s)]; [None] stands for [ValueError]. *)
Definition int (s : string) : option Z :=
  let t := rskip_blank (lskip_blank s) in
  if (int_max_str_digits <? Z.of_nat (count_digits t))%Z then None
  else
    match t with
    | String "+" r => int_digits r 0%Z false
    | String "-" r => option_map Z.opp (int_digits r 0%Z false)
    | _ => int_digits t 0%Z false
    end.

(** Value of a string of decimal digits. *)
Definition num (s : string) : Z :=
  fold_left (fun acc c => (10 * acc + digit_val c)%Z) (list_ascii_of_string s) 0%Z.

Definition all_digits (s : string) : bool :=
  forallb is_digit (list_ascii_of_string s).

Definition char_at (n : nat) (s : string) (c : ascii) : bool :=
  match String.get n s with
  | Some c' => Ascii.eqb c' c
  | None => false
  end.

End PyStr.

(* ===================================================================== *)
(** ** Timestamps                                                         *)
(* ===================================================================== *)

Record datetime := mkDatetime
  { year : Z; month : Z; day : Z; hour : Z; minute : Z; second : Z }.

Definition datetime_fields (d : datetime) : list Z :=
  [year d; month d; day d; hour d; minute d; second d].

(** Lexicographic comparison, as Python compares [datetime] objects. *)
Fixpoint lex_compare (a b : list Z) : comparison :=
  match a, b with
  | [], [] => Eq
  | [], _ :: _ => Lt
  | _ :: _, [] => Gt
  | x :: a', y :: b' =>
      match (x ?= y)%Z with
      | Eq => lex_compare a' b'
      | c => c
      end
  end.

Definition datetime_ltb (a b : datetime) : bool :=
  match lex_compare (datetime_fields a) (datetime_fields b) with
  | Lt => true
  | _ => false
  end.

Definition datetime_le (a b : datetime) : Prop := datetime_ltb b a = false.
Definition datetime_lt (a b : datetime) : Prop := datetime_ltb a b = true.

Definition is_leap (y : Z) : bool :=
  ((y mod 4 =? 0) && (negb (y mod 100 =? 0) || (y mod 400 =? 0)))%Z.

Definition days_in_month (y m : Z) : Z :=
  if (m =? 2)%Z then (if is_leap y then 29 else 28)%Z
  else if ((m =? 4) || (m =? 6) || (m =? 9) || (m =? 11))%Z then 30%Z
  else 31%Z.

(** [datetime.strptime(g, "%Y%m%d_%H%M%S")] on a group of eight digits, an
    underscore and six digits; [None] stands for [ValueError]. *)
Definition strptime (g : string) : option datetime :=
  let Y := PyStr.num (substring 0 4 g) in
  let m := PyStr.num (substring 4 2 g) in
  let d := PyStr.num (substring 6 2 g) in
  let H := PyStr.num (substring 9 2 g) in
  let M := PyStr.num (substring 11 2 g) in
  let S := PyStr.num (substring 13 2 g) in
  if ((1 <=? Y) && (1 <=? m) && (m <=? 12) && (1 <=? d) &&
      (d <=? days_in_month Y m) && (H <=? 23) && (M <=? 59) && (S <=? 59))%Z
  then Some (mkDatetime Y m d H M S)
  else None.

(** Does the pattern [_(\d{8}_\d{6})_] match at the head of [s]?  Returns
    the captured group. *)
Definition ts_match_here (s : string) : option string :=
  let date := substring 1 8 s in
  let time := substring 10 6 s in
  if PyStr.char_at 0 s "_" &&
     (String.length date =? 8)%nat && PyStr.all_digits date &&
     PyStr.char_at 9 s "_" &&
     (String.length time =? 6)%nat && PyStr.all_digits time &&
     PyStr.char_at 16 s "_"
  then Some (substring 1 15 s)
  else None.

(** [re.search(r'_(\d{8}_\d{6})_', s)]: the leftmost match. *)
Fixpoint re_search_ts (s : string) : option string :=
  match ts_match_here s with
  | Some g => Some g
  | None =>
      match s with
      | EmptyString => None
      | String _ s' => re_search_ts s'
      end
  end.

(* ===================================================================== *)
(** ** Naming rules of archive files                                      *)
(* ===================================================================== *)

(** [FTPBackup._get_archive_base_name] *)
Definition _get_archive_base_name (filename : string) : option string :=
  if negb (PyStr.endswith filename ".tar") && negb (PyStr.contains ".tar." filename)
  then None
  else if PyStr.contains ".tar." filename then
    let base := PyStr.rsplit_dot_head filename in
    if negb (PyStr.endswith base ".tar") then None else Some base
  else Some filename.

(** [FTPBackup._get_volume_number] *)
Definition _get_volume_number (filename : string) : Z :=
  if PyStr.contains ".tar." filename then
    match PyStr.int (PyStr.split_dot_last filename) with
    | Some n => n
    | None => 0%Z
    end
  else 0%Z.

(** [FTPBackup._get_archive_timestamp] *)
Definition _get_archive_timestamp (base_name : string) : option datetime :=
  match re_search_ts base_name with
  | Some g => strptime g
  | None => None
  end.

(** [FTPBackup._should_ignore]; the order in which the pattern set is
    traversed does not matter for the result. *)
Definition _should_ignore (ignore_patterns : list string) (filename : string) : bool :=
  existsb
    (fun pattern =>
       if PyStr.startswith pattern "*"
       then PyStr.endswith filename (substring 1 (String.length pattern - 1) pattern)
       else PyStr.contains pattern filename)
    ignore_patterns.


(* ===================================================================== *)
(** ** Python containers                                                  *)
(* ===================================================================== *)

(** [x in l] for a list or set of strings *)
Definition str_in (x : string) (l : list string) : bool := existsb (String.eqb x) l.

(** [s.add(x)] on a set of strings, kept as the duplicate-free list of
    its elements in the order in which they were added. *)
Definition set_add (x : string) (s : list string) : list string :=
  if str_in x s then s else s ++ [x].

(** A [dict] keeps insertion order: an association list. *)
Definition dict (V : Type) := list (string * V).

Fixpoint dict_mem {V} (d : dict V) (k : string) : bool :=
  match d with
  | [] => false
  | (k', _) :: d' => String.eqb k' k || dict_mem d' k
  end.

(** [if k not in d: d[k] = []] followed by [d[k].append(v)] *)
Fixpoint dict_append (d : dict (list string)) (k v : string) : dict (list string) :=
  match d with
  | [] => [(k, [v])]
  | (k', vs) :: d' =>
      if String.eqb k' k then (k', vs ++ [v]) :: d'
      else (k', vs) :: dict_append d' k v
  end.

(** [d[k] = v] *)
Fixpoint dict_set {V} (d : dict V) (k : string) (v : V) : dict V :=
  match d with
  | [] => [(k, v)]
  | (k', v') :: d' =>
      if String.eqb k' k then (k', v) :: d'
      else (k', v') :: dict_set d' k v
  end.

(** [list.sort(key=...)] is stable; elements are compared by [<] on keys. *)
Section PySort.
Context {A K : Type} (key : A -> K) (ltb : K -> K -> bool).

Fixpoint insert_by (x : A) (l : list A) : list A :=
  match l with
  | [] => [x]
  | y :: l' =>
      if ltb (key y) (key x) then y :: insert_by x l'
      else x :: y :: l'
  end.

Fixpoint sort_by (l : list A) : list A :=
  match l with
  | [] => []
  | x :: l' => insert_by x (sort_by l')
  end.
End PySort.

(** [l[:stop]] for an integer [stop] of either sign *)
Definition slice_to {A} (stop : Z) (l : list A) : list A :=
  let n := Z.of_nat (length l) in
  let stop' := if (stop <? 0)%Z then Z.max 0 (stop + n) else Z.min stop n in
  firstn (Z.to_nat stop') l.

(* ===================================================================== *)
(** ** Shell patterns: [fnmatch.translate] and the match of a name        *)
(* ===================================================================== *)

Module Fnmatch.

(** What one piece of a translated pattern matches: any run of characters
    ([*]), any character ([?]), no character at all (an empty range), a
    given character, or a character of a set.  A set is kept as the chunks
    [translate] cuts it into: the characters of every chunk belong to it,
    and so do the characters between the last character of a chunk and
    the first one of the next chunk. *)
Inductive token : Type :=
| Star
| AnyChar
| Never
| Lit (c : ascii)
| Class (negated : bool) (chunks : list string).

(** The text up to the first [']'], if there is one. *)
Fixpoint before_bracket (p : string) : option string :=
  match p with
  | EmptyString => None
  | String c p' =>
      if Ascii.eqb c "]" then Some EmptyString
      else option_map (String c) (before_bracket p')
  end.

(** After a ['[']: the text of the set, [pat[i:j]], where [j] is the
    place of the closing bracket, looked for after a leading ['!'] and a
    leading [']']; [None] when the set is not closed. *)
Definition class_text (p : string) : option string :=
  match p with
  | String "!" (String "]" q) =>
      option_map (fun t => String "!" (String "]" t)) (before_bracket q)
  | String "!" q => option_map (String "!") (before_bracket q)
  | String "]" q => option_map (String "]") (before_bracket q)
  | _ => before_bracket p
  end.

(** [s.find('-', k)]: the text before and after the first hyphen at
    index [k] or later. *)
Fixpoint cut_at_hyphen (k : nat) (s : string) : option (string * string) :=
  match s with
  | EmptyString => None
  | String c s' =>
      match k with
      | O =>
          if Ascii.eqb c "-" then Some (EmptyString, s')
          else option_map (fun x => (String c (fst x), snd x)) (cut_at_hyphen O s')
      | S k' => option_map (fun x => (String c (fst x), snd x)) (cut_at_hyphen k' s')
      end
  end.

(** The loop that cuts the text of a set at the hyphens that make
    ranges; [k] is where the search for the next hyphen starts. *)
Fixpoint cut_chunks (fuel k : nat) (s : string) : list string :=
  match fuel with
  | O => [s]
  | S fuel' =>
      match cut_at_hyphen k s with
      | Some (chunk, rest) => chunk :: cut_chunks fuel' 2 rest
      | None => [s]
      end
  end.

Fixpoint last_char (s : string) : option ascii :=
  match s with
  | EmptyString => None
  | String c EmptyString => Some c
  | String _ s' => last_char s'
  end.

Definition first_char (s : string) : option ascii :=
  match s with
  | EmptyString => None
  | String c _ => Some c
  end.

(** [s[:-1]] and [s[1:]] *)
Fixpoint drop_last (s : string) : string :=
  match s with
  | EmptyString => EmptyString
  | String c EmptyString => EmptyString
  | String c s' => String c (drop_last s')
  end.

Definition drop_first (s : string) : string :=
  match s with
  | EmptyString => EmptyString
  | String _ s' => s'
  end.

(** When the last chunk cut is empty, the hyphen goes back to the chunk
    before it: [chunks[-1] += '-']. *)
Fixpoint close_chunks (chunks : list string) : list string :=
  match chunks with
  | [] => []
  | [c; EmptyString] => [String.append c "-"]
  | c :: rest => c :: close_chunks rest
  end.

(** Characters are compared by their code. *)
Definition char_ltb (a b : ascii) : bool := (nat_of_ascii a <? nat_of_ascii b)%nat.
Definition char_leb (a b : ascii) : bool := (nat_of_ascii a <=? nat_of_ascii b)%nat.

(** The removal of the empty ranges, from the last chunk to the first:
    a range whose first character is above its last one is dropped with
    both of its ends. *)
Fixpoint merge_empty_ranges (chunks : list string) : list string :=
  match chunks with
  | [] => []
  | c :: rest =>
      match merge_empty_ranges rest with
      | [] => [c]
      | c' :: rest' =>
          match last_char c, first_char c' with
          | Some a, Some b =>
              if char_ltb b a
              then String.append (drop_last c) (drop_first c') :: rest'
              else c :: c' :: rest'
          | _, _ => c :: c' :: rest'
          end
      end
  end.

(** The chunks of the text [stuff] of a set. *)
Definition class_chunks (stuff : string) : list string :=
  if PyStr.contains "-" stuff then
    let k := if PyStr.startswith stuff "!" then 2 else 1 in
    merge_empty_ranges (close_chunks (cut_chunks (String.length stuff) k stuff))
  else [stuff].

(** The token of a set: ['(?!)'] for an empty text, ['.'] for a lone
    ['!'], and otherwise the set, negated if its text starts with
    ['!']. *)
Definition class_token (stuff : string) : token :=
  match class_chunks stuff with
  | [] => Never
  | chunk :: rest =>
      match chunk, rest with
      | EmptyString, [] => Never
      | String "!" EmptyString, [] => AnyChar
      | String "!" chunk', _ => Class true (chunk' :: rest)
      | _, _ => Class false (chunk :: rest)
      end
  end.

(** The first loop of [translate].  [skip] counts the characters of a
    set still to be passed over, its closing bracket included;
    [after_star] tells that the piece added last is a star, so that
    consecutive stars make one. *)
Fixpoint pieces (skip : nat) (after_star : bool) (pat : string) : list token :=
  match pat with
  | EmptyString => []
  | String c rest =>
      match skip with
      | S skip' => pieces skip' after_star rest
      | O =>
          if Ascii.eqb c "*" then
            if after_star then pieces 0 true rest else Star :: pieces 0 true rest
          else if Ascii.eqb c "?" then AnyChar :: pieces 0 false rest
          else if Ascii.eqb c "[" then
            match class_text rest with
            | None => Lit "[" :: pieces 0 false rest
            | Some stuff =>
                class_token stuff :: pieces (S (String.length stuff)) false rest
            end
          else Lit c :: pieces 0 false rest
      end
  end.

(** [fnmatch.translate(pat)], as the pieces of the regular expression. *)
Definition translate (pat : string) : list token := pieces 0 false pat.

Definition in_chunk (c : ascii) (chunk : string) : bool :=
  existsb (Ascii.eqb c) (list_ascii_of_string chunk).

(** [c] lies in a range that two neighbouring chunks make. *)
Fixpoint in_ranges (c : ascii) (chunks : list string) : bool :=
  match chunks with
  | [] => false
  | chunk :: rest =>
      match rest with
      | [] => false
      | next :: _ =>
          match last_char chunk, first_char next with
          | Some a, Some b => (char_leb a c && char_leb c b) || in_ranges c rest
          | _, _ => in_ranges c rest
          end
      end
  end.

Definition in_class (c : ascii) (chunks : list string) : bool :=
  existsb (in_chunk c) chunks || in_ranges c chunks.

(** One character against one piece that is not a star. *)
Definition matches_char (t : token) (c : ascii) : bool :=
  match t with
  | Star => true
  | AnyChar => true
  | Never => false
  | Lit c' => Ascii.eqb c' c
  | Class negated chunks => xorb negated (in_class c chunks)
  end.

(** [re.compile(...).fullmatch(name)] for the pieces of a translated
    pattern: a star stands for any run of characters, every other piece
    for one character. *)
Fixpoint fullmatch (pieces : list token) : string -> bool :=
  match pieces with
  | [] => fun name => match name with EmptyString => true | _ => false end
  | Star :: rest =>
      fix star (name : string) : bool :=
        fullmatch rest name ||
        match name with
        | EmptyString => false
        | String _ name' => star name'
        end
  | t :: rest =>
      fun name =>
        match name with
        | EmptyString => false
        | String c name' => matches_char t c && fullmatch rest name'
        end
  end.

(** Does the shell pattern [pat] match the whole of [name]? *)
Definition fnmatch (pat name : string) : bool := fullmatch (translate pat) name.

End Fnmatch.

(* ===================================================================== *)
(** ** The environment: exceptions, operations, replies, traces           *)
(* ===================================================================== *)

(** Exception classes the tool distinguishes.  [OtherError] is any other
    subclass of [Exception]; [KeyboardInterrupt] is the only one below
    [BaseException] but not below [Exception]. *)
Inductive exn : Type :=
| error_temp          (* ftplib.error_temp *)
| error_perm          (* ftplib.error_perm *)
| ConnectionError
| OtherError
| KeyboardInterrupt.

(** [isinstance(e, Exception)] *)
Definition is_Exception (e : exn) : bool :=
  match e with
  | KeyboardInterrupt => false
  | _ => true
  end.

Inductive Result (A : Type) : Type :=
| Ok (a : A)
| Raise (e : exn).
Arguments Ok {A} a.
Arguments Raise {A} e.

(** Transfer sessions ([ftplib.FTP] objects) are numbered in the order in
    which they are opened. *)
Definition session := nat.

Inductive Op : Type :=
| OpConnect (sid : session)                    (* ftplib.FTP(server, user, password) *)
| OpCwd (sid : session) (path : string)        (* ftp.cwd(path) *)
| OpMkd (sid : session) (path : string)        (* ftp.mkd(path) *)
| OpNlst (sid : session)                       (* ftp.retrlines('NLST', ...) *)
| OpStor (sid : session) (remote_filename : string)  (* ftp.storbinary('STOR ...', f) *)
| OpSize (sid : session) (remote_filename : string)  (* ftp.size(...) *)
| OpDelete (sid : session) (filename : string) (* ftp.delete(...) *)
| OpQuit (sid : session)                       (* ftp.quit() *)
| OpStat (file : string)                       (* Path.stat().st_size *)
| OpOpen (file : string)                       (* open(file, 'rb') *)
| OpGlob (pattern : string)                    (* Path(source_dir).glob(pattern) *)
| OpUnlink (file : string)                     (* Path.unlink() *)
| OpMtime (file : string)                      (* Path.stat().st_mtime *)
| OpExists (path : string)                     (* Path.exists() *)
| OpHash (s : string).                         (* hash(s) *)

(** What the environment answers: an exception, or a normal return with
    the listed names ([NLST]) or the number ([SIZE], [stat], [hash]); a
    reply ignores the fields its operation does not use. *)
Record Reply : Type := mkReply
  { r_exn : option exn;
    r_names : list string;
    r_size : option Z }.

Definition ok_reply : Reply := mkReply None [] None.
Definition names_reply (l : list string) : Reply := mkReply None l None.
Definition size_reply (n : Z) : Reply := mkReply None [] (Some n).
Definition exn_reply (e : exn) : Reply := mkReply (Some e) [] None.

(** The environment decides each reply from the logical time and the
    operation requested. *)
Definition World := nat -> Op -> Reply.

Inductive Event : Type :=
| EvOp (o : Op) (r : Reply)
| EvSleep (seconds : Z)                          (* time.sleep *)
| EvUpload (name : string) (outcome : Result bool).
    (* one call of the Transfer Executor has ended *)

(** The state of a run: the clock and trace, the sessions opened so far,
    the names in the local source directory, and the fields of the
    [FTPBackup] object. *)
Record State : Type := mkState
  { clock : nat;
    trace : list Event;                (* newest first *)
    next_session : session;
    local_dir : list string;
    self_ftp : option session;
    successful_uploads : list string;
    failed_uploads : list string }.

Definition init_state (dir : list string) : State :=
  mkState 0 [] 0 dir None [] [].

Definition log_event (ev : Event) (s : State) : State :=
  mkState (clock s) (ev :: trace s) (next_session s) (local_dir s)
          (self_ftp s) (successful_uploads s) (failed_uploads s).

Definition tick (s : State) : State :=
  mkState (S (clock s)) (trace s) (next_session s) (local_dir s)
          (self_ftp s) (successful_uploads s) (failed_uploads s).

Definition new_session (s : State) : State :=
  mkState (clock s) (trace s) (S (next_session s)) (local_dir s)
          (self_ftp s) (successful_uploads s) (failed_uploads s).

Definition set_local_dir (d : list string) (s : State) : State :=
  mkState (clock s) (trace s) (next_session s) d
          (self_ftp s) (successful_uploads s) (failed_uploads s).

Definition set_self_ftp (f : option session) (s : State) : State :=
  mkState (clock s) (trace s) (next_session s) (local_dir s)
          f (successful_uploads s) (failed_uploads s).

Definition add_successful (b : string) (s : State) : State :=
  mkState (clock s) (trace s) (next_session s) (local_dir s)
          (self_ftp s) (set_add b (successful_uploads s)) (failed_uploads s).

Definition add_failed (b : string) (s : State) : State :=
  mkState (clock s) (trace s) (next_session s) (local_dir s)
          (self_ftp s) (successful_uploads s) (set_add b (failed_uploads s)).

(* ===================================================================== *)
(** ** The monad of methods                                               *)
(* ===================================================================== *)

Definition M (A : Type) : Type := State -> Result A * State.

Definition ret {A} (a : A) : M A := fun s => (Ok a, s).

Definition bind {A B} (m : M A) (f : A -> M B) : M B :=
  fun s =>
    match m s with
    | (Ok a, s') => f a s'
    | (Raise e, s') => (Raise e, s')
    end.

Definition raise {A} (e : exn) : M A := fun s => (Raise e, s).

Definition get_state : M State := fun s => (Ok s, s).

Definition modify (f : State -> State) : M unit := fun s => (Ok tt, f s).

(** [try: body  except <classes>: handler]; [handler e = None] when no
    [except] clause matches [e], which then propagates. *)
Definition try_except {A} (body : M A) (handler : exn -> option (M A)) : M A :=
  fun s =>
    match body s with
    | (Ok a, s') => (Ok a, s')
    | (Raise e, s') =>
        match handler e with
        | Some h => h s'
        | None => (Raise e, s')
        end
    end.

(** [try: body  finally: cleanup] *)
Definition try_finally {A} (body : M A) (cleanup : M unit) : M A :=
  fun s =>
    match body s with
    | (r, s') =>
        match cleanup s' with
        | (Ok _, s'') => (r, s'')
        | (Raise e, s'') => (Raise e, s'')
        end
    end.

Declare Scope monad_scope.
Delimit Scope monad_scope with monad.
Notation "x <- c1 ;; c2" := (bind c1 (fun x => c2))
  (at level 61, c1 at next level, right associativity) : monad_scope.
Notation "c1 ;; c2" := (bind c1 (fun _ => c2))
  (at level 61, right associativity) : monad_scope.
Local Open Scope monad_scope.

(** [except Exception: handler] *)
Definition except_Exception {A} (h : M A) : exn -> option (M A) :=
  fun e => if is_Exception e then Some h else None.

(** [except: handler] (catches everything) *)
Definition except_all {A} (h : M A) : exn -> option (M A) :=
  fun _ => Some h.

(** Ask the environment to perform an operation. *)
Definition perform (w : World) (o : Op) : M Reply :=
  fun s =>
    let r := w (clock s) o in
    let s' := log_event (EvOp o r) (tick s) in
    match r_exn r with
    | Some e => (Raise e, s')
    | None => (Ok r, s')
    end.

Definition sleep (seconds : Z) : M unit := modify (log_event (EvSleep seconds)).

(** Loops with an early [return]: what one iteration tells the loop. *)
Inductive LoopStep (R C : Type) : Type :=
| Return (r : R)
| Continue (c : C).
Arguments Return {R C} r.
Arguments Continue {R C} c.

(** [for x in l: body(x)] without early exit *)
Fixpoint for_each {A} (l : list A) (body : A -> M unit) : M unit :=
  match l with
  | [] => ret tt
  | x :: rest => body x ;; for_each rest body
  end.

(* ===================================================================== *)
(** ** Configuration                                                      *)
(* ===================================================================== *)

(** The options [run] reads.  [remote_parts] is
    [PurePosixPath(remote_dir).parts]. *)
Record Config : Type := mkConfig
  { remote_dir : string;
    remote_parts : list string;
    max_copies : Z;
    ignore_patterns : list string }.

(* ===================================================================== *)
(** ** The methods of [FTPBackup]                                         *)
(* ===================================================================== *)

Section FTPBackup.

Variable w : World.

(** [Path.stat().st_size]; a reply without a number is a failing [stat]. *)
Definition stat (file : string) : M Z :=
  r <- perform w (OpStat file) ;;
  match r_size r with
  | Some n => ret n
  | None => raise OtherError
  end.

(** [Path(source_dir).glob(pattern)]: the names of the source directory
    that [pattern] matches, given as a predicate. *)
Definition glob (pattern : string) (matches : string -> bool) : M (list string) :=
  perform w (OpGlob pattern) ;;
  s <- get_state ;;
  ret (filter matches (local_dir s)).

(** [hash(x)], which the interpreter fixes for the whole run when it
    starts (hash randomisation); an environment that gives no number
    stands for one that gives the same number to every string. *)
Definition str_hash (x : string) : Z :=
  match r_size (w 0 (OpHash x)) with
  | Some n => n
  | None => 0%Z
  end.

(** [for x in s] for a set of strings: the elements come in an order that
    their hashes decide.  The set is kept as the list of its elements as
    they were added, and is iterated in the order of a stable sort of that
    list by hash; as the hashes vary, so does the order, over every
    arrangement of the elements. *)
Definition set_iter (s : list string) : list string :=
  sort_by str_hash Z.ltb s.

(** One [ftplib.FTP(...)] call. *)
Definition connect_once : M session :=
  s <- get_state ;;
  let sid := next_session s in
  perform w (OpConnect sid) ;;
  modify new_session ;;
  ret sid.

(** The loop of [_connect_ftp] from attempt [max_retries - 1 - retries_left]
    on: a failed attempt sleeps [retry_delay = 5] seconds and goes on,
    the last one raises [ConnectionError]. *)
Fixpoint _connect_ftp_from (retries_left : nat) : M session :=
  try_except connect_once
    (except_Exception
       match retries_left with
       | O => raise ConnectionError
       | S n => sleep 5 ;; _connect_ftp_from n
       end).

(** [FTPBackup._connect_ftp], [max_retries = 3] *)
Definition _connect_ftp : M session := _connect_ftp_from 2.

Definition except_error_perm {A} (h : M A) : exn -> option (M A) :=
  fun e => match e with error_perm => Some h | _ => None end.

(** The [for part in parts] loop of [_ensure_remote_directory]; an error
    of [mkd] is logged and raised again. *)
Fixpoint ensure_parts (ftp : session) (parts : list string) (current_path : string)
  : M unit :=
  match parts with
  | [] => ret tt
  | part :: rest =>
      let current_path :=
        if String.eqb current_path "" then part
        else String.append current_path (String.append "/" part) in
      try_except (perform w (OpCwd ftp current_path) ;; ret tt)
        (except_error_perm (perform w (OpMkd ftp current_path) ;; ret tt)) ;;
      ensure_parts ftp rest current_path
  end.

(** [FTPBackup._ensure_remote_directory] *)
Definition _ensure_remote_directory (ftp : session) (remote_path : string)
           (parts : list string) : M unit :=
  try_except (perform w (OpCwd ftp remote_path) ;; ret tt)
    (except_error_perm
       (ensure_parts ftp parts "" ;;
        try_except (perform w (OpCwd ftp remote_path) ;; ret tt)
          (except_all (ret tt)))).

(** The body of the two scanning loops of [_get_multi_volume_archives]. *)
Definition add_archive_file (ignore : list string) (archive_files : dict (list string))
           (name : string) : dict (list string) :=
  if _should_ignore ignore name then archive_files
  else
    match _get_archive_base_name name with
    | Some base_name =>
        if String.eqb base_name "" then archive_files
        else dict_append archive_files base_name name
    | None => archive_files
    end.

(** The grouping and sorting of [_get_multi_volume_archives], given what
    the two patterns matched. *)
Definition group_archive_files (ignore tars vols : list string)
  : dict (list string) :=
  let archive_files := fold_left (add_archive_file ignore) tars [] in
  let archive_files := fold_left (add_archive_file ignore) vols archive_files in
  map (fun e => (fst e, sort_by _get_volume_number Z.ltb (snd e))) archive_files.

(** [FTPBackup._get_multi_volume_archives]: the patterns ['*.tar'] and
    ['*.tar.*'] match the names that end with [.tar], respectively
    contain [.tar.]. *)
Definition _get_multi_volume_archives (ignore : list string)
  : M (dict (list string)) :=
  tars <- glob "*.tar" (fun n => PyStr.endswith n ".tar") ;;
  vols <- glob "*.tar.*" (PyStr.contains ".tar.") ;;
  ret (group_archive_files ignore tars vols).

(** [FTPBackup._check_archive_exists_on_ftp] *)
Definition _check_archive_exists_on_ftp (ftp : session) (base_name remote_dir : string)
  : M (bool * list string) :=
  try_except
    (perform w (OpCwd ftp remote_dir) ;;
     r <- perform w (OpNlst ftp) ;;
     let files := r_names r in
     let existing_files := filter (fun file => PyStr.startswith file base_name) files in
     ret (negb (length existing_files =? 0)%nat, existing_files))
    (except_Exception (ret (false, []))).

(** [FTPBackup._verify_file_integrity] *)
Definition _verify_file_integrity (ftp : session) (local_file remote_filename : string)
  : M bool :=
  try_except
    (local_size <- stat local_file ;;
     r <- perform w (OpSize ftp remote_filename) ;;
     match r_size r with
     | None => ret false
     | Some remote_size =>
         if negb (local_size =? remote_size)%Z then ret false else ret true
     end)
    (except_Exception (ret false)).

(** The [try] block of one attempt of the Transfer Executor. *)
Definition upload_try (ftp : session) (local_file remote_filename remote_dir : string)
  : M bool :=
  perform w (OpCwd ftp remote_dir) ;;
  stat local_file ;;
  perform w (OpOpen local_file) ;;
  perform w (OpStor ftp remote_filename) ;;
  _verify_file_integrity ftp local_file remote_filename.

(** [try: ftp.quit()  except: pass] *)
Definition quit_quietly (ftp : session) : M unit :=
  try_except (perform w (OpQuit ftp) ;; ret tt) (except_all (ret tt)).

(** One iteration of the retry loop: the [try] block and its two
    [except] clauses.  [Continue ftp'] goes to the next attempt with the
    local variable [ftp] bound to [ftp']. *)
Definition upload_attempt (max_retries attempt : nat) (ftp : session)
           (local_file remote_filename remote_dir : string)
  : M (LoopStep bool session) :=
  try_except
    (verified <- upload_try ftp local_file remote_filename remote_dir ;;
     if verified then ret (Return true) else ret (Continue ftp))
    (fun e =>
       match e with
       | error_temp =>
           Some (if (attempt <? max_retries - 1)%nat then
                   sleep (2 ^ Z.of_nat attempt) ;;
                   quit_quietly ftp ;;
                   ftp' <- _connect_ftp ;;
                   ret (Continue ftp')
                 else ret (Return false))
       | KeyboardInterrupt => None
       | _ =>
           Some (if (attempt <? max_retries - 1)%nat then
                   sleep (2 ^ Z.of_nat attempt) ;;
                   ret (Continue ftp)
                 else ret (Return false))
       end).

(** [for attempt in range(max_retries): ...] followed by [return False] *)
Fixpoint upload_loop (max_retries : nat) (attempts : list nat) (ftp : session)
         (local_file remote_filename remote_dir : string) : M bool :=
  match attempts with
  | [] => ret false
  | attempt :: rest =>
      st <- upload_attempt max_retries attempt ftp local_file remote_filename remote_dir ;;
      match st with
      | Return b => ret b
      | Continue ftp' =>
          upload_loop max_retries rest ftp' local_file remote_filename remote_dir
      end
  end.

(** [FTPBackup._upload_file_to_ftp_with_retry]; the end of the call is
    recorded in the trace together with its outcome. *)
Definition _upload_file_to_ftp_with_retry (ftp : session)
           (local_file remote_filename remote_dir : string) (max_retries : nat)
  : M bool :=
  fun s =>
    let (r, s') :=
      upload_loop max_retries (seq 0 max_retries) ftp
                  local_file remote_filename remote_dir s in
    (r, log_event (EvUpload remote_filename r) s').

(** The default of the parameter [max_retries]. *)
Definition default_max_retries : nat := 3.

(** [for volume in archive_set: if <wanted>: if not upload(...): return False] *)
Fixpoint upload_volumes (ftp : session) (volumes : list string)
         (wanted : string -> bool) (remote_dir : string) : M bool :=
  match volumes with
  | [] => ret true
  | volume :: rest =>
      if wanted volume then
        uploaded <- _upload_file_to_ftp_with_retry ftp volume volume remote_dir
                      default_max_retries ;;
        if uploaded then upload_volumes ftp rest wanted remote_dir
        else ret false
      else upload_volumes ftp rest wanted remote_dir
  end.

(** [FTPBackup._process_archive_set] *)
Definition _process_archive_set (ftp : session) (base_name : string)
           (archive_set : list string) (remote_dir : string) : M bool :=
  try_except
    (found <- _check_archive_exists_on_ftp ftp base_name remote_dir ;;
     let (exists_, existing_files) := found in
     if exists_ then
       if (length existing_files =? length archive_set)%nat then ret true
       else
         (* missing = local_filenames - set(existing_files) *)
         let missing := filter (fun f => negb (str_in f existing_files)) archive_set in
         match missing with
         | [] => ret true
         | _ :: _ =>
             upload_volumes ftp archive_set (fun v => str_in v missing) remote_dir
         end
     else upload_volumes ftp archive_set (fun _ => true) remote_dir)
    (except_Exception (ret false)).

(** The grouping loop of [_cleanup_old_ftp_backups]. *)
Definition group_remote_file (successful : list string)
           (archive_sets : dict (list string)) (filename : string)
  : dict (list string) :=
  match _get_archive_base_name filename with
  | Some base_name =>
      if negb (String.eqb base_name "") && str_in base_name successful
      then dict_append archive_sets base_name filename
      else archive_sets
  | None => archive_sets
  end.

(** A set with its timestamp: [(timestamp, base_name, file_list)]. *)
Definition StampedSet : Type := datetime * string * list string.
Definition ss_timestamp (x : StampedSet) : datetime := fst (fst x).
Definition ss_base_name (x : StampedSet) : string := snd (fst x).
Definition ss_files (x : StampedSet) : list string := snd x.

(** The timestamp loop of [_cleanup_old_ftp_backups]. *)
Definition stamp_remote_sets (archive_sets : dict (list string)) : list StampedSet :=
  flat_map
    (fun e =>
       match _get_archive_timestamp (fst e) with
       | Some timestamp =>
           [(timestamp, fst e, sort_by _get_volume_number Z.ltb (snd e))]
       | None => []
       end)
    archive_sets.

(** The sets [_cleanup_old_ftp_backups] decides to remove, given the
    listing. *)
Definition ftp_sets_to_remove (successful files : list string) (max_copies : Z)
  : list StampedSet :=
  let archive_sets := fold_left (group_remote_file successful) files [] in
  let archive_timestamps :=
    sort_by ss_timestamp datetime_ltb (stamp_remote_sets archive_sets) in
  if (Z.of_nat (length archive_timestamps) >? max_copies)%Z
  then slice_to (- max_copies) archive_timestamps
  else [].

(** [try: ftp.delete(filename)  except Exception: log] *)
Definition delete_quietly (ftp : session) (filename : string) : M unit :=
  try_except (perform w (OpDelete ftp filename) ;; ret tt) (except_Exception (ret tt)).

(** [FTPBackup._cleanup_old_ftp_backups] *)
Definition _cleanup_old_ftp_backups (ftp : session) (remote_dir : string)
           (max_copies : Z) : M unit :=
  try_except
    (perform w (OpCwd ftp remote_dir) ;;
     r <- perform w (OpNlst ftp) ;;
     s <- get_state ;;
     let to_remove := ftp_sets_to_remove (successful_uploads s) (r_names r) max_copies in
     for_each to_remove (fun x => for_each (ss_files x) (delete_quietly ftp)))
    (except_Exception (ret tt)).

(** [list(Path(source_dir).glob(pattern))] for a pattern made of a base
    name and a star.  [pathlib] reads the characters [*], [?] and [[] of
    the base name as pattern syntax: it refuses, with a [ValueError], a
    pattern that holds [**] without being [**]; the pattern [**] selects
    the directory itself, written ["."] here (and its subdirectories, of
    which a flat directory has none); any other pattern selects the
    entries whose names [fnmatch] matches in full. *)
Definition glob_pattern (pattern : string) : M (list string) :=
  if String.eqb pattern "**" then
    perform w (OpGlob pattern) ;; ret ["."]
  else if PyStr.contains "**" pattern then raise OtherError
  else glob pattern (Fnmatch.fnmatch pattern).

(** The first loop of [_cleanup_local_archives], over the base names in
    the order in which the set [successful_uploads] yields them. *)
Fixpoint find_successful_sets (bases : list string)
         (successful_sets : dict (list string)) : M (dict (list string)) :=
  match bases with
  | [] => ret successful_sets
  | base_name :: rest =>
      files <- glob_pattern (String.append base_name "*") ;;
      find_successful_sets rest
        match files with
        | [] => successful_sets
        | _ :: _ => dict_set successful_sets base_name files
        end
  end.

(** The timestamp loop of [_cleanup_local_archives]. *)
Definition stamp_local_sets (successful_sets : dict (list string)) : list StampedSet :=
  flat_map
    (fun e =>
       match _get_archive_timestamp (fst e) with
       | Some timestamp => [(timestamp, fst e, snd e)]
       | None => []
       end)
    successful_sets.

Definition remove_name (f : string) (dir : list string) : list string :=
  filter (fun n => negb (String.eqb n f)) dir.

(** The body of the innermost loop of [_cleanup_local_archives]. *)
Definition unlink_quietly (file_path : string) : M unit :=
  try_except
    (s <- get_state ;;
     if str_in file_path (local_dir s) then
       stat file_path ;;
       perform w (OpUnlink file_path) ;;
       modify (fun s' => set_local_dir (remove_name file_path (local_dir s')) s')
     else ret tt)
    (except_Exception (ret tt)).

(** [FTPBackup._cleanup_local_archives] *)
Definition _cleanup_local_archives : M unit :=
  try_except
    (s <- get_state ;;
     successful_sets <- find_successful_sets (set_iter (successful_uploads s)) [] ;;
     if (length successful_sets <=? 1)%nat then ret tt
     else
       let sets_with_timestamp := stamp_local_sets successful_sets in
       match sets_with_timestamp with
       | [] => ret tt
       | _ :: _ =>
           let sorted := sort_by ss_timestamp datetime_ltb sets_with_timestamp in
           let to_remove := slice_to (-1) sorted in
           for_each to_remove (fun x => for_each (ss_files x) unlink_quietly)
       end)
    (except_Exception (ret tt)).

(** The body of the [for base_name, file_list in archive_sets.items()]
    loop of [run].  [self.ftp] is assigned once, before the loop, so [ftp]
    is the session every iteration reads from it. *)
Definition process_one (ftp : session) (remote_dir : string)
           (e : string * list string) : M unit :=
  let (base_name, file_list) := e in
  try_except
    (success <- _process_archive_set ftp base_name file_list remote_dir ;;
     if success then modify (add_successful base_name)
     else modify (add_failed base_name))
    (except_Exception (modify (add_failed base_name))).

(** [run] up to the discovery of the local archive sets. *)
Definition run_setup (cfg : Config) : M (session * dict (list string)) :=
  ftp <- _connect_ftp ;;
  modify (set_self_ftp (Some ftp)) ;;
  _ensure_remote_directory ftp (remote_dir cfg) (remote_parts cfg) ;;
  archive_sets <- _get_multi_volume_archives (ignore_patterns cfg) ;;
  ret (ftp, archive_sets).

(** [run] from the loop over the sets to the return code. *)
Definition run_sets (cfg : Config) (ftp : session)
           (archive_sets : dict (list string)) : M (option Z) :=
  for_each archive_sets (process_one ftp (remote_dir cfg)) ;;
  s <- get_state ;;
  match successful_uploads s with
  | [] => ret tt
  | _ :: _ =>
      _cleanup_old_ftp_backups ftp (remote_dir cfg) (max_copies cfg) ;;
      _cleanup_local_archives
  end ;;
  s' <- get_state ;;
  match failed_uploads s' with
  | [] => ret (Some 0%Z)
  | _ :: _ => ret (Some 1%Z)
  end.

(** The [try] block of [run].  [None] is the plain [return] taken when
    no archive is found. *)
Definition run_try (cfg : Config) : M (option Z) :=
  found <- run_setup cfg ;;
  match snd found with
  | [] => ret None
  | _ :: _ => run_sets cfg (fst found) (snd found)
  end.

(** The [finally] block of [run] from [if self.ftp:] on.  What comes
    before it in the block, the check of the size of the log file and the
    call of [RotatingLogHandler.archive_current_log], is the rotation of
    the log, which the specification sets apart from the engine as an
    external collaborator; it is not modelled as a part of [run], whose
    properties below are those of a run in which that step returns.  Were
    it to raise, the exception would leave [run] before the [quit]. *)
Definition run_finally : M unit :=
  s <- get_state ;;
  match self_ftp s with
  | Some ftp => quit_quietly ftp
  | None => ret tt
  end.

(** [FTPBackup.run] *)
Definition run (cfg : Config) : M (option Z) :=
  try_finally
    (try_except (run_try cfg) (except_Exception (ret (Some 2%Z))))
    run_finally.

(** [main]: the exit status of the process.  [ctor] is the outcome of
    the constructor [FTPBackup()], which loads the configuration;
    [sys.exit(None)] exits with status 0. *)
Definition main (ctor : Result Config) (dir : list string) : Z * State :=
  match ctor with
  | Raise KeyboardInterrupt => (130%Z, init_state dir)
  | Raise _ => (2%Z, init_state dir)
  | Ok cfg =>
      match run cfg (init_state dir) with
      | (Ok None, s) => (0%Z, s)
      | (Ok (Some return_code), s) => (return_code, s)
      | (Raise KeyboardInterrupt, s) => (130%Z, s)
      | (Raise _, s) => (2%Z, s)
      end
  end.

End FTPBackup.

(* ===================================================================== *)
(** ** Observations on traces                                             *)
(* ===================================================================== *)

(** Traces are kept newest first; observations are read in the order in
    which things happened. *)
Definition observe {B} (f : Event -> list B) (tr : list Event) : list B :=
  flat_map f (rev tr).

(** The calls of the Transfer Executor that ended, with their outcomes. *)
Definition upload_results : list Event -> list (string * Result bool) :=
  observe (fun ev => match ev with EvUpload n r => [(n, r)] | _ => [] end).

(** The remote names for which a [STOR] was issued. *)
Definition stor_attempts : list Event -> list string :=
  observe (fun ev => match ev with EvOp (OpStor _ n) _ => [n] | _ => [] end).

(** The durations slept. *)
Definition sleeps : list Event -> list Z :=
  observe (fun ev => match ev with EvSleep z => [z] | _ => [] end).

(** The remote names whose deletion was attempted. *)
Definition delete_attempts : list Event -> list string :=
  observe (fun ev => match ev with EvOp (OpDelete _ n) _ => [n] | _ => [] end).

(** The local names whose [unlink] was attempted. *)
Definition unlink_attempts : list Event -> list string :=
  observe (fun ev => match ev with EvOp (OpUnlink n) _ => [n] | _ => [] end).

(** The session an operation runs on. *)
Definition op_session (o : Op) : option session :=
  match o with
  | OpConnect sid | OpCwd sid _ | OpMkd sid _ | OpNlst sid | OpStor sid _
  | OpSize sid _ | OpDelete sid _ | OpQuit sid => Some sid
  | OpStat _ | OpOpen _ | OpGlob _ | OpUnlink _
  | OpMtime _ | OpExists _ | OpHash _ => None
  end.

(** The sessions of the remote operations, in order. *)
Definition sessions_used : list Event -> list session :=
  observe (fun ev =>
             match ev with
             | EvOp o _ => match op_session o with Some sid => [sid] | None => [] end
             | _ => []
             end).

Definition is_delete (ev : Event) : bool :=
  match ev with
  | EvOp (OpDelete _ _) _ => true
  | _ => false
  end.

(** A successful [STOR] to [remote] immediately followed by the size check
    of [_verify_file_integrity] finding the size of the local file [local]
    and the remote size equal. *)
Definition stored_and_verified (tr : list Event) (local remote : string) : Prop :=
  exists sid r_stor r_stat r_sz n newer older,
    tr = newer ++ EvOp (OpSize sid remote) r_sz :: EvOp (OpStat local) r_stat
               :: EvOp (OpStor sid remote) r_stor :: older /\
    r_exn r_stor = None /\
    r_exn r_stat = None /\ r_size r_stat = Some n /\
    r_exn r_sz = None /\ r_size r_sz = Some n.

(** [name] was in a remote listing obtained without error. *)
Definition listed (tr : list Event) (name : string) : Prop :=
  exists sid r, In (EvOp (OpNlst sid) r) tr /\ r_exn r = None /\ In name (r_names r).

(** The result of a computation and the state it leaves. *)
Definition result_of {A} (m : M A) (s : State) : Result A := fst (m s).
Definition state_after {A} (m : M A) (s : State) : State := snd (m s).

(* ===================================================================== *)
(** ** Specifications of computations                                     *)
(* ===================================================================== *)

(** [s'] is reached from [s] by logging events that satisfy [P], with the
    two outcome accumulators untouched. *)
Definition extends (P : Event -> Prop) (s s' : State) : Prop :=
  (exists d, trace s' = d ++ trace s /\ Forall P d) /\
  successful_uploads s' = successful_uploads s /\
  failed_uploads s' = failed_uploads s.

(** Whatever the start state, [m] only extends it in that way. *)
Definition framed {A} (P : Event -> Prop) (m : M A) : Prop :=
  forall s, extends P s (state_after m s).

(** Whatever the start state, an exception leaving [m] satisfies [E]. *)
Definition raises_only {A} (E : exn -> Prop) (m : M A) : Prop :=
  forall s, match result_of m s with
            | Ok _ => True
            | Raise e => E e
            end.

Definition interrupt_only (e : exn) : Prop := e = KeyboardInterrupt.

(** What can leave the Transfer Executor and the reconnection. *)
Definition interrupt_or_connection (e : exn) : Prop :=
  e = KeyboardInterrupt \/ e = ConnectionError.

Definition never (e : exn) : Prop := False.

(* ===================================================================== *)
(** ** Vocabulary of the claims                                           *)
(* ===================================================================== *)

(** The Transfer Executor was called for the volumes [wanted], in this
    order, each call returning [True], until the first call that did
    not; [fail] tells how the caller ends after that call. *)
Definition uploads_in_order (fail : Result bool -> Result bool)
           (wanted : list string) (results : list (string * Result bool))
           (r : Result bool) : Prop :=
  exists done rest,
    wanted = done ++ rest /\
    ((rest = [] /\
      results = map (fun v => (v, Ok true)) done /\
      r = Ok true)
     \/
     (exists v rest' out,
         rest = v :: rest' /\ out <> Ok true /\
         results = map (fun v => (v, Ok true)) done ++ [(v, out)] /\
         r = fail out)).

(** How [upload_volumes] ends after a call that did not return [True]. *)
Definition volumes_fail (out : Result bool) : Result bool :=
  match out with
  | Ok _ => Ok false
  | Raise e => Raise e
  end.

(** How [_process_archive_set] ends after such a call: the set fails,
    unless the run is being interrupted. *)
Definition set_fail (out : Result bool) : Result bool :=
  match out with
  | Raise KeyboardInterrupt => Raise KeyboardInterrupt
  | _ => Ok false
  end.

(** Ascending volume numbers. *)
Definition volume_le (a b : string) : Prop :=
  (_get_volume_number a <= _get_volume_number b)%Z.

(** The skip test of the Reconciler passed on some listing: as many
    remote names carry the prefix [base_name] as there are local volumes,
    and at least one. *)
Definition count_matched (tr : list Event) (base_name : string)
           (archive_set : list string) : Prop :=
  exists sid r,
    In (EvOp (OpNlst sid) r) tr /\ r_exn r = None /\
    let existing := filter (fun f => PyStr.startswith f base_name) (r_names r) in
    existing <> [] /\ length existing = length archive_set.

(** Every volume was seen in a listing or uploaded and size-verified. *)
Definition all_confirmed (tr : list Event) (archive_set : list string) : Prop :=
  forall v, In v archive_set -> listed tr v \/ stored_and_verified tr v v.

(** The local archive sets a run works on: what
    [_get_multi_volume_archives] finds in the source directory [dir]. *)
Definition local_sets (ignore dir : list string) : dict (list string) :=
  group_archive_files ignore
    (filter (fun n => PyStr.endswith n ".tar") dir)
    (filter (PyStr.contains ".tar.") dir).

(** Events other than the end of an Executor call. *)
Definition not_upload_event (ev : Event) : Prop :=
  match ev with
  | EvUpload _ _ => False
  | _ => True
  end.

(** The volumes [_process_archive_set] asks the Executor to upload, given
    the outcome of the existence check. *)
Definition volumes_to_upload (exists_ : bool) (existing_files archive_set : list string)
  : list string :=
  if exists_ then
    if (length existing_files =? length archive_set)%nat then []
    else filter (fun f => negb (str_in f existing_files)) archive_set
  else archive_set.

(** *** Grouping by key, the shape shared by the two grouping loops *)

(** [d.get(k)] *)
Fixpoint dict_get {V} (d : dict V) (k : string) : option V :=
  match d with
  | [] => None
  | (k', v) :: d' => if String.eqb k' k then Some v else dict_get d' k
  end.

(** One round of a grouping loop whose key is [kf]. *)
Definition group_step (kf : string -> option string)
           (d : dict (list string)) (f : string) : dict (list string) :=
  match kf f with
  | Some k => dict_append d k f
  | None => d
  end.

Definition has_key (kf : string -> option string) (k f : string) : bool :=
  match kf f with
  | Some k' => String.eqb k' k
  | None => false
  end.

Definition nonempty {A} (l : list A) : option (list A) :=
  match l with
  | [] => None
  | _ :: _ => Some l
  end.

(** The set a local file is filed under by [_get_multi_volume_archives]. *)
Definition locator_key (ignore : list string) (f : string) : option string :=
  if _should_ignore ignore f then None
  else
    match _get_archive_base_name f with
    | Some b => if String.eqb b "" then None else Some b
    | None => None
    end.

(** The set a remote file is filed under by [_cleanup_old_ftp_backups]. *)
Definition remote_key (successful : list string) (f : string) : option string :=
  match _get_archive_base_name f with
  | Some b => if negb (String.eqb b "") && str_in b successful then Some b else None
  | None => None
  end.

(** [x] is not after [y] in the order of a sort by [key]. *)
Definition key_le {A K} (key : A -> K) (ltb : K -> K -> bool) (x y : A) : Prop :=
  ltb (key y) (key x) = false.

(** The dictionary of a grouping loop after the files [p] have been
    processed: one entry per key that occurred, holding the files with that
    key in the order of [p]. *)
Definition grouped (kf : string -> option string) (p : list string)
           (d : dict (list string)) : Prop :=
  NoDup (map fst d) /\
  forall k, dict_get d k = nonempty (filter (has_key kf k) p).

(* ===================================================================== *)
(** ** Scenarios                                                          *)
(* ===================================================================== *)

Module Scenario.

Definition cfg : Config := mkConfig "/backup" ["/"; "backup"] 5 [].

(** *** Repair: volumes 0, 1, 2 locally, volumes 0 and 1 remotely *)

Definition vol0 : string := "site_20260127_020401_full_6mq5.tar".
Definition vol1 : string := "site_20260127_020401_full_6mq5.tar.1".
Definition vol2 : string := "site_20260127_020401_full_6mq5.tar.2".

Definition repair_dir : list string := [vol2; vol0; vol1].

(** Every operation succeeds; the listing shows volumes 0 and 1; sizes
    agree. *)
Definition repair_world : World :=
  fun _ o =>
    match o with
    | OpNlst _ => names_reply [vol0; vol1]
    | OpStat _ => size_reply 1024
    | OpSize _ _ => size_reply 1024
    | _ => ok_reply
    end.

(** *** A matching count while a volume is missing remotely *)

Definition skip_v0 : string := "db_20260301_010000_full.tar".
Definition skip_v1 : string := "db_20260301_010000_full.tar.1".
Definition skip_dir : list string := [skip_v0; skip_v1].

(** The remote directory holds volume 0 and the remains of an
    interrupted transfer of volume 1 under another name. *)
Definition skip_world : World :=
  fun _ o =>
    match o with
    | OpNlst _ => names_reply [skip_v0; "db_20260301_010000_full.tar.1.filepart"]
    | OpStat _ => size_reply 1024
    | OpSize _ _ => size_reply 1024
    | _ => ok_reply
    end.

(** *** Two transient failures, then success *)

Definition flaky_file : string := "site_20260127_020401_full_6mq5.tar".

(** [STOR] answers with a transient error on the first two sessions. *)
Definition flaky_world : World :=
  fun _ o =>
    match o with
    | OpStor sid _ => if (sid <? 2)%nat then exn_reply error_temp else ok_reply
    | OpStat _ => size_reply 2048
    | OpSize _ _ => size_reply 2048
    | _ => ok_reply
    end.

(** A state in which session 0 is open, as [run] has it before it turns
    to the sets. *)
Definition connected_state : State :=
  mkState 1 [EvOp (OpConnect 0) ok_reply] 1 [flaky_file] (Some 0) [] [].

(** *** The server goes away *)

(** [STOR] is answered by a transient error and no new connection can
    be opened. *)
Definition unreachable_world : World :=
  fun _ o =>
    match o with
    | OpStor _ _ => exn_reply error_temp
    | OpConnect _ => exn_reply OtherError
    | OpStat _ => size_reply 2048
    | OpSize _ _ => size_reply 2048
    | _ => ok_reply
    end.

(** *** The transfer is interrupted *)

(** The operator interrupts the process while the file is being stored. *)
Definition interrupted_world : World :=
  fun _ o =>
    match o with
    | OpStor _ _ => exn_reply KeyboardInterrupt
    | OpStat _ => size_reply 2048
    | OpSize _ _ => size_reply 2048
    | _ => ok_reply
    end.

(** The first [STOR] is answered by a transient error, and the operator
    interrupts the [quit] that follows it. *)
Definition interrupted_quit_world : World :=
  fun _ o =>
    match o with
    | OpStor sid _ => if (sid <? 1)%nat then exn_reply error_temp else ok_reply
    | OpQuit _ => exn_reply KeyboardInterrupt
    | OpStat _ => size_reply 2048
    | OpSize _ _ => size_reply 2048
    | _ => ok_reply
    end.

(** *** The listing fails *)

(** [NLST] is refused; everything else succeeds. *)
Definition listing_error_world : World :=
  fun _ o =>
    match o with
    | OpNlst _ => exn_reply error_perm
    | OpStat _ => size_reply 2048
    | OpSize _ _ => size_reply 2048
    | _ => ok_reply
    end.

(** *** A transient error in the middle of a set *)

Definition rc_v0 : string := "shop_20260210_030000_full_a1b2.tar".
Definition rc_v1 : string := "shop_20260210_030000_full_a1b2.tar.1".
Definition rc_dir : list string := [rc_v0; rc_v1].

(** The remote directory is empty.  The first [STOR] on session 0 is
    answered by a transient error; the Executor quits session 0 at time 10,
    and from then on every command sent on session 0 fails, as commands on
    a closed connection do.  Other sessions work. *)
Definition reconnect_world : World :=
  fun t o =>
    match op_session o with
    | Some 0 =>
        if (10 <? t)%nat then exn_reply OtherError
        else
          match o with
          | OpStor _ _ => exn_reply error_temp
          | _ => ok_reply
          end
    | _ =>
        match o with
        | OpStat _ => size_reply 4096
        | OpSize _ _ => size_reply 4096
        | _ => ok_reply
        end
    end.

(** *** A failed set whose name starts with the name of an uploaded set *)

Definition old_set : string := "db_20260101_000000_full.tar".
Definition failed_set : string := "db_20260101_000000_full.tar_old.tar".
Definition new_set : string := "db_20260102_000000_full.tar".
Definition prune_dir : list string := [old_set; failed_set; new_set].

(** The remote directory already holds [old_set] and [new_set]; the
    server refuses the [STOR] of [failed_set]. *)
Definition prune_world : World :=
  fun _ o =>
    match o with
    | OpNlst _ => names_reply [old_set; new_set]
    | OpStor _ f => if String.eqb f failed_set then exn_reply error_perm else ok_reply
    | OpStat _ => size_reply 10
    | OpSize _ _ => size_reply 10
    | _ => ok_reply
    end.

(** *** Six uploaded sets, one set without a timestamp, five copies to keep *)

Definition t1_v0 : string := "db_20260101_000000_full.tar".
Definition t1_v1 : string := "db_20260101_000000_full.tar.1".
Definition t2 : string := "db_20260102_000000_full.tar".
Definition t3 : string := "db_20260103_000000_full.tar".
Definition t4 : string := "db_20260104_000000_full.tar".
Definition t5 : string := "db_20260105_000000_full.tar".
Definition t6 : string := "db_20260106_000000_full.tar".
Definition undated : string := "notes_full.tar".

Definition retention_dir : list string :=
  [t4; t1_v1; undated; t6; t2; t1_v0; t5; t3].

(** The remote directory holds every local volume. *)
Definition retention_world : World :=
  fun _ o =>
    match o with
    | OpNlst _ => names_reply [t6; t1_v1; t3; undated; t1_v0; t2; t5; t4]
    | OpStat _ => size_reply 10
    | OpSize _ _ => size_reply 10
    | _ => ok_reply
    end.

(** The state in which [run] turns to the remote prune when every set
    was found complete on the server. *)
Definition retention_state : State :=
  mkState 1 [EvOp (OpConnect 0) ok_reply] 1 retention_dir (Some 0)
          [t4; undated; t6; t2; t1_v0; t5; t3] [].

(** *** No copy to keep *)

Definition keep_none_cfg : Config := mkConfig "/backup" ["/"; "backup"] 0 [].

(** The remote directory holds the one local set. *)
Definition keep_none_world : World :=
  fun _ o =>
    match o with
    | OpNlst _ => names_reply [old_set]
    | OpStat _ => size_reply 10
    | OpSize _ _ => size_reply 10
    | _ => ok_reply
    end.

(** Session 0 is open and [old_set] was recorded as uploaded, as [run]
    has it when it turns to the remote prune. *)
Definition keep_none_state : State :=
  mkState 1 [EvOp (OpConnect 0) ok_reply] 1 [old_set] (Some 0) [old_set] [].

End Scenario.

(** [m] leaves the local directory as it is. *)
Definition keeps_dir {A} (m : M A) : Prop :=
  forall s, local_dir (state_after m s) = local_dir s.

(** [s'] is reached from [s] by logging events that satisfy [P]. *)
Definition trace_extends (P : Event -> Prop) (s s' : State) : Prop :=
  exists d, trace s' = d ++ trace s /\ Forall P d.

Definition not_delete_event (ev : Event) : Prop := is_delete ev = false.

Definition any_event (ev : Event) : Prop := True.

(** The invariant as the specification words it, for one run: a set
    recorded as uploaded has every local volume listed remotely or stored
    and size-verified during the run. *)
Definition uploaded_means_confirmed (w : World) (cfg : Config) (dir : list string)
  : Prop :=
  let s := state_after (run w cfg) (init_state dir) in
  forall b archive_set,
    In b (successful_uploads s) ->
    In (b, archive_set) (local_sets (ignore_patterns cfg) dir) ->
    all_confirmed (trace s) archive_set.

(** Events of the reconnection: connection attempts and the pauses of
    [retry_delay = 5] seconds between them. *)
Definition connect_event (ev : Event) : Prop :=
  match ev with
  | EvOp (OpConnect _) _ => True
  | EvSleep z => z = 5%Z
  | _ => False
  end.

Definition not_stor_event (ev : Event) : Prop :=
  match ev with
  | EvOp (OpStor _ _) _ => False
  | _ => True
  end.

(** [m] issues at most [n] [STOR] commands. *)
Definition stores_at_most (n : nat) {A} (m : M A) : Prop :=
  forall s, exists d,
      trace (state_after m s) = d ++ trace s /\ length (stor_attempts d) <= n.

(** An exception that leaves [m] comes with the operation that caused it:
    the newest event of the trace is an operation performed by [m], its
    reply is the one of the world, and [C] relates them to the exception. *)
Definition raises_from (w : World) (C : Op -> Reply -> exn -> Prop) {A} (m : M A)
  : Prop :=
  forall s,
    match result_of m s with
    | Ok _ => True
    | Raise e =>
        exists o t d,
          trace (state_after m s) = EvOp o (w t o) :: d ++ trace s /\
          C o (w t o) e
    end.

(** An operation other than [ftp.quit()]. *)
Definition not_quit (o : Op) : Prop := forall sid, o <> OpQuit sid.

(** An operation other than [quit] raised [e] itself, or the model turned
    its reply without a size into a failing [stat]. *)
Definition replied (o : Op) (r : Reply) (e : exn) : Prop :=
  (r_exn r = Some e \/ e = OtherError) /\ not_quit o.

(** What can leave the Transfer Executor: the interrupt of an operation
    other than [quit], or the [ConnectionError] that [_connect_ftp] raises
    after its last failed connection attempt. *)
Definition executor_cause (o : Op) (r : Reply) (e : exn) : Prop :=
  (e = KeyboardInterrupt /\ r_exn r = Some KeyboardInterrupt /\ not_quit o) \/
  (e = ConnectionError /\ (exists sid, o = OpConnect sid) /\
   exists e', r_exn r = Some e' /\ is_Exception e' = true).

(** An event that is not an interrupted operation, the [quit] of a session
    apart: its interrupt is caught by a bare [except:]. *)
Definition uninterrupted (ev : Event) : Prop :=
  match ev with
  | EvOp o r => r_exn r = Some KeyboardInterrupt -> exists sid, o = OpQuit sid
  | _ => True
  end.

(** [m] does not go on after the interrupt of an operation other than
    [quit]: unless [m] ends with a [KeyboardInterrupt], no event it logs
    is such an interrupt. *)
Definition interrupt_leaves {A} (m : M A) : Prop :=
  forall s, exists d,
      trace (state_after m s) = d ++ trace s /\
      (result_of m s <> Raise KeyboardInterrupt -> Forall uninterrupted d).

(** The boundary as the specification words it: the Executor returns a
    boolean whatever happens. *)
Definition executor_never_raises : Prop :=
  forall (w : World) (ftp : session) (local_file remote_filename remote_dir : string)
         (s : State),
  exists b,
    result_of (_upload_file_to_ftp_with_retry w ftp local_file remote_filename
                                              remote_dir default_max_retries) s
    = Ok b.

(** [listed], decided. *)
Definition listed_b (tr : list Event) (name : string) : bool :=
  existsb
    (fun ev =>
       match ev with
       | EvOp (OpNlst _) r =>
           match r_exn r with
           | None => str_in name (r_names r)
           | Some _ => false
           end
       | _ => false
       end)
    tr.

(* ===================================================================== *)
(** ** The remote prune in the words of the specification                 *)
(* ===================================================================== *)

Definition base_is (b f : string) : bool :=
  match _get_archive_base_name f with
  | Some b' => String.eqb b' b
  | None => false
  end.

(** The base names that occur in a listing. *)
Definition listed_base_names (files : list string) : list string :=
  nodup string_dec
        (flat_map (fun f => match _get_archive_base_name f with
                            | Some b => [b]
                            | None => []
                            end) files).

(** "Group remote filenames into sets by the same base_name rule." *)
Definition spec_remote_sets (files : list string) : list (string * list string) :=
  map (fun b => (b, filter (base_is b) files)) (listed_base_names files).

(** A set with its timestamp, when it has one. *)
Definition stamp (e : string * list string) : list StampedSet :=
  match _get_archive_timestamp (fst e) with
  | Some timestamp => [(timestamp, fst e, snd e)]
  | None => []
  end.

(** "Restrict to sets whose base_name is in this run's successful set,
    parse each set's timestamp." *)
Definition spec_candidates (successful files : list string) : list StampedSet :=
  flat_map stamp
           (filter (fun e => str_in (fst e) successful) (spec_remote_sets files)).

Definition timestamp_le (x y : StampedSet) : Prop :=
  datetime_ltb (ss_timestamp y) (ss_timestamp x) = false.

(** "Sort ascending by timestamp, and delete every file belonging to all
    but the newest max_copies sets": [deleted] holds, in some order, the
    files of all sets but the last [max_copies] of an ascending
    arrangement of the candidates. *)
Definition spec_remote_prune (successful files : list string) (max_copies : Z)
           (deleted : list string) : Prop :=
  exists sorted,
    Permutation sorted (spec_candidates successful files) /\
    StronglySorted timestamp_le sorted /\
    Permutation deleted
      (concat (map ss_files
                   (firstn (Z.to_nat (Z.of_nat (length sorted) - max_copies)) sorted))).

(** Sorting the files of a stamped set by volume number. *)
Definition sort_files (x : StampedSet) : StampedSet :=
  (ss_timestamp x, ss_base_name x, sort_by _get_volume_number Z.ltb (ss_files x)).

(** The remote prune as the specification words it, for one call of
    [_cleanup_old_ftp_backups] that lists the directory and returns: the
    deletions attempted are those of [spec_remote_prune] for the listing. *)
Definition remote_prune_as_specified : Prop :=
  forall (w : World) (ftp : session) (rd : string) (k : Z) (s : State),
    let m := _cleanup_old_ftp_backups w ftp rd k in
    let listing := w (S (clock s)) (OpNlst ftp) in
    r_exn (w (clock s) (OpCwd ftp rd)) = None ->
    r_exn listing = None ->
    result_of m s = Ok tt ->
    exists deleted,
      delete_attempts (trace (state_after m s)) = delete_attempts (trace s) ++ deleted /\
      spec_remote_prune (successful_uploads s) (r_names listing) k deleted.

(** A member of a stamped set: a listed file of an uploaded set whose
    name carries a timestamp. *)
Definition prunable (successful files : list string) (f : string) : Prop :=
  In f files /\
  exists b t, _get_archive_base_name f = Some b /\
              In b successful /\ _get_archive_timestamp b = Some t.

(* ===================================================================== *)
(** ** Writing timestamps                                                 *)
(* ===================================================================== *)

(** The character of a decimal digit. *)
Definition digit_char (n : Z) : ascii := ascii_of_nat (48 + Z.to_nat n).

(** Two and four decimal digits, zero padded. *)
Definition pad2 (n : Z) : string :=
  String (digit_char (n / 10)) (String (digit_char (n mod 10)) EmptyString).

Definition pad4 (n : Z) : string :=
  String (digit_char (n / 1000))
         (String (digit_char (n / 100 mod 10)) (pad2 (n mod 100))).

(** [d.strftime("%Y%m%d_%H%M%S")], the format in which
    [RotatingLogHandler.archive_current_log] writes the time and
    [_get_archive_timestamp] reads it; for years of four digits. *)
Definition strftime (d : datetime) : string :=
  (pad4 (year d) ++ pad2 (month d) ++ pad2 (day d) ++ "_" ++
   pad2 (hour d) ++ pad2 (minute d) ++ pad2 (second d))%string.

(** The dates and times of a [datetime] object with a year of four
    digits. *)
Definition datetime_valid (d : datetime) : bool :=
  ((1000 <=? year d) && (year d <=? 9999) &&
   (1 <=? month d) && (month d <=? 12) &&
   (1 <=? day d) && (day d <=? days_in_month (year d) (month d)) &&
   (0 <=? hour d) && (hour d <=? 23) &&
   (0 <=? minute d) && (minute d <=? 59) &&
   (0 <=? second d) && (second d <=? 59))%Z.

(* ===================================================================== *)
(** ** The ignore file                                                    *)
(* ===================================================================== *)

(** [s.strip()] *)
Definition strip (s : string) : string := PyStr.rstrip (PyStr.lstrip s).

(** The body of the loop of [_load_ignore_patterns] over the lines of
    [.ftpignore]. *)
Definition add_ignore_line (patterns : list string) (line : string) : list string :=
  let line := strip line in
  if negb (String.eqb line "") && negb (PyStr.startswith line "#")
  then set_add line patterns
  else patterns.

(** [FTPBackup._load_ignore_patterns]; the argument is the content of
    [.ftpignore], line by line, [None] when the file does not exist. *)
Definition _load_ignore_patterns (ignore_file : option (list string)) : list string :=
  match ignore_file with
  | None => []
  | Some lines => fold_left add_ignore_line lines []
  end.

(** What one line of the ignore file asks for: its pattern, stripped, is
    neither empty nor a comment, and matches the file name. *)
Definition line_ignores (line filename : string) : bool :=
  let pattern := strip line in
  negb (String.eqb pattern "") && negb (PyStr.startswith pattern "#") &&
  (if PyStr.startswith pattern "*"
   then PyStr.endswith filename (substring 1 (String.length pattern - 1) pattern)
   else PyStr.contains pattern filename).

(* ===================================================================== *)
(** ** Observations on connections and directories                        *)
(* ===================================================================== *)

(** The outcomes of the connection attempts, oldest first: the exception
    of each, if any. *)
Definition connect_attempts : list Event -> list (option exn) :=
  observe (fun ev => match ev with EvOp (OpConnect _) r => [r_exn r] | _ => [] end).

(** An attempt that ended with an error. *)
Definition failed_attempt (o : option exn) : Prop :=
  exists e, o = Some e /\ is_Exception e = true.

(** The paths the loop of [_ensure_remote_directory] walks through:
    [current_path] after each part. *)
Fixpoint cumulative_paths (parts : list string) (current_path : string) : list string :=
  match parts with
  | [] => []
  | part :: rest =>
      let current_path :=
        if String.eqb current_path "" then part
        else String.append current_path (String.append "/" part) in
      current_path :: cumulative_paths rest current_path
  end.

(** The ways of walking down the paths [ps] on session [sid]: the events
    logged, newest first, and how the walk ends.  A directory that can be
    entered is left alone; one whose [CWD] is refused with
    [ftplib.error_perm] is created; any other outcome of a [CWD], and a
    failing [MKD], ends the walk with that exception. *)
Inductive creates (sid : session) : list string -> list Event -> Result unit -> Prop :=
| creates_done : creates sid [] [] (Ok tt)
| creates_enter p ps r d res :
    r_exn r = None -> creates sid ps d res ->
    creates sid (p :: ps) (d ++ [EvOp (OpCwd sid p) r]) res
| creates_probe_fails p ps r e :
    r_exn r = Some e -> e <> error_perm ->
    creates sid (p :: ps) [EvOp (OpCwd sid p) r] (Raise e)
| creates_make p ps r r' d res :
    r_exn r = Some error_perm -> r_exn r' = None -> creates sid ps d res ->
    creates sid (p :: ps) (d ++ [EvOp (OpMkd sid p) r'; EvOp (OpCwd sid p) r]) res
| creates_make_fails p ps r r' e :
    r_exn r = Some error_perm -> r_exn r' = Some e ->
    creates sid (p :: ps) [EvOp (OpMkd sid p) r'; EvOp (OpCwd sid p) r] (Raise e).

(* ===================================================================== *)
(** ** Which files are read and stored                                    *)
(* ===================================================================== *)

(** Events that open a local file or store a remote file only under the
    names [allowed]. *)
Definition transfers_only (allowed : string -> Prop) (ev : Event) : Prop :=
  match ev with
  | EvOp (OpStor _ n) _ => allowed n
  | EvOp (OpOpen f) _ => allowed f
  | _ => True
  end.

(** The local files opened for reading, oldest first. *)
Definition open_attempts : list Event -> list string :=
  observe (fun ev => match ev with EvOp (OpOpen f) _ => [f] | _ => [] end).

(** A non-ignored archive file of the source directory. *)
Definition local_archive_file (ignore dir : list string) (n : string) : Prop :=
  In n dir /\ _should_ignore ignore n = false /\
  exists b, _get_archive_base_name n = Some b.

(* ===================================================================== *)
(** ** Components of the state that a computation leaves alone            *)
(* ===================================================================== *)

(** [m] never changes the component [proj] of the state. *)
Definition keeps {X A : Type} (proj : State -> X) (m : M A) : Prop :=
  forall s, proj (state_after m s) = proj s.

(** [run] from the point where the connection is stored in [self.ftp] to
    the return code. *)
Definition run_after_connect (w : World) (cfg : Config) (ftp : session) : M (option Z) :=
  _ensure_remote_directory w ftp (remote_dir cfg) (remote_parts cfg) ;;
  archive_sets <- _get_multi_volume_archives w (ignore_patterns cfg) ;;
  match archive_sets with
  | [] => ret None
  | _ :: _ => run_sets w cfg ftp archive_sets
  end.

(* ===================================================================== *)
(** ** Vocabulary of the local prune                                      *)
(* ===================================================================== *)

(** The pattern [f"{base_name}*"] of the local prune matches the name. *)
Definition matches_base (base_name n : string) : bool :=
  Fnmatch.fnmatch (base_name ++ "*") n.

(** The pattern of the base name matches some name of the directory. *)
Definition has_local_files (dir : list string) (base_name : string) : bool :=
  existsb (matches_base base_name) dir.

(** A string free of the pattern syntax of [fnmatch]. *)
Definition plain (s : string) : bool :=
  negb (PyStr.contains "*" s) && negb (PyStr.contains "?" s) &&
  negb (PyStr.contains "[" s).

(** Names of directory entries: they hold no ['/']. *)
Definition entry_names (l : list string) : Prop :=
  forall n, In n l -> PyStr.contains "/" n = false.

Definition has_timestamp (base_name : string) : bool :=
  match _get_archive_timestamp base_name with
  | Some _ => true
  | None => false
  end.

(** The uploaded sets the local prune chooses among: those with local
    files and a timestamp. *)
Definition local_candidates (successful dir : list string) : list string :=
  filter (fun b => has_local_files dir b && has_timestamp b) successful.

Definition not_unlink_event (ev : Event) : Prop :=
  match ev with
  | EvOp (OpUnlink _) _ => False
  | _ => True
  end.

(* ===================================================================== *)
(** ** Vocabulary of what a run removes                                   *)
(* ===================================================================== *)

(** The pattern of an uploaded set that has a timestamp matches the
    name. *)
Definition uploaded_match (successful : list string) (f : string) : Prop :=
  exists b, In b successful /\ matches_base b f = true /\
            _get_archive_timestamp b <> None.

(** The remote name belongs, by its base name, to an uploaded set that
    has a timestamp. *)
Definition uploaded_remote (successful : list string) (f : string) : Prop :=
  exists b t, _get_archive_base_name f = Some b /\ In b successful /\
              _get_archive_timestamp b = Some t.

(** The events [d] remove, locally and remotely, only what belongs to the
    uploaded sets, and turn the source directory [dir] into [dir']. *)
Definition prunes_within (successful dir : list string) (d : list Event)
           (dir' : list string) : Prop :=
  (forall f, In f (unlink_attempts d) -> In f dir /\ uploaded_match successful f) /\
  (forall f, In f (delete_attempts d) -> uploaded_remote successful f) /\
  (forall f, In f dir' -> In f dir) /\
  (forall f, In f dir -> ~ uploaded_match successful f -> In f dir').

(** The state in which the run of the scenario of the failed set turns
    to the local prune: two sets recorded as uploaded, one as failed. *)
Definition pruning_state : State :=
  mkState 1 [EvOp (OpConnect 0) ok_reply] 1 Scenario.prune_dir (Some 0)
          [Scenario.old_set; Scenario.new_set] [Scenario.failed_set].

(** Events that remove nothing. *)
Definition quiet_event (ev : Event) : Prop :=
  not_delete_event ev /\ not_unlink_event ev.

(* ===================================================================== *)
(** ** Retention of log files                                             *)
(* ===================================================================== *)

(** A file of the log directory with its modification time.  [st_mtime]
    only enters through comparisons and is taken as an integer. *)
Definition LogFile : Type := (string * Z)%type.
Definition lf_mtime (f : LogFile) : Z := snd f.

(** [l.sort(key=mtime)] followed by
    [if len(l) > count: to_remove = l[:-count]], the selection shared by
    [RotatingLogHandler._cleanup_old_archives] and [cleanup_logs]; no file
    is selected when the test fails. *)
Definition oldest_beyond (count : Z) (files : list LogFile) : list LogFile :=
  let sorted := sort_by lf_mtime Z.ltb files in
  if (Z.of_nat (length sorted) >? count)%Z then slice_to (- count) sorted else [].











(* ===================================================================== *)
(** * Properties                                                          *)
(* ===================================================================== *)

(** ** The naming functions on file names of the tool *)

Example base_name_single :
  _get_archive_base_name "crm.rusvek29.ru_20260127_020401_full_6mq5xw84z01osj0q.tar"
  = Some "crm.rusvek29.ru_20260127_020401_full_6mq5xw84z01osj0q.tar".
Proof. reflexivity. Qed.

Example base_name_volume :
  _get_archive_base_name "crm.rusvek29.ru_20260127_020401_full_6mq5xw84z01osj0q.tar.1"
  = Some "crm.rusvek29.ru_20260127_020401_full_6mq5xw84z01osj0q.tar".
Proof. reflexivity. Qed.

Example base_name_not_archive :
  _get_archive_base_name "x.tar.1.gz" = None /\ _get_archive_base_name "notes.txt" = None.
Proof. split; reflexivity. Qed.

Example volume_number_examples :
  _get_volume_number "x_20260101_000000_full_abc.tar.2" = 2%Z /\
  _get_volume_number "x_20260101_000000_full_abc.tar" = 0%Z /\
  _get_volume_number "x_20260101_000000_full_abc.tar.part" = 0%Z.
Proof. repeat split; reflexivity. Qed.

Example timestamp_example :
  _get_archive_timestamp "crm.rusvek29.ru_20260127_020401_full_6mq5xw84z01osj0q.tar"
  = Some (mkDatetime 2026 1 27 2 4 1).
Proof. reflexivity. Qed.

Example timestamp_invalid_date :
  _get_archive_timestamp "x_20260230_000000_full.tar" = None /\
  _get_archive_timestamp "x_full.tar" = None.
Proof. split; reflexivity. Qed.

(** ** Reasoning about computations *)

Lemma observe_app {B} (f : Event -> list B) (d1 d2 : list Event) :
  observe f (d2 ++ d1) = observe f d1 ++ observe f d2.
Proof.
  unfold observe. rewrite rev_app_distr, flat_map_app. reflexivity.
Qed.

Lemma observe_cons {B} (f : Event -> list B) (ev : Event) (d : list Event) :
  observe f (ev :: d) = observe f d ++ f ev.
Proof.
  unfold observe. simpl. rewrite flat_map_app. simpl. rewrite app_nil_r. reflexivity.
Qed.

Lemma str_in_iff (x : string) (l : list string) : str_in x l = true <-> In x l.
Proof.
  unfold str_in. rewrite existsb_exists. split.
  - intros [y [Hy Heq]]. apply String.eqb_eq in Heq. subst. exact Hy.
  - intros H. exists x. split; [exact H | apply String.eqb_refl].
Qed.

Lemma str_in_false_iff (x : string) (l : list string) : str_in x l = false <-> ~ In x l.
Proof.
  rewrite <- str_in_iff. destruct (str_in x l); split; congruence.
Qed.

Lemma set_add_In (x y : string) (l : list string) :
  In y (set_add x l) <-> y = x \/ In y l.
Proof.
  unfold set_add. destruct (str_in x l) eqn:E.
  - apply str_in_iff in E. split; [auto | intros [-> | H]; auto].
  - rewrite in_app_iff. simpl. split; [intros [H | [H | []]] | intros [H | H]]; auto.
Qed.

(** *** Frames: what a computation may add to the trace *)

Lemma extends_refl P s : extends P s s.
Proof. split; [exists []; split; [reflexivity | constructor] | split; reflexivity]. Qed.

Lemma extends_trans P s1 s2 s3 :
  extends P s1 s2 -> extends P s2 s3 -> extends P s1 s3.
Proof.
  intros [[d1 [H1 F1]] [S1 X1]] [[d2 [H2 F2]] [S2 X2]].
  split; [| split; congruence].
  exists (d2 ++ d1). split.
  - rewrite H2, H1, app_assoc. reflexivity.
  - apply Forall_app; split; assumption.
Qed.

Lemma extends_weaken (P Q : Event -> Prop) s s' :
  (forall ev, P ev -> Q ev) -> extends P s s' -> extends Q s s'.
Proof.
  intros HPQ [[d [H F]] HS]. split; [| exact HS].
  exists d; split; [exact H |]. eapply Forall_impl; eauto.
Qed.

Lemma extends_log P ev s : P ev -> extends P s (log_event ev s).
Proof.
  intros H. split; [| split; reflexivity].
  exists [ev]. split; [reflexivity | constructor; [exact H | constructor]].
Qed.

Lemma framed_weaken {A} (P Q : Event -> Prop) (m : M A) :
  (forall ev, P ev -> Q ev) -> framed P m -> framed Q m.
Proof. intros HPQ H s. eapply extends_weaken; eauto. Qed.

Lemma framed_ret {A} P (a : A) : framed P (ret a).
Proof. intros s. apply extends_refl. Qed.

Lemma framed_raise {A} P e : framed P (@raise A e).
Proof. intros s. apply extends_refl. Qed.

Lemma framed_get_state P : framed P get_state.
Proof. intros s. apply extends_refl. Qed.

Lemma framed_modify P (f : State -> State) :
  (forall s, extends P s (f s)) -> framed P (modify f).
Proof. intros H s. apply H. Qed.

Lemma framed_sleep P z : P (EvSleep z) -> framed P (sleep z).
Proof. intros H s. apply (extends_log P _ s H). Qed.

Lemma framed_perform P w o : (forall r, P (EvOp o r)) -> framed P (perform w o).
Proof.
  intros H s. unfold state_after, perform.
  assert (E : extends P s (log_event (EvOp o (w (clock s) o)) (tick s))).
  { split; [| split; reflexivity].
    exists [EvOp o (w (clock s) o)]. split; [reflexivity |].
    constructor; [apply H | constructor]. }
  destruct (r_exn (w (clock s) o)); exact E.
Qed.

Lemma framed_bind {A B} P (m : M A) (f : A -> M B) :
  framed P m -> (forall a, framed P (f a)) -> framed P (bind m f).
Proof.
  intros Hm Hf s. specialize (Hm s). unfold state_after, bind in *.
  destruct (m s) as [[a | e] s1]; simpl in *.
  - eapply extends_trans; [exact Hm | apply Hf].
  - exact Hm.
Qed.

Lemma framed_try_except {A} P (body : M A) (handler : exn -> option (M A)) :
  framed P body ->
  (forall e h, handler e = Some h -> framed P h) ->
  framed P (try_except body handler).
Proof.
  intros Hb Hh s. specialize (Hb s). unfold state_after, try_except in *.
  destruct (body s) as [[a | e] s1]; simpl in *; [exact Hb |].
  destruct (handler e) as [h |] eqn:E; [| exact Hb].
  eapply extends_trans; [exact Hb | apply (Hh e h E)].
Qed.

Lemma framed_try_finally {A} P (body : M A) (cleanup : M unit) :
  framed P body -> framed P cleanup -> framed P (try_finally body cleanup).
Proof.
  intros Hb Hc s. specialize (Hb s). unfold state_after, try_finally in *.
  destruct (body s) as [r s1]; simpl in *.
  specialize (Hc s1). unfold state_after in Hc.
  destruct (cleanup s1) as [[u | e] s2]; simpl in *;
    eapply extends_trans; eauto.
Qed.

Lemma framed_except_Exception {A} P (h : M A) :
  framed P h -> forall e h', except_Exception h e = Some h' -> framed P h'.
Proof.
  intros H e h'. unfold except_Exception.
  destruct (is_Exception e); intros E; inversion E; subst; exact H.
Qed.

Lemma framed_except_all {A} P (h : M A) :
  framed P h -> forall e h', except_all h e = Some h' -> framed P h'.
Proof. intros H e h' E; inversion E; subst; exact H. Qed.

Lemma framed_except_error_perm {A} P (h : M A) :
  framed P h -> forall e h', except_error_perm h e = Some h' -> framed P h'.
Proof.
  intros H e h'. unfold except_error_perm.
  destruct e; intros E; inversion E; subst; exact H.
Qed.

Lemma framed_for_each {A} P (l : list A) (body : A -> M unit) :
  (forall x, In x l -> framed P (body x)) -> framed P (for_each l body).
Proof.
  induction l as [| x l IH]; intros H; simpl.
  - apply framed_ret.
  - apply framed_bind; [apply H; left; reflexivity |].
    intros _. apply IH. intros y Hy. apply H. right; exact Hy.
Qed.

(** *** Which exceptions can leave a computation *)

Lemma raises_only_weaken {A} (E F : exn -> Prop) (m : M A) :
  (forall e, E e -> F e) -> raises_only E m -> raises_only F m.
Proof.
  intros HEF H s. specialize (H s). destruct (result_of m s); auto.
Qed.

Lemma raises_only_ret {A} E (a : A) : raises_only E (ret a).
Proof. intros s. exact I. Qed.

Lemma raises_only_modify E f : raises_only E (modify f).
Proof. intros s. exact I. Qed.

Lemma raises_only_sleep E z : raises_only E (sleep z).
Proof. intros s. exact I. Qed.

Lemma raises_only_get_state E : raises_only E get_state.
Proof. intros s. exact I. Qed.

Lemma raises_only_bind {A B} E (m : M A) (f : A -> M B) :
  raises_only E m -> (forall a, raises_only E (f a)) -> raises_only E (bind m f).
Proof.
  intros Hm Hf s. specialize (Hm s). unfold result_of, bind in *.
  destruct (m s) as [[a | e] s1]; simpl in *; [apply Hf | exact Hm].
Qed.

(** [try: ...  except Exception: h] lets through what [h] raises and
    interrupts of the body. *)
Lemma raises_only_catch_Exception {A} (E : exn -> Prop) (body h : M A) :
  E KeyboardInterrupt -> raises_only E h ->
  raises_only E (try_except body (except_Exception h)).
Proof.
  intros HK Hh s. unfold result_of, try_except, except_Exception.
  destruct (body s) as [[a | e] s1]; simpl; [exact I |].
  destruct e; simpl; try apply Hh. exact HK.
Qed.

(** [try: ...  except: h] lets through only what [h] raises. *)
Lemma raises_only_catch_all {A} (E : exn -> Prop) (body h : M A) :
  raises_only E h -> raises_only E (try_except body (except_all h)).
Proof.
  intros Hh s. unfold result_of, try_except, except_all.
  destruct (body s) as [[a | e] s1]; simpl; [exact I | apply Hh].
Qed.

Lemma raises_only_for_each {A} E (l : list A) (body : A -> M unit) :
  (forall x, raises_only E (body x)) -> raises_only E (for_each l body).
Proof.
  intros H. induction l as [| x l IH]; simpl.
  - apply raises_only_ret.
  - apply raises_only_bind; [apply H | intros _; exact IH].
Qed.

(** *** Frames of the methods *)

Lemma extends_same P s s' :
  trace s' = trace s ->
  successful_uploads s' = successful_uploads s ->
  failed_uploads s' = failed_uploads s ->
  extends P s s'.
Proof.
  intros Ht Hs Hf. split; [| split; assumption].
  exists []. split; [exact Ht | constructor].
Qed.

Ltac frame_handler :=
  first [ apply framed_except_Exception
        | apply framed_except_all
        | apply framed_except_error_perm ].

Ltac frame_step :=
  first [ apply framed_ret
        | apply framed_raise
        | apply framed_get_state
        | apply framed_bind; [| intros ?]
        | apply framed_try_except; [| frame_handler]
        | apply framed_modify; intros ?; apply extends_same; reflexivity ].

Section Frames.

Variable w : World.
Variable P : Event -> Prop.
Hypothesis P_connect : forall sid r, P (EvOp (OpConnect sid) r).
Hypothesis P_cwd : forall sid path r, P (EvOp (OpCwd sid path) r).
Hypothesis P_mkd : forall sid path r, P (EvOp (OpMkd sid path) r).
Hypothesis P_nlst : forall sid r, P (EvOp (OpNlst sid) r).
Hypothesis P_stor : forall sid n r, P (EvOp (OpStor sid n) r).
Hypothesis P_size : forall sid n r, P (EvOp (OpSize sid n) r).
Hypothesis P_quit : forall sid r, P (EvOp (OpQuit sid) r).
Hypothesis P_stat : forall f r, P (EvOp (OpStat f) r).
Hypothesis P_open : forall f r, P (EvOp (OpOpen f) r).
Hypothesis P_glob : forall pat r, P (EvOp (OpGlob pat) r).
Hypothesis P_unlink : forall f r, P (EvOp (OpUnlink f) r).
Hypothesis P_sleep : forall z, P (EvSleep z).
Hypothesis P_upload : forall n r, P (EvUpload n r).

Ltac quiet_step :=
  first [ frame_step
        | apply framed_perform; intros ?;
          first [ apply P_connect | apply P_cwd | apply P_mkd | apply P_nlst
                | apply P_stor | apply P_size | apply P_quit | apply P_stat
                | apply P_open | apply P_glob | apply P_unlink ]
        | apply framed_sleep; apply P_sleep ].

Lemma framed_stat file : framed P (stat w file).
Proof.
  unfold stat. repeat quiet_step. destruct (r_size _); repeat quiet_step.
Qed.

Lemma framed_glob pattern matches : framed P (glob w pattern matches).
Proof. unfold glob. repeat quiet_step. Qed.

Lemma framed_connect_once : framed P (connect_once w).
Proof. unfold connect_once. repeat quiet_step. Qed.

Lemma framed_connect_from n : framed P (_connect_ftp_from w n).
Proof.
  induction n as [| n IH]; simpl.
  - apply framed_try_except; [apply framed_connect_once | frame_handler].
    repeat quiet_step.
  - apply framed_try_except; [apply framed_connect_once | frame_handler].
    repeat quiet_step. exact IH.
Qed.

Lemma framed_connect : framed P (_connect_ftp w).
Proof. apply framed_connect_from. Qed.

Lemma framed_ensure_parts ftp parts : forall cur, framed P (ensure_parts w ftp parts cur).
Proof.
  induction parts as [| part rest IH]; intros cur; simpl.
  - apply framed_ret.
  - repeat quiet_step. apply IH.
Qed.

Lemma framed_ensure_remote_directory ftp path parts :
  framed P (_ensure_remote_directory w ftp path parts).
Proof.
  unfold _ensure_remote_directory. repeat quiet_step.
  apply framed_ensure_parts.
Qed.

Lemma framed_get_multi_volume_archives ignore :
  framed P (_get_multi_volume_archives w ignore).
Proof.
  unfold _get_multi_volume_archives.
  apply framed_bind; [apply framed_glob | intros ?].
  apply framed_bind; [apply framed_glob | intros ?].
  apply framed_ret.
Qed.

Lemma framed_check_archive_exists ftp base rd :
  framed P (_check_archive_exists_on_ftp w ftp base rd).
Proof. unfold _check_archive_exists_on_ftp. repeat quiet_step. Qed.

Lemma framed_verify ftp lf rf : framed P (_verify_file_integrity w ftp lf rf).
Proof.
  unfold _verify_file_integrity.
  apply framed_try_except; [| frame_handler; apply framed_ret].
  apply framed_bind; [apply framed_stat | intros n].
  repeat quiet_step.
  destruct (r_size _); [destruct (negb _) |]; apply framed_ret.
Qed.

Lemma framed_upload_try ftp lf rf rd : framed P (upload_try w ftp lf rf rd).
Proof.
  unfold upload_try.
  quiet_step; [quiet_step |].
  apply framed_bind; [apply framed_stat | intros ?].
  quiet_step; [quiet_step |].
  quiet_step; [quiet_step |].
  apply framed_verify.
Qed.

Lemma framed_quit_quietly ftp : framed P (quit_quietly w ftp).
Proof. unfold quit_quietly. repeat quiet_step. Qed.

Lemma framed_upload_attempt mr attempt ftp lf rf rd :
  framed P (upload_attempt w mr attempt ftp lf rf rd).
Proof.
  unfold upload_attempt. apply framed_try_except.
  - apply framed_bind; [apply framed_upload_try | intros b].
    destruct b; apply framed_ret.
  - intros e h He.
    destruct e; inversion He; subst; clear He;
      destruct (attempt <? mr - 1)%nat; repeat quiet_step;
      first [ apply framed_quit_quietly | apply framed_connect | idtac ].
Qed.

Lemma framed_upload_loop mr attempts lf rf rd :
  forall ftp, framed P (upload_loop w mr attempts ftp lf rf rd).
Proof.
  induction attempts as [| a rest IH]; intros ftp; simpl.
  - apply framed_ret.
  - apply framed_bind; [apply framed_upload_attempt | intros st].
    destruct st; [apply framed_ret | apply IH].
Qed.

Lemma framed_upload ftp lf rf rd mr :
  framed P (_upload_file_to_ftp_with_retry w ftp lf rf rd mr).
Proof.
  intros s. unfold state_after, _upload_file_to_ftp_with_retry.
  pose proof (framed_upload_loop mr (seq 0 mr) lf rf rd ftp s) as H.
  unfold state_after in H.
  destruct (upload_loop w mr (seq 0 mr) ftp lf rf rd s) as [r s1]; simpl in *.
  eapply extends_trans; [exact H |].
  apply extends_log. apply P_upload.
Qed.

Lemma framed_upload_volumes ftp wanted rd volumes :
  framed P (upload_volumes w ftp volumes wanted rd).
Proof.
  induction volumes as [| v rest IH]; simpl.
  - apply framed_ret.
  - destruct (wanted v); [| exact IH].
    apply framed_bind; [apply framed_upload | intros b].
    destruct b; [exact IH | apply framed_ret].
Qed.

Lemma framed_process_archive_set ftp base set rd :
  framed P (_process_archive_set w ftp base set rd).
Proof.
  unfold _process_archive_set.
  apply framed_try_except; [| frame_handler; apply framed_ret].
  apply framed_bind; [apply framed_check_archive_exists | intros [ex existing]].
  destruct ex; [| apply framed_upload_volumes].
  destruct (_ =? _)%nat; [apply framed_ret |].
  destruct (filter _ set); [apply framed_ret | apply framed_upload_volumes].
Qed.

Lemma framed_unlink_quietly f : framed P (unlink_quietly w f).
Proof.
  unfold unlink_quietly.
  apply framed_try_except; [| frame_handler; apply framed_ret].
  apply framed_bind; [apply framed_get_state | intros s0].
  destruct (str_in f (local_dir s0)); [| apply framed_ret].
  apply framed_bind; [apply framed_stat | intros ?].
  repeat quiet_step.
Qed.

Lemma framed_glob_pattern pattern : framed P (glob_pattern w pattern).
Proof.
  unfold glob_pattern. destruct (String.eqb pattern "**"); [repeat quiet_step |].
  destruct (PyStr.contains "**" pattern); [apply framed_raise | apply framed_glob].
Qed.

Lemma framed_find_successful_sets bases :
  forall acc, framed P (find_successful_sets w bases acc).
Proof.
  induction bases as [| b rest IH]; intros acc; cbn [find_successful_sets].
  - apply framed_ret.
  - apply framed_bind; [apply framed_glob_pattern | intros files]. apply IH.
Qed.

Lemma framed_cleanup_local_archives : framed P (_cleanup_local_archives w).
Proof.
  unfold _cleanup_local_archives.
  apply framed_try_except; [| frame_handler; apply framed_ret].
  apply framed_bind; [apply framed_get_state | intros s0].
  apply framed_bind; [apply framed_find_successful_sets | intros sets].
  destruct (_ <=? _)%nat; [apply framed_ret |].
  destruct (stamp_local_sets sets) eqn:E; [apply framed_ret |].
  apply framed_for_each. intros x _. apply framed_for_each. intros f _.
  apply framed_unlink_quietly.
Qed.

Lemma framed_run_finally : framed P (run_finally w).
Proof.
  unfold run_finally.
  apply framed_bind; [apply framed_get_state | intros s0].
  destruct (self_ftp s0); [apply framed_quit_quietly | apply framed_ret].
Qed.

Lemma framed_run_setup cfg : framed P (run_setup w cfg).
Proof.
  unfold run_setup.
  apply framed_bind; [apply framed_connect | intros ftp].
  quiet_step; [quiet_step |].
  apply framed_bind; [apply framed_ensure_remote_directory | intros ?].
  apply framed_bind; [apply framed_get_multi_volume_archives | intros ?].
  apply framed_ret.
Qed.

End Frames.

(** *** Exceptions of the methods *)

Section Exceptions.

Variable w : World.

Lemma connect_from_raises n : raises_only interrupt_or_connection (_connect_ftp_from w n).
Proof.
  induction n as [| n IH]; simpl; apply raises_only_catch_Exception;
    try (left; reflexivity).
  - intros s. right; reflexivity.
  - apply raises_only_bind; [apply raises_only_sleep | intros _; exact IH].
Qed.

Lemma check_archive_exists_raises ftp base rd :
  raises_only interrupt_only (_check_archive_exists_on_ftp w ftp base rd).
Proof.
  apply raises_only_catch_Exception; [reflexivity | apply raises_only_ret].
Qed.

Lemma verify_raises ftp lf rf :
  raises_only interrupt_only (_verify_file_integrity w ftp lf rf).
Proof.
  apply raises_only_catch_Exception; [reflexivity | apply raises_only_ret].
Qed.

Lemma quit_quietly_raises ftp : raises_only never (quit_quietly w ftp).
Proof. apply raises_only_catch_all. apply raises_only_ret. Qed.

Lemma reconnect_raises z ftp :
  raises_only interrupt_or_connection
    (sleep z ;; quit_quietly w ftp ;; ftp' <- _connect_ftp w ;;
     ret (@Continue bool session ftp')).
Proof.
  apply raises_only_bind; [apply raises_only_sleep | intros _].
  apply raises_only_bind.
  - eapply raises_only_weaken; [| apply quit_quietly_raises]. intros e [].
  - intros _. apply raises_only_bind; [apply connect_from_raises |].
    intros a. apply raises_only_ret.
Qed.

Lemma upload_attempt_raises mr attempt ftp lf rf rd :
  raises_only interrupt_or_connection (upload_attempt w mr attempt ftp lf rf rd).
Proof.
  intros s. unfold result_of, upload_attempt, try_except.
  destruct (bind _ _ s) as [[a | e] s1]; simpl; [exact I |].
  destruct e; simpl; try (left; reflexivity);
    destruct (attempt <? mr - 1)%nat; try exact I.
  apply reconnect_raises.
Qed.

Lemma upload_loop_raises mr attempts lf rf rd :
  forall ftp, raises_only interrupt_or_connection (upload_loop w mr attempts ftp lf rf rd).
Proof.
  induction attempts as [| a rest IH]; intros ftp; simpl.
  - apply raises_only_ret.
  - apply raises_only_bind; [apply upload_attempt_raises | intros st].
    destruct st; [apply raises_only_ret | apply IH].
Qed.

Lemma upload_raises ftp lf rf rd mr :
  raises_only interrupt_or_connection (_upload_file_to_ftp_with_retry w ftp lf rf rd mr).
Proof.
  intros s. pose proof (upload_loop_raises mr (seq 0 mr) lf rf rd ftp s) as H.
  unfold result_of, _upload_file_to_ftp_with_retry in *.
  destruct (upload_loop w mr (seq 0 mr) ftp lf rf rd s) as [r s1]. exact H.
Qed.

Lemma process_archive_set_raises ftp base set rd :
  raises_only interrupt_only (_process_archive_set w ftp base set rd).
Proof.
  apply raises_only_catch_Exception; [reflexivity | apply raises_only_ret].
Qed.

Lemma process_one_raises ftp rd e : raises_only interrupt_only (process_one w ftp rd e).
Proof.
  destruct e as [b fl]. apply raises_only_catch_Exception;
    [reflexivity | apply raises_only_modify].
Qed.

Lemma cleanup_old_ftp_backups_raises ftp rd k :
  raises_only interrupt_only (_cleanup_old_ftp_backups w ftp rd k).
Proof.
  apply raises_only_catch_Exception; [reflexivity | apply raises_only_ret].
Qed.

Lemma cleanup_local_archives_raises :
  raises_only interrupt_only (_cleanup_local_archives w).
Proof.
  apply raises_only_catch_Exception; [reflexivity | apply raises_only_ret].
Qed.

Lemma run_finally_raises : raises_only never (run_finally w).
Proof.
  unfold run_finally. apply raises_only_bind; [apply raises_only_get_state |].
  intros s. destruct (self_ftp s); [apply quit_quietly_raises | apply raises_only_ret].
Qed.

Lemma run_sets_raises cfg ftp sets : raises_only interrupt_only (run_sets w cfg ftp sets).
Proof.
  unfold run_sets.
  apply raises_only_bind; [apply raises_only_for_each; apply process_one_raises |].
  intros _. apply raises_only_bind; [apply raises_only_get_state | intros s].
  apply raises_only_bind.
  - destruct (successful_uploads s); [apply raises_only_ret |].
    apply raises_only_bind;
      [apply cleanup_old_ftp_backups_raises | intros _; apply cleanup_local_archives_raises].
  - intros _. apply raises_only_bind; [apply raises_only_get_state | intros s'].
    destruct (failed_uploads s'); apply raises_only_ret.
Qed.

End Exceptions.

(** ** C4: the idempotent skip *)

(** C4. When the listing of the remote directory succeeds and the number
    of remote names prefixed by the set's [base_name] equals the number of
    local volumes, processing the set performs no upload call and no
    [STOR], and the set is recorded in [successful_uploads]. *)
Theorem C4_idempotent_skip :
  forall (w : World) (ftp : session) (remote_dir base_name : string)
         (archive_set : list string) (s : State),
    r_exn (w (clock s) (OpCwd ftp remote_dir)) = None ->
    r_exn (w (S (clock s)) (OpNlst ftp)) = None ->
    length (filter (fun f => PyStr.startswith f base_name)
                   (r_names (w (S (clock s)) (OpNlst ftp))))
    = length archive_set ->
    let m := process_one w ftp remote_dir (base_name, archive_set) in
    result_of m s = Ok tt /\
    In base_name (successful_uploads (state_after m s)) /\
    failed_uploads (state_after m s) = failed_uploads s /\
    exists d, trace (state_after m s) = d ++ trace s /\
              upload_results d = [] /\ stor_attempts d = [].
Proof.
  intros w ftp rd b set s Hcwd Hnlst Hlen m. subst m.
  unfold result_of, state_after, process_one, _process_archive_set,
    _check_archive_exists_on_ftp, try_except, bind, perform.
  rewrite Hcwd. cbn [clock tick log_event]. rewrite Hnlst. cbn [ret fst snd].
  rewrite Hlen, Nat.eqb_refl.
  assert (Hdone :
    forall s1, (if negb (length set =? 0)%nat then ret true
                else upload_volumes w ftp set (fun _ => true) rd) s1 = (Ok true, s1)).
  { intros s1. destruct set; reflexivity. }
  rewrite Hdone. cbn.
  repeat split.
  - apply set_add_In. left; reflexivity.
  - eexists [_; _]. repeat split.
Qed.

(** *** Inversion of computations *)

Lemma bind_inv {A B} (m : M A) (f : A -> M B) s r s' :
  bind m f s = (r, s') ->
  (exists a s1, m s = (Ok a, s1) /\ f a s1 = (r, s')) \/
  (exists e, m s = (Raise e, s') /\ r = Raise e).
Proof.
  unfold bind. destruct (m s) as [[a | e] s1]; intros H.
  - left. exists a, s1. split; [reflexivity | exact H].
  - right. exists e. inversion H; subst. split; reflexivity.
Qed.

Lemma bind_Ok_inv {A B} (m : M A) (f : A -> M B) s b s' :
  bind m f s = (Ok b, s') ->
  exists a s1, m s = (Ok a, s1) /\ f a s1 = (Ok b, s').
Proof.
  intros H. apply bind_inv in H. destruct H as [H | [e [_ H]]]; [exact H | discriminate].
Qed.

Lemma perform_Ok_inv w o s r s' :
  perform w o s = (Ok r, s') ->
  r = w (clock s) o /\ r_exn r = None /\ s' = log_event (EvOp o r) (tick s).
Proof.
  unfold perform. destruct (r_exn (w (clock s) o)) eqn:E; intros H; inversion H; subst.
  repeat split. exact E.
Qed.

Lemma stat_Ok_inv w f s n s' :
  stat w f s = (Ok n, s') ->
  exists r, r_exn r = None /\ r_size r = Some n /\ r = w (clock s) (OpStat f) /\
            s' = log_event (EvOp (OpStat f) r) (tick s).
Proof.
  unfold stat. intros H. apply bind_Ok_inv in H. destruct H as [r [s1 [H1 H2]]].
  apply perform_Ok_inv in H1. destruct H1 as [Hr [He Hs]].
  destruct (r_size r) eqn:E; inversion H2; subst.
  exists (w (clock s) (OpStat f)). repeat split; assumption.
Qed.

Lemma try_except_Ok_inv {A} (body : M A) handler s a s' :
  try_except body handler s = (Ok a, s') ->
  body s = (Ok a, s') \/
  exists e s1 h, body s = (Raise e, s1) /\ handler e = Some h /\ h s1 = (Ok a, s').
Proof.
  unfold try_except. destruct (body s) as [[a0 | e] s1]; intros H.
  - left. exact H.
  - destruct (handler e) as [h |] eqn:E; [| discriminate].
    right. exists e, s1, h. repeat split; assumption.
Qed.

Section Executor.
Variable w : World.

Lemma verify_true ftp lf rf s s' :
  _verify_file_integrity w ftp lf rf s = (Ok true, s') ->
  exists r_stat r_sz n,
    trace s' = EvOp (OpSize ftp rf) r_sz :: EvOp (OpStat lf) r_stat :: trace s /\
    r_exn r_stat = None /\ r_size r_stat = Some n /\
    r_exn r_sz = None /\ r_size r_sz = Some n.
Proof.
  unfold _verify_file_integrity. intros H.
  apply try_except_Ok_inv in H. destruct H as [H | [e [s1 [h [_ [Hh H]]]]]].
  - apply bind_Ok_inv in H. destruct H as [n [s1 [H1 H2]]].
    apply stat_Ok_inv in H1. destruct H1 as [r1 [He1 [Hn1 [_ Hs1]]]].
    apply bind_Ok_inv in H2. destruct H2 as [r2 [s2 [H2 H3]]].
    apply perform_Ok_inv in H2. destruct H2 as [_ [He2 Hs2]].
    destruct (r_size r2) as [m |] eqn:E2; [| discriminate].
    destruct (Z.eqb_spec n m); simpl in H3; inversion H3; subst.
    exists r1, r2, m. repeat split; assumption.
  - unfold except_Exception in Hh. destruct (is_Exception e); inversion Hh; subst.
    discriminate.
Qed.

Lemma upload_try_true ftp lf rf rd s s' :
  upload_try w ftp lf rf rd s = (Ok true, s') ->
  exists d, trace s' = d ++ trace s /\ stored_and_verified d lf rf.
Proof.
  unfold upload_try. intros H.
  apply bind_Ok_inv in H. destruct H as [r1 [s1 [H1 H]]].
  apply perform_Ok_inv in H1. destruct H1 as [_ [_ Hs1]].
  apply bind_Ok_inv in H. destruct H as [n [s2 [H2 H]]].
  apply stat_Ok_inv in H2. destruct H2 as [r2 [_ [_ [_ Hs2]]]].
  apply bind_Ok_inv in H. destruct H as [r3 [s3 [H3 H]]].
  apply perform_Ok_inv in H3. destruct H3 as [_ [_ Hs3]].
  apply bind_Ok_inv in H. destruct H as [r4 [s4 [H4 H]]].
  apply perform_Ok_inv in H4. destruct H4 as [_ [He4 Hs4]].
  apply verify_true in H. destruct H as [rst [rsz [m [Ht [E1 [E2 [E3 E4]]]]]]].
  exists [EvOp (OpSize ftp rf) rsz; EvOp (OpStat lf) rst; EvOp (OpStor ftp rf) r4;
          EvOp (OpOpen lf) r3; EvOp (OpStat lf) r2; EvOp (OpCwd ftp rd) r1].
  split.
  - rewrite Ht. subst. reflexivity.
  - exists ftp, r4, rst, rsz, m, [], [EvOp (OpOpen lf) r3; EvOp (OpStat lf) r2; EvOp (OpCwd ftp rd) r1].
    repeat split; assumption.
Qed.
Lemma stored_and_verified_mono d lf rf d1 d2 :
  stored_and_verified d lf rf -> stored_and_verified (d2 ++ d ++ d1) lf rf.
Proof.
  intros [sid [r1 [r2 [r3 [n [newer [older [H Hr]]]]]]]].
  exists sid, r1, r2, r3, n, (d2 ++ newer), (older ++ d1). split; [| exact Hr].
  rewrite H. rewrite <- !app_assoc. simpl. reflexivity.
Qed.

Lemma upload_attempt_grows mr attempt ftp lf rf rd s :
  exists d, trace (state_after (upload_attempt w mr attempt ftp lf rf rd) s) = d ++ trace s.
Proof.
  assert (F : framed any_event (upload_attempt w mr attempt ftp lf rf rd))
    by (apply framed_upload_attempt; intros; exact I).
  destruct (F s) as [[d [H _]] _].
  exists d. exact H.
Qed.

Lemma upload_attempt_Return_true mr attempt ftp lf rf rd s s' :
  upload_attempt w mr attempt ftp lf rf rd s = (Ok (Return true), s') ->
  upload_try w ftp lf rf rd s = (Ok true, s').
Proof.
  unfold upload_attempt. intros H.
  apply try_except_Ok_inv in H. destruct H as [H | [e [s1 [h [_ [Hh H]]]]]].
  - apply bind_Ok_inv in H. destruct H as [b [s1 [H1 H2]]].
    destruct b; inversion H2; subst. exact H1.
  - exfalso.
    destruct e; inversion Hh; subst; clear Hh;
      destruct (attempt <? mr - 1)%nat; try discriminate;
      repeat (apply bind_Ok_inv in H; destruct H as [? [? [_ H]]]);
      discriminate.
Qed.

Lemma upload_loop_true mr lf rf rd attempts :
  forall ftp s s',
    upload_loop w mr attempts ftp lf rf rd s = (Ok true, s') ->
    exists d, trace s' = d ++ trace s /\ stored_and_verified d lf rf.
Proof.
  induction attempts as [| a rest IH]; intros ftp s s' H; simpl in H.
  - discriminate.
  - apply bind_Ok_inv in H. destruct H as [st [s1 [H1 H2]]].
    destruct st as [b | ftp'].
    + inversion H2; subst. apply upload_attempt_Return_true in H1.
      apply upload_try_true in H1. exact H1.
    + apply IH in H2. destruct H2 as [d2 [Ht2 Hv]].
      destruct (upload_attempt_grows mr a ftp lf rf rd s) as [d1 Ht1].
      unfold state_after in Ht1. rewrite H1 in Ht1. simpl in Ht1.
      exists (d2 ++ d1). split.
      * rewrite Ht2, Ht1, app_assoc. reflexivity.
      * apply (stored_and_verified_mono d2 lf rf d1 []) in Hv. exact Hv.
Qed.

Lemma no_upload_results d : Forall not_upload_event d -> upload_results d = [].
Proof.
  induction d as [| ev d IH]; intros H; [reflexivity |].
  inversion H; subst. unfold upload_results in *. rewrite observe_cons, IH by assumption.
  destruct ev; simpl in *; [reflexivity | reflexivity | contradiction].
Qed.

(** One call of the Transfer Executor: its end is the newest event, no
    other call is recorded inside, and [True] means stored and verified. *)
Lemma upload_spec ftp lf rf rd mr s :
  let m := _upload_file_to_ftp_with_retry w ftp lf rf rd mr in
  exists d0,
    trace (state_after m s) = EvUpload rf (result_of m s) :: d0 ++ trace s /\
    upload_results d0 = [] /\
    (result_of m s = Ok true -> stored_and_verified d0 lf rf).
Proof.
  simpl. unfold state_after, result_of, _upload_file_to_ftp_with_retry.
  assert (F : framed not_upload_event (upload_loop w mr (seq 0 mr) ftp lf rf rd))
    by (apply framed_upload_loop; intros; exact I).
  destruct (F s) as [[d [Ht HF]] _].
  unfold state_after in Ht.
  destruct (upload_loop w mr (seq 0 mr) ftp lf rf rd s) as [r s1] eqn:E; simpl in *.
  exists d. split; [rewrite Ht; reflexivity |]. split; [apply no_upload_results; exact HF |].
  intros Hr; subst r. apply upload_loop_true in E.
  destruct E as [d' [Ht' Hv]]. rewrite Ht in Ht'. apply app_inv_tail in Ht'. subst d'.
  exact Hv.
Qed.
Lemma upload_results_cons_upload n r d :
  upload_results (EvUpload n r :: d) = upload_results d ++ [(n, r)].
Proof. unfold upload_results. rewrite observe_cons. reflexivity. Qed.

Lemma upload_volumes_spec ftp wanted rd volumes :
  forall s,
    let m := upload_volumes w ftp volumes wanted rd in
    exists d,
      trace (state_after m s) = d ++ trace s /\
      uploads_in_order volumes_fail (filter wanted volumes)
                       (upload_results d) (result_of m s) /\
      (result_of m s = Ok true ->
       forall v, In v (filter wanted volumes) -> stored_and_verified d v v).
Proof.
  induction volumes as [| v rest IH]; intros s; simpl.
  - exists []. split; [reflexivity |]. split.
    + exists [], []. split; [reflexivity |]. left. repeat split.
    + intros _ v [].
  - destruct (wanted v) eqn:Hw; [| apply IH].
    destruct (upload_spec ftp v v rd default_max_retries s) as [d0 [Ht0 [Hn0 Hv0]]].
    unfold state_after, result_of, bind in *.
    destruct (_upload_file_to_ftp_with_retry w ftp v v rd default_max_retries s)
      as [r0 s1] eqn:E0; simpl in *.
    destruct r0 as [[|] | e].
    + (* the call returned True *)
      destruct (IH s1) as [d' [Ht' [Hu' Hv']]].
      unfold state_after, result_of in *.
      destruct (upload_volumes w ftp rest wanted rd s1) as [r s2]; simpl in *.
      exists (d' ++ EvUpload v (Ok true) :: d0). split; [| split].
      * rewrite Ht', Ht0, <- app_assoc. reflexivity.
      * unfold upload_results in *. rewrite observe_app, observe_cons, Hn0. simpl.
        destruct Hu' as [done [rst [Hf Hcase]]].
        exists (v :: done), rst. split; [simpl; rewrite Hf; reflexivity |].
        destruct Hcase as [[Hr [Hres Hrr]] | [v' [rest' [out [Hr [Ho [Hres Hrr]]]]]]].
        -- left. repeat split; [exact Hr | rewrite Hres; reflexivity | exact Hrr].
        -- right. exists v', rest', out. repeat split; try assumption.
           rewrite Hres. reflexivity.
      * intros Hr x [Hx | Hx].
        -- subst x. specialize (Hv0 eq_refl).
           apply (stored_and_verified_mono d0 v v [] (d' ++ [EvUpload v (Ok true)])) in Hv0.
           rewrite app_nil_r, <- app_assoc in Hv0. exact Hv0.
        -- specialize (Hv' Hr x Hx).
           apply (stored_and_verified_mono d' x x (EvUpload v (Ok true) :: d0) []) in Hv'.
           exact Hv'.
    + (* the call returned False *)
      exists (EvUpload v (Ok false) :: d0). split; [exact Ht0 |]. split.
      * exists [], (v :: filter wanted rest). split; [reflexivity |]. right.
        exists v, (filter wanted rest), (Ok false). repeat split; [discriminate |].
        rewrite upload_results_cons_upload, Hn0. reflexivity.
      * discriminate.
    + (* the call raised *)
      exists (EvUpload v (Raise e) :: d0). split; [exact Ht0 |]. split.
      * exists [], (v :: filter wanted rest). split; [reflexivity |]. right.
        exists v, (filter wanted rest), (Raise e). repeat split; [discriminate |].
        rewrite upload_results_cons_upload, Hn0. reflexivity.
      * discriminate.
Qed.
(** What the existence check returns, and what it logs. *)
Lemma check_spec ftp base rd s ex existing s1 :
  _check_archive_exists_on_ftp w ftp base rd s = (Ok (ex, existing), s1) ->
  exists d1,
    trace s1 = d1 ++ trace s /\ upload_results d1 = [] /\
    ((ex = true /\ existing <> [] /\
      r_exn (w (clock s) (OpCwd ftp rd)) = None /\
      r_exn (w (S (clock s)) (OpNlst ftp)) = None /\
      existing = filter (fun f => PyStr.startswith f base)
                        (r_names (w (S (clock s)) (OpNlst ftp))) /\
      d1 = [EvOp (OpNlst ftp) (w (S (clock s)) (OpNlst ftp));
            EvOp (OpCwd ftp rd) (w (clock s) (OpCwd ftp rd))])
     \/ (ex = false /\ existing = [])).
Proof.
  unfold _check_archive_exists_on_ftp, try_except, bind, perform.
  destruct (r_exn (w (clock s) (OpCwd ftp rd))) as [e |] eqn:Ecwd.
  - destruct e; simpl; intros H; inversion H; subst;
      (eexists [_]; split; [reflexivity | split; [reflexivity | right; split; reflexivity]]).
  - cbn [clock tick log_event].
    destruct (r_exn (w (S (clock s)) (OpNlst ftp))) as [e |] eqn:Enlst.
    + destruct e; simpl; intros H; inversion H; subst;
        (eexists [_; _]; split; [reflexivity | split; [reflexivity | right; split; reflexivity]]).
    + cbn [ret]. intros H. inversion H; subst; clear H.
      eexists [_; _]. split; [reflexivity |]. split; [reflexivity |].
      destruct (filter _ _) as [| x l] eqn:Ef; simpl.
      * right. split; reflexivity.
      * left. repeat split; try assumption; try discriminate.
Qed.

Lemma filter_in_filter (f : string -> bool) (l : list string) :
  filter (fun v => str_in v (filter f l)) l = filter f l.
Proof.
  apply filter_ext_in. intros v Hv.
  destruct (f v) eqn:Hf.
  - apply str_in_iff. apply filter_In. split; assumption.
  - apply str_in_false_iff. intros Hin. apply filter_In in Hin. destruct Hin; congruence.
Qed.

Lemma uploads_in_order_caught wanted results (r : Result bool) :
  uploads_in_order volumes_fail wanted results r ->
  uploads_in_order set_fail wanted results
    (match r with
     | Ok b => Ok b
     | Raise e => if is_Exception e then Ok false else Raise e
     end).
Proof.
  intros [done [rest [Hw Hcase]]]. exists done, rest. split; [exact Hw |].
  destruct Hcase as [[Hr [Hres Hrr]] | [v [rest' [out [Hr [Ho [Hres Hrr]]]]]]].
  - left. subst r. repeat split; assumption.
  - right. exists v, rest', out. repeat split; try assumption.
    subst r. destruct out as [[|] | e]; simpl; try reflexivity; try congruence.
    destruct e; reflexivity.
Qed.

Lemma process_after_check ftp base set rd s ex existing s1 :
  _check_archive_exists_on_ftp w ftp base rd s = (Ok (ex, existing), s1) ->
  let m := _process_archive_set w ftp base set rd in
  exists d,
    trace (state_after m s) = d ++ trace s1 /\
    uploads_in_order set_fail (volumes_to_upload ex existing set)
                     (upload_results d) (result_of m s) /\
    (result_of m s = Ok true ->
     forall v, In v (volumes_to_upload ex existing set) -> stored_and_verified d v v).
Proof.
  intros Hc m. subst m.
  assert (Hgen : forall wanted,
    let inner := upload_volumes w ftp set wanted rd in
    exists d,
      trace (state_after (try_except inner (except_Exception (ret false))) s1) = d ++ trace s1 /\
      uploads_in_order set_fail (filter wanted set) (upload_results d)
        (result_of (try_except inner (except_Exception (ret false))) s1) /\
      (result_of (try_except inner (except_Exception (ret false))) s1 = Ok true ->
       forall v, In v (filter wanted set) -> stored_and_verified d v v)).
  { intros wanted inner. subst inner.
    destruct (upload_volumes_spec ftp wanted rd set s1) as [d [Ht [Hu Hv]]].
    unfold state_after, result_of, try_except in *.
    destruct (upload_volumes w ftp set wanted rd s1) as [r s2]; simpl in *.
    apply uploads_in_order_caught in Hu.
    exists d. destruct r as [b | e]; simpl in *.
    - repeat split; assumption.
    - unfold except_Exception. destruct (is_Exception e); simpl.
      + repeat split; try assumption; discriminate.
      + repeat split; try assumption; discriminate. }
  assert (Hfilter_true : filter (fun _ : string => true) set = set).
  { clear. induction set as [| x l IH]; simpl; [| rewrite IH]; reflexivity. }
  unfold _process_archive_set, volumes_to_upload.
  unfold state_after, result_of, try_except at 1 2 3, bind. rewrite Hc.
  destruct ex.
  - destruct (length existing =? length set)%nat.
    + exists []. simpl. split; [reflexivity |]. split.
      * exists [], []. split; [reflexivity |]. left. repeat split.
      * intros _ v [].
    + destruct (filter (fun f => negb (str_in f existing)) set) as [| x l] eqn:Ef.
      * exists []. simpl. split; [reflexivity |]. split.
        -- exists [], []. split; [reflexivity |]. left. repeat split.
        -- intros _ v [].
      * specialize (Hgen (fun v => str_in v (x :: l))).
        rewrite <- Ef in Hgen. rewrite filter_in_filter in Hgen. rewrite <- Ef.
        unfold state_after, result_of, try_except in Hgen. exact Hgen.
  - specialize (Hgen (fun _ => true)). rewrite Hfilter_true in Hgen.
    unfold state_after, result_of, try_except in Hgen. exact Hgen.
Qed.
End Executor.

(** ** Names *)

Lemma prefix_refl (s : string) : String.prefix s s = true.
Proof.
  induction s as [| c s IH]; simpl; [reflexivity |].
  destruct (ascii_dec c c); [exact IH | congruence].
Qed.

Lemma before_last_dot_prefix (s h : string) :
  PyStr.before_last_dot s = Some h -> String.prefix h s = true.
Proof.
  revert h. induction s as [| c s IH]; intros h; simpl; [discriminate |].
  destruct (PyStr.before_last_dot s) as [h' |].
  - intros H; inversion H; subst. simpl.
    destruct (ascii_dec c c); [apply IH; reflexivity | congruence].
  - destruct (Ascii.eqb c "."); intros H; inversion H; subst. reflexivity.
Qed.

(** A file name starts with its base name. *)
Lemma base_name_prefix (f b : string) :
  _get_archive_base_name f = Some b -> PyStr.startswith f b = true.
Proof.
  unfold _get_archive_base_name, PyStr.startswith, PyStr.rsplit_dot_head.
  destruct (negb (PyStr.endswith f ".tar") && negb (PyStr.contains ".tar." f));
    [discriminate |].
  destruct (PyStr.contains ".tar." f).
  - destruct (PyStr.before_last_dot f) as [h |] eqn:E.
    + destruct (negb (PyStr.endswith h ".tar")); intros H; inversion H; subst.
      apply before_last_dot_prefix; exact E.
    + destruct (negb (PyStr.endswith f ".tar")); intros H; inversion H; subst.
      apply prefix_refl.
  - intros H; inversion H; subst. apply prefix_refl.
Qed.

(** ** Sorting *)

Section SortFacts.
Context {A K : Type} (key : A -> K) (ltb : K -> K -> bool).

Lemma insert_by_perm x l : Permutation (insert_by key ltb x l) (x :: l).
Proof.
  induction l as [| y l IH]; simpl; [reflexivity |].
  destruct (ltb (key y) (key x)); [| reflexivity].
  rewrite IH. apply perm_swap.
Qed.

Lemma sort_by_perm l : Permutation (sort_by key ltb l) l.
Proof.
  induction l as [| x l IH]; simpl; [reflexivity |].
  rewrite insert_by_perm, IH. reflexivity.
Qed.

Lemma sort_by_In l x : In x (sort_by key ltb l) <-> In x l.
Proof.
  split; apply Permutation_in; [| symmetry]; apply sort_by_perm.
Qed.

Lemma sort_by_length l : length (sort_by key ltb l) = length l.
Proof. apply Permutation_length, sort_by_perm. Qed.

Hypothesis ltb_asym : forall a b, ltb a b = true -> ltb b a = false.
Hypothesis le_trans :
  forall a b c, ltb b a = false -> ltb c b = false -> ltb c a = false.

Lemma insert_by_sorted x l :
  StronglySorted (key_le key ltb) l -> StronglySorted (key_le key ltb) (insert_by key ltb x l).
Proof.
  induction l as [| y l IH]; intros Hs; simpl.
  - constructor; constructor.
  - inversion Hs as [| ? ? Hs' Hall]; subst.
    destruct (ltb (key y) (key x)) eqn:E.
    + constructor; [apply IH; exact Hs' |].
      rewrite Forall_forall. intros z Hz.
      apply (Permutation_in _ (insert_by_perm x l)) in Hz. destruct Hz as [-> | Hz].
      * unfold key_le. apply ltb_asym. exact E.
      * rewrite Forall_forall in Hall. apply Hall; exact Hz.
    + constructor; [exact Hs |]. constructor; [exact E |].
      rewrite Forall_forall in *. intros z Hz. unfold key_le in *.
      eapply le_trans; [exact E | apply Hall; exact Hz].
Qed.

Lemma sort_by_sorted l : StronglySorted (key_le key ltb) (sort_by key ltb l).
Proof.
  induction l as [| x l IH]; simpl; [constructor | apply insert_by_sorted; exact IH].
Qed.
End SortFacts.

(** Sorting commutes with a map that keeps the keys. *)
Lemma sort_by_map {A K} (key : A -> K) (ltb : K -> K -> bool) (g : A -> A) :
  (forall x, key (g x) = key x) ->
  forall l, sort_by key ltb (map g l) = map g (sort_by key ltb l).
Proof.
  intros Hg. induction l as [| x l IH]; simpl; [reflexivity |].
  rewrite IH. generalize (sort_by key ltb l) as t. clear IH.
  induction t as [| y t IHt]; simpl; [reflexivity |].
  rewrite !Hg. destruct (ltb (key y) (key x)); simpl; [rewrite IHt |]; reflexivity.
Qed.

Lemma StronglySorted_filter {A} (R : A -> A -> Prop) (f : A -> bool) l :
  StronglySorted R l -> StronglySorted R (filter f l).
Proof.
  induction 1 as [| x l Hs IH Hall]; simpl; [constructor |].
  destruct (f x); [| exact IH].
  constructor; [exact IH |].
  rewrite Forall_forall in *. intros y Hy. apply filter_In in Hy. apply Hall, Hy.
Qed.

Lemma volume_sort_sorted (l : list string) :
  StronglySorted volume_le (sort_by _get_volume_number Z.ltb l).
Proof.
  pose proof (sort_by_sorted _get_volume_number Z.ltb) as H.
  assert (Hs : StronglySorted (key_le _get_volume_number Z.ltb)
                              (sort_by _get_volume_number Z.ltb l)).
  { apply H.
    - intros a b Hab. apply Z.ltb_lt in Hab. apply Z.ltb_ge. lia.
    - intros a b c H1 H2. apply Z.ltb_ge in H1, H2. apply Z.ltb_ge. lia. }
  clear H. induction Hs as [| x t Hs IH Hall]; constructor; [exact IH |].
  rewrite Forall_forall in *. intros y Hy. specialize (Hall y Hy).
  unfold key_le in Hall. unfold volume_le. apply Z.ltb_ge in Hall. exact Hall.
Qed.

(** ** Grouping *)

Section Grouping.
Variable kf : string -> option string.

Lemma dict_append_keys d k v :
  map fst (dict_append d k v) =
  if dict_mem d k then map fst d else map fst d ++ [k].
Proof.
  induction d as [| [k' vs] d IH]; simpl; [reflexivity |].
  destruct (String.eqb k' k) eqn:E; simpl; [reflexivity |].
  rewrite IH. destruct (dict_mem d k); reflexivity.
Qed.

Lemma dict_mem_iff {V} (d : dict V) k : dict_mem d k = true <-> In k (map fst d).
Proof.
  induction d as [| [k' v] d IH]; simpl; [split; [discriminate | tauto] |].
  rewrite orb_true_iff, IH, String.eqb_eq. tauto.
Qed.

Lemma dict_get_append d k v k' :
  dict_get (dict_append d k v) k' =
  if String.eqb k k' then
    Some (match dict_get d k with Some vs => vs | None => [] end ++ [v])
  else dict_get d k'.
Proof.
  induction d as [| [k0 vs] d IH]; simpl.
  - destruct (String.eqb k k'); reflexivity.
  - destruct (String.eqb k0 k) eqn:E0; simpl.
    + apply String.eqb_eq in E0. subst k0.
      destruct (String.eqb k k'); reflexivity.
    + rewrite IH. destruct (String.eqb k k') eqn:E1; [| reflexivity].
      apply String.eqb_eq in E1. subst k'. rewrite E0. reflexivity.
Qed.

Lemma dict_get_In {V} (d : dict V) k v :
  NoDup (map fst d) -> (In (k, v) d <-> dict_get d k = Some v).
Proof.
  induction d as [| [k' v'] d IH]; simpl; intros Hnd.
  - split; [tauto | discriminate].
  - inversion Hnd as [| ? ? Hnotin Hnd']; subst.
    destruct (String.eqb k' k) eqn:E.
    + apply String.eqb_eq in E. subst k'. split.
      * intros [H | H]; [inversion H; reflexivity |].
        exfalso. apply Hnotin. apply in_map_iff. exists (k, v). split; [reflexivity | exact H].
      * intros H; inversion H; subst. left; reflexivity.
    + apply String.eqb_neq in E. rewrite <- (IH Hnd'). split.
      * intros [H | H]; [inversion H; congruence | exact H].
      * intros H. right; exact H.
Qed.

Lemma nonempty_snoc {A} (l : list A) x : nonempty (l ++ [x]) = Some (l ++ [x]).
Proof. destruct l; reflexivity. Qed.

Lemma grouped_step p d f :
  grouped kf p d -> grouped kf (p ++ [f]) (group_step kf d f).
Proof.
  intros [Hnd Hget]. unfold group_step.
  destruct (kf f) as [k |] eqn:Ek.
  - split.
    + rewrite dict_append_keys. destruct (dict_mem d k) eqn:Em; [exact Hnd |].
      apply NoDup_app_remove_l with (l := []). simpl.
      apply Permutation_NoDup with (l := k :: map fst d).
      * apply Permutation_cons_append.
      * constructor; [| exact Hnd].
        rewrite <- dict_mem_iff. congruence.
    + intros k'. rewrite dict_get_append, filter_app. simpl.
      unfold has_key at 2. rewrite Ek.
      destruct (String.eqb k k') eqn:E.
      * apply String.eqb_eq in E. subst k'. rewrite Hget.
        rewrite nonempty_snoc.
        destruct (filter (has_key kf k) p); reflexivity.
      * rewrite app_nil_r. apply Hget.
  - split; [exact Hnd |]. intros k. rewrite filter_app. simpl.
    unfold has_key at 2. rewrite Ek. rewrite app_nil_r. apply Hget.
Qed.

Lemma grouped_fold files :
  forall p d, grouped kf p d -> grouped kf (p ++ files) (fold_left (group_step kf) files d).
Proof.
  induction files as [| f files IH]; intros p d H; simpl.
  - rewrite app_nil_r. exact H.
  - replace (p ++ f :: files) with ((p ++ [f]) ++ files)
      by (rewrite <- app_assoc; reflexivity).
    apply IH. apply grouped_step. exact H.
Qed.

Lemma grouped_nil : grouped kf [] [].
Proof. split; [constructor | reflexivity]. Qed.

Lemma grouped_entry p d k vs :
  grouped kf p d -> In (k, vs) d ->
  vs = filter (has_key kf k) p /\ vs <> [].
Proof.
  intros [Hnd Hget] Hin. apply (dict_get_In d k vs Hnd) in Hin.
  rewrite Hget in Hin. destruct (filter (has_key kf k) p); inversion Hin.
  split; [reflexivity | discriminate].
Qed.
End Grouping.
(** ** The Archive Set Locator *)

Lemma add_archive_file_group_step ignore d f :
  add_archive_file ignore d f = group_step (locator_key ignore) d f.
Proof.
  unfold add_archive_file, group_step, locator_key.
  destruct (_should_ignore ignore f); [reflexivity |].
  destruct (_get_archive_base_name f) as [b |]; [| reflexivity].
  destruct (String.eqb b ""); reflexivity.
Qed.

Lemma fold_add_archive_file ignore files :
  forall d, fold_left (add_archive_file ignore) files d
            = fold_left (group_step (locator_key ignore)) files d.
Proof.
  induction files as [| f files IH]; intros d; simpl; [reflexivity |].
  rewrite add_archive_file_group_step. apply IH.
Qed.

Lemma locator_key_base ignore f b :
  locator_key ignore f = Some b ->
  _should_ignore ignore f = false /\ _get_archive_base_name f = Some b.
Proof.
  unfold locator_key. destruct (_should_ignore ignore f); [discriminate |].
  destruct (_get_archive_base_name f) as [b' |]; [| discriminate].
  destruct (String.eqb b' ""); intros H; inversion H; subst. split; reflexivity.
Qed.

Lemma base_name_is_archive f b :
  _get_archive_base_name f = Some b ->
  PyStr.endswith f ".tar" = true \/ PyStr.contains ".tar." f = true.
Proof.
  unfold _get_archive_base_name.
  destruct (PyStr.endswith f ".tar"); [left; reflexivity |].
  destruct (PyStr.contains ".tar." f); [right; reflexivity | discriminate].
Qed.

Lemma has_key_iff kf k f : has_key kf k f = true <-> kf f = Some k.
Proof.
  unfold has_key. destruct (kf f) as [k' |]; [| split; discriminate].
  rewrite String.eqb_eq. split; congruence.
Qed.

(** What the Locator returns: a set is never empty, it is sorted by
    volume number, and it holds the files of the directory that are filed
    under its base name. *)
Lemma local_sets_entry ignore dir b set :
  In (b, set) (local_sets ignore dir) ->
  set <> [] /\
  StronglySorted volume_le set /\
  forall v, In v set <-> In v dir /\ locator_key ignore v = Some b.
Proof.
  unfold local_sets, group_archive_files. intros H.
  apply in_map_iff in H. destruct H as [[b' fs] [Heq Hin]]. simpl in Heq.
  inversion Heq; subst; clear Heq.
  rewrite !fold_add_archive_file in Hin.
  set (tars := filter (fun n => PyStr.endswith n ".tar") dir) in *.
  set (vols := filter (PyStr.contains ".tar.") dir) in *.
  pose proof (grouped_fold (locator_key ignore) tars [] [] (grouped_nil _)) as G1.
  pose proof (grouped_fold (locator_key ignore) vols _ _ G1) as G2.
  destruct (grouped_entry _ _ _ _ _ G2 Hin) as [Hfs Hne].
  split; [| split].
  - intros E. apply Hne. apply length_zero_iff_nil.
    rewrite <- (sort_by_length _get_volume_number Z.ltb), E. reflexivity.
  - apply volume_sort_sorted.
  - intros v. rewrite sort_by_In, Hfs, filter_In, has_key_iff. simpl.
    rewrite in_app_iff. unfold tars, vols. rewrite !filter_In. split.
    + intros [[[Hd _] | [Hd _]] Hk]; split; assumption.
    + intros [Hd Hk]. split; [| exact Hk].
      destruct (locator_key_base _ _ _ Hk) as [_ Hb].
      destruct (base_name_is_archive _ _ Hb); [left | right]; split; assumption.
Qed.

Lemma local_sets_keys ignore dir : NoDup (map fst (local_sets ignore dir)).
Proof.
  unfold local_sets, group_archive_files. rewrite map_map. simpl.
  rewrite !fold_add_archive_file.
  pose proof (grouped_fold (locator_key ignore)
                (filter (fun n => PyStr.endswith n ".tar") dir) [] [] (grouped_nil _)) as G1.
  pose proof (grouped_fold (locator_key ignore)
                (filter (PyStr.contains ".tar.") dir) _ _ G1) as G2.
  destruct G2 as [Hnd _]. exact Hnd.
Qed.

Lemma local_sets_prefix ignore dir b set v :
  In (b, set) (local_sets ignore dir) -> In v set -> PyStr.startswith v b = true.
Proof.
  intros H Hv. destruct (local_sets_entry _ _ _ _ H) as [_ [_ Hm]].
  apply Hm in Hv. destruct Hv as [_ Hk].
  apply base_name_prefix. apply (locator_key_base _ _ _ Hk).
Qed.

(** ** C10: a failing listing leads to the upload of every volume *)

Lemma upload_results_app d1 d2 :
  upload_results (d2 ++ d1) = upload_results d1 ++ upload_results d2.
Proof. apply observe_app. Qed.

Lemma check_result_state w ftp base rd s :
  exists r s1, _check_archive_exists_on_ftp w ftp base rd s = (r, s1).
Proof. destruct (_check_archive_exists_on_ftp w ftp base rd s) as [r s1]. eauto. Qed.

(** C10. If changing to the remote directory or listing it raises an
    error during the existence check, [_check_archive_exists_on_ftp]
    returns [(False, [])] instead of raising, and [_process_archive_set]
    calls the Executor for the volumes of the set from the first one on, in
    order, up to the first call that fails; the set succeeds only if every
    volume has been stored and size-verified. *)
Theorem C10_listing_error_uploads_all :
  forall (w : World) (ftp : session) (base_name remote_dir : string)
         (archive_set : list string) (s : State) (e : exn),
    is_Exception e = true ->
    (r_exn (w (clock s) (OpCwd ftp remote_dir)) = Some e \/
     (r_exn (w (clock s) (OpCwd ftp remote_dir)) = None /\
      r_exn (w (S (clock s)) (OpNlst ftp)) = Some e)) ->
    result_of (_check_archive_exists_on_ftp w ftp base_name remote_dir) s
    = Ok (false, []) /\
    let m := _process_archive_set w ftp base_name archive_set remote_dir in
    exists d,
      trace (state_after m s) = d ++ trace s /\
      uploads_in_order set_fail archive_set (upload_results d) (result_of m s) /\
      (result_of m s = Ok true ->
       forall v, In v archive_set -> stored_and_verified d v v).
Proof.
  intros w ftp b rd set s e He Hfail.
  assert (Hc : exists s1, _check_archive_exists_on_ftp w ftp b rd s = (Ok (false, []), s1)).
  { unfold _check_archive_exists_on_ftp, try_except, bind, perform.
    destruct Hfail as [Hcwd | [Hcwd Hnlst]].
    - rewrite Hcwd. unfold except_Exception. rewrite He. eexists; reflexivity.
    - rewrite Hcwd. cbn [clock tick log_event]. rewrite Hnlst.
      unfold except_Exception. rewrite He. eexists; reflexivity. }
  destruct Hc as [s1 Hc]. split; [unfold result_of; rewrite Hc; reflexivity |].
  intros m. subst m.
  destruct (check_spec w ftp b rd s false [] s1 Hc) as [d1 [Ht1 [Hu1 _]]].
  destruct (process_after_check w ftp b set rd s false [] s1 Hc) as [d [Ht [Hu Hv]]].
  simpl in Hu, Hv. exists (d ++ d1). split; [| split].
  - rewrite Ht, Ht1, app_assoc. reflexivity.
  - rewrite upload_results_app, Hu1. exact Hu.
  - intros Hr v Hin. specialize (Hv Hr v Hin).
    apply (stored_and_verified_mono d v v d1 []) in Hv. exact Hv.
Qed.

(** ** C5: the repair path *)

(** C5. For an archive set found by the Locator, when the remote listing
    holds some names with the set's prefix but not as many as there are
    local volumes, the Executor is called exactly for the local volumes
    whose names are absent from the listing, in ascending volume order, each
    call succeeding until the first that fails, which ends the set at once.
    In particular, with volumes 0, 1, 2 locally and volumes 0 and 1 in the
    listing, there is exactly one call, for volume 2. *)
Theorem C5_repair_uploads_missing :
  (forall (w : World) (ignore dir : list string) (ftp : session)
          (base_name remote_dir : string) (archive_set : list string) (s : State),
      In (base_name, archive_set) (local_sets ignore dir) ->
      r_exn (w (clock s) (OpCwd ftp remote_dir)) = None ->
      r_exn (w (S (clock s)) (OpNlst ftp)) = None ->
      let listing := r_names (w (S (clock s)) (OpNlst ftp)) in
      let existing := filter (fun f => PyStr.startswith f base_name) listing in
      existing <> [] ->
      length existing <> length archive_set ->
      let missing := filter (fun v => negb (str_in v listing)) archive_set in
      let m := _process_archive_set w ftp base_name archive_set remote_dir in
      StronglySorted volume_le missing /\
      exists d,
        trace (state_after m s) = d ++ trace s /\
        uploads_in_order set_fail missing (upload_results d) (result_of m s))
  /\
  (local_sets [] Scenario.repair_dir
   = [(Scenario.vol0, [Scenario.vol0; Scenario.vol1; Scenario.vol2])] /\
   let m := _process_archive_set Scenario.repair_world 0 Scenario.vol0
              [Scenario.vol0; Scenario.vol1; Scenario.vol2] "/backup" in
   result_of m (init_state Scenario.repair_dir) = Ok true /\
   upload_results (trace (state_after m (init_state Scenario.repair_dir)))
   = [(Scenario.vol2, Ok true)] /\
   stor_attempts (trace (state_after m (init_state Scenario.repair_dir)))
   = [Scenario.vol2]).
Proof.
  split.
  - intros w ignore dir ftp b rd set s Hloc Hcwd Hnlst listing existing Hne Hlen missing m.
    split.
    { apply StronglySorted_filter.
      apply (local_sets_entry _ _ _ _ Hloc). }
    assert (Hc : exists s1,
               _check_archive_exists_on_ftp w ftp b rd s = (Ok (true, existing), s1)).
    { unfold _check_archive_exists_on_ftp, try_except, bind, perform.
      rewrite Hcwd. cbn [clock tick log_event]. rewrite Hnlst. cbn [ret].
      fold listing. fold existing.
      destruct existing; [congruence |]. eexists; reflexivity. }
    destruct Hc as [s1 Hc].
    destruct (check_spec w ftp b rd s true existing s1 Hc) as [d1 [Ht1 [Hu1 _]]].
    destruct (process_after_check w ftp b set rd s true existing s1 Hc) as [d [Ht [Hu _]]].
    assert (Hmiss : volumes_to_upload true existing set = missing).
    { unfold volumes_to_upload.
      destruct (Nat.eqb_spec (length existing) (length set)); [congruence |].
      apply filter_ext_in. intros v Hv. f_equal.
      pose proof (local_sets_prefix _ _ _ _ v Hloc Hv) as Hp.
      destruct (str_in v listing) eqn:E.
      - apply str_in_iff. apply filter_In. split; [apply str_in_iff; exact E | exact Hp].
      - apply str_in_false_iff. intros Hin. apply filter_In in Hin.
        destruct Hin as [Hin _]. apply str_in_iff in Hin. congruence. }
    rewrite Hmiss in Hu. exists (d ++ d1). split.
    + subst m. rewrite Ht, Ht1, app_assoc. reflexivity.
    + rewrite upload_results_app, Hu1. exact Hu.
  - vm_compute. repeat split.
Qed.

(** ** C1: when a set is recorded as uploaded *)

Lemma listed_mono d v d1 d2 : listed d v -> listed (d2 ++ d ++ d1) v.
Proof.
  intros [sid [r [Hin Hr]]]. exists sid, r. split; [| exact Hr].
  apply in_or_app. right. apply in_or_app. left. exact Hin.
Qed.

Lemma count_matched_mono d b set d1 d2 :
  count_matched d b set -> count_matched (d2 ++ d ++ d1) b set.
Proof.
  intros [sid [r [Hin Hr]]]. exists sid, r. split; [| exact Hr].
  apply in_or_app. right. apply in_or_app. left. exact Hin.
Qed.

Lemma all_confirmed_mono d set d1 d2 :
  all_confirmed d set -> all_confirmed (d2 ++ d ++ d1) set.
Proof.
  intros H v Hv. destruct (H v Hv) as [Hl | Hs].
  - left. apply listed_mono; exact Hl.
  - right. apply stored_and_verified_mono; exact Hs.
Qed.

(** A set is processed successfully only if its count test passed on a
    listing or every volume is confirmed. *)
Lemma process_true_confirmed w ftp b set rd s :
  let m := _process_archive_set w ftp b set rd in
  result_of m s = Ok true ->
  exists d, trace (state_after m s) = d ++ trace s /\
            (count_matched d b set \/ all_confirmed d set).
Proof.
  intros m Hr. subst m.
  destruct (_check_archive_exists_on_ftp w ftp b rd s) as [[[ex existing] | e] s1] eqn:Hc.
  - destruct (check_spec w ftp b rd s ex existing s1 Hc) as [d1 [Ht1 [_ Hcase]]].
    destruct (process_after_check w ftp b set rd s ex existing s1 Hc) as [d [Ht [_ Hv]]].
    specialize (Hv Hr).
    exists (d ++ d1). split; [rewrite Ht, Ht1, app_assoc; reflexivity |].
    destruct Hcase as [[Hex [Hne [Hcwd [Hnlst [Hexi Hd1]]]]] | [Hex Hexi]]; subst ex.
    + unfold volumes_to_upload in Hv.
      destruct (Nat.eqb_spec (length existing) (length set)) as [Hlen | Hlen].
      * left. exists ftp, (w (S (clock s)) (OpNlst ftp)). split; [| split].
        -- apply in_or_app. right. rewrite Hd1. left. reflexivity.
        -- exact Hnlst.
        -- simpl. rewrite <- Hexi. split; assumption.
      * right. intros v Hin. destruct (str_in v existing) eqn:E.
        -- left. exists ftp, (w (S (clock s)) (OpNlst ftp)). split; [| split].
           ++ apply in_or_app. right. rewrite Hd1. left. reflexivity.
           ++ exact Hnlst.
           ++ apply str_in_iff in E. rewrite Hexi in E. apply filter_In in E. apply E.
        -- right. apply (stored_and_verified_mono d v v d1 []).
           apply Hv. apply filter_In. split; [exact Hin | rewrite E; reflexivity].
    + right. intros v Hin. right. apply (stored_and_verified_mono d v v d1 []).
      apply Hv. exact Hin.
  - exfalso. unfold result_of, _process_archive_set, try_except, bind in Hr.
    rewrite Hc in Hr. unfold except_Exception in Hr.
    destruct (is_Exception e); simpl in Hr; discriminate.
Qed.

(** The three ways an iteration of the loop of [run] can end. *)
Lemma process_one_spec w ftp rd b set s :
  let m := process_one w ftp rd (b, set) in
  exists d,
    trace (state_after m s) = d ++ trace s /\
    ((result_of m s = Ok tt /\
      successful_uploads (state_after m s) = set_add b (successful_uploads s) /\
      failed_uploads (state_after m s) = failed_uploads s /\
      (count_matched d b set \/ all_confirmed d set))
     \/
     (result_of m s = Ok tt /\
      successful_uploads (state_after m s) = successful_uploads s /\
      failed_uploads (state_after m s) = set_add b (failed_uploads s))
     \/
     (result_of m s = Raise KeyboardInterrupt /\
      successful_uploads (state_after m s) = successful_uploads s /\
      failed_uploads (state_after m s) = failed_uploads s)).
Proof.
  intros m. subst m.
  pose proof (process_true_confirmed w ftp b set rd s) as Htrue.
  pose proof (process_archive_set_raises w ftp b set rd s) as Hraise.
  assert (F : framed any_event (_process_archive_set w ftp b set rd))
    by (apply framed_process_archive_set; intros; exact I).
  destruct (F s) as [[d [Ht _]] [Hs Hf]]. clear F.
  simpl in Htrue.
  unfold process_one, state_after, result_of, try_except, bind, modify in *.
  destruct (_process_archive_set w ftp b set rd s) as [[[|] | e] s1]; simpl in *.
  - destruct (Htrue eq_refl) as [d' [Ht' Hc]]. exists d'. split; [exact Ht' |].
    left. repeat split; try assumption. rewrite Hs. reflexivity.
  - exists d. split; [exact Ht |]. right. left. repeat split; try assumption.
    rewrite Hf. reflexivity.
  - unfold interrupt_only in Hraise. subst e. simpl.
    exists d. split; [exact Ht |]. right. right. repeat split; assumption.
Qed.

(** *** The local directory during the setup *)

Lemma keeps_dir_ret {A} (a : A) : keeps_dir (ret a).
Proof. intros s. reflexivity. Qed.

Lemma keeps_dir_raise {A} e : keeps_dir (@raise A e).
Proof. intros s. reflexivity. Qed.

Lemma keeps_dir_get_state : keeps_dir get_state.
Proof. intros s. reflexivity. Qed.

Lemma keeps_dir_sleep z : keeps_dir (sleep z).
Proof. intros s. reflexivity. Qed.

Lemma keeps_dir_modify f : (forall s, local_dir (f s) = local_dir s) -> keeps_dir (modify f).
Proof. intros H s. apply H. Qed.

Lemma keeps_dir_perform w o : keeps_dir (perform w o).
Proof.
  intros s. unfold state_after, perform. destruct (r_exn (w (clock s) o)); reflexivity.
Qed.

Lemma keeps_dir_bind {A B} (m : M A) (f : A -> M B) :
  keeps_dir m -> (forall a, keeps_dir (f a)) -> keeps_dir (bind m f).
Proof.
  intros Hm Hf s. specialize (Hm s). unfold state_after, bind in *.
  destruct (m s) as [[a | e] s1]; simpl in *; [| exact Hm].
  rewrite <- Hm. apply Hf.
Qed.

Lemma keeps_dir_try_except {A} (body : M A) handler :
  keeps_dir body -> (forall e h, handler e = Some h -> keeps_dir h) ->
  keeps_dir (try_except body handler).
Proof.
  intros Hb Hh s. specialize (Hb s). unfold state_after, try_except in *.
  destruct (body s) as [[a | e] s1]; simpl in *; [exact Hb |].
  destruct (handler e) as [h |] eqn:E; [| exact Hb].
  rewrite <- Hb. apply (Hh e h E).
Qed.

Section Setup.
Variable w : World.

Lemma keeps_dir_connect_from n : keeps_dir (_connect_ftp_from w n).
Proof.
  assert (Hc : keeps_dir (connect_once w)).
  { unfold connect_once. apply keeps_dir_bind; [apply keeps_dir_get_state | intros s0].
    apply keeps_dir_bind; [apply keeps_dir_perform | intros _].
    apply keeps_dir_bind; [apply keeps_dir_modify; reflexivity | intros _].
    apply keeps_dir_ret. }
  induction n as [| n IH]; simpl; apply keeps_dir_try_except; try exact Hc;
    intros e h He; unfold except_Exception in He;
    destruct (is_Exception e); inversion He; subst.
  - apply keeps_dir_raise.
  - apply keeps_dir_bind; [apply keeps_dir_sleep | intros _; exact IH].
Qed.

Lemma keeps_dir_ensure_parts ftp parts : forall cur, keeps_dir (ensure_parts w ftp parts cur).
Proof.
  induction parts as [| part rest IH]; intros cur; simpl; [apply keeps_dir_ret |].
  apply keeps_dir_bind; [| intros _; apply IH].
  apply keeps_dir_try_except.
  - apply keeps_dir_bind; [apply keeps_dir_perform | intros _; apply keeps_dir_ret].
  - intros e h He. destruct e; inversion He; subst.
    apply keeps_dir_bind; [apply keeps_dir_perform | intros _; apply keeps_dir_ret].
Qed.

Lemma keeps_dir_ensure_remote_directory ftp path parts :
  keeps_dir (_ensure_remote_directory w ftp path parts).
Proof.
  unfold _ensure_remote_directory. apply keeps_dir_try_except.
  - apply keeps_dir_bind; [apply keeps_dir_perform | intros _; apply keeps_dir_ret].
  - intros e h He. destruct e; inversion He; subst.
    apply keeps_dir_bind; [apply keeps_dir_ensure_parts | intros _].
    apply keeps_dir_try_except.
    + apply keeps_dir_bind; [apply keeps_dir_perform | intros _; apply keeps_dir_ret].
    + intros e h He'. inversion He'; subst. apply keeps_dir_ret.
Qed.

Lemma glob_Ok_inv pattern matches s l s' :
  glob w pattern matches s = (Ok l, s') ->
  l = filter matches (local_dir s) /\ local_dir s' = local_dir s.
Proof.
  unfold glob. intros H. apply bind_Ok_inv in H. destruct H as [r [s1 [H1 H2]]].
  apply perform_Ok_inv in H1. destruct H1 as [_ [_ Hs1]]. subst s1.
  unfold bind, get_state, ret in H2. inversion H2; subst. split; reflexivity.
Qed.

Lemma locate_Ok_inv ignore s sets s' :
  _get_multi_volume_archives w ignore s = (Ok sets, s') ->
  sets = local_sets ignore (local_dir s).
Proof.
  unfold _get_multi_volume_archives. intros H.
  apply bind_Ok_inv in H. destruct H as [tars [s1 [H1 H]]].
  apply glob_Ok_inv in H1. destruct H1 as [Ht Hd1].
  apply bind_Ok_inv in H. destruct H as [vols [s2 [H2 H]]].
  apply glob_Ok_inv in H2. destruct H2 as [Hv Hd2].
  inversion H; subst. rewrite Hd1. reflexivity.
Qed.

(** The setup discovers the sets of the source directory and touches
    neither the accumulators nor the remote files. *)
Lemma run_setup_Ok cfg s ftp sets s1 :
  run_setup w cfg s = (Ok (ftp, sets), s1) ->
  sets = local_sets (ignore_patterns cfg) (local_dir s).
Proof.
  unfold run_setup. intros H.
  apply bind_Ok_inv in H. destruct H as [ftp0 [sa [Ha H]]].
  apply bind_Ok_inv in H. destruct H as [u [sb [Hb H]]].
  apply bind_Ok_inv in H. destruct H as [u' [sc [Hc H]]].
  apply bind_Ok_inv in H. destruct H as [sets0 [sd [Hd H]]].
  inversion H; subst. apply locate_Ok_inv in Hd. rewrite Hd. f_equal.
  pose proof (keeps_dir_ensure_remote_directory ftp (remote_dir cfg) (remote_parts cfg) sb) as K1.
  unfold state_after in K1. rewrite Hc in K1. simpl in K1. rewrite K1.
  unfold modify in Hb. inversion Hb; subst. simpl.
  pose proof (keeps_dir_connect_from 2 s) as K2.
  unfold state_after in K2. unfold _connect_ftp in Ha. rewrite Ha in K2. exact K2.
Qed.
End Setup.

(** *** The loop over the sets *)

Lemma in_set_add_l x y l : In y l -> In y (set_add x l).
Proof. intros H. apply set_add_In. right; exact H. Qed.

Lemma process_loop_spec w ftp rd sets :
  forall s,
    let m := for_each sets (process_one w ftp rd) in
    let s' := state_after m s in
    exists d,
      trace s' = d ++ trace s /\
      (forall b, In b (successful_uploads s') ->
                 In b (successful_uploads s) \/
                 exists set, In (b, set) sets /\
                             (count_matched d b set \/ all_confirmed d set)) /\
      (forall b, In b (successful_uploads s) -> In b (successful_uploads s')) /\
      (forall b, In b (failed_uploads s) -> In b (failed_uploads s')) /\
      (forall b, In b (failed_uploads s') ->
                 In b (failed_uploads s) \/ In b (map fst sets)) /\
      (result_of m s = Ok tt \/ result_of m s = Raise KeyboardInterrupt) /\
      (result_of m s = Ok tt ->
       forall b, In b (map fst sets) ->
                 In b (successful_uploads s') \/ In b (failed_uploads s')).
Proof.
  induction sets as [| [b0 set0] sets IH]; intros s m s'; subst m s'.
  - exists []. simpl. repeat split; auto. intros _ b [].
  - destruct (process_one_spec w ftp rd b0 set0 s) as [d1 [Ht1 Hcase]].
    cbn [for_each]. unfold state_after, result_of, bind in *.
    destruct (process_one w ftp rd (b0, set0) s) as [r1 s1] eqn:E1; cbn [fst snd] in *.
    destruct Hcase as [[Hr [Hs [Hf Hc]]] | [[Hr [Hs Hf]] | [Hr [Hs Hf]]]]; subst r1;
      cbn [fst snd].
    + (* the set is recorded as uploaded *)
      destruct (IH s1) as [d2 [Ht2 [Hsucc [Hks [Hkf [Hfail [Hres Hcov]]]]]]].
      unfold state_after, result_of in *.
      destruct (for_each sets (process_one w ftp rd) s1) as [r2 s2]; cbn [fst snd] in *.
      exists (d2 ++ d1). split; [rewrite Ht2, Ht1, app_assoc; reflexivity |].
      split; [| split; [| split; [| split; [| split]]]].
      * intros b Hb. destruct (Hsucc b Hb) as [Hin | [set [Hin Hc2]]].
        -- rewrite Hs in Hin. apply set_add_In in Hin. destruct Hin as [-> | Hin]; [| left; exact Hin].
           right. exists set0. split; [left; reflexivity |].
           destruct Hc as [Hc | Hc]; [left | right].
           ++ apply (count_matched_mono d1 b0 set0 [] d2) in Hc.
              rewrite app_nil_r in Hc. exact Hc.
           ++ apply (all_confirmed_mono d1 set0 [] d2) in Hc.
              rewrite app_nil_r in Hc. exact Hc.
        -- right. exists set. split; [right; exact Hin |].
           destruct Hc2 as [Hc2 | Hc2]; [left | right].
           ++ apply (count_matched_mono d2 b set d1 []) in Hc2. exact Hc2.
           ++ apply (all_confirmed_mono d2 set d1 []) in Hc2. exact Hc2.
      * intros b Hb. apply Hks. rewrite Hs. apply in_set_add_l; exact Hb.
      * intros b Hb. apply Hkf. rewrite Hf. exact Hb.
      * intros b Hb. destruct (Hfail b Hb) as [Hin | Hin].
        -- left. rewrite Hf in Hin. exact Hin.
        -- right. right. exact Hin.
      * exact Hres.
      * intros Hr2 b [Hb | Hb].
        -- subst b. left. apply Hks. rewrite Hs. apply set_add_In. left; reflexivity.
        -- apply Hcov; assumption.
    + (* the set is recorded as failed *)
      destruct (IH s1) as [d2 [Ht2 [Hsucc [Hks [Hkf [Hfail [Hres Hcov]]]]]]].
      unfold state_after, result_of in *.
      destruct (for_each sets (process_one w ftp rd) s1) as [r2 s2]; cbn [fst snd] in *.
      exists (d2 ++ d1). split; [rewrite Ht2, Ht1, app_assoc; reflexivity |].
      split; [| split; [| split; [| split; [| split]]]].
      * intros b Hb. destruct (Hsucc b Hb) as [Hin | [set [Hin Hc2]]].
        -- left. rewrite Hs in Hin. exact Hin.
        -- right. exists set. split; [right; exact Hin |].
           destruct Hc2 as [Hc2 | Hc2]; [left | right].
           ++ apply (count_matched_mono d2 b set d1 []) in Hc2. exact Hc2.
           ++ apply (all_confirmed_mono d2 set d1 []) in Hc2. exact Hc2.
      * intros b Hb. apply Hks. rewrite Hs. exact Hb.
      * intros b Hb. apply Hkf. rewrite Hf. apply in_set_add_l; exact Hb.
      * intros b Hb. destruct (Hfail b Hb) as [Hin | Hin].
        -- rewrite Hf in Hin. apply set_add_In in Hin.
           destruct Hin as [-> | Hin]; [right; left; reflexivity | left; exact Hin].
        -- right. right. exact Hin.
      * exact Hres.
      * intros Hr2 b [Hb | Hb].
        -- subst b. right. apply Hkf. rewrite Hf. apply set_add_In. left; reflexivity.
        -- apply Hcov; assumption.
    + (* the run is interrupted *)
      exists d1. split; [exact Ht1 |]. rewrite Hs, Hf.
      split; [| split; [| split; [| split; [| split]]]]; auto.
      discriminate.
Qed.

(** *** The phases of [run] *)

Lemma framed_delete_quietly w ftp f : framed any_event (delete_quietly w ftp f).
Proof.
  unfold delete_quietly. apply framed_try_except.
  - apply framed_bind; [apply framed_perform; intros; exact I | intros; apply framed_ret].
  - apply framed_except_Exception. apply framed_ret.
Qed.

Lemma framed_cleanup_old_ftp_backups w ftp rd k :
  framed any_event (_cleanup_old_ftp_backups w ftp rd k).
Proof.
  unfold _cleanup_old_ftp_backups. apply framed_try_except.
  - apply framed_bind; [apply framed_perform; intros; exact I | intros _].
    apply framed_bind; [apply framed_perform; intros; exact I | intros r].
    apply framed_bind; [apply framed_get_state | intros s0].
    apply framed_for_each. intros x _. apply framed_for_each. intros f _.
    apply framed_delete_quietly.
  - apply framed_except_Exception. apply framed_ret.
Qed.

Lemma extends_trace P s s' : extends P s s' -> trace_extends P s s'.
Proof. intros [H _]. exact H. Qed.

Lemma trace_extends_refl P s : trace_extends P s s.
Proof. exists []. split; [reflexivity | constructor]. Qed.

Lemma trace_extends_trans P s1 s2 s3 :
  trace_extends P s1 s2 -> trace_extends P s2 s3 -> trace_extends P s1 s3.
Proof.
  intros [d1 [H1 F1]] [d2 [H2 F2]]. exists (d2 ++ d1). split.
  - rewrite H2, H1, app_assoc. reflexivity.
  - apply Forall_app; split; assumption.
Qed.

Lemma process_one_quiet w ftp rd e s :
  trace_extends not_delete_event s (state_after (process_one w ftp rd e) s).
Proof.
  destruct e as [b set].
  assert (F : framed not_delete_event (_process_archive_set w ftp b set rd))
    by (apply framed_process_archive_set; intros; reflexivity).
  destruct (F s) as [Ht _]. clear F.
  unfold process_one, state_after, try_except, bind, modify in *.
  destruct (_process_archive_set w ftp b set rd s) as [[[|] | e] s1]; simpl in *;
    try exact Ht.
  destruct e; simpl; exact Ht.
Qed.

Lemma process_loop_quiet w ftp rd sets :
  forall s, trace_extends not_delete_event s
                          (state_after (for_each sets (process_one w ftp rd)) s).
Proof.
  induction sets as [| e sets IH]; intros s; [apply trace_extends_refl |].
  pose proof (process_one_quiet w ftp rd e s) as H1.
  cbn [for_each]. unfold state_after, bind in *.
  destruct (process_one w ftp rd e s) as [[u | x] s1]; cbn [fst snd] in *; [| exact H1].
  eapply trace_extends_trans; [exact H1 | apply IH].
Qed.

(** [run] ends in the state its [finally] block leaves after the [try]
    block, and turns an error of the [try] block into the return code 2. *)
Lemma run_decompose w cfg s0 :
  state_after (run w cfg) s0
  = state_after (run_finally w) (state_after (run_try w cfg) s0) /\
  result_of (run w cfg) s0
  = match result_of (run_try w cfg) s0 with
    | Ok r => Ok r
    | Raise e => if is_Exception e then Ok (Some 2%Z) else Raise e
    end.
Proof.
  unfold run, try_finally, try_except, state_after, result_of.
  destruct (run_try w cfg s0) as [[r | e] s1]; cbn [fst snd].
  - pose proof (run_finally_raises w s1) as H. unfold result_of in H.
    destruct (run_finally w s1) as [[u | e] s2]; [split; reflexivity | destruct H].
  - unfold except_Exception. destruct (is_Exception e); cbn [ret fst snd];
      pose proof (run_finally_raises w s1) as H; unfold result_of in H;
      destruct (run_finally w s1) as [[u | e'] s2]; try (split; reflexivity);
      destruct H.
Qed.

(** What follows the loop over the sets. *)
Lemma run_sets_after_loop w cfg ftp sets s :
  let loop := for_each sets (process_one w ftp (remote_dir cfg)) in
  let m := run_sets w cfg ftp sets in
  extends any_event (state_after loop s) (state_after m s) /\
  (successful_uploads (state_after loop s) = [] ->
   trace_extends not_delete_event (state_after loop s) (state_after m s)) /\
  (result_of loop s = Raise KeyboardInterrupt -> result_of m s = Raise KeyboardInterrupt) /\
  (result_of loop s = Ok tt ->
   result_of m s = Raise KeyboardInterrupt \/
   (result_of m s = Ok (Some 0%Z) /\ failed_uploads (state_after m s) = []) \/
   (result_of m s = Ok (Some 1%Z) /\ failed_uploads (state_after m s) <> [])).
Proof.
  intros loop m. subst loop m. unfold run_sets, state_after, result_of, bind.
  destruct (for_each sets (process_one w ftp (remote_dir cfg)) s) as [[[] | e] s2];
    cbn [fst snd get_state].
  2:{ split; [apply extends_refl |]. split; [intros _; apply trace_extends_refl |].
      split; [intros H; inversion H; reflexivity | discriminate]. }
  destruct (successful_uploads s2) as [| b0 succ] eqn:Es.
  - cbn [ret]. destruct (failed_uploads s2) eqn:Ef; cbn [ret fst snd];
      (split; [apply extends_refl |]; split; [intros _; apply trace_extends_refl |];
       split; [discriminate | intros _]).
    + right; left. split; [reflexivity | exact Ef].
    + right; right. split; [reflexivity | rewrite Ef; discriminate].
  - pose proof (framed_cleanup_old_ftp_backups w ftp (remote_dir cfg) (max_copies cfg) s2) as F1.
    pose proof (cleanup_old_ftp_backups_raises w ftp (remote_dir cfg) (max_copies cfg) s2) as R1.
    unfold state_after, result_of in F1, R1.
    destruct (_cleanup_old_ftp_backups w ftp (remote_dir cfg) (max_copies cfg) s2)
      as [[[] | e] s3]; cbn [fst snd] in *.
    2:{ split; [exact F1 |]. split; [discriminate |]. split; [discriminate |].
        intros _. left. unfold interrupt_only in R1. subst e. reflexivity. }
    assert (F2' : framed any_event (_cleanup_local_archives w))
      by (apply framed_cleanup_local_archives; intros; exact I).
    pose proof (F2' s3) as F2. clear F2'.
    pose proof (cleanup_local_archives_raises w s3) as R2.
    unfold state_after, result_of in F2, R2.
    destruct (_cleanup_local_archives w s3) as [[[] | e] s4]; cbn [fst snd] in *.
    2:{ split; [eapply extends_trans; eassumption |]. split; [discriminate |].
        split; [discriminate |].
        intros _. left. unfold interrupt_only in R2. subst e. reflexivity. }
    destruct (failed_uploads s4) eqn:Ef; cbn [ret fst snd];
      (split; [eapply extends_trans; eassumption |]; split; [discriminate |];
       split; [discriminate | intros _]).
    + right; left. split; [reflexivity | exact Ef].
    + right; right. split; [reflexivity | rewrite Ef; discriminate].
Qed.
Lemma run_try_successful w cfg s0 b :
  successful_uploads s0 = [] ->
  In b (successful_uploads (state_after (run_try w cfg) s0)) ->
  exists archive_set d,
    In (b, archive_set) (local_sets (ignore_patterns cfg) (local_dir s0)) /\
    trace (state_after (run_try w cfg) s0) = d ++ trace s0 /\
    (count_matched d b archive_set \/ all_confirmed d archive_set).
Proof.
  intros Hs0 Hb.
  assert (F' : framed any_event (run_setup w cfg))
    by (apply framed_run_setup; intros; exact I).
  pose proof (F' s0) as F. clear F'.
  pose proof (run_setup_Ok w cfg s0) as Hsets.
  unfold run_try, state_after, bind in *.
  destruct (run_setup w cfg s0) as [[[ftp sets] | e] s1]; cbn [fst snd] in *.
  2:{ destruct F as [_ [F _]]. rewrite F, Hs0 in Hb. destruct Hb. }
  specialize (Hsets ftp sets s1 eq_refl).
  destruct sets as [| e0 sets'] eqn:Esets.
  { cbn [ret snd] in Hb. destruct F as [_ [F _]]. rewrite F, Hs0 in Hb. destruct Hb. }
  rewrite <- Esets in *. clear Esets e0 sets'.
  destruct (process_loop_spec w ftp (remote_dir cfg) sets s1)
    as [d2 [Ht2 [Hsucc _]]].
  destruct (run_sets_after_loop w cfg ftp sets s1) as [[[d3 [Ht3 _]] [Hs3 _]] _].
  unfold state_after in *.
  rewrite Hs3 in Hb. destruct (Hsucc b Hb) as [Hin | [set [Hin Hc]]].
  { destruct F as [_ [F _]]. rewrite F, Hs0 in Hin. destruct Hin. }
  destruct F as [[d1 [Ht1 _]] _].
  exists set, (d3 ++ d2 ++ d1). split; [rewrite <- Hsets; exact Hin |]. split.
  - rewrite Ht3, Ht2, Ht1, !app_assoc. reflexivity.
  - destruct Hc as [Hc | Hc]; [left | right].
    + apply count_matched_mono. exact Hc.
    + apply all_confirmed_mono. exact Hc.
Qed.

(** C1, as the code has it.  In every run, a set whose [base_name] ends
    up in [successful_uploads] is a set the Locator found, and either the
    count test of the Reconciler passed for it on a remote listing (as many
    names with the set's prefix as local volumes, and at least one), or
    every local volume of the set appeared in a remote listing or was
    stored and size-verified during this run. *)
Theorem C1_uploaded_only_if_counted_or_confirmed :
  forall (w : World) (cfg : Config) (dir : list string) (b : string),
    let s := state_after (run w cfg) (init_state dir) in
    In b (successful_uploads s) ->
    exists archive_set,
      In (b, archive_set) (local_sets (ignore_patterns cfg) dir) /\
      (forall v, In v archive_set <->
                 In v dir /\ locator_key (ignore_patterns cfg) v = Some b) /\
      (count_matched (trace s) b archive_set \/ all_confirmed (trace s) archive_set).
Proof.
  intros w cfg dir b s Hb. subst s.
  destruct (run_decompose w cfg (init_state dir)) as [Hst _]. rewrite Hst in *.
  assert (F : framed any_event (run_finally w))
    by (apply framed_run_finally; intros; exact I).
  destruct (F (state_after (run_try w cfg) (init_state dir))) as [[d4 [Ht4 _]] [Hs4 _]].
  rewrite Hs4 in Hb.
  destruct (run_try_successful w cfg (init_state dir) b eq_refl Hb)
    as [set [d [Hin [Ht Hc]]]].
  simpl in Hin, Ht. rewrite app_nil_r in Ht.
  exists set. split; [exact Hin |]. split; [apply (local_sets_entry _ _ _ _ Hin) |].
  rewrite Ht4, Ht.
  destruct Hc as [Hc | Hc]; [left | right].
  - apply (count_matched_mono d b set [] d4) in Hc. rewrite app_nil_r in Hc. exact Hc.
  - apply (all_confirmed_mono d set [] d4) in Hc. rewrite app_nil_r in Hc. exact Hc.
Qed.

Lemma stored_and_verified_stor tr l r :
  stored_and_verified tr l r -> In r (stor_attempts tr).
Proof.
  intros [sid [r1 [r2 [r3 [n [newer [older [H _]]]]]]]]. subst tr.
  unfold stor_attempts. rewrite observe_app, !observe_cons.
  rewrite !in_app_iff. simpl. tauto.
Qed.

Lemma listed_listed_b tr v : listed tr v -> listed_b tr v = true.
Proof.
  intros [sid [r [Hin [He Hn]]]]. unfold listed_b. apply existsb_exists.
  exists (EvOp (OpNlst sid) r). split; [exact Hin |].
  rewrite He. apply str_in_iff. exact Hn.
Qed.

(** C1, as the specification words it, fails: the count test passes on a
    listing that holds volume 0 and a leftover of volume 1 under another
    name, so the set is recorded as uploaded although volume 1 is neither
    listed nor uploaded. *)
Lemma C1_counterexample :
  ~ uploaded_means_confirmed Scenario.skip_world Scenario.cfg Scenario.skip_dir.
Proof.
  unfold uploaded_means_confirmed. intros H.
  specialize (H Scenario.skip_v0 [Scenario.skip_v0; Scenario.skip_v1]).
  assert (Hsucc : In Scenario.skip_v0
                     (successful_uploads
                        (state_after (run Scenario.skip_world Scenario.cfg)
                                     (init_state Scenario.skip_dir)))).
  { vm_compute. left; reflexivity. }
  assert (Hloc : In (Scenario.skip_v0, [Scenario.skip_v0; Scenario.skip_v1])
                    (local_sets (ignore_patterns Scenario.cfg) Scenario.skip_dir)).
  { vm_compute. left; reflexivity. }
  specialize (H Hsucc Hloc Scenario.skip_v1 (or_intror (or_introl eq_refl))).
  destruct H as [Hl | Hsv].
  - apply listed_listed_b in Hl. vm_compute in Hl. discriminate.
  - apply stored_and_verified_stor in Hsv. vm_compute in Hsv. exact Hsv.
Qed.

(** The run of that scenario does record the set as uploaded. *)
Lemma C1_witness :
  exists archive_set,
    In (Scenario.skip_v0, archive_set)
       (local_sets (ignore_patterns Scenario.cfg) Scenario.skip_dir) /\
    (forall v, In v archive_set <->
               In v Scenario.skip_dir /\
               locator_key (ignore_patterns Scenario.cfg) v = Some Scenario.skip_v0) /\
    (count_matched
       (trace (state_after (run Scenario.skip_world Scenario.cfg)
                           (init_state Scenario.skip_dir)))
       Scenario.skip_v0 archive_set \/
     all_confirmed
       (trace (state_after (run Scenario.skip_world Scenario.cfg)
                           (init_state Scenario.skip_dir)))
       archive_set).
Proof.
  apply (C1_uploaded_only_if_counted_or_confirmed
           Scenario.skip_world Scenario.cfg Scenario.skip_dir Scenario.skip_v0).
  vm_compute. left; reflexivity.
Defined.

(** ** C6: the retry policy of the Transfer Executor *)

Lemma stor_attempts_app d1 d2 :
  stor_attempts (d2 ++ d1) = stor_attempts d1 ++ stor_attempts d2.
Proof. apply observe_app. Qed.

Lemma no_stor_attempts d : Forall not_stor_event d -> stor_attempts d = [].
Proof.
  induction d as [| ev d IH]; intros H; [reflexivity |].
  inversion H; subst. unfold stor_attempts in *. rewrite observe_cons, IH by assumption.
  destruct ev as [o r | z | n r]; simpl in *; try reflexivity.
  destruct o; simpl in *; try reflexivity. contradiction.
Qed.

Lemma stores_framed {A} (m : M A) : framed not_stor_event m -> stores_at_most 0 m.
Proof.
  intros H s. destruct (H s) as [[d [Ht HF]] _]. exists d. split; [exact Ht |].
  rewrite (no_stor_attempts d HF). simpl. lia.
Qed.

Lemma stores_weaken {A} n n' (m : M A) :
  n <= n' -> stores_at_most n m -> stores_at_most n' m.
Proof.
  intros Hle H s. destruct (H s) as [d [Ht Hn]]. exists d. split; [exact Ht | lia].
Qed.

Lemma stores_bind {A B} n1 n2 (m : M A) (f : A -> M B) :
  stores_at_most n1 m -> (forall a, stores_at_most n2 (f a)) ->
  stores_at_most (n1 + n2) (bind m f).
Proof.
  intros Hm Hf s. destruct (Hm s) as [d1 [Ht1 Hn1]].
  unfold state_after, bind in *. destruct (m s) as [[a | e] s1]; cbn [fst snd] in *.
  - destruct (Hf a s1) as [d2 [Ht2 Hn2]]. exists (d2 ++ d1). split.
    + unfold state_after in Ht2. rewrite Ht2, Ht1, app_assoc. reflexivity.
    + rewrite stor_attempts_app, length_app. lia.
  - exists d1. split; [exact Ht1 | lia].
Qed.

Lemma stores_try_except {A} n1 n2 (body : M A) handler :
  stores_at_most n1 body ->
  (forall e h, handler e = Some h -> stores_at_most n2 h) ->
  stores_at_most (n1 + n2) (try_except body handler).
Proof.
  intros Hb Hh s. destruct (Hb s) as [d1 [Ht1 Hn1]].
  unfold state_after, try_except in *. destruct (body s) as [[a | e] s1]; cbn [fst snd] in *.
  - exists d1. split; [exact Ht1 | lia].
  - destruct (handler e) as [h |] eqn:E.
    + destruct (Hh e h E s1) as [d2 [Ht2 Hn2]]. exists (d2 ++ d1). split.
      * unfold state_after in Ht2. rewrite Ht2, Ht1, app_assoc. reflexivity.
      * rewrite stor_attempts_app, length_app. lia.
    + exists d1. split; [exact Ht1 | lia].
Qed.

Section RetryPolicy.
Variable w : World.

Ltac no_stor := apply stores_framed; first
  [ apply framed_stat | apply framed_verify | apply framed_quit_quietly
  | apply framed_connect | apply framed_perform | apply framed_sleep
  | apply framed_ret ]; intros; exact I.

Ltac no_stor_seq :=
  first [ no_stor | apply (stores_bind 0 0); [no_stor | intros ?; no_stor_seq] ].

Lemma upload_try_stores ftp lf rf rd : stores_at_most 1 (upload_try w ftp lf rf rd).
Proof.
  unfold upload_try.
  apply (stores_bind 0 1); [no_stor | intros _].
  apply (stores_bind 0 1); [no_stor | intros _].
  apply (stores_bind 0 1); [no_stor | intros _].
  apply (stores_bind 1 0); [| intros _; no_stor].
  intros s. exists [EvOp (OpStor ftp rf) (w (clock s) (OpStor ftp rf))].
  unfold state_after, perform. split; [| simpl; lia].
  destruct (r_exn (w (clock s) (OpStor ftp rf))); reflexivity.
Qed.

Lemma upload_attempt_stores mr attempt ftp lf rf rd :
  stores_at_most 1 (upload_attempt w mr attempt ftp lf rf rd).
Proof.
  unfold upload_attempt. apply (stores_try_except 1 0).
  - apply (stores_bind 1 0); [apply upload_try_stores | intros b].
    destruct b; no_stor.
  - intros e h He. destruct e; inversion He; subst; clear He;
      destruct (attempt <? mr - 1)%nat; no_stor_seq.
Qed.

Lemma upload_loop_stores mr lf rf rd attempts :
  forall ftp, stores_at_most (length attempts) (upload_loop w mr attempts ftp lf rf rd).
Proof.
  induction attempts as [| a rest IH]; intros ftp; simpl.
  - no_stor.
  - apply (stores_bind 1 (length rest)); [apply upload_attempt_stores | intros st].
    destruct st; [| apply IH].
    apply stores_weaken with (n := 0); [lia | no_stor].
Qed.

(** At most [max_retries] storage attempts per call of the Executor. *)
Lemma upload_stores ftp lf rf rd mr :
  stores_at_most mr (_upload_file_to_ftp_with_retry w ftp lf rf rd mr).
Proof.
  intros s. destruct (upload_loop_stores mr lf rf rd (seq 0 mr) ftp s) as [d [Ht Hn]].
  rewrite length_seq in Hn.
  unfold state_after, _upload_file_to_ftp_with_retry in *.
  destruct (upload_loop w mr (seq 0 mr) ftp lf rf rd s) as [r s1]; cbn [fst snd] in *.
  exists (EvUpload rf r :: d). split; [simpl; rewrite Ht; reflexivity |].
  unfold stor_attempts in *. rewrite observe_cons. simpl. rewrite app_nil_r. exact Hn.
Qed.

Lemma connect_once_cases s :
  let r := w (clock s) (OpConnect (next_session s)) in
  let s1 := log_event (EvOp (OpConnect (next_session s)) r) (tick s) in
  connect_once w s
  = match r_exn r with
    | Some e => (Raise e, s1)
    | None => (Ok (next_session s), new_session s1)
    end.
Proof.
  unfold connect_once, bind, get_state, perform, modify, ret. cbn [next_session].
  destruct (r_exn (w (clock s) (OpConnect (next_session s)))); reflexivity.
Qed.

(** The loop of [_connect_ftp], one attempt unrolled. *)
Lemma connect_from_unfold n s :
  let r := w (clock s) (OpConnect (next_session s)) in
  let s1 := log_event (EvOp (OpConnect (next_session s)) r) (tick s) in
  _connect_ftp_from w n s
  = match r_exn r with
    | None => (Ok (next_session s), new_session s1)
    | Some e =>
        if is_Exception e then
          match n with
          | O => (Raise ConnectionError, s1)
          | S n' => _connect_ftp_from w n' (log_event (EvSleep 5) s1)
          end
        else (Raise e, s1)
    end.
Proof.
  pose proof (connect_once_cases s) as H. cbv zeta in *.
  destruct n; cbn [_connect_ftp_from]; unfold try_except; rewrite H;
    destruct (r_exn (w (clock s) (OpConnect (next_session s)))) as [e |];
    try reflexivity; unfold except_Exception; destruct (is_Exception e); reflexivity.
Qed.

(** The reconnection logs only connection attempts and their pauses;
    when it returns a session, opening it is the newest event. *)
Lemma connect_from_spec n :
  forall s,
    let m := _connect_ftp_from w n in
    exists d,
      trace (state_after m s) = d ++ trace s /\ Forall connect_event d /\
      forall ftp', result_of m s = Ok ftp' ->
                   exists r older, d = EvOp (OpConnect ftp') r :: older /\ r_exn r = None.
Proof.
  induction n as [| n IH]; intros s m; subst m;
    unfold state_after, result_of; rewrite connect_from_unfold;
    destruct (r_exn (w (clock s) (OpConnect (next_session s)))) as [e |] eqn:E;
    try (eexists [_]; split; [reflexivity |]; split;
         [constructor; [exact I | constructor] |];
         intros ftp' H; inversion H; subst; eexists _, []; split; [reflexivity | exact E]).
  - destruct (is_Exception e);
      (eexists [_]; split; [reflexivity |]; split;
       [constructor; [exact I | constructor] | discriminate]).
  - destruct (is_Exception e).
    + destruct (IH (log_event (EvSleep 5)
                      (log_event (EvOp (OpConnect (next_session s))
                                       (w (clock s) (OpConnect (next_session s))))
                                 (tick s)))) as [d [Ht [HF Hok]]].
      unfold state_after, result_of in Ht, Hok.
      exists (d ++ [EvSleep 5; EvOp (OpConnect (next_session s))
                             (w (clock s) (OpConnect (next_session s)))]).
      split; [rewrite Ht, <- app_assoc; reflexivity |]. split.
      * apply Forall_app. split; [exact HF |].
        constructor; [reflexivity |]. constructor; [exact I | constructor].
      * intros ftp' H. destruct (Hok ftp' H) as [r0 [older [Hd Hr]]].
        subst d. eexists r0, _. split; [reflexivity | exact Hr].
    + eexists [_]. split; [reflexivity |]. split;
        [constructor; [exact I | constructor] | discriminate].
Qed.
End RetryPolicy.
Section RetryPolicy2.
Variable w : World.

Lemma quit_quietly_eq ftp s :
  quit_quietly w ftp s
  = (Ok tt, log_event (EvOp (OpQuit ftp) (w (clock s) (OpQuit ftp))) (tick s)).
Proof.
  unfold quit_quietly, try_except, bind, perform.
  destruct (r_exn (w (clock s) (OpQuit ftp))); reflexivity.
Qed.



End RetryPolicy2.


(** ** C7: what can leave the Transfer Executor *)

Lemma grows_of_framed {A} (m : M A) :
  framed any_event m -> forall s, exists d, trace (state_after m s) = d ++ trace s.
Proof. intros H s. destruct (H s) as [[d [Ht _]] _]. exists d. exact Ht. Qed.

Lemma raises_from_ret w C {A} (a : A) : raises_from w C (ret a).
Proof. intros s. exact I. Qed.

Lemma raises_from_sleep w C z : raises_from w C (sleep z).
Proof. intros s. exact I. Qed.

Lemma raises_from_perform w (C : Op -> Reply -> exn -> Prop) o :
  (forall t e, r_exn (w t o) = Some e -> C o (w t o) e) ->
  raises_from w C (perform w o).
Proof.
  intros H s. unfold result_of, state_after, perform.
  destruct (r_exn (w (clock s) o)) as [e |] eqn:E; cbn [fst snd]; [| exact I].
  exists o, (clock s), []. split; [reflexivity | apply H; exact E].
Qed.

Lemma raises_from_bind w C {A B} (m : M A) (f : A -> M B) :
  framed any_event m ->
  raises_from w C m -> (forall a, raises_from w C (f a)) ->
  raises_from w C (bind m f).
Proof.
  intros Hg Hm Hf s. specialize (Hm s). destruct (grows_of_framed m Hg s) as [d1 Ht1].
  unfold result_of, state_after, bind in *.
  destruct (m s) as [[a | e] s1]; cbn [fst snd] in *; [| exact Hm].
  specialize (Hf a s1). unfold result_of, state_after in Hf.
  destruct (f a s1) as [[b | e] s2]; cbn [fst snd] in *; [exact I |].
  destruct Hf as [o [t [d [Ht HC]]]]. exists o, t, (d ++ d1). split; [| exact HC].
  rewrite Ht, Ht1, app_assoc. reflexivity.
Qed.

Lemma raises_from_try_except w (Cb C : Op -> Reply -> exn -> Prop) {A}
      (body : M A) handler :
  framed any_event body ->
  raises_from w Cb body ->
  (forall e, handler e = None -> forall o r, Cb o r e -> C o r e) ->
  (forall e h, handler e = Some h -> raises_from w C h) ->
  raises_from w C (try_except body handler).
Proof.
  intros Hg Hb Hnone Hsome s. specialize (Hb s).
  destruct (grows_of_framed body Hg s) as [d1 Ht1].
  unfold result_of, state_after, try_except in *.
  destruct (body s) as [[a | e] s1]; cbn [fst snd] in *; [exact I |].
  destruct (handler e) as [h |] eqn:E.
  - specialize (Hsome e h E s1). unfold result_of, state_after in Hsome.
    destruct (h s1) as [[b | e'] s2]; cbn [fst snd] in *; [exact I |].
    destruct Hsome as [o [t [d [Ht HC]]]]. exists o, t, (d ++ d1). split; [| exact HC].
    rewrite Ht, Ht1, app_assoc. reflexivity.
  - cbn [fst snd]. destruct Hb as [o [t [d [Ht HC]]]]. exists o, t, d.
    split; [exact Ht | apply Hnone; assumption].
Qed.

Section ExecutorBoundary.
Variable w : World.

Local Ltac any_frame lem := apply lem; intros; exact I.

Lemma replied_perform o : not_quit o -> raises_from w replied (perform w o).
Proof.
  intros Hq. apply raises_from_perform. intros t e H. split; [left; exact H | exact Hq].
Qed.

Lemma stat_raises_from f : raises_from w replied (stat w f).
Proof.
  assert (Hq : not_quit (OpStat f)) by (intros sid; discriminate).
  intros s. unfold result_of, state_after, stat, bind, perform.
  destruct (r_exn (w (clock s) (OpStat f))) as [e |] eqn:E; cbn [fst snd].
  - exists (OpStat f), (clock s), []. split; [reflexivity |]. split; [left; exact E | exact Hq].
  - destruct (r_size (w (clock s) (OpStat f))); cbn [ret raise fst snd]; [exact I |].
    exists (OpStat f), (clock s), []. split; [reflexivity |].
    split; [right; reflexivity | exact Hq].
Qed.

Lemma verify_raises_from ftp lf rf :
  raises_from w replied (_verify_file_integrity w ftp lf rf).
Proof.
  unfold _verify_file_integrity.
  apply raises_from_try_except with (Cb := replied).
  - apply framed_bind; [any_frame framed_stat | intros n].
    apply framed_bind; [apply framed_perform; intros; exact I | intros r].
    destruct (r_size r); [destruct (negb _) |]; apply framed_ret.
  - apply raises_from_bind; [any_frame framed_stat | apply stat_raises_from | intros n].
    apply raises_from_bind;
      [apply framed_perform; intros; exact I
      | apply replied_perform; intros sid; discriminate | intros r].
    destruct (r_size r); [destruct (negb _) |]; apply raises_from_ret.
  - intros e _ o r H. exact H.
  - intros e h He. unfold except_Exception in He.
    destruct (is_Exception e); inversion He; subst. apply raises_from_ret.
Qed.

Lemma upload_try_raises_from ftp lf rf rd :
  raises_from w replied (upload_try w ftp lf rf rd).
Proof.
  unfold upload_try.
  apply raises_from_bind;
    [apply framed_perform; intros; exact I
    | apply replied_perform; intros sid; discriminate | intros _].
  apply raises_from_bind; [any_frame framed_stat | apply stat_raises_from | intros _].
  apply raises_from_bind;
    [apply framed_perform; intros; exact I
    | apply replied_perform; intros sid; discriminate | intros _].
  apply raises_from_bind;
    [apply framed_perform; intros; exact I
    | apply replied_perform; intros sid; discriminate | intros _].
  apply verify_raises_from.
Qed.

Lemma quit_quietly_raises_from C ftp : raises_from w C (quit_quietly w ftp).
Proof.
  intros s. pose proof (quit_quietly_raises w ftp s) as H.
  destruct (result_of (quit_quietly w ftp) s); [exact I | destruct H].
Qed.

Lemma connect_from_raises_from n : raises_from w executor_cause (_connect_ftp_from w n).
Proof.
  induction n as [| n IH]; intros s;
    unfold state_after, result_of; rewrite connect_from_unfold;
    destruct (r_exn (w (clock s) (OpConnect (next_session s)))) as [e |] eqn:E;
    try exact I.
  - destruct (is_Exception e) eqn:Ee; cbn [fst snd].
    + exists (OpConnect (next_session s)), (clock s), []. split; [reflexivity |].
      right. split; [reflexivity |]. split; [eexists; reflexivity |].
      exists e. split; assumption.
    + exists (OpConnect (next_session s)), (clock s), []. split; [reflexivity |].
      left. destruct e; try discriminate.
      split; [reflexivity |]. split; [exact E | intros sid; discriminate].
  - destruct (is_Exception e) eqn:Ee; cbn [fst snd].
    + specialize (IH (log_event (EvSleep 5)
                        (log_event (EvOp (OpConnect (next_session s))
                                         (w (clock s) (OpConnect (next_session s))))
                                   (tick s)))).
      unfold state_after, result_of in IH.
      destruct (_connect_ftp_from w n _) as [[a | e'] s2]; cbn [fst snd] in *; [exact I |].
      destruct IH as [o [t [d [Ht HC]]]].
      exists o, t, (d ++ [EvSleep 5; EvOp (OpConnect (next_session s))
                                    (w (clock s) (OpConnect (next_session s)))]).
      split; [rewrite Ht, <- app_assoc; reflexivity | exact HC].
    + exists (OpConnect (next_session s)), (clock s), []. split; [reflexivity |].
      left. destruct e; try discriminate.
      split; [reflexivity |]. split; [exact E | intros sid; discriminate].
Qed.

Lemma replied_interrupt o r :
  replied o r KeyboardInterrupt -> executor_cause o r KeyboardInterrupt.
Proof.
  intros [[H | H] Hq]; [| discriminate].
  left. split; [reflexivity |]. split; [exact H | exact Hq].
Qed.

Lemma upload_attempt_raises_from mr i ftp lf rf rd :
  raises_from w executor_cause (upload_attempt w mr i ftp lf rf rd).
Proof.
  unfold upload_attempt. apply raises_from_try_except with (Cb := replied).
  - apply framed_bind; [any_frame framed_upload_try | intros b].
    destruct b; apply framed_ret.
  - apply raises_from_bind;
      [any_frame framed_upload_try | apply upload_try_raises_from | intros b].
    destruct b; apply raises_from_ret.
  - intros e He o r H. destruct e; try discriminate. apply replied_interrupt; exact H.
  - intros e h He. destruct e; inversion He; subst; clear He;
      destruct (i <? mr - 1)%nat; try apply raises_from_ret;
      try (apply raises_from_bind;
           [apply framed_sleep; exact I | apply raises_from_sleep
           | intros _; apply raises_from_ret]).
    apply raises_from_bind;
      [apply framed_sleep; exact I | apply raises_from_sleep | intros _].
    apply raises_from_bind;
      [any_frame framed_quit_quietly | apply quit_quietly_raises_from | intros _].
    apply raises_from_bind;
      [any_frame framed_connect | apply connect_from_raises_from | intros ftp'].
    apply raises_from_ret.
Qed.

Lemma upload_loop_raises_from mr lf rf rd attempts :
  forall ftp, raises_from w executor_cause (upload_loop w mr attempts ftp lf rf rd).
Proof.
  induction attempts as [| a rest IH]; intros ftp; simpl; [apply raises_from_ret |].
  apply raises_from_bind;
    [any_frame framed_upload_attempt | apply upload_attempt_raises_from | intros st].
  destruct st; [apply raises_from_ret | apply IH].
Qed.

(** *** An interrupt is not passed over *)

Lemma leaves_ret {A} (a : A) : interrupt_leaves (ret a).
Proof. intros s. exists []. split; [reflexivity | intros _; constructor]. Qed.

Lemma leaves_raise {A} e : interrupt_leaves (@raise A e).
Proof. intros s. exists []. split; [reflexivity | intros _; constructor]. Qed.

Lemma leaves_sleep z : interrupt_leaves (sleep z).
Proof.
  intros s. exists [EvSleep z]. split; [reflexivity |].
  intros _. constructor; [exact I | constructor].
Qed.

Lemma leaves_get_state : interrupt_leaves get_state.
Proof. intros s. exists []. split; [reflexivity | intros _; constructor]. Qed.

Lemma leaves_modify f : (forall s, trace (f s) = trace s) -> interrupt_leaves (modify f).
Proof.
  intros H s. exists []. split; [apply H | intros _; constructor].
Qed.

Lemma leaves_perform o : interrupt_leaves (perform w o).
Proof.
  intros s. exists [EvOp o (w (clock s) o)].
  unfold state_after, result_of, perform.
  destruct (r_exn (w (clock s) o)) as [e |] eqn:E; cbn [fst snd].
  - split; [reflexivity |]. intros Hne. constructor; [| constructor].
    cbn. rewrite E. intros H. inversion H; subst. elim Hne. reflexivity.
  - split; [reflexivity |]. intros _. constructor; [| constructor].
    cbn. rewrite E. discriminate.
Qed.

Lemma leaves_bind {A B} (m : M A) (f : A -> M B) :
  interrupt_leaves m -> (forall a, interrupt_leaves (f a)) -> interrupt_leaves (bind m f).
Proof.
  intros Hm Hf s. destruct (Hm s) as [d1 [Ht1 Hu1]].
  unfold state_after, result_of, bind in *.
  destruct (m s) as [[a | e] s1]; cbn [fst snd] in *.
  - destruct (Hf a s1) as [d2 [Ht2 Hu2]]. unfold state_after, result_of in *.
    exists (d2 ++ d1). split; [rewrite Ht2, Ht1, app_assoc; reflexivity |].
    intros Hne. apply Forall_app. split; [apply Hu2; exact Hne |].
    apply Hu1. discriminate.
  - exists d1. split; [exact Ht1 |].
    intros Hne. apply Hu1. intros H. apply Hne. inversion H. reflexivity.
Qed.

Lemma leaves_try_except {A} (body : M A) handler :
  interrupt_leaves body ->
  (forall e h, handler e = Some h -> e <> KeyboardInterrupt /\ interrupt_leaves h) ->
  interrupt_leaves (try_except body handler).
Proof.
  intros Hb Hh s. destruct (Hb s) as [d1 [Ht1 Hu1]].
  unfold state_after, result_of, try_except in *.
  destruct (body s) as [[a | e] s1]; cbn [fst snd] in *.
  - exists d1. split; [exact Ht1 | exact Hu1].
  - destruct (handler e) as [h |] eqn:E.
    + destruct (Hh e h E) as [Hne Hl]. destruct (Hl s1) as [d2 [Ht2 Hu2]].
      unfold state_after, result_of in *.
      exists (d2 ++ d1). split; [rewrite Ht2, Ht1, app_assoc; reflexivity |].
      intros Hr. apply Forall_app. split; [apply Hu2; exact Hr |].
      apply Hu1. intros H. inversion H. contradiction.
    + exists d1. split; [exact Ht1 | exact Hu1].
Qed.

Lemma leaves_except_Exception {A} (h : M A) e h' :
  interrupt_leaves h -> except_Exception h e = Some h' ->
  e <> KeyboardInterrupt /\ interrupt_leaves h'.
Proof.
  intros Hl He. unfold except_Exception in He.
  destruct e; inversion He; subst; (split; [discriminate | exact Hl]).
Qed.

Lemma leaves_quit_quietly ftp : interrupt_leaves (quit_quietly w ftp).
Proof.
  intros s. unfold state_after, result_of. rewrite quit_quietly_eq. cbn [fst snd].
  exists [EvOp (OpQuit ftp) (w (clock s) (OpQuit ftp))]. split; [reflexivity |].
  intros _. constructor; [| constructor]. cbn. intros _. exists ftp. reflexivity.
Qed.

Lemma leaves_stat f : interrupt_leaves (stat w f).
Proof.
  unfold stat. apply leaves_bind; [apply leaves_perform | intros r].
  destruct (r_size r); [apply leaves_ret | apply leaves_raise].
Qed.

Lemma leaves_verify ftp lf rf : interrupt_leaves (_verify_file_integrity w ftp lf rf).
Proof.
  unfold _verify_file_integrity. apply leaves_try_except.
  - apply leaves_bind; [apply leaves_stat | intros n].
    apply leaves_bind; [apply leaves_perform | intros r].
    destruct (r_size r); [destruct (negb _) |]; apply leaves_ret.
  - intros e h He. apply (leaves_except_Exception (ret false) e h); [apply leaves_ret | exact He].
Qed.

Lemma leaves_upload_try ftp lf rf rd : interrupt_leaves (upload_try w ftp lf rf rd).
Proof.
  unfold upload_try.
  apply leaves_bind; [apply leaves_perform | intros _].
  apply leaves_bind; [apply leaves_stat | intros _].
  apply leaves_bind; [apply leaves_perform | intros _].
  apply leaves_bind; [apply leaves_perform | intros _].
  apply leaves_verify.
Qed.

Lemma leaves_connect_once : interrupt_leaves (connect_once w).
Proof.
  unfold connect_once.
  apply leaves_bind; [apply leaves_get_state | intros s0].
  apply leaves_bind; [apply leaves_perform | intros _].
  apply leaves_bind; [apply leaves_modify; reflexivity | intros _].
  apply leaves_ret.
Qed.

Lemma leaves_connect_from n : interrupt_leaves (_connect_ftp_from w n).
Proof.
  induction n as [| n IH]; cbn [_connect_ftp_from];
    (apply leaves_try_except; [apply leaves_connect_once |]);
    intros e h He.
  - apply (leaves_except_Exception (raise ConnectionError) e h);
      [apply leaves_raise | exact He].
  - apply (leaves_except_Exception (sleep 5 ;; _connect_ftp_from w n) e h); [| exact He].
    apply leaves_bind; [apply leaves_sleep | intros _; exact IH].
Qed.

Lemma leaves_upload_attempt mr i ftp lf rf rd :
  interrupt_leaves (upload_attempt w mr i ftp lf rf rd).
Proof.
  unfold upload_attempt. apply leaves_try_except.
  - apply leaves_bind; [apply leaves_upload_try | intros b].
    destruct b; apply leaves_ret.
  - intros e h He.
    destruct e; inversion He; subst; clear He; (split; [discriminate |]);
      destruct (i <? mr - 1)%nat; try apply leaves_ret;
      try (apply leaves_bind; [apply leaves_sleep | intros _; apply leaves_ret]).
    apply leaves_bind; [apply leaves_sleep | intros _].
    apply leaves_bind; [apply leaves_quit_quietly | intros _].
    apply leaves_bind; [apply leaves_connect_from | intros ftp'].
    apply leaves_ret.
Qed.

Lemma leaves_upload_loop mr lf rf rd attempts :
  forall ftp, interrupt_leaves (upload_loop w mr attempts ftp lf rf rd).
Proof.
  induction attempts as [| a rest IH]; intros ftp; cbn [upload_loop]; [apply leaves_ret |].
  apply leaves_bind; [apply leaves_upload_attempt | intros st].
  destruct st; [apply leaves_ret | apply IH].
Qed.

Lemma leaves_executor ftp lf rf rd mr :
  interrupt_leaves (_upload_file_to_ftp_with_retry w ftp lf rf rd mr).
Proof.
  intros s. destruct (leaves_upload_loop mr lf rf rd (seq 0 mr) ftp s) as [d [Ht Hu]].
  unfold state_after, result_of, _upload_file_to_ftp_with_retry in *.
  destruct (upload_loop w mr (seq 0 mr) ftp lf rf rd s) as [r s1]; cbn [fst snd] in *.
  exists (EvUpload rf r :: d). split; [cbn; rewrite Ht; reflexivity |].
  intros Hne. constructor; [exact I | apply Hu; exact Hne].
Qed.
End ExecutorBoundary.

(** The last round of the retry loop: the outcome of its [try] block
    decides, and an error becomes [False]. *)
Lemma last_attempt_result w mr i ftp lf rf rd s :
  S i = mr ->
  result_of (upload_loop w mr [i] ftp lf rf rd) s
  = match result_of (upload_try w ftp lf rf rd) s with
    | Ok b => Ok b
    | Raise e => if is_Exception e then Ok false else Raise e
    end.
Proof.
  intros Hi.
  assert (Hlt : (i <? mr - 1)%nat = false) by (apply Nat.ltb_ge; lia).
  cbn [upload_loop]. unfold result_of, upload_attempt, try_except, bind.
  destruct (upload_try w ftp lf rf rd s) as [[b | e] s1]; cbn [fst snd].
  - destruct b; reflexivity.
  - destruct e; rewrite ?Hlt; reflexivity.
Qed.

(** C7, as the code has it.  [_upload_file_to_ftp_with_retry] returns a
    boolean unless an exception of one of two kinds leaves it: the
    [KeyboardInterrupt] of an operation other than [ftp.quit()], which is
    then the operation performed last, or the [ConnectionError] of
    [_connect_ftp], whose last connection attempt is then the operation
    performed last.  Conversely the interrupt of any operation other than
    [ftp.quit()] leaves the call as a [KeyboardInterrupt] (the interrupt of
    [ftp.quit()] is caught by the bare [except:] around it, and the retry
    goes on).  So the call returns a boolean whenever no operation other
    than [ftp.quit()] is interrupted and every connection attempt
    succeeds.  The final attempt never raises an error: it returns what the
    size verification found, and [False] when an error ends it.  The
    [quit] before a reconnection returns whatever the server or the operator
    does to it. *)
Theorem C7_executor_boundary :
  (forall (w : World) (ftp : session) (local_file remote_filename remote_dir : string)
          (max_retries : nat) (s : State),
      let m := _upload_file_to_ftp_with_retry w ftp local_file remote_filename
                                              remote_dir max_retries in
      match result_of m s with
      | Ok _ => True
      | Raise e =>
          exists o t d,
            trace (state_after m s)
            = EvUpload remote_filename (Raise e) :: EvOp o (w t o) :: d ++ trace s /\
            executor_cause o (w t o) e
      end)
  /\
  (forall (w : World) (ftp : session) (local_file remote_filename remote_dir : string)
          (max_retries : nat) (s : State) (d : list Event) (o : Op) (r : Reply),
      let m := _upload_file_to_ftp_with_retry w ftp local_file remote_filename
                                              remote_dir max_retries in
      trace (state_after m s) = d ++ trace s ->
      In (EvOp o r) d ->
      r_exn r = Some KeyboardInterrupt ->
      not_quit o ->
      result_of m s = Raise KeyboardInterrupt)
  /\
  (forall (w : World),
      (forall t o, r_exn (w t o) = Some KeyboardInterrupt -> exists sid, o = OpQuit sid) ->
      (forall t sid, r_exn (w t (OpConnect sid)) = None) ->
      forall (ftp : session) (local_file remote_filename remote_dir : string)
             (max_retries : nat) (s : State),
      exists b,
        result_of (_upload_file_to_ftp_with_retry w ftp local_file remote_filename
                                                  remote_dir max_retries) s
        = Ok b)
  /\
  (forall (w : World) (max_retries i : nat) (ftp : session)
          (local_file remote_filename remote_dir : string) (s : State),
      S i = max_retries ->
      result_of (upload_loop w max_retries [i] ftp local_file remote_filename
                             remote_dir) s
      = match result_of (upload_try w ftp local_file remote_filename remote_dir) s with
        | Ok b => Ok b
        | Raise e => if is_Exception e then Ok false else Raise e
        end)
  /\
  (forall (w : World) (ftp : session) (s : State),
      result_of (quit_quietly w ftp) s = Ok tt).
Proof.
  assert (Hcause :
    forall (w : World) ftp lf rf rd mr s,
      let m := _upload_file_to_ftp_with_retry w ftp lf rf rd mr in
      match result_of m s with
      | Ok _ => True
      | Raise e =>
          exists o t d,
            trace (state_after m s) = EvUpload rf (Raise e) :: EvOp o (w t o) :: d ++ trace s /\
            executor_cause o (w t o) e
      end).
  { intros w ftp lf rf rd mr s m. subst m.
    pose proof (upload_loop_raises_from w mr lf rf rd (seq 0 mr) ftp s) as H.
    unfold result_of, state_after, _upload_file_to_ftp_with_retry in *.
    destruct (upload_loop w mr (seq 0 mr) ftp lf rf rd s)
      as [[b | e] s1]; cbn [fst snd] in *; [exact I |].
    destruct H as [o [t [d [Ht HC]]]]. exists o, t, d. split; [| exact HC].
    simpl. rewrite Ht. reflexivity. }
  split; [exact Hcause |]. split; [| split].
  - intros w ftp lf rf rd mr s d o r m Ht Hin Hr Hq. subst m.
    destruct (leaves_executor w ftp lf rf rd mr s) as [d' [Ht' Hu]].
    assert (d' = d) by (rewrite Ht in Ht'; apply app_inv_tail in Ht'; congruence).
    subst d'.
    destruct (result_of (_upload_file_to_ftp_with_retry w ftp lf rf rd mr) s)
      as [b | e] eqn:E.
    + exfalso. assert (Hall : Forall uninterrupted d) by (apply Hu; discriminate).
      rewrite Forall_forall in Hall. destruct (Hall _ Hin Hr) as [sid ->].
      apply (Hq sid). reflexivity.
    + destruct e; try reflexivity; exfalso;
        (assert (Hall : Forall uninterrupted d) by (apply Hu; discriminate);
         rewrite Forall_forall in Hall; destruct (Hall _ Hin Hr) as [sid ->];
         apply (Hq sid); reflexivity).
  - intros w Hki Hconn ftp lf rf rd mr s. specialize (Hcause w ftp lf rf rd mr s).
    simpl in Hcause.
    destruct (result_of _ s) as [b | e]; [exists b; reflexivity |].
    exfalso. destruct Hcause as [o [t [d [_ [[_ [Hr Hq]] | [_ [[sid Ho] [e' [Hr _]]]]]]]]].
    + destruct (Hki t o Hr) as [sid ->]. apply (Hq sid). reflexivity.
    + subst o. rewrite Hconn in Hr. discriminate.
  - split; [intros; apply last_attempt_result; assumption |].
    intros w ftp s. unfold result_of. rewrite quit_quietly_eq. reflexivity.
Qed.

(** A transient error of the [STOR] followed by three failed connection
    attempts lets the [ConnectionError] of [_connect_ftp] leave the
    Executor: the reconnection runs inside the handler of
    [ftplib.error_temp], out of reach of the handler of [Exception]. *)
Lemma failed_reconnection_leaves_executor :
  result_of (_upload_file_to_ftp_with_retry Scenario.unreachable_world 0 Scenario.flaky_file
                                            Scenario.flaky_file "/backup"
                                            default_max_retries)
            Scenario.connected_state
  = Raise ConnectionError.
Proof. vm_compute. reflexivity. Qed.

(** An interrupt of the [quit] that precedes the reconnection is caught
    by the bare [except:] around it: the retry goes on and the call
    returns [True]. *)
Lemma interrupted_quit_is_swallowed :
  result_of (_upload_file_to_ftp_with_retry Scenario.interrupted_quit_world 0
                                            Scenario.flaky_file Scenario.flaky_file
                                            "/backup" default_max_retries)
            Scenario.connected_state
  = Ok true.
Proof. vm_compute. reflexivity. Qed.

(** C7, as the specification words it, fails: an interrupt of the [STOR]
    leaves the Executor as a [KeyboardInterrupt], which no handler of the
    Executor catches. *)
Lemma C7_counterexample : ~ executor_never_raises.
Proof.
  intros H.
  destruct (H Scenario.interrupted_world 0 Scenario.flaky_file Scenario.flaky_file
              "/backup" Scenario.connected_state) as [b Hb].
  vm_compute in Hb. discriminate.
Qed.

Lemma C7_witness :
  (exists b,
      result_of (_upload_file_to_ftp_with_retry Scenario.flaky_world 0 Scenario.flaky_file
                                                Scenario.flaky_file "/backup"
                                                default_max_retries)
                Scenario.connected_state
      = Ok b) /\
  result_of (upload_loop Scenario.unreachable_world 3 [2] 0 Scenario.flaky_file
                         Scenario.flaky_file "/backup")
            Scenario.connected_state
  = Ok false.
Proof.
  split.
  - apply (proj1 (proj2 (proj2 C7_executor_boundary)) Scenario.flaky_world).
    + intros t o H. exfalso.
      destruct o; unfold Scenario.flaky_world in H;
        try (destruct (sid <? 2)%nat); cbn in H; discriminate.
    + intros t sid. reflexivity.
  - rewrite (proj1 (proj2 (proj2 (proj2 C7_executor_boundary)))
                   Scenario.unreachable_world 3 2 0
                   Scenario.flaky_file Scenario.flaky_file "/backup"
                   Scenario.connected_state eq_refl).
    reflexivity.
Defined.


(** ** Instances of C4, C5 and C10 *)

Lemma C4_witness :
  let w := Scenario.skip_world in
  let s := Scenario.connected_state in
  let m := process_one w 0 "/backup" (Scenario.skip_v0, [Scenario.skip_v0; Scenario.skip_v1]) in
  result_of m s = Ok tt /\
  In Scenario.skip_v0 (successful_uploads (state_after m s)) /\
  failed_uploads (state_after m s) = failed_uploads s /\
  exists d, trace (state_after m s) = d ++ trace s /\
            upload_results d = [] /\ stor_attempts d = [].
Proof.
  apply (C4_idempotent_skip Scenario.skip_world 0 "/backup" Scenario.skip_v0
           [Scenario.skip_v0; Scenario.skip_v1] Scenario.connected_state);
    vm_compute; reflexivity.
Defined.

Lemma C5_witness :
  let w := Scenario.repair_world in
  let s := Scenario.connected_state in
  let set := [Scenario.vol0; Scenario.vol1; Scenario.vol2] in
  let missing := filter (fun v => negb (str_in v (r_names (w (S (clock s)) (OpNlst 0))))) set in
  let m := _process_archive_set w 0 Scenario.vol0 set "/backup" in
  StronglySorted volume_le missing /\
  exists d,
    trace (state_after m s) = d ++ trace s /\
    uploads_in_order set_fail missing (upload_results d) (result_of m s).
Proof.
  apply (proj1 C5_repair_uploads_missing Scenario.repair_world [] Scenario.repair_dir 0
               Scenario.vol0 "/backup" [Scenario.vol0; Scenario.vol1; Scenario.vol2]
               Scenario.connected_state).
  - vm_compute. left; reflexivity.
  - vm_compute; reflexivity.
  - vm_compute; reflexivity.
  - vm_compute. discriminate.
  - vm_compute. discriminate.
Defined.

Lemma C10_witness :
  let w := Scenario.listing_error_world in
  let s := Scenario.connected_state in
  result_of (_check_archive_exists_on_ftp w 0 Scenario.vol0 "/backup") s = Ok (false, []) /\
  let m := _process_archive_set w 0 Scenario.vol0 [Scenario.vol0; Scenario.vol1] "/backup" in
  exists d,
    trace (state_after m s) = d ++ trace s /\
    uploads_in_order set_fail [Scenario.vol0; Scenario.vol1] (upload_results d)
                     (result_of m s) /\
    (result_of m s = Ok true ->
     forall v, In v [Scenario.vol0; Scenario.vol1] -> stored_and_verified d v v).
Proof.
  apply (C10_listing_error_uploads_all Scenario.listing_error_world 0 Scenario.vol0
           "/backup" [Scenario.vol0; Scenario.vol1] Scenario.connected_state error_perm).
  - reflexivity.
  - right. split; vm_compute; reflexivity.
Defined.

(** ** C9: the session after a reconnection *)

(** C9 at a concrete run.  One set of two volumes, an empty remote
    directory, a transient error of the first [STOR].  The Executor
    reconnects (session 1) and the retried attempt of volume 0 runs on
    session 1; the upload of volume 1 and the final [quit] run on session 0
    again, the session the Executor has quit.  With a server that rejects
    commands on the closed session, volume 1 cannot be uploaded, the set
    fails and the run exits with status 1. *)
Theorem C9_stale_session_after_reconnect :
  let out := main Scenario.reconnect_world (Ok Scenario.cfg) Scenario.rc_dir in
  fst out = 1%Z /\
  sessions_used (trace (snd out)) = [0; 0; 0; 0; 0; 0; 0; 1; 1; 1; 1; 0; 0; 0; 0] /\
  upload_results (trace (snd out))
  = [(Scenario.rc_v0, Ok true); (Scenario.rc_v1, Ok false)] /\
  successful_uploads (snd out) = [] /\
  failed_uploads (snd out) = [Scenario.rc_v0].
Proof. vm_compute. repeat split. Qed.

(** ** C2: the local prune *)

(** C2 at a concrete run.  Two sets are recorded as uploaded, a third one,
    whose file name starts with the base name of the older uploaded set,
    fails.  The local prune removes the file of the older uploaded set and
    also the file of the failed set; only the newest uploaded set stays in
    the source directory. *)
Theorem C2_local_prune_removes_failed_set :
  let out := main Scenario.prune_world (Ok Scenario.cfg) Scenario.prune_dir in
  fst out = 1%Z /\
  successful_uploads (snd out) = [Scenario.old_set; Scenario.new_set] /\
  failed_uploads (snd out) = [Scenario.failed_set] /\
  local_sets [] Scenario.prune_dir
  = [(Scenario.old_set, [Scenario.old_set]);
     (Scenario.failed_set, [Scenario.failed_set]);
     (Scenario.new_set, [Scenario.new_set])] /\
  unlink_attempts (trace (snd out)) = [Scenario.old_set; Scenario.failed_set] /\
  local_dir (snd out) = [Scenario.new_set].
Proof. vm_compute. repeat split. Qed.

(** ** C8: the exit status *)

Lemma run_try_cases w cfg s0 :
  failed_uploads s0 = [] ->
  let r := result_of (run_try w cfg) s0 in
  let s' := state_after (run_try w cfg) s0 in
  match result_of (run_setup w cfg) s0 with
  | Raise e => r = Raise e
  | Ok (ftp, sets) =>
      r = Raise KeyboardInterrupt \/
      (r = Ok None /\ sets = [] /\ failed_uploads s' = []) \/
      ((r = Ok (Some 0%Z) /\ failed_uploads s' = [] \/
        r = Ok (Some 1%Z) /\ failed_uploads s' <> []) /\
       forall b, In b (map fst sets) ->
                 In b (successful_uploads s') \/ In b (failed_uploads s'))
  end.
Proof.
  intros Hf0 r s'. subst r s'.
  assert (F' : framed any_event (run_setup w cfg))
    by (apply framed_run_setup; intros; exact I).
  pose proof (F' s0) as F. clear F'.
  unfold run_try, result_of, state_after, bind in *.
  destruct (run_setup w cfg s0) as [[[ftp sets] | e] s1]; cbn [fst snd] in *;
    [| reflexivity].
  destruct F as [_ [_ Hf1]].
  destruct sets as [| e0 sets'] eqn:Esets.
  { right. left. cbn [ret fst snd]. repeat split. rewrite Hf1. exact Hf0. }
  rewrite <- Esets. clear Esets e0 sets'.
  destruct (process_loop_spec w ftp (remote_dir cfg) sets s1)
    as [d2 [_ [_ [Hks [Hkf [_ [Hres Hcov]]]]]]].
  destruct (run_sets_after_loop w cfg ftp sets s1) as [[_ [Hs3 Hf3]] [_ [Hki Hok]]].
  unfold result_of, state_after in *.
  destruct Hres as [Hres | Hres].
  - destruct (Hok Hres) as [H | H]; [left; exact H | right; right].
    split; [exact H |]. intros b Hb. rewrite Hs3, Hf3. apply Hcov; assumption.
  - left. apply Hki. exact Hres.
Qed.

Lemma connect_all_fail w n s :
  (forall t sid, exists e, r_exn (w t (OpConnect sid)) = Some e /\ is_Exception e = true) ->
  result_of (_connect_ftp_from w n) s = Raise ConnectionError.
Proof.
  intros H. revert s. induction n as [| n IH]; intros s;
    unfold result_of; rewrite connect_from_unfold;
    destruct (H (clock s) (next_session s)) as [e [He Hx]]; rewrite He, Hx.
  - reflexivity.
  - apply IH.
Qed.

Lemma ensure_mkd_fails w ftp path part rest e s :
  r_exn (w (clock s) (OpCwd ftp path)) = Some error_perm ->
  r_exn (w (S (clock s)) (OpCwd ftp part)) = Some error_perm ->
  r_exn (w (S (S (clock s))) (OpMkd ftp part)) = Some e ->
  result_of (_ensure_remote_directory w ftp path (part :: rest)) s = Raise e.
Proof.
  intros H1 H2 H3.
  unfold _ensure_remote_directory, result_of, try_except, bind, perform.
  rewrite H1. cbn [except_error_perm ensure_parts String.eqb].
  unfold try_except, bind, perform.
  cbn [clock tick log_event]. rewrite H2. cbn [except_error_perm clock tick log_event].
  rewrite H3. reflexivity.
Qed.

Lemma run_setup_mkd_fails w cfg dir part rest e :
  r_exn (w 0 (OpConnect 0)) = None ->
  r_exn (w 1 (OpCwd 0 (remote_dir cfg))) = Some error_perm ->
  remote_parts cfg = part :: rest ->
  r_exn (w 2 (OpCwd 0 part)) = Some error_perm ->
  r_exn (w 3 (OpMkd 0 part)) = Some e ->
  result_of (run_setup w cfg) (init_state dir) = Raise e.
Proof.
  intros Hconn Hcwd Hparts Hcwd2 Hmkd.
  set (s1 := set_self_ftp (Some 0)
               (new_session (log_event (EvOp (OpConnect 0) (w 0 (OpConnect 0)))
                                       (tick (init_state dir))))).
  pose proof (ensure_mkd_fails w 0 (remote_dir cfg) part rest e s1 Hcwd Hcwd2 Hmkd) as He.
  unfold run_setup, _connect_ftp, result_of in *. unfold bind at 1.
  rewrite connect_from_unfold. cbn [clock next_session init_state]. rewrite Hconn.
  unfold bind at 1, modify. unfold bind at 1. rewrite Hparts.
  revert He. unfold s1.
  destruct (_ensure_remote_directory w 0 (remote_dir cfg) (part :: rest) _) as [r s2].
  cbn [fst]. intros ->. reflexivity.
Qed.

(** C8.  The exit status is 2 when the constructor or the setup
    (connection, remote directory, scan of the source directory) raises an
    error, and 130 when a [KeyboardInterrupt] leaves them or the rest of
    [run].  Once the setup has succeeded the status is never 2: it is 130 if
    the run is interrupted, and otherwise 0 or 1 according to whether
    [failed_uploads] is empty, every set found by the Locator being in
    [successful_uploads] or in [failed_uploads].  In particular the status
    is 2 when every connection attempt fails and when a missing remote
    directory cannot be created. *)
Theorem C8_exit_status :
  (forall (w : World) (ctor : Result Config) (dir : list string),
      let out := main w ctor dir in
      match ctor with
      | Raise e => fst out = if is_Exception e then 2%Z else 130%Z
      | Ok cfg =>
          match result_of (run_setup w cfg) (init_state dir) with
          | Raise e => fst out = if is_Exception e then 2%Z else 130%Z
          | Ok (ftp, sets) =>
              sets = local_sets (ignore_patterns cfg) dir /\
              (fst out = 0%Z \/ fst out = 1%Z \/ fst out = 130%Z) /\
              (fst out = 130%Z <->
               result_of (run_try w cfg) (init_state dir) = Raise KeyboardInterrupt) /\
              (fst out = 0%Z -> failed_uploads (snd out) = []) /\
              (fst out = 1%Z -> failed_uploads (snd out) <> []) /\
              (fst out = 0%Z \/ fst out = 1%Z ->
               forall b, In b (map fst sets) ->
                         In b (successful_uploads (snd out)) \/
                         In b (failed_uploads (snd out)))
          end
      end)
  /\
  (forall (w : World) (cfg : Config) (dir : list string),
      (forall t sid, exists e,
            r_exn (w t (OpConnect sid)) = Some e /\ is_Exception e = true) ->
      fst (main w (Ok cfg) dir) = 2%Z)
  /\
  (forall (w : World) (cfg : Config) (dir : list string) (part : string)
          (rest : list string) (e : exn),
      r_exn (w 0 (OpConnect 0)) = None ->
      r_exn (w 1 (OpCwd 0 (remote_dir cfg))) = Some error_perm ->
      remote_parts cfg = part :: rest ->
      r_exn (w 2 (OpCwd 0 part)) = Some error_perm ->
      r_exn (w 3 (OpMkd 0 part)) = Some e ->
      is_Exception e = true ->
      fst (main w (Ok cfg) dir) = 2%Z).
Proof.
  assert (Hmain :
    forall (w : World) (cfg : Config) (dir : list string),
      let out := main w (Ok cfg) dir in
      fst out = match result_of (run_try w cfg) (init_state dir) with
                | Ok None => 0%Z
                | Ok (Some c) => c
                | Raise e => if is_Exception e then 2%Z else 130%Z
                end /\
      snd out = state_after (run_finally w) (state_after (run_try w cfg) (init_state dir))).
  { intros w cfg dir out. subst out.
    destruct (run_decompose w cfg (init_state dir)) as [Hst Hres].
    unfold main, state_after, result_of in *.
    destruct (run w cfg (init_state dir)) as [r s]; cbn [fst snd] in *. subst s.
    destruct (run_try w cfg (init_state dir)) as [[[c |] | e] s1]; cbn [fst snd] in *;
      subst r; try (split; reflexivity).
    destruct e; cbn; split; reflexivity. }
  assert (Hsetup :
    forall (w : World) (cfg : Config) (dir : list string) (e : exn),
      result_of (run_setup w cfg) (init_state dir) = Raise e ->
      fst (main w (Ok cfg) dir) = if is_Exception e then 2%Z else 130%Z).
  { intros w cfg dir e He. destruct (Hmain w cfg dir) as [Hc _]. rewrite Hc.
    pose proof (run_try_cases w cfg (init_state dir) eq_refl) as Hcases.
    cbv zeta in Hcases. rewrite He in Hcases. rewrite Hcases. reflexivity. }
  split; [| split].
  - intros w ctor dir out. subst out. destruct ctor as [cfg | e].
    2:{ destruct e; reflexivity. }
    destruct (result_of (run_setup w cfg) (init_state dir)) as [[ftp sets] | e] eqn:Es.
    2:{ apply Hsetup. exact Es. }
    destruct (Hmain w cfg dir) as [Hc Hs].
    pose proof (run_try_cases w cfg (init_state dir) eq_refl) as Hcases.
    cbv zeta in Hcases. rewrite Es in Hcases.
    assert (F : framed any_event (run_finally w))
      by (apply framed_run_finally; intros; exact I).
    destruct (F (state_after (run_try w cfg) (init_state dir))) as [_ [Hsf Hff]].
    rewrite <- Hs in Hsf, Hff.
    split.
    { unfold result_of in Es.
      destruct (run_setup w cfg (init_state dir)) as [r1 s1] eqn:E1. cbn [fst] in Es.
      subst r1. apply (run_setup_Ok w cfg (init_state dir) ftp sets s1 E1). }
    rewrite Hsf, Hff.
    destruct Hcases as [Hr | [[Hr [Hsets Hf]] | [[[Hr Hf] | [Hr Hf]] Hcov]]];
      rewrite Hr in *; cbn [is_Exception] in Hc; rewrite Hc;
      (split; [lia |]);
      (split; [split; intros H; first [reflexivity | discriminate H] |]);
      (split; [intros H; first [discriminate H | exact Hf] |]);
      (split; [intros H; first [discriminate H | exact Hf] |]);
      intros [H | H]; first [discriminate H | exact Hcov | subst sets; intros b []].
  - intros w cfg dir Hall.
    rewrite (Hsetup w cfg dir ConnectionError); [reflexivity |].
    pose proof (connect_all_fail w 2 (init_state dir) Hall) as Hc.
    unfold run_setup, _connect_ftp, result_of, bind in *.
    destruct (_connect_ftp_from w 2 (init_state dir)) as [r s1]; cbn [fst] in *.
    subst r. reflexivity.
  - intros w cfg dir part rest e Hconn Hcwd Hparts Hcwd2 Hmkd He.
    rewrite (Hsetup w cfg dir e); [rewrite He; reflexivity |].
    apply (run_setup_mkd_fails w cfg dir part rest e); assumption.
Qed.

(** ** The order of timestamps *)

Lemma lex_compare_antisym a : forall b, lex_compare b a = CompOpp (lex_compare a b).
Proof.
  induction a as [| x a IH]; intros [| y b]; simpl; try reflexivity.
  rewrite (Z.compare_antisym x y). destruct (x ?= y)%Z; simpl; [apply IH | reflexivity ..].
Qed.

Lemma lex_compare_le_trans a :
  forall b c, lex_compare a b <> Gt -> lex_compare b c <> Gt -> lex_compare a c <> Gt.
Proof.
  induction a as [| x a IH]; intros [| y b] [| z c]; simpl; try congruence.
  destruct (Z.compare_spec x y), (Z.compare_spec y z), (Z.compare_spec x z);
    try congruence; try lia.
  apply IH.
Qed.

Lemma datetime_ltb_asym a b : datetime_ltb a b = true -> datetime_ltb b a = false.
Proof.
  unfold datetime_ltb. rewrite (lex_compare_antisym (datetime_fields a) (datetime_fields b)).
  destruct (lex_compare (datetime_fields a) (datetime_fields b)); simpl; congruence.
Qed.

Lemma datetime_le_trans a b c :
  datetime_ltb b a = false -> datetime_ltb c b = false -> datetime_ltb c a = false.
Proof.
  unfold datetime_ltb. intros H1 H2.
  pose proof (lex_compare_le_trans (datetime_fields a) (datetime_fields b)
                                   (datetime_fields c)) as T.
  rewrite (lex_compare_antisym (datetime_fields a) (datetime_fields b)) in H1.
  rewrite (lex_compare_antisym (datetime_fields b) (datetime_fields c)) in H2.
  rewrite (lex_compare_antisym (datetime_fields a) (datetime_fields c)).
  destruct (lex_compare (datetime_fields a) (datetime_fields b)),
           (lex_compare (datetime_fields b) (datetime_fields c)),
           (lex_compare (datetime_fields a) (datetime_fields c));
    simpl in *; try reflexivity; try discriminate;
    exfalso; apply T; congruence.
Qed.

Lemma timestamp_sort_sorted (l : list StampedSet) :
  StronglySorted timestamp_le (sort_by ss_timestamp datetime_ltb l).
Proof.
  apply (sort_by_sorted ss_timestamp datetime_ltb datetime_ltb_asym).
  intros a b c. apply datetime_le_trans.
Qed.

(** ** The remote prune: the code against the words of the specification *)

Lemma base_name_endswith f b :
  _get_archive_base_name f = Some b -> PyStr.endswith b ".tar" = true.
Proof.
  unfold _get_archive_base_name.
  destruct (PyStr.endswith f ".tar") eqn:Ee; destruct (PyStr.contains ".tar." f) eqn:Ec;
    simpl; try discriminate.
  - destruct (PyStr.endswith (PyStr.rsplit_dot_head f) ".tar") eqn:Er; simpl;
      intros H; inversion H; subst. exact Er.
  - intros H; inversion H; subst. exact Ee.
  - destruct (PyStr.endswith (PyStr.rsplit_dot_head f) ".tar") eqn:Er; simpl;
      intros H; inversion H; subst. exact Er.
Qed.

Lemma base_name_nonempty f b : _get_archive_base_name f = Some b -> String.eqb b "" = false.
Proof.
  intros H. apply base_name_endswith in H. destruct b; [discriminate | reflexivity].
Qed.

Lemma group_remote_file_step succ d f :
  group_remote_file succ d f = group_step (remote_key succ) d f.
Proof.
  unfold group_remote_file, group_step, remote_key.
  destruct (_get_archive_base_name f) as [b |]; [| reflexivity].
  destruct (negb (String.eqb b "") && str_in b succ); reflexivity.
Qed.

Lemma fold_group_remote_file succ files :
  forall d, fold_left (group_remote_file succ) files d
            = fold_left (group_step (remote_key succ)) files d.
Proof.
  induction files as [| f files IH]; intros d; simpl; [reflexivity |].
  rewrite group_remote_file_step. apply IH.
Qed.

Lemma has_remote_key succ b f :
  has_key (remote_key succ) b f = base_is b f && str_in b succ.
Proof.
  unfold has_key, remote_key, base_is.
  destruct (_get_archive_base_name f) as [b' |] eqn:Eb; [| reflexivity].
  rewrite (base_name_nonempty f b' Eb). simpl.
  destruct (String.eqb_spec b' b) as [-> | Hne].
  - destruct (str_in b succ); [apply String.eqb_refl | reflexivity].
  - destruct (str_in b' succ); [| reflexivity].
    simpl. apply String.eqb_neq. exact Hne.
Qed.

Lemma listed_base_names_In files b :
  In b (listed_base_names files) <-> exists f, In f files /\ _get_archive_base_name f = Some b.
Proof.
  unfold listed_base_names. rewrite nodup_In, in_flat_map. split.
  - intros [f [Hf Hb]]. exists f. split; [exact Hf |].
    destruct (_get_archive_base_name f) as [b' |]; [| destruct Hb].
    destruct Hb as [-> | []]. reflexivity.
  - intros [f [Hf Hb]]. exists f. split; [exact Hf |]. rewrite Hb. left; reflexivity.
Qed.

Lemma base_is_iff b f : base_is b f = true <-> _get_archive_base_name f = Some b.
Proof.
  unfold base_is. destruct (_get_archive_base_name f) as [b' |]; [| split; discriminate].
  rewrite String.eqb_eq. split; congruence.
Qed.

Lemma filter_nonempty_exists {A} (p : A -> bool) l :
  filter p l <> [] <-> exists x, In x l /\ p x = true.
Proof.
  split.
  - intros H. destruct (filter p l) as [| x t] eqn:E; [congruence |].
    exists x. apply filter_In. rewrite E. left; reflexivity.
  - intros [x Hx] E. apply filter_In in Hx. rewrite E in Hx. destruct Hx.
Qed.

(** The dictionary built by the grouping loop holds the successful sets
    of the specification. *)
Lemma remote_groups_perm succ files :
  Permutation (fold_left (group_remote_file succ) files [])
              (filter (fun e => str_in (fst e) succ) (spec_remote_sets files)).
Proof.
  rewrite fold_group_remote_file.
  pose proof (grouped_fold (remote_key succ) files [] [] (grouped_nil _)) as G.
  simpl in G. set (d := fold_left (group_step (remote_key succ)) files []) in *.
  assert (Hnd : NoDup (map fst d)) by apply G.
  apply NoDup_Permutation.
  - apply NoDup_map_inv with (f := fst). exact Hnd.
  - apply NoDup_filter. unfold spec_remote_sets.
    apply Finite.Injective_map_NoDup; [| apply NoDup_nodup].
    intros x y H. inversion H. reflexivity.
  - intros [b fl]. rewrite filter_In. unfold spec_remote_sets. rewrite in_map_iff. simpl.
    split.
    + intros Hin. destruct (grouped_entry _ _ _ _ _ G Hin) as [Hfl Hne].
      rewrite Hfl in Hne. apply filter_nonempty_exists in Hne.
      destruct Hne as [f [Hf Hk]]. rewrite has_remote_key in Hk.
      apply andb_true_iff in Hk. destruct Hk as [Hb Hs].
      assert (Hfl' : fl = filter (base_is b) files).
      { rewrite Hfl. apply filter_ext. intros x. rewrite has_remote_key, Hs.
        apply andb_true_r. }
      split; [| exact Hs]. exists b. split; [rewrite Hfl'; reflexivity |].
      apply listed_base_names_In. exists f. split; [exact Hf | apply base_is_iff; exact Hb].
    + intros [[b' [Heq Hb]] Hs]. inversion Heq; subst b' fl. clear Heq.
      apply (dict_get_In (remote_key succ) d b _ Hnd). destruct G as [_ Hget]. rewrite Hget.
      assert (Hsame : filter (has_key (remote_key succ) b) files = filter (base_is b) files).
      { apply filter_ext. intros x. rewrite has_remote_key, Hs. apply andb_true_r. }
      rewrite Hsame. apply listed_base_names_In in Hb. destruct Hb as [f [Hf Hbf]].
      destruct (filter (base_is b) files) eqn:E; [| reflexivity].
      exfalso. assert (Hin : In f (filter (base_is b) files)).
      { apply filter_In. split; [exact Hf | apply base_is_iff; exact Hbf]. }
      rewrite E in Hin. destruct Hin.
Qed.

Lemma stamp_remote_sets_map d :
  stamp_remote_sets d = map sort_files (flat_map stamp d).
Proof.
  unfold stamp_remote_sets. induction d as [| e d IH]; simpl; [reflexivity |].
  rewrite map_app, <- IH. unfold stamp.
  destruct (_get_archive_timestamp (fst e)); reflexivity.
Qed.

Lemma concat_sort_files_perm (l : list StampedSet) :
  Permutation (concat (map ss_files (map sort_files l))) (concat (map ss_files l)).
Proof.
  induction l as [| x l IH]; simpl; [reflexivity |].
  apply Permutation_app; [apply sort_by_perm | exact IH].
Qed.

Lemma slice_all_but_newest {A} (l : list A) (k : Z) :
  (1 <= k)%Z ->
  (if (Z.of_nat (length l) >? k)%Z then slice_to (- k) l else [])
  = firstn (Z.to_nat (Z.of_nat (length l) - k)) l.
Proof.
  intros Hk. unfold slice_to.
  destruct (Z.gtb_spec (Z.of_nat (length l)) k) as [Hgt | Hle].
  - destruct (Z.ltb_spec (- k) 0); [| lia].
    f_equal. f_equal. lia.
  - replace (Z.to_nat (Z.of_nat (length l) - k)) with 0 by lia. reflexivity.
Qed.

(** For [max_copies >= 1] the sets the code removes are the sets the
    specification removes. *)
Lemma ftp_sets_to_remove_spec succ files k :
  (1 <= k)%Z ->
  spec_remote_prune succ files k (concat (map ss_files (ftp_sets_to_remove succ files k))).
Proof.
  intros Hk. unfold ftp_sets_to_remove.
  set (d := fold_left (group_remote_file succ) files []).
  set (sorted := sort_by ss_timestamp datetime_ltb (flat_map stamp d)).
  assert (Hats : sort_by ss_timestamp datetime_ltb (stamp_remote_sets d)
                 = map sort_files sorted).
  { rewrite stamp_remote_sets_map. apply sort_by_map. intros [[t b] fl]. reflexivity. }
  rewrite Hats, (slice_all_but_newest _ k Hk), length_map, firstn_map.
  exists sorted. split; [| split].
  - unfold sorted. rewrite sort_by_perm. unfold spec_candidates.
    apply Permutation_flat_map. apply remote_groups_perm.
  - apply timestamp_sort_sorted.
  - apply concat_sort_files_perm.
Qed.

Lemma In_firstn {A} (x : A) n l : In x (firstn n l) -> In x l.
Proof.
  intros H. rewrite <- (firstn_skipn n l). apply in_or_app. left. exact H.
Qed.

(** What the specification's prune deletes are listed files of successful
    sets with a timestamp. *)
Lemma spec_remote_prune_safe succ files k deleted :
  spec_remote_prune succ files k deleted ->
  forall f, In f deleted ->
            In f files /\
            exists b t, _get_archive_base_name f = Some b /\
                        In b succ /\ _get_archive_timestamp b = Some t.
Proof.
  intros [sorted [Hperm [_ Hdel]]] f Hf.
  apply (Permutation_in _ Hdel) in Hf. apply in_concat in Hf.
  destruct Hf as [fl [Hfl Hf]]. apply in_map_iff in Hfl. destruct Hfl as [x [Hx Hin]].
  subst fl. apply In_firstn in Hin. apply (Permutation_in _ Hperm) in Hin.
  unfold spec_candidates in Hin. apply in_flat_map in Hin.
  destruct Hin as [[b fl] [He Hst]]. apply filter_In in He. destruct He as [He Hs].
  simpl in Hs. unfold spec_remote_sets in He. apply in_map_iff in He.
  destruct He as [b' [Heq _]]. inversion Heq; subst b' fl. clear Heq.
  unfold stamp in Hst. simpl in Hst.
  destruct (_get_archive_timestamp b) as [t |] eqn:Et; [| destruct Hst].
  destruct Hst as [<- | []]. simpl in Hf. apply filter_In in Hf. destruct Hf as [Hf Hb].
  split; [exact Hf |]. exists b, t. split; [apply base_is_iff; exact Hb |].
  split; [apply str_in_iff; exact Hs | exact Et].
Qed.

(** ** The remote prune: what the loops delete *)

Lemma delete_attempts_app d1 d2 :
  delete_attempts (d2 ++ d1) = delete_attempts d1 ++ delete_attempts d2.
Proof. apply observe_app. Qed.

Lemma no_delete_attempts d : Forall not_delete_event d -> delete_attempts d = [].
Proof.
  induction d as [| ev d IH]; intros H; [reflexivity |].
  inversion H as [| ? ? Hev Hd]; subst. unfold delete_attempts in *.
  rewrite observe_cons, IH by assumption.
  destruct ev as [o r | z | n r]; simpl in *; try reflexivity.
  destruct o; simpl in *; try reflexivity. discriminate.
Qed.

Lemma delete_quietly_step w ftp f s :
  let m := delete_quietly w ftp f in
  delete_attempts (trace (state_after m s)) = delete_attempts (trace s) ++ [f] /\
  (result_of m s = Ok tt \/ result_of m s = Raise KeyboardInterrupt).
Proof.
  unfold delete_quietly, state_after, result_of, try_except, bind, perform, except_Exception.
  destruct (r_exn (w (clock s) (OpDelete ftp f))) as [e |].
  - destruct e; cbn [is_Exception ret fst snd trace log_event tick];
      unfold delete_attempts; rewrite observe_cons; (split; [reflexivity | auto]).
  - cbn [ret fst snd trace log_event tick]. unfold delete_attempts. rewrite observe_cons.
    split; [reflexivity | auto].
Qed.

(** The deletion loop over the files of one set attempts the files in
    order and stops only at an interrupt. *)
Lemma delete_files_spec w ftp files :
  forall s,
    let m := for_each files (delete_quietly w ftp) in
    exists done rest,
      done ++ rest = files /\
      delete_attempts (trace (state_after m s)) = delete_attempts (trace s) ++ done /\
      match result_of m s with
      | Ok _ => rest = []
      | Raise e => e = KeyboardInterrupt
      end.
Proof.
  induction files as [| f files IH]; intros s m; subst m.
  - exists [], []. cbn. rewrite app_nil_r. auto.
  - destruct (delete_quietly_step w ftp f s) as [Ht Hr].
    cbn [for_each]. unfold state_after, result_of, bind in *.
    destruct (delete_quietly w ftp f s) as [[u | e] s1]; cbn [fst snd] in *.
    + destruct (IH s1) as [done [rest [Hd [Ht' Hr']]]].
      exists (f :: done), rest. split; [simpl; rewrite Hd; reflexivity |].
      split; [| exact Hr'].
      rewrite Ht', Ht, <- app_assoc. reflexivity.
    + exists [f], files. split; [reflexivity |]. split; [exact Ht |].
      destruct Hr as [Hr | Hr]; inversion Hr. reflexivity.
Qed.

(** The same for the loop over the sets to remove. *)
Lemma delete_sets_spec w ftp (sets : list StampedSet) :
  forall s,
    let m := for_each sets (fun x => for_each (ss_files x) (delete_quietly w ftp)) in
    exists done rest,
      done ++ rest = concat (map ss_files sets) /\
      delete_attempts (trace (state_after m s)) = delete_attempts (trace s) ++ done /\
      match result_of m s with
      | Ok _ => rest = []
      | Raise e => e = KeyboardInterrupt
      end.
Proof.
  induction sets as [| x sets IH]; intros s m; subst m.
  - exists [], []. cbn. rewrite app_nil_r. auto.
  - destruct (delete_files_spec w ftp (ss_files x) s) as [d1 [r1 [Hd1 [Ht1 Hr1]]]].
    cbn [for_each map concat]. unfold state_after, result_of, bind in *.
    destruct (for_each (ss_files x) (delete_quietly w ftp) s) as [[u | e] s1];
      cbn [fst snd] in *.
    + subst r1. rewrite app_nil_r in Hd1. subst d1.
      destruct (IH s1) as [d2 [r2 [Hd2 [Ht2 Hr2]]]].
      exists (ss_files x ++ d2), r2. split; [rewrite <- app_assoc, Hd2; reflexivity |].
      split; [| exact Hr2].
      rewrite Ht2, Ht1, <- app_assoc. reflexivity.
    + exists d1, (r1 ++ concat (map ss_files sets)).
      split; [rewrite app_assoc, Hd1; reflexivity |]. split; [exact Ht1 | exact Hr1].
Qed.

(** [_cleanup_old_ftp_backups], once the directory is listed: the
    deletions attempted are an initial part of the files of the sets to
    remove, and all of them when the method returns. *)
Lemma cleanup_old_ftp_backups_spec w ftp rd k s :
  let m := _cleanup_old_ftp_backups w ftp rd k in
  let listing := w (S (clock s)) (OpNlst ftp) in
  r_exn (w (clock s) (OpCwd ftp rd)) = None ->
  r_exn listing = None ->
  exists done rest,
    done ++ rest
    = concat (map ss_files
                  (ftp_sets_to_remove (successful_uploads s) (r_names listing) k)) /\
    delete_attempts (trace (state_after m s)) = delete_attempts (trace s) ++ done /\
    match result_of m s with
    | Ok _ => rest = []
    | Raise e => e = KeyboardInterrupt
    end.
Proof.
  intros m listing Hcwd Hls. subst m listing.
  set (s2 := log_event (EvOp (OpNlst ftp) (w (S (clock s)) (OpNlst ftp)))
                       (tick (log_event (EvOp (OpCwd ftp rd) (w (clock s) (OpCwd ftp rd)))
                                        (tick s)))).
  destruct (delete_sets_spec w ftp
              (ftp_sets_to_remove (successful_uploads s)
                                  (r_names (w (S (clock s)) (OpNlst ftp))) k) s2)
    as [done [rest [Hd [Ht Hr]]]].
  exists done, rest. split; [exact Hd |].
  unfold _cleanup_old_ftp_backups, state_after, result_of, try_except, bind, perform,
    get_state in *.
  rewrite Hcwd. cbn [clock tick log_event]. rewrite Hls. fold s2.
  cbn [successful_uploads s2 log_event tick] in *.
  replace (successful_uploads s2) with (successful_uploads s) by reflexivity.
  destruct (for_each _ _ s2) as [[u | e] s3]; cbn [fst snd] in *.
  - split; [| exact Hr]. rewrite Ht. unfold s2, delete_attempts. cbn [trace log_event tick].
    rewrite !observe_cons. cbn. rewrite !app_nil_r. reflexivity.
  - subst e. cbn. split; [| reflexivity].
    rewrite Ht. unfold s2, delete_attempts. cbn [trace log_event tick].
    rewrite !observe_cons. cbn. rewrite !app_nil_r. reflexivity.
Qed.

(** *** Only stamped sets of this run are removed, whatever [max_copies] *)

Lemma In_slice_to {A} (x : A) z l : In x (slice_to z l) -> In x l.
Proof. unfold slice_to. apply In_firstn. Qed.

Lemma candidate_files succ files x f :
  In x (spec_candidates succ files) -> In f (ss_files x) -> prunable succ files f.
Proof.
  intros Hin Hf. unfold spec_candidates in Hin. apply in_flat_map in Hin.
  destruct Hin as [[b fl] [He Hst]]. apply filter_In in He. destruct He as [He Hs].
  simpl in Hs. unfold spec_remote_sets in He. apply in_map_iff in He.
  destruct He as [b' [Heq _]]. inversion Heq; subst b' fl. clear Heq.
  unfold stamp in Hst. simpl in Hst.
  destruct (_get_archive_timestamp b) as [t |] eqn:Et; [| destruct Hst].
  destruct Hst as [<- | []]. simpl in Hf. apply filter_In in Hf. destruct Hf as [Hf Hb].
  split; [exact Hf |]. exists b, t. split; [apply base_is_iff; exact Hb |].
  split; [apply str_in_iff; exact Hs | exact Et].
Qed.

Lemma ftp_sets_to_remove_prunable succ files k f :
  In f (concat (map ss_files (ftp_sets_to_remove succ files k))) ->
  prunable succ files f.
Proof.
  intros Hf. apply in_concat in Hf. destruct Hf as [fl [Hfl Hf]].
  apply in_map_iff in Hfl. destruct Hfl as [x [Hx Hin]]. subst fl.
  unfold ftp_sets_to_remove in Hin. cbv zeta in Hin.
  assert (Hin' : In x (sort_by ss_timestamp datetime_ltb
                         (stamp_remote_sets (fold_left (group_remote_file succ) files [])))).
  { destruct (_ >? _)%Z; [apply In_slice_to in Hin; exact Hin | destruct Hin]. }
  clear Hin. apply sort_by_In in Hin'. rewrite stamp_remote_sets_map in Hin'.
  apply in_map_iff in Hin'. destruct Hin' as [y [Hy Hin]]. subst x.
  unfold sort_files in Hf. cbn [ss_files snd] in Hf. apply sort_by_In in Hf.
  apply (candidate_files succ files y f); [| exact Hf].
  unfold spec_candidates.
  apply (Permutation_in _ (Permutation_flat_map stamp (remote_groups_perm succ files))).
  exact Hin.
Qed.

(** *** No uploaded set, no deletion *)

Lemma run_deletes_nothing_without_success w cfg s0 :
  let s := state_after (run w cfg) s0 in
  successful_uploads s = [] ->
  delete_attempts (trace s) = delete_attempts (trace s0).
Proof.
  intros s Hs. subst s.
  destruct (run_decompose w cfg s0) as [Hst _]. rewrite Hst in *. clear Hst.
  assert (F4' : framed not_delete_event (run_finally w))
    by (apply framed_run_finally; intros; reflexivity).
  destruct (F4' (state_after (run_try w cfg) s0)) as [[d4 [Ht4 Hf4]] [Hs4 _]]. clear F4'.
  rewrite Hs4 in Hs. rewrite Ht4, delete_attempts_app, (no_delete_attempts d4 Hf4), app_nil_r.
  clear Ht4 Hs4 Hf4 d4.
  assert (F1' : framed not_delete_event (run_setup w cfg))
    by (apply framed_run_setup; intros; reflexivity).
  destruct (F1' s0) as [[d1 [Ht1 Hf1]] _]. clear F1'.
  unfold run_try, state_after, bind in *.
  destruct (run_setup w cfg s0) as [[[ftp sets] | e] s1]; cbn [fst snd] in *.
  2:{ rewrite Ht1, delete_attempts_app, (no_delete_attempts d1 Hf1), app_nil_r.
      reflexivity. }
  destruct sets as [| e0 sets'] eqn:Esets.
  { cbn [ret snd]. rewrite Ht1, delete_attempts_app, (no_delete_attempts d1 Hf1), app_nil_r.
    reflexivity. }
  rewrite <- Esets in *. clear Esets e0 sets'.
  destruct (process_loop_quiet w ftp (remote_dir cfg) sets s1) as [d2 [Ht2 Hf2]].
  destruct (run_sets_after_loop w cfg ftp sets s1) as [[_ [Hs3 _]] [Hquiet _]].
  unfold state_after in *. rewrite Hs3 in Hs.
  destruct (Hquiet Hs) as [d3 [Ht3 Hf3]].
  rewrite Ht3, Ht2, Ht1, !delete_attempts_app.
  rewrite (no_delete_attempts d1 Hf1), (no_delete_attempts d2 Hf2),
    (no_delete_attempts d3 Hf3), !app_nil_r.
  reflexivity.
Qed.
Lemma cleanup_old_ftp_backups_prunable w ftp rd k s :
  let m := _cleanup_old_ftp_backups w ftp rd k in
  exists deleted,
    delete_attempts (trace (state_after m s)) = delete_attempts (trace s) ++ deleted /\
    forall f, In f deleted ->
              prunable (successful_uploads s) (r_names (w (S (clock s)) (OpNlst ftp))) f.
Proof.
  intros m. subst m.
  destruct (r_exn (w (clock s) (OpCwd ftp rd))) as [e |] eqn:Hcwd.
  { exists []. split; [| intros f []].
    unfold _cleanup_old_ftp_backups, state_after, try_except, bind, perform, except_Exception.
    rewrite Hcwd.
    destruct (is_Exception e); cbn [ret fst snd trace log_event tick];
      unfold delete_attempts; rewrite observe_cons; reflexivity. }
  destruct (r_exn (w (S (clock s)) (OpNlst ftp))) as [e |] eqn:Hls.
  { exists []. split; [| intros f []].
    unfold _cleanup_old_ftp_backups, state_after, try_except, bind, perform, except_Exception.
    rewrite Hcwd. cbn [clock tick log_event]. rewrite Hls.
    destruct (is_Exception e); cbn [ret fst snd trace log_event tick];
      unfold delete_attempts; rewrite !observe_cons; cbn; rewrite !app_nil_r;
      reflexivity. }
  destruct (cleanup_old_ftp_backups_spec w ftp rd k s Hcwd Hls) as [done [rest [Hd [Ht _]]]].
  exists done. split; [exact Ht |].
  intros f Hf. apply (ftp_sets_to_remove_prunable _ _ k). rewrite <- Hd.
  apply in_or_app. left. exact Hf.
Qed.

(** ** C3: the remote prune *)

(** The remote prune for [max_copies >= 1].  When
    [_cleanup_old_ftp_backups] has changed to the remote directory, listed
    it and returns, the deletions it attempted are the files of the sets the
    code selects, and these are the files the specification selects: the
    listed names grouped by base name, restricted to the base names in
    [successful_uploads] with a timestamp, arranged by ascending timestamp,
    all but the last [max_copies] of them.  Whatever [max_copies] and however
    the call ends, a name whose deletion is attempted is a listed file of an
    uploaded set with a timestamp.  A run that ends with no uploaded set
    attempts no deletion.  With six uploaded sets T1 to T6, an uploaded set
    without a timestamp and [max_copies = 5], the run deletes the two volumes
    of T1 and nothing else. *)
Theorem remote_prune_with_copies :
  (forall (w : World) (ftp : session) (rd : string) (k : Z) (s : State),
      let m := _cleanup_old_ftp_backups w ftp rd k in
      let listing := w (S (clock s)) (OpNlst ftp) in
      (1 <= k)%Z ->
      r_exn (w (clock s) (OpCwd ftp rd)) = None ->
      r_exn listing = None ->
      result_of m s = Ok tt ->
      exists deleted,
        delete_attempts (trace (state_after m s)) = delete_attempts (trace s) ++ deleted /\
        deleted = concat (map ss_files
                              (ftp_sets_to_remove (successful_uploads s)
                                                  (r_names listing) k)) /\
        spec_remote_prune (successful_uploads s) (r_names listing) k deleted)
  /\
  (forall (w : World) (ftp : session) (rd : string) (k : Z) (s : State),
      let m := _cleanup_old_ftp_backups w ftp rd k in
      exists deleted,
        delete_attempts (trace (state_after m s)) = delete_attempts (trace s) ++ deleted /\
        forall f, In f deleted ->
                  prunable (successful_uploads s)
                           (r_names (w (S (clock s)) (OpNlst ftp))) f)
  /\
  (forall (w : World) (cfg : Config) (dir : list string),
      let s := state_after (run w cfg) (init_state dir) in
      successful_uploads s = [] -> delete_attempts (trace s) = [])
  /\
  (let out := main Scenario.retention_world (Ok Scenario.cfg) Scenario.retention_dir in
   max_copies Scenario.cfg = 5%Z /\
   fst out = 0%Z /\
   successful_uploads (snd out)
   = [Scenario.t4; Scenario.undated; Scenario.t6; Scenario.t2; Scenario.t1_v0;
      Scenario.t5; Scenario.t3] /\
   _get_archive_timestamp Scenario.undated = None /\
   delete_attempts (trace (snd out)) = [Scenario.t1_v0; Scenario.t1_v1]).
Proof.
  split; [| split; [| split]].
  - intros w ftp rd k s m listing Hk Hcwd Hls Hres. subst m listing.
    destruct (cleanup_old_ftp_backups_spec w ftp rd k s Hcwd Hls)
      as [done [rest [Hd [Ht Hr]]]].
    rewrite Hres in Hr. subst rest. rewrite app_nil_r in Hd.
    exists done. split; [exact Ht |]. split; [exact Hd |].
    rewrite Hd. apply ftp_sets_to_remove_spec. exact Hk.
  - intros w ftp rd k s. apply cleanup_old_ftp_backups_prunable.
  - intros w cfg dir s Hs. subst s.
    rewrite (run_deletes_nothing_without_success w cfg (init_state dir) Hs). reflexivity.
  - vm_compute. repeat split.
Qed.

(** What the specification asks for when one uploaded, stamped set is
    listed and [max_copies = 0]: the file of that set. *)
Lemma spec_remote_prune_keep_none deleted :
  spec_remote_prune [Scenario.old_set] [Scenario.old_set] 0 deleted ->
  deleted = [Scenario.old_set].
Proof.
  intros [sorted [Hperm [_ Hdel]]].
  assert (Hlen : length sorted = 1).
  { rewrite (Permutation_length Hperm). vm_compute. reflexivity. }
  destruct sorted as [| x [| y sorted]]; try discriminate.
  assert (Hx : In x (spec_candidates [Scenario.old_set] [Scenario.old_set])).
  { apply (Permutation_in _ Hperm). left. reflexivity. }
  vm_compute in Hx. destruct Hx as [Hx | []]. subst x.
  vm_compute in Hdel. apply Permutation_sym, Permutation_length_1_inv in Hdel.
  rewrite Hdel. vm_compute. reflexivity.
Qed.

(** With [max_copies = 0] the remote prune is not the one the
    specification words. *)
Lemma remote_prune_without_copies : ~ remote_prune_as_specified.
Proof.
  intros H.
  destruct (H Scenario.keep_none_world 0 "/backup" 0%Z Scenario.keep_none_state
              eq_refl eq_refl eq_refl) as [deleted [Ht Hspec]].
  apply spec_remote_prune_keep_none in Hspec. subst deleted.
  vm_compute in Ht. discriminate.
Qed.

(** C3 at a concrete run with [max_copies = 0].  The one local set is
    found on the server and recorded as uploaded, so the remote prune runs.
    The specification's prune, all sets but the newest [max_copies], removes
    the file of the set; the code selects no set, [archive_timestamps[:-0]]
    being empty, and the run attempts no deletion. *)
Theorem C3_no_copies_nothing_deleted :
  let out := main Scenario.keep_none_world (Ok Scenario.keep_none_cfg) [Scenario.old_set] in
  max_copies Scenario.keep_none_cfg = 0%Z /\
  fst out = 0%Z /\
  successful_uploads (snd out) = [Scenario.old_set] /\
  (forall deleted,
      spec_remote_prune [Scenario.old_set] [Scenario.old_set] 0 deleted ->
      deleted = [Scenario.old_set]) /\
  ftp_sets_to_remove [Scenario.old_set] [Scenario.old_set] 0 = [] /\
  delete_attempts (trace (snd out)) = [].
Proof.
  split; [reflexivity |]. split; [vm_compute; reflexivity |].
  split; [vm_compute; reflexivity |].
  split; [exact spec_remote_prune_keep_none |].
  split; vm_compute; reflexivity.
Qed.

(** The prune of the six-set scenario, from the general statement. *)
Lemma remote_prune_with_copies_example :
  let w := Scenario.retention_world in
  let s := Scenario.retention_state in
  let m := _cleanup_old_ftp_backups w 0 "/backup" 5 in
  let listing := w (S (clock s)) (OpNlst 0) in
  exists deleted,
    delete_attempts (trace (state_after m s)) = delete_attempts (trace s) ++ deleted /\
    deleted = concat (map ss_files
                          (ftp_sets_to_remove (successful_uploads s) (r_names listing) 5)) /\
    spec_remote_prune (successful_uploads s) (r_names listing) 5 deleted.
Proof.
  apply (proj1 remote_prune_with_copies Scenario.retention_world 0 "/backup" 5%Z
               Scenario.retention_state).
  - lia.
  - reflexivity.
  - reflexivity.
  - vm_compute. reflexivity.
Defined.

Lemma C8_witness :
  fst (main Scenario.unreachable_world (Ok Scenario.cfg) [Scenario.flaky_file]) = 2%Z.
Proof.
  apply (proj1 (proj2 C8_exit_status) Scenario.unreachable_world Scenario.cfg
               [Scenario.flaky_file]).
  intros t sid. exists OtherError. split; reflexivity.
Defined.
(** ** Python string primitives against concatenation *)

Lemma prefix_app (p y : string) : String.prefix p (p ++ y)%string = true.
Proof.
  induction p as [| c p IH]; simpl; [destruct y; reflexivity |].
  destruct (ascii_dec c c) as [_ | N]; [exact IH | contradiction].
Qed.

Lemma prefix_inv (p s : string) :
  String.prefix p s = true -> exists y, s = (p ++ y)%string.
Proof.
  revert s. induction p as [| c p IH]; intros s H.
  - exists s. reflexivity.
  - destruct s as [| c' s]; simpl in H; [discriminate |].
    destruct (ascii_dec c c') as [<- | N]; [| discriminate].
    destruct (IH s H) as [y ->]. exists y. reflexivity.
Qed.

Lemma startswith_iff (s p : string) :
  PyStr.startswith s p = true <-> exists y, s = (p ++ y)%string.
Proof.
  unfold PyStr.startswith. split; [apply prefix_inv |].
  intros [y ->]. apply prefix_app.
Qed.

Lemma app_assoc_string (a b c : string) : ((a ++ b) ++ c = a ++ (b ++ c))%string.
Proof. induction a as [| x a IH]; simpl; [reflexivity | rewrite IH; reflexivity]. Qed.

Lemma app_empty_r (a : string) : (a ++ "")%string = a.
Proof. induction a as [| x a IH]; simpl; [reflexivity | rewrite IH; reflexivity]. Qed.

Lemma endswith_iff (s suf : string) :
  PyStr.endswith s suf = true <-> exists x, s = (x ++ suf)%string.
Proof.
  split.
  - induction s as [| c s IH]; cbn [PyStr.endswith]; intros H.
    + rewrite orb_false_r in H. apply String.eqb_eq in H. subst. exists "". reflexivity.
    + apply orb_true_iff in H. destruct H as [H | H].
      * apply String.eqb_eq in H. exists "". simpl. exact H.
      * destruct (IH H) as [x ->]. exists (String c x). reflexivity.
  - intros [x ->]. induction x as [| c x IH].
    + cbn [String.append]. destruct suf; cbn [PyStr.endswith];
        rewrite String.eqb_refl; reflexivity.
    + cbn [String.append PyStr.endswith]. rewrite IH. apply orb_true_r.
Qed.

Lemma contains_iff (sub s : string) :
  PyStr.contains sub s = true <-> exists x y, s = (x ++ sub ++ y)%string.
Proof.
  split.
  - induction s as [| c s IH]; cbn [PyStr.contains]; intros H.
    + rewrite orb_false_r in H. apply prefix_inv in H. destruct H as [y Hy].
      exists "", y. exact Hy.
    + apply orb_true_iff in H. destruct H as [H | H].
      * apply prefix_inv in H. destruct H as [y Hy]. exists "", y. exact Hy.
      * destruct (IH H) as [x [y ->]]. exists (String c x), y. reflexivity.
  - intros [x [y ->]]. induction x as [| c x IH].
    + cbn [String.append].
      assert (H : String.prefix sub (sub ++ y)%string = true) by apply prefix_app.
      destruct (sub ++ y)%string; cbn [PyStr.contains]; rewrite H; reflexivity.
    + cbn [String.append PyStr.contains]. rewrite IH. apply orb_true_r.
Qed.

Lemma contains_dot_cons (c : ascii) (t : string) :
  PyStr.contains "." (String c t) = Ascii.eqb c "." || PyStr.contains "." t.
Proof.
  cbn [PyStr.contains String.prefix].
  destruct (ascii_dec "." c) as [<- | N].
  - destruct t; reflexivity.
  - destruct (Ascii.eqb_spec c "."); [subst; contradiction | reflexivity].
Qed.

Lemma before_last_dot_none (t : string) :
  PyStr.contains "." t = false -> PyStr.before_last_dot t = None.
Proof.
  induction t as [| c t IH]; intros H; [reflexivity |].
  rewrite contains_dot_cons in H. apply orb_false_iff in H. destruct H as [Hc Ht].
  cbn [PyStr.before_last_dot]. rewrite (IH Ht), Hc. reflexivity.
Qed.

Lemma before_last_dot_app (h t : string) :
  PyStr.contains "." t = false ->
  PyStr.before_last_dot (h ++ "." ++ t)%string = Some h.
Proof.
  intros Ht. induction h as [| c h IH].
  - cbn [String.append PyStr.before_last_dot]. rewrite (before_last_dot_none t Ht).
    reflexivity.
  - cbn [String.append PyStr.before_last_dot] in *. rewrite IH. reflexivity.
Qed.

Lemma before_last_dot_app_any (x y : string) :
  PyStr.before_last_dot (x ++ "." ++ y)%string <> None.
Proof.
  induction x as [| c x IH].
  - cbn [String.append PyStr.before_last_dot].
    destruct (PyStr.before_last_dot y); discriminate.
  - cbn [String.append PyStr.before_last_dot] in *.
    destruct (PyStr.before_last_dot (x ++ String "." y)); [discriminate | contradiction].
Qed.

Lemma before_last_dot_inv (s h : string) :
  PyStr.before_last_dot s = Some h ->
  exists t, s = (h ++ "." ++ t)%string /\ PyStr.contains "." t = false.
Proof.
  revert h. induction s as [| c s IH]; intros h H; [discriminate |].
  cbn [PyStr.before_last_dot] in H.
  destruct (PyStr.before_last_dot s) as [h' |] eqn:E.
  - inversion H; subst. destruct (IH h' eq_refl) as [t [-> Ht]].
    exists t. split; [reflexivity | exact Ht].
  - destruct (Ascii.eqb_spec c "."); [| discriminate]. inversion H; subst.
    exists s. split; [reflexivity |].
    destruct (PyStr.contains "." s) eqn:Ec; [| reflexivity].
    apply contains_iff in Ec. destruct Ec as [x [y ->]].
    exfalso. exact (before_last_dot_app_any x y E).
Qed.

Lemma rsplit_dot_head_app (h t : string) :
  PyStr.contains "." t = false -> PyStr.rsplit_dot_head (h ++ "." ++ t)%string = h.
Proof.
  intros Ht. unfold PyStr.rsplit_dot_head. rewrite (before_last_dot_app h t Ht). reflexivity.
Qed.

Lemma tar_dot_has_last_dot (f : string) :
  PyStr.contains ".tar." f = true ->
  exists h t, f = (h ++ "." ++ t)%string /\ PyStr.contains "." t = false /\
              PyStr.rsplit_dot_head f = h.
Proof.
  intros H. apply contains_iff in H. destruct H as [x [y Hf]].
  assert (Hf' : f = ((x ++ ".tar") ++ "." ++ y)%string).
  { rewrite Hf, app_assoc_string. reflexivity. }
  destruct (PyStr.before_last_dot f) as [h |] eqn:E.
  - destruct (before_last_dot_inv f h E) as [t [Ht Hdot]].
    exists h, t. split; [exact Ht |]. split; [exact Hdot |].
    unfold PyStr.rsplit_dot_head. rewrite E. reflexivity.
  - exfalso. rewrite Hf' in E. exact (before_last_dot_app_any _ _ E).
Qed.

Lemma tar_then_dot_contains (b t : string) :
  PyStr.endswith b ".tar" = true -> PyStr.contains ".tar." (b ++ "." ++ t)%string = true.
Proof.
  intros H. apply endswith_iff in H. destruct H as [x ->].
  apply contains_iff. exists x, t. rewrite app_assoc_string. reflexivity.
Qed.

(** ** The naming rule: base names *)

Lemma base_name_accepts :
  forall f b : string,
    _get_archive_base_name f = Some b <->
    PyStr.endswith b ".tar" = true /\
    ((f = b /\ PyStr.contains ".tar." f = false) \/
     (exists t, f = (b ++ "." ++ t)%string /\ PyStr.contains "." t = false)).
Proof.
  intros f b. unfold _get_archive_base_name. split.
  - destruct (PyStr.contains ".tar." f) eqn:Ec.
    + destruct (tar_dot_has_last_dot f Ec) as [h [t [Hf [Ht Hh]]]].
      rewrite Hh, andb_false_r.
      destruct (PyStr.endswith h ".tar") eqn:Eh; cbn [negb]; intros H; inversion H; subst b.
      split; [exact Eh |]. right. exists t. split; [exact Hf | exact Ht].
    + destruct (PyStr.endswith f ".tar") eqn:Ee; cbn [negb andb]; intros H;
        inversion H; subst b.
      split; [exact Ee |]. left. split; reflexivity.
  - intros [Hb [[-> Hc] | [t [-> Ht]]]].
    + rewrite Hb, Hc. reflexivity.
    + rewrite (tar_then_dot_contains b t Hb), andb_false_r, (rsplit_dot_head_app b t Ht), Hb.
      reflexivity.
Qed.

(** [_get_archive_base_name] accepts exactly two shapes of file names: a
    name that ends with [.tar] and holds no [.tar.], which is its own base
    name, and a base name that ends with [.tar] followed by a dot and a
    suffix without a dot. *)
Theorem base_name_shape :
  forall f b : string,
    _get_archive_base_name f = Some b <->
    PyStr.endswith b ".tar" = true /\
    ((f = b /\ PyStr.contains ".tar." f = false) \/
     (exists t, f = (b ++ "." ++ t)%string /\ PyStr.contains "." t = false)).
Proof. exact base_name_accepts. Qed.
Lemma split_dot_last_app (h t : string) :
  PyStr.contains "." t = false -> PyStr.split_dot_last (h ++ "." ++ t)%string = t.
Proof.
  intros Ht. induction h as [| c h IH].
  - cbn [String.append PyStr.split_dot_last]. rewrite Ht. reflexivity.
  - cbn [String.append PyStr.split_dot_last] in *.
    assert (Hc : PyStr.contains "." (h ++ String "." t)%string = true).
    { apply contains_iff. exists h, t. reflexivity. }
    rewrite Hc. exact IH.
Qed.

Lemma digit_cases (c : ascii) :
  PyStr.is_digit c = true ->
  In c ["0"; "1"; "2"; "3"; "4"; "5"; "6"; "7"; "8"; "9"]%char.
Proof.
  destruct c as [[] [] [] [] [] [] [] []]; vm_compute; intros H;
    first [ discriminate | auto 11 ].
Qed.

Lemma digit_not_blank (c : ascii) : PyStr.is_digit c = true -> PyStr.is_blank c = false.
Proof.
  intros H. apply digit_cases in H.
  repeat (destruct H as [<- | H]; [reflexivity |]). destruct H.
Qed.

Lemma digit_not_dot (c : ascii) : PyStr.is_digit c = true -> Ascii.eqb c "." = false.
Proof.
  intros H. apply digit_cases in H.
  repeat (destruct H as [<- | H]; [reflexivity |]). destruct H.
Qed.

Lemma digit_not_underscore (c : ascii) : PyStr.is_digit c = true -> Ascii.eqb c "_" = false.
Proof.
  intros H. apply digit_cases in H.
  repeat (destruct H as [<- | H]; [reflexivity |]). destruct H.
Qed.

Lemma all_digits_cons c s :
  PyStr.all_digits (String c s) = PyStr.is_digit c && PyStr.all_digits s.
Proof. reflexivity. Qed.

Lemma digits_no_dot (s : string) :
  PyStr.all_digits s = true -> PyStr.contains "." s = false.
Proof.
  induction s as [| c s IH]; intros H; [reflexivity |].
  rewrite all_digits_cons in H. apply andb_true_iff in H. destruct H as [Hc Hs].
  rewrite contains_dot_cons, (digit_not_dot c Hc), (IH Hs). reflexivity.
Qed.

Lemma digits_lskip (s : string) : PyStr.all_digits s = true -> PyStr.lskip_blank s = s.
Proof.
  destruct s as [| c s]; intros H; [reflexivity |].
  rewrite all_digits_cons in H. apply andb_true_iff in H. destruct H as [Hc _].
  cbn [PyStr.lskip_blank]. rewrite (digit_not_blank c Hc). reflexivity.
Qed.

Lemma digits_rskip (s : string) : PyStr.all_digits s = true -> PyStr.rskip_blank s = s.
Proof.
  induction s as [| c s IH]; intros H; [reflexivity |].
  rewrite all_digits_cons in H. apply andb_true_iff in H. destruct H as [Hc Hs].
  cbn [PyStr.rskip_blank]. rewrite (IH Hs), (digit_not_blank c Hc). destruct s; reflexivity.
Qed.

Lemma digits_count (s : string) :
  PyStr.all_digits s = true -> PyStr.count_digits s = String.length s.
Proof.
  induction s as [| c s IH]; intros H; [reflexivity |].
  rewrite all_digits_cons in H. apply andb_true_iff in H. destruct H as [Hc Hs].
  cbn [PyStr.count_digits String.length]. rewrite Hc, (IH Hs). reflexivity.
Qed.

Lemma int_digits_all (s : string) :
  PyStr.all_digits s = true ->
  forall acc after,
    s <> "" \/ after = true ->
    PyStr.int_digits s acc after
    = Some (fold_left (fun a c => (10 * a + PyStr.digit_val c)%Z)
                      (list_ascii_of_string s) acc).
Proof.
  induction s as [| c s IH]; intros H acc after Hne.
  - destruct Hne as [Hne | ->]; [contradiction | reflexivity].
  - rewrite all_digits_cons in H. apply andb_true_iff in H. destruct H as [Hc Hs].
    cbn [PyStr.int_digits list_ascii_of_string fold_left]. rewrite Hc.
    apply (IH Hs). right. reflexivity.
Qed.

(** [int] reads a non-empty string of decimal digits as its value, up to
    the number of digits the interpreter accepts, and refuses a longer
    one. *)
Lemma int_of_digits (s : string) :
  s <> "" -> PyStr.all_digits s = true ->
  PyStr.int s
  = if (PyStr.int_max_str_digits <? Z.of_nat (String.length s))%Z then None
    else Some (PyStr.num s).
Proof.
  intros Hne H. unfold PyStr.int. cbv zeta.
  rewrite (digits_lskip s H), (digits_rskip s H), (digits_count s H).
  destruct (PyStr.int_max_str_digits <? Z.of_nat (String.length s))%Z; [reflexivity |].
  assert (Hd : PyStr.int_digits s 0 false = Some (PyStr.num s)).
  { apply (int_digits_all s H). left. exact Hne. }
  destruct s as [| c r]; [contradiction |].
  pose proof H as H'. rewrite all_digits_cons in H'. apply andb_true_iff in H'.
  destruct H' as [Hc _]. apply digit_cases in Hc.
  repeat (destruct Hc as [<- | Hc]; [exact Hd |]). destruct Hc.
Qed.

(** ** The naming rule: volumes *)

(** A volume name made of a base name that ends with [.tar], a dot and a
    decimal number is read back as that base name and, when the number has
    no more digits than [int] accepts (4300), as that number; with more
    digits [int] raises [ValueError] and the volume number is 0.  The base
    name itself is volume 0 of its own set when it is an archive name. *)
Theorem volume_name_round_trip :
  forall b ds : string,
    PyStr.endswith b ".tar" = true ->
    ds <> "" ->
    PyStr.all_digits ds = true ->
    _get_archive_base_name (b ++ "." ++ ds)%string = Some b /\
    ((Z.of_nat (String.length ds) <= 4300)%Z ->
     _get_volume_number (b ++ "." ++ ds)%string = PyStr.num ds) /\
    ((4300 < Z.of_nat (String.length ds))%Z ->
     _get_volume_number (b ++ "." ++ ds)%string = 0%Z) /\
    _get_volume_number b = 0%Z.
Proof.
  intros b ds Hb Hne Hds. pose proof (digits_no_dot ds Hds) as Hdot.
  assert (Hvol : _get_volume_number (b ++ "." ++ ds)%string
                 = if (PyStr.int_max_str_digits <? Z.of_nat (String.length ds))%Z
                   then 0%Z else PyStr.num ds).
  { unfold _get_volume_number.
    rewrite (tar_then_dot_contains b ds Hb), (split_dot_last_app b ds Hdot),
      (int_of_digits ds Hne Hds).
    destruct (PyStr.int_max_str_digits <? Z.of_nat (String.length ds))%Z; reflexivity. }
  split; [| split; [| split]].
  - apply base_name_accepts. split; [exact Hb |]. right. exists ds.
    split; [reflexivity | exact Hdot].
  - intros Hlen. rewrite Hvol.
    destruct (Z.ltb_spec PyStr.int_max_str_digits (Z.of_nat (String.length ds))) as [Hlt | _];
      [| reflexivity].
    unfold PyStr.int_max_str_digits in Hlt. lia.
  - intros Hlen. rewrite Hvol.
    destruct (Z.ltb_spec PyStr.int_max_str_digits (Z.of_nat (String.length ds))) as [_ | Hge];
      [reflexivity |].
    unfold PyStr.int_max_str_digits in Hge. lia.
  - unfold _get_volume_number. destruct (PyStr.contains ".tar." b); [| reflexivity].
    apply endswith_iff in Hb. destruct Hb as [x ->].
    change (x ++ ".tar")%string with (x ++ "." ++ "tar")%string.
    rewrite (split_dot_last_app x "tar" eq_refl). reflexivity.
Qed.

Lemma volume_name_round_trip_witness :
  _get_archive_base_name ("db_20260101_000000_full.tar" ++ "." ++ "12")%string
  = Some "db_20260101_000000_full.tar" /\
  _get_volume_number ("db_20260101_000000_full.tar" ++ "." ++ "12")%string = 12%Z /\
  _get_volume_number "db_20260101_000000_full.tar" = 0%Z.
Proof.
  destruct (volume_name_round_trip "db_20260101_000000_full.tar" "12")
    as [H1 [H2 [_ H4]]].
  - reflexivity.
  - discriminate.
  - reflexivity.
  - split; [exact H1 |]. split; [| exact H4]. apply H2. vm_compute. discriminate.
Defined.

(** ** Timestamps: written and read back *)

Lemma digit_char_spec (k : Z) :
  (0 <= k <= 9)%Z ->
  PyStr.is_digit (digit_char k) = true /\ PyStr.digit_val (digit_char k) = k.
Proof.
  intros H.
  assert (Hk : (k = 0 \/ k = 1 \/ k = 2 \/ k = 3 \/ k = 4 \/ k = 5 \/ k = 6 \/ k = 7 \/
                k = 8 \/ k = 9)%Z) by lia.
  repeat (destruct Hk as [-> | Hk]; [split; reflexivity |]). subst. split; reflexivity.
Qed.

Lemma num_pad2 (n : Z) : (0 <= n <= 99)%Z -> PyStr.num (pad2 n) = n.
Proof.
  intros H. unfold PyStr.num, pad2. cbn [list_ascii_of_string fold_left].
  assert (H1 : (0 <= n / 10 <= 9)%Z).
  { split; [apply Z.div_pos; lia |].
    apply Z.lt_succ_r. apply Z.div_lt_upper_bound; lia. }
  assert (H2 : (0 <= n mod 10 <= 9)%Z) by (pose proof (Z.mod_pos_bound n 10); lia).
  rewrite (proj2 (digit_char_spec _ H1)), (proj2 (digit_char_spec _ H2)).
  pose proof (Z.div_mod n 10). lia.
Qed.

Lemma pad2_digits (n : Z) : (0 <= n <= 99)%Z -> PyStr.all_digits (pad2 n) = true.
Proof.
  intros H. unfold pad2. rewrite !all_digits_cons.
  assert (H1 : (0 <= n / 10 <= 9)%Z).
  { split; [apply Z.div_pos; lia |].
    apply Z.lt_succ_r. apply Z.div_lt_upper_bound; lia. }
  assert (H2 : (0 <= n mod 10 <= 9)%Z) by (pose proof (Z.mod_pos_bound n 10); lia).
  rewrite (proj1 (digit_char_spec _ H1)), (proj1 (digit_char_spec _ H2)). reflexivity.
Qed.

Lemma num_pad4 (n : Z) : (0 <= n <= 9999)%Z -> PyStr.num (pad4 n) = n.
Proof.
  intros H. unfold PyStr.num, pad4, pad2. cbn [list_ascii_of_string fold_left].
  assert (H1 : (0 <= n / 1000 <= 9)%Z).
  { split; [apply Z.div_pos; lia |].
    apply Z.lt_succ_r. apply Z.div_lt_upper_bound; lia. }
  assert (H2 : (0 <= n / 100 mod 10 <= 9)%Z) by (pose proof (Z.mod_pos_bound (n / 100) 10); lia).
  assert (H3 : (0 <= n mod 100 / 10 <= 9)%Z).
  { pose proof (Z.mod_pos_bound n 100).
    split; [apply Z.div_pos; lia |].
    apply Z.lt_succ_r. apply Z.div_lt_upper_bound; lia. }
  assert (H4 : (0 <= n mod 100 mod 10 <= 9)%Z)
    by (pose proof (Z.mod_pos_bound (n mod 100) 10); lia).
  rewrite (proj2 (digit_char_spec _ H1)), (proj2 (digit_char_spec _ H2)),
    (proj2 (digit_char_spec _ H3)), (proj2 (digit_char_spec _ H4)).
  pose proof (Z.div_mod n 100). pose proof (Z.div_mod (n / 100) 10).
  pose proof (Z.div_mod (n mod 100) 10).
  assert (Hq : (n / 100 / 10 = n / 1000)%Z) by (rewrite Z.div_div by lia; reflexivity).
  lia.
Qed.

Lemma pad4_digits (n : Z) : (0 <= n <= 9999)%Z -> PyStr.all_digits (pad4 n) = true.
Proof.
  intros H. unfold pad4.
  assert (H1 : (0 <= n / 1000 <= 9)%Z).
  { split; [apply Z.div_pos; lia |].
    apply Z.lt_succ_r. apply Z.div_lt_upper_bound; lia. }
  assert (H2 : (0 <= n / 100 mod 10 <= 9)%Z) by (pose proof (Z.mod_pos_bound (n / 100) 10); lia).
  rewrite !all_digits_cons, (proj1 (digit_char_spec _ H1)), (proj1 (digit_char_spec _ H2)).
  apply pad2_digits. pose proof (Z.mod_pos_bound n 100). lia.
Qed.

Lemma re_search_ts_skip (pre rest : string) :
  PyStr.contains "_" pre = false ->
  ts_match_here rest <> None ->
  re_search_ts (pre ++ rest)%string = ts_match_here rest.
Proof.
  intros Hpre Hrest. induction pre as [| c pre IH].
  - cbn [String.append]. destruct rest; cbn [re_search_ts];
      destruct (ts_match_here _); [reflexivity | contradiction | reflexivity | contradiction].
  - cbn [PyStr.contains String.prefix] in Hpre.
    apply orb_false_iff in Hpre. destruct Hpre as [Hc Hpre].
    cbn [String.append re_search_ts].
    assert (Hno : ts_match_here (String c (pre ++ rest)) = None).
    { unfold ts_match_here, PyStr.char_at. cbn [String.get].
      destruct (Ascii.eqb_spec c "_") as [-> | _]; [| reflexivity].
      exfalso. destruct pre; discriminate. }
    rewrite Hno. apply IH. exact Hpre.
Qed.

Lemma strftime_match (d : datetime) (post : string) :
  datetime_valid d = true ->
  ts_match_here ("_" ++ strftime d ++ "_" ++ post)%string = Some (strftime d).
Proof.
  intros Hv. unfold datetime_valid in Hv.
  repeat (apply andb_true_iff in Hv; destruct Hv as [Hv ?]).
  assert (HY : PyStr.all_digits (pad4 (year d)) = true) by (apply pad4_digits; lia).
  assert (Hm : PyStr.all_digits (pad2 (month d)) = true) by (apply pad2_digits; lia).
  assert (Hd : PyStr.all_digits (pad2 (day d)) = true).
  { apply pad2_digits. unfold days_in_month in *.
    destruct (_ =? 2)%Z; [destruct (is_leap _) |]; [lia | lia |].
    destruct (_ || _); lia. }
  assert (HH : PyStr.all_digits (pad2 (hour d)) = true) by (apply pad2_digits; lia).
  assert (HM : PyStr.all_digits (pad2 (minute d)) = true) by (apply pad2_digits; lia).
  assert (HS : PyStr.all_digits (pad2 (second d)) = true) by (apply pad2_digits; lia).
  unfold pad4, pad2 in *. rewrite !all_digits_cons in *.
  repeat match goal with
         | H : _ && _ = true |- _ => apply andb_true_iff in H; destruct H
         end.
  unfold ts_match_here, strftime, pad4, pad2, PyStr.char_at.
  cbn [String.append substring String.get String.length Nat.eqb Ascii.eqb Bool.eqb].
  rewrite !all_digits_cons.
  repeat match goal with
         | H : PyStr.is_digit _ = true |- _ => rewrite H; clear H
         end.
  reflexivity.
Qed.

Lemma strptime_strftime (d : datetime) :
  datetime_valid d = true -> strptime (strftime d) = Some d.
Proof.
  intros Hv. pose proof Hv as Hv'. unfold datetime_valid in Hv.
  repeat (apply andb_true_iff in Hv; destruct Hv as [Hv ?]).
  assert (Hday : (day d <= 31)%Z).
  { unfold days_in_month in *.
    destruct (_ =? 2)%Z; [destruct (is_leap _) |]; [lia | lia |].
    destruct (_ || _); lia. }
  unfold strptime.
  change (substring 0 4 (strftime d)) with (pad4 (year d)).
  change (substring 4 2 (strftime d)) with (pad2 (month d)).
  change (substring 6 2 (strftime d)) with (pad2 (day d)).
  change (substring 9 2 (strftime d)) with (pad2 (hour d)).
  change (substring 11 2 (strftime d)) with (pad2 (minute d)).
  change (substring 13 2 (strftime d)) with (pad2 (second d)).
  rewrite (num_pad4 (year d)), (num_pad2 (month d)), (num_pad2 (day d)),
    (num_pad2 (hour d)), (num_pad2 (minute d)), (num_pad2 (second d)) by lia.
  assert (Hg : ((1 <=? year d) && (1 <=? month d) && (month d <=? 12) && (1 <=? day d) &&
                (day d <=? days_in_month (year d) (month d)) && (hour d <=? 23) &&
                (minute d <=? 59) && (second d <=? 59))%Z = true).
  { repeat (apply andb_true_iff; split); try assumption; lia. }
  rewrite Hg. destruct d; reflexivity.
Qed.

(** A name that carries a valid date and time, written in the format
    [%Y%m%d_%H%M%S] between two underscores, after a part without an
    underscore, has that date and time as its timestamp. *)
Theorem timestamp_round_trip :
  forall (d : datetime) (pre post : string),
    datetime_valid d = true ->
    PyStr.contains "_" pre = false ->
    _get_archive_timestamp (pre ++ "_" ++ strftime d ++ "_" ++ post)%string = Some d.
Proof.
  intros d pre post Hv Hpre. unfold _get_archive_timestamp.
  rewrite (re_search_ts_skip pre _ Hpre); rewrite (strftime_match d post Hv);
    [| discriminate].
  apply strptime_strftime. exact Hv.
Qed.

Lemma timestamp_round_trip_witness :
  _get_archive_timestamp
    ("crm.rusvek29.ru" ++ "_" ++ strftime (mkDatetime 2026 1 27 2 4 1) ++ "_" ++
     "full_6mq5xw84z01osj0q.tar")%string
  = Some (mkDatetime 2026 1 27 2 4 1).
Proof.
  apply (timestamp_round_trip (mkDatetime 2026 1 27 2 4 1) "crm.rusvek29.ru"
                              "full_6mq5xw84z01osj0q.tar"); reflexivity.
Defined.

(** ** The ignore file *)

Lemma load_ignore_In (lines : list string) :
  forall acc p,
    In p (fold_left add_ignore_line lines acc) <->
    In p acc \/
    exists line, In line lines /\ p = strip line /\
                 String.eqb p "" = false /\ PyStr.startswith p "#" = false.
Proof.
  induction lines as [| l lines IH]; intros acc p; cbn [fold_left].
  - split; [auto | intros [H | [line [[] _]]]; exact H].
  - rewrite IH. unfold add_ignore_line at 1. cbv zeta. split.
    + intros [H | [line [Hin Hp]]].
      * destruct (negb (String.eqb (strip l) "") && negb (PyStr.startswith (strip l) "#"))
          eqn:E; [| left; exact H].
        apply set_add_In in H. destruct H as [-> | H]; [| left; exact H].
        apply andb_true_iff in E. destruct E as [E1 E2].
        apply negb_true_iff in E1, E2.
        right. exists l. split; [left; reflexivity |]. repeat split; assumption.
      * right. exists line. split; [right; exact Hin | exact Hp].
    + intros [H | [line [[<- | Hin] [Hp [E1 E2]]]]].
      * left. destruct (_ && _); [apply set_add_In; right; exact H | exact H].
      * left. subst p. rewrite E1, E2. cbn [negb andb]. apply set_add_In. left. reflexivity.
      * right. exists line. repeat split; assumption.
Qed.

Lemma endswith_empty (f : string) : PyStr.endswith f "" = true.
Proof. apply endswith_iff. exists f. symmetry. apply app_empty_r. Qed.

(** A file name is ignored exactly when some line of [.ftpignore] that is
    neither blank nor a comment matches it: after stripping, a line [*suf]
    matches the names that end with [suf], any other line the names that
    contain it.  Without the file nothing is ignored, and a line that
    consists of a star ignores every file. *)
Theorem ignore_file_semantics :
  (forall (lines : list string) (filename : string),
      _should_ignore (_load_ignore_patterns (Some lines)) filename = true <->
      exists line, In line lines /\ line_ignores line filename = true)
  /\
  (forall filename, _should_ignore (_load_ignore_patterns None) filename = false)
  /\
  (forall (lines : list string) (line filename : string),
      In line lines -> strip line = "*" ->
      _should_ignore (_load_ignore_patterns (Some lines)) filename = true).
Proof.
  assert (Hiff : forall (lines : list string) (filename : string),
      _should_ignore (_load_ignore_patterns (Some lines)) filename = true <->
      exists line, In line lines /\ line_ignores line filename = true).
  { intros lines filename. unfold _should_ignore, _load_ignore_patterns.
    rewrite existsb_exists. split.
    - intros [p [Hin Hm]]. apply load_ignore_In in Hin.
      destruct Hin as [[] | [line [Hin [Hp [E1 E2]]]]].
      exists line. split; [exact Hin |]. unfold line_ignores. cbv zeta.
      rewrite <- Hp, E1, E2. exact Hm.
    - intros [line [Hin Hm]]. unfold line_ignores in Hm. cbv zeta in Hm.
      apply andb_true_iff in Hm. destruct Hm as [Hm Hmatch].
      apply andb_true_iff in Hm. destruct Hm as [E1 E2]. apply negb_true_iff in E1, E2.
      exists (strip line). split; [| exact Hmatch].
      apply load_ignore_In. right. exists line. repeat split; assumption. }
  split; [exact Hiff |]. split; [reflexivity |].
  intros lines line filename Hin Hstar. apply Hiff. exists line. split; [exact Hin |].
  unfold line_ignores. cbv zeta. rewrite Hstar. cbn. apply endswith_empty.
Qed.

Lemma ignore_file_semantics_witness :
  _should_ignore (_load_ignore_patterns (Some ["# logs"; "  *  "; ""]))
                 "db_20260101_000000_full.tar" = true.
Proof.
  apply (proj2 (proj2 ignore_file_semantics) ["# logs"; "  *  "; ""] "  *  ").
  - right. left. reflexivity.
  - reflexivity.
Defined.

(** ** The connection policy *)

(** [_connect_ftp] makes one to three connection attempts.  Every attempt
    but the last one made ended with an error and was followed by a sleep of
    5 seconds.  The call returns the session of the last attempt when that
    one succeeds, raises [ConnectionError] when the third attempt ends with
    an error too, and lets an interrupt of an attempt through at once. *)
Theorem connect_ftp_policy :
  forall (w : World) (s : State),
    let m := _connect_ftp w in
    exists d before last_attempt,
      trace (state_after m s) = d ++ trace s /\
      Forall connect_event d /\
      connect_attempts d = before ++ [last_attempt] /\
      length before <= 2 /\
      Forall failed_attempt before /\
      sleeps d = repeat 5%Z (length before) /\
      match result_of m s with
      | Ok ftp =>
          last_attempt = None /\ ftp = next_session s /\
          next_session (state_after m s) = S ftp
      | Raise e =>
          (e = ConnectionError /\ length before = 2 /\ failed_attempt last_attempt) \/
          (e = KeyboardInterrupt /\ last_attempt = Some KeyboardInterrupt)
      end.
Proof.
  intros w s m. subst m. unfold _connect_ftp, state_after, result_of.
  set (sid := next_session s).
  set (r0 := w (clock s) (OpConnect sid)).
  set (r1 := w (S (clock s)) (OpConnect sid)).
  set (r2 := w (S (S (clock s))) (OpConnect sid)).
  set (e0 := EvOp (OpConnect sid) r0).
  set (e1 := EvOp (OpConnect sid) r1).
  set (e2 := EvOp (OpConnect sid) r2).
  assert (Hfail : forall e, is_Exception e = true -> failed_attempt (Some e)).
  { intros e He. exists e. split; [reflexivity | exact He]. }
  assert (Hki : forall e, is_Exception e = false -> e = KeyboardInterrupt).
  { intros e He. destruct e; try discriminate. reflexivity. }
  assert (Hev : forall r, connect_event (EvOp (OpConnect sid) r)) by (intros; exact I).
  assert (Hsl : connect_event (EvSleep 5)) by reflexivity.
  rewrite connect_from_unfold. cbv zeta. fold sid r0 e0.
  destruct (r_exn r0) as [x0 |] eqn:E0.
  2:{ exists [e0], [], None. cbn [fst snd trace new_session log_event tick next_session].
      unfold connect_attempts, sleeps, observe. cbn. rewrite E0.
      split; [reflexivity |]. split; [repeat constructor |]. split; [reflexivity |].
      split; [lia |]. split; [constructor |]. split; [reflexivity |].
      repeat split. }
  destruct (is_Exception x0) eqn:X0.
  2:{ exists [e0], [], (Some x0). cbn [fst snd trace log_event tick].
      unfold connect_attempts, sleeps, observe. cbn. rewrite E0.
      split; [reflexivity |]. split; [repeat constructor |]. split; [reflexivity |].
      split; [lia |]. split; [constructor |]. split; [reflexivity |].
      right. split; [apply Hki; exact X0 |]. rewrite (Hki x0 X0). reflexivity. }
  rewrite connect_from_unfold. cbv zeta.
  cbn [clock next_session log_event tick]. fold sid r1 e1.
  destruct (r_exn r1) as [x1 |] eqn:E1.
  2:{ exists [e1; EvSleep 5; e0], [Some x0], None.
      cbn [fst snd trace new_session log_event tick next_session].
      unfold connect_attempts, sleeps, observe. cbn. rewrite E0, E1.
      split; [reflexivity |]. split; [repeat constructor |]. split; [reflexivity |].
      split; [lia |]. split; [repeat constructor; apply Hfail; assumption |].
      split; [reflexivity |]. repeat split. }
  destruct (is_Exception x1) eqn:X1.
  2:{ exists [e1; EvSleep 5; e0], [Some x0], (Some x1).
      cbn [fst snd trace log_event tick].
      unfold connect_attempts, sleeps, observe. cbn. rewrite E0, E1.
      split; [reflexivity |]. split; [repeat constructor |]. split; [reflexivity |].
      split; [lia |]. split; [repeat constructor; apply Hfail; assumption |].
      split; [reflexivity |].
      right. split; [apply Hki; exact X1 |]. rewrite (Hki x1 X1). reflexivity. }
  rewrite connect_from_unfold. cbv zeta.
  cbn [clock next_session log_event tick]. fold sid r2 e2.
  destruct (r_exn r2) as [x2 |] eqn:E2.
  2:{ exists [e2; EvSleep 5; e1; EvSleep 5; e0], [Some x0; Some x1], None.
      cbn [fst snd trace new_session log_event tick next_session].
      unfold connect_attempts, sleeps, observe. cbn. rewrite E0, E1, E2.
      split; [reflexivity |]. split; [repeat constructor |]. split; [reflexivity |].
      split; [lia |]. split; [repeat constructor; apply Hfail; assumption |].
      split; [reflexivity |]. repeat split. }
  destruct (is_Exception x2) eqn:X2.
  - exists [e2; EvSleep 5; e1; EvSleep 5; e0], [Some x0; Some x1], (Some x2).
    cbn [fst snd trace log_event tick].
    unfold connect_attempts, sleeps, observe. cbn. rewrite E0, E1, E2.
    split; [reflexivity |]. split; [repeat constructor |]. split; [reflexivity |].
    split; [lia |]. split; [repeat constructor; apply Hfail; assumption |].
    split; [reflexivity |].
    left. split; [reflexivity |]. split; [reflexivity | apply Hfail; exact X2].
  - exists [e2; EvSleep 5; e1; EvSleep 5; e0], [Some x0; Some x1], (Some x2).
    cbn [fst snd trace log_event tick].
    unfold connect_attempts, sleeps, observe. cbn. rewrite E0, E1, E2.
    split; [reflexivity |]. split; [repeat constructor |]. split; [reflexivity |].
    split; [lia |]. split; [repeat constructor; apply Hfail; assumption |].
    split; [reflexivity |].
    right. split; [apply Hki; exact X2 |]. rewrite (Hki x2 X2). reflexivity.
Qed.

(** ** Creating the remote directory *)

Lemma ensure_parts_cons w ftp part rest cur s :
  let p := if String.eqb cur "" then part
           else String.append cur (String.append "/" part) in
  let r := w (clock s) (OpCwd ftp p) in
  let s1 := log_event (EvOp (OpCwd ftp p) r) (tick s) in
  let r' := w (clock s1) (OpMkd ftp p) in
  let s2 := log_event (EvOp (OpMkd ftp p) r') (tick s1) in
  ensure_parts w ftp (part :: rest) cur s
  = match r_exn r with
    | None => ensure_parts w ftp rest p s1
    | Some error_perm =>
        match r_exn r' with
        | None => ensure_parts w ftp rest p s2
        | Some e => (Raise e, s2)
        end
    | Some e => (Raise e, s1)
    end.
Proof.
  cbv zeta. cbn [ensure_parts]. unfold bind at 1, try_except, bind at 1, perform at 1.
  destruct (r_exn (w (clock s) (OpCwd ftp _))) as [e |] eqn:Er; [| reflexivity].
  destruct e; cbn [except_error_perm]; try reflexivity.
  unfold bind at 1, perform at 1. cbn [clock log_event tick].
  destruct (r_exn (w (S (clock s)) (OpMkd ftp _))); reflexivity.
Qed.

Lemma ensure_parts_creates w ftp parts :
  forall cur s,
    let m := ensure_parts w ftp parts cur in
    exists d,
      trace (state_after m s) = d ++ trace s /\
      creates ftp (cumulative_paths parts cur) d (result_of m s).
Proof.
  induction parts as [| part rest IH]; intros cur s m; subst m.
  - exists []. split; [reflexivity | constructor].
  - unfold state_after, result_of. rewrite ensure_parts_cons. cbv zeta.
    cbn [cumulative_paths].
    set (p := if String.eqb cur "" then part else String.append cur (String.append "/" part)).
    set (r := w (clock s) (OpCwd ftp p)).
    set (s1 := log_event (EvOp (OpCwd ftp p) r) (tick s)).
    set (r' := w (clock s1) (OpMkd ftp p)).
    set (s2 := log_event (EvOp (OpMkd ftp p) r') (tick s1)).
    destruct (r_exn r) as [e |] eqn:Er.
    + destruct e;
        try (exists [EvOp (OpCwd ftp p) r]; split; [reflexivity |];
             apply creates_probe_fails; [exact Er | discriminate]).
      destruct (r_exn r') as [e' |] eqn:Er'.
      * exists [EvOp (OpMkd ftp p) r'; EvOp (OpCwd ftp p) r]. split; [reflexivity |].
        apply creates_make_fails; assumption.
      * destruct (IH p s2) as [d [Ht Hc]]. unfold state_after, result_of in Ht, Hc.
        exists (d ++ [EvOp (OpMkd ftp p) r'; EvOp (OpCwd ftp p) r]). split.
        -- rewrite Ht, <- app_assoc. reflexivity.
        -- apply creates_make; assumption.
    + destruct (IH p s1) as [d [Ht Hc]]. unfold state_after, result_of in Ht, Hc.
      exists (d ++ [EvOp (OpCwd ftp p) r]). split.
      * rewrite Ht, <- app_assoc. reflexivity.
      * apply creates_enter; assumption.
Qed.

Lemma ensure_remote_directory_unfold w ftp path parts s :
  let r := w (clock s) (OpCwd ftp path) in
  let s1 := log_event (EvOp (OpCwd ftp path) r) (tick s) in
  _ensure_remote_directory w ftp path parts s
  = match r_exn r with
    | None => (Ok tt, s1)
    | Some error_perm =>
        match ensure_parts w ftp parts "" s1 with
        | (Ok _, s2) =>
            (Ok tt, log_event (EvOp (OpCwd ftp path) (w (clock s2) (OpCwd ftp path)))
                              (tick s2))
        | (Raise e, s2) => (Raise e, s2)
        end
    | Some e => (Raise e, s1)
    end.
Proof.
  cbv zeta. unfold _ensure_remote_directory, try_except at 1, bind at 1, perform at 1.
  destruct (r_exn (w (clock s) (OpCwd ftp path))) as [e |] eqn:Er; [| reflexivity].
  destruct e; cbn [except_error_perm]; try reflexivity.
  unfold bind at 1.
  destruct (ensure_parts w ftp parts "" _) as [[[] | e] s2]; [| reflexivity].
  unfold try_except, bind, perform, except_all.
  destruct (r_exn (w (clock s2) (OpCwd ftp path))); reflexivity.
Qed.

(** [_ensure_remote_directory] enters the remote directory when it can:
    one [CWD], nothing else.  An error of that [CWD] other than
    [ftplib.error_perm] leaves the method as it is.  After
    [ftplib.error_perm] the method walks down the parts of the path,
    creating what cannot be entered; when the walk ends with an exception
    the method raises it, and when the walk succeeds the method tries the
    [CWD] again and returns, whatever the outcome of that last [CWD]. *)
Theorem ensure_remote_directory_cases :
  forall (w : World) (ftp : session) (remote_path : string) (parts : list string)
         (s : State),
    let m := _ensure_remote_directory w ftp remote_path parts in
    let r := w (clock s) (OpCwd ftp remote_path) in
    let first := EvOp (OpCwd ftp remote_path) r in
    match r_exn r with
    | None =>
        result_of m s = Ok tt /\ trace (state_after m s) = first :: trace s
    | Some error_perm =>
        exists d walk,
          trace (state_after m s) = d ++ first :: trace s /\
          creates ftp (cumulative_paths parts "") walk
                  (match result_of m s with Ok _ => Ok tt | Raise e => Raise e end) /\
          match result_of m s with
          | Ok _ => exists r_last, d = EvOp (OpCwd ftp remote_path) r_last :: walk
          | Raise _ => d = walk
          end
    | Some e =>
        result_of m s = Raise e /\ trace (state_after m s) = first :: trace s
    end.
Proof.
  intros w ftp path parts s m r first. subst m first.
  unfold state_after, result_of. rewrite ensure_remote_directory_unfold. cbv zeta.
  fold r. destruct (r_exn r) as [e |] eqn:Er; [| split; reflexivity].
  destruct e; try (split; reflexivity).
  set (s1 := log_event (EvOp (OpCwd ftp path) r) (tick s)).
  destruct (ensure_parts_creates w ftp parts "" s1) as [walk [Ht Hc]].
  unfold state_after, result_of in Ht, Hc.
  destruct (ensure_parts w ftp parts "" s1) as [[[] | e] s2]; cbn [fst snd] in *.
  - exists (EvOp (OpCwd ftp path) (w (clock s2) (OpCwd ftp path)) :: walk), walk.
    cbn [trace log_event tick]. rewrite Ht.
    split; [reflexivity |]. split; [exact Hc |]. eexists. reflexivity.
  - exists walk, walk. split; [exact Ht |]. split; [exact Hc | reflexivity].
Qed.

(** ** Size verification *)

Lemma verify_unfold w ftp lf rf s :
  let r_stat := w (clock s) (OpStat lf) in
  let s1 := log_event (EvOp (OpStat lf) r_stat) (tick s) in
  let r_sz := w (S (clock s)) (OpSize ftp rf) in
  let s2 := log_event (EvOp (OpSize ftp rf) r_sz) (tick s1) in
  _verify_file_integrity w ftp lf rf s
  = match r_exn r_stat with
    | Some e => (if is_Exception e then Ok false else Raise e, s1)
    | None =>
        match r_size r_stat with
        | None => (Ok false, s1)
        | Some n =>
            match r_exn r_sz with
            | Some e => (if is_Exception e then Ok false else Raise e, s2)
            | None =>
                match r_size r_sz with
                | None => (Ok false, s2)
                | Some n' => (Ok (n =? n')%Z, s2)
                end
            end
        end
    end.
Proof.
  cbv zeta.
  unfold _verify_file_integrity, try_except, bind at 1, stat, bind at 1, perform at 1.
  destruct (r_exn (w (clock s) (OpStat lf))) as [e |] eqn:E1.
  { unfold except_Exception. destruct (is_Exception e); reflexivity. }
  destruct (r_size (w (clock s) (OpStat lf))) as [n |] eqn:E2; [| reflexivity].
  cbn [ret]. unfold bind, perform. cbn [clock log_event tick].
  destruct (r_exn (w (S (clock s)) (OpSize ftp rf))) as [e |] eqn:E3.
  { unfold except_Exception. destruct (is_Exception e); reflexivity. }
  destruct (r_size (w (S (clock s)) (OpSize ftp rf))) as [n' |]; [| reflexivity].
  destruct (n =? n')%Z; reflexivity.
Qed.

(** [_verify_file_integrity] returns [True] exactly when the local size
    and the remote size are both obtained and equal; nothing but the two
    sizes is compared.  Every error ends in [False]; only an interrupt
    leaves the method as an exception. *)
Theorem verify_file_integrity_sizes :
  forall (w : World) (ftp : session) (local_file remote_filename : string) (s : State),
    let m := _verify_file_integrity w ftp local_file remote_filename in
    let r_stat := w (clock s) (OpStat local_file) in
    let r_sz := w (S (clock s)) (OpSize ftp remote_filename) in
    (result_of m s = Ok true <->
     r_exn r_stat = None /\ r_exn r_sz = None /\
     exists n, r_size r_stat = Some n /\ r_size r_sz = Some n) /\
    (result_of m s = Ok true \/ result_of m s = Ok false \/
     result_of m s = Raise KeyboardInterrupt).
Proof.
  intros w ftp lf rf s m r_stat r_sz. subst m.
  unfold result_of. rewrite verify_unfold. cbv zeta. fold r_stat r_sz.
  destruct (r_exn r_stat) as [e |].
  { destruct e; cbn [is_Exception fst]; (split; [split; [discriminate | intros [H _]; discriminate] | auto]). }
  destruct (r_size r_stat) as [n |].
  2:{ cbn [fst]. split; [split; [discriminate | intros [_ [_ [n [H _]]]]; discriminate] | auto]. }
  destruct (r_exn r_sz) as [e |].
  { destruct e; cbn [is_Exception fst];
      (split; [split; [discriminate | intros [_ [H _]]; discriminate] | auto]). }
  destruct (r_size r_sz) as [n' |]; cbn [fst].
  2:{ split; [split; [discriminate | intros [_ [_ [k [_ H]]]]; discriminate] | auto]. }
  destruct (Z.eqb_spec n n') as [-> | Hne].
  - split; [| auto]. split; [| reflexivity].
    intros _. split; [reflexivity |]. split; [reflexivity |]. exists n'. split; reflexivity.
  - split; [| auto]. split; [discriminate |].
    intros [_ [_ [k [H1 H2]]]]. inversion H1; inversion H2; subst. contradiction.
Qed.

(** ** Which files are read and stored *)

Section OnlyAllowed.

Variable w : World.
Variable allowed : string -> Prop.

Lemma only_upload_try ftp lf rf rd :
  allowed lf -> allowed rf -> framed (transfers_only allowed) (upload_try w ftp lf rf rd).
Proof.
  intros Hl Hr. unfold upload_try.
  apply framed_bind; [apply framed_perform; intros; exact I | intros _].
  apply framed_bind; [apply framed_stat; intros; exact I | intros _].
  apply framed_bind; [apply framed_perform; intros; exact Hl | intros _].
  apply framed_bind; [apply framed_perform; intros; exact Hr | intros _].
  apply framed_verify; intros; exact I.
Qed.

Lemma only_upload_attempt mr attempt ftp lf rf rd :
  allowed lf -> allowed rf -> framed (transfers_only allowed) (upload_attempt w mr attempt ftp lf rf rd).
Proof.
  intros Hl Hr. unfold upload_attempt. apply framed_try_except.
  - apply framed_bind; [apply only_upload_try; assumption | intros b].
    destruct b; apply framed_ret.
  - intros e h He.
    destruct e; inversion He; subst; clear He;
      destruct (attempt <? mr - 1)%nat;
      repeat first [ apply framed_ret
                   | apply framed_bind; [| intros ?]
                   | apply framed_sleep; exact I
                   | apply framed_quit_quietly; intros; exact I
                   | apply framed_connect; intros; exact I ].
Qed.

Lemma only_upload_loop mr attempts lf rf rd :
  allowed lf -> allowed rf ->
  forall ftp, framed (transfers_only allowed) (upload_loop w mr attempts ftp lf rf rd).
Proof.
  intros Hl Hr. induction attempts as [| a rest IH]; intros ftp; cbn [upload_loop].
  - apply framed_ret.
  - apply framed_bind; [apply only_upload_attempt; assumption | intros st].
    destruct st; [apply framed_ret | apply IH].
Qed.

Lemma only_upload ftp lf rf rd mr :
  allowed lf -> allowed rf ->
  framed (transfers_only allowed) (_upload_file_to_ftp_with_retry w ftp lf rf rd mr).
Proof.
  intros Hl Hr s. unfold state_after, _upload_file_to_ftp_with_retry.
  pose proof (only_upload_loop mr (seq 0 mr) lf rf rd Hl Hr ftp s) as H.
  unfold state_after in H.
  destruct (upload_loop w mr (seq 0 mr) ftp lf rf rd s) as [r s1]; cbn [fst snd] in *.
  eapply extends_trans; [exact H |].
  apply extends_log. exact I.
Qed.

Lemma only_upload_volumes ftp wanted rd volumes :
  (forall v, In v volumes -> allowed v) ->
  framed (transfers_only allowed) (upload_volumes w ftp volumes wanted rd).
Proof.
  induction volumes as [| v rest IH]; intros Hall; cbn [upload_volumes].
  - apply framed_ret.
  - assert (IH' : framed (transfers_only allowed) (upload_volumes w ftp rest wanted rd)).
    { apply IH. intros x Hx. apply Hall. right. exact Hx. }
    destruct (wanted v); [| exact IH'].
    apply framed_bind; [apply only_upload; apply Hall; left; reflexivity | intros b].
    destruct b; [exact IH' | apply framed_ret].
Qed.

Lemma only_process_archive_set ftp base set rd :
  (forall v, In v set -> allowed v) ->
  framed (transfers_only allowed) (_process_archive_set w ftp base set rd).
Proof.
  intros Hall. unfold _process_archive_set.
  apply framed_try_except; [| apply framed_except_Exception; apply framed_ret].
  apply framed_bind; [apply framed_check_archive_exists; intros; exact I
                     | intros [ex existing]].
  destruct ex; [| apply only_upload_volumes; exact Hall].
  destruct (_ =? _)%nat; [apply framed_ret |].
  destruct (filter _ set); [apply framed_ret | apply only_upload_volumes; exact Hall].
Qed.

Lemma only_process_one ftp rd b set s :
  (forall v, In v set -> allowed v) ->
  trace_extends (transfers_only allowed) s (state_after (process_one w ftp rd (b, set)) s).
Proof.
  intros Hall. destruct (only_process_archive_set ftp b set rd Hall s) as [Ht _].
  unfold process_one, state_after, try_except, bind, modify in *.
  destruct (_process_archive_set w ftp b set rd s) as [[[|] | e] s1]; cbn [fst snd] in *;
    try exact Ht.
  destruct e; cbn; exact Ht.
Qed.

End OnlyAllowed.
(** ** Properties of every event of a run *)

Lemma for_each_trace_extends {A} (P : Event -> Prop) (l : list A) (body : A -> M unit) :
  (forall x s, In x l -> trace_extends P s (state_after (body x) s)) ->
  forall s, trace_extends P s (state_after (for_each l body) s).
Proof.
  induction l as [| x l IH]; intros H s; [apply trace_extends_refl |].
  pose proof (H x s (or_introl eq_refl)) as H1.
  cbn [for_each]. unfold state_after, bind in *.
  destruct (body x s) as [[u | e] s1]; cbn [fst snd] in *; [| exact H1].
  eapply trace_extends_trans; [exact H1 |].
  apply IH. intros y s' Hy. apply H. right. exact Hy.
Qed.

(** What holds of every event logged by the setup, by the processing of
    each local set and by the two prunes holds of every event of the
    [try] block of [run]. *)
Lemma run_try_trace_invariant (P : Event -> Prop) w cfg s0 :
  framed P (run_setup w cfg) ->
  (forall ftp e s,
      In e (local_sets (ignore_patterns cfg) (local_dir s0)) ->
      trace_extends P s (state_after (process_one w ftp (remote_dir cfg) e) s)) ->
  (forall ftp, framed P (_cleanup_old_ftp_backups w ftp (remote_dir cfg) (max_copies cfg))) ->
  framed P (_cleanup_local_archives w) ->
  trace_extends P s0 (state_after (run_try w cfg) s0).
Proof.
  intros Hsetup Hone Hold Hloc.
  pose proof (extends_trace _ _ _ (Hsetup s0)) as H1.
  pose proof (run_setup_Ok w cfg s0) as Hsets.
  unfold run_try, state_after, bind in *.
  destruct (run_setup w cfg s0) as [[[ftp sets] | e] s1]; cbn [fst snd] in *; [| exact H1].
  specialize (Hsets ftp sets s1 eq_refl).
  destruct sets as [| e0 sets'] eqn:Esets; [exact H1 |].
  rewrite <- Esets in *. clear Esets e0 sets'.
  eapply trace_extends_trans; [exact H1 |].
  assert (Hloop : trace_extends P s1
            (state_after (for_each sets (process_one w ftp (remote_dir cfg))) s1)).
  { apply for_each_trace_extends. intros x s Hx. apply Hone. rewrite <- Hsets. exact Hx. }
  unfold run_sets, state_after, bind in *.
  destruct (for_each sets (process_one w ftp (remote_dir cfg)) s1) as [[[] | e] s2];
    cbn [fst snd get_state] in *; [| exact Hloop].
  eapply trace_extends_trans; [exact Hloop |].
  destruct (successful_uploads s2) as [| b bs].
  { cbn [ret]. destruct (failed_uploads s2); apply trace_extends_refl. }
  pose proof (extends_trace _ _ _ (Hold ftp s2)) as H3.
  unfold state_after in H3.
  destruct (_cleanup_old_ftp_backups w ftp (remote_dir cfg) (max_copies cfg) s2)
    as [[[] | e] s3]; cbn [fst snd] in *; [| exact H3].
  eapply trace_extends_trans; [exact H3 |].
  pose proof (extends_trace _ _ _ (Hloc s3)) as H4.
  unfold state_after in H4.
  destruct (_cleanup_local_archives w s3) as [[[] | e] s4]; cbn [fst snd] in *;
    [| exact H4].
  destruct (failed_uploads s4); exact H4.
Qed.

Lemma framed_cleanup_old_ftp_backups_gen (P : Event -> Prop) w ftp rd k :
  (forall sid path r, P (EvOp (OpCwd sid path) r)) ->
  (forall sid r, P (EvOp (OpNlst sid) r)) ->
  (forall sid n r, P (EvOp (OpDelete sid n) r)) ->
  framed P (_cleanup_old_ftp_backups w ftp rd k).
Proof.
  intros Hcwd Hnlst Hdel.
  unfold _cleanup_old_ftp_backups. apply framed_try_except.
  - apply framed_bind; [apply framed_perform; intros; apply Hcwd | intros _].
    apply framed_bind; [apply framed_perform; intros; apply Hnlst | intros r].
    apply framed_bind; [apply framed_get_state | intros s0].
    apply framed_for_each. intros x _. apply framed_for_each. intros f _.
    unfold delete_quietly. apply framed_try_except.
    + apply framed_bind; [apply framed_perform; intros; apply Hdel | intros; apply framed_ret].
    + apply framed_except_Exception. apply framed_ret.
  - apply framed_except_Exception. apply framed_ret.
Qed.

Lemma transfers_only_observed allowed d :
  Forall (transfers_only allowed) d ->
  (forall n, In n (stor_attempts d) -> allowed n) /\
  (forall f, In f (open_attempts d) -> allowed f).
Proof.
  induction d as [| ev d IH]; intros H.
  - split; intros n [].
  - inversion H as [| ? ? Hev Hd]; subst. destruct (IH Hd) as [IH1 IH2].
    unfold stor_attempts, open_attempts in *. rewrite !observe_cons.
    split; intros n Hn; apply in_app_or in Hn; destruct Hn as [Hn | Hn]; auto;
      destruct ev as [o r | z | x r]; try destruct o; cbn in Hn, Hev;
      try contradiction; destruct Hn as [<- | []]; exact Hev.
Qed.

(** In its [try] block, from the connection to the return code, [run]
    stores on the server and opens for reading only non-ignored archive
    files of the source directory: every [STOR] carries the name of such a
    file and every [open] of the Executor reads one. *)
Theorem run_try_transfers_only_local_archives :
  forall (w : World) (cfg : Config) (dir : list string),
    let s := state_after (run_try w cfg) (init_state dir) in
    (forall n, In n (stor_attempts (trace s)) ->
               local_archive_file (ignore_patterns cfg) dir n) /\
    (forall f, In f (open_attempts (trace s)) ->
               local_archive_file (ignore_patterns cfg) dir f).
Proof.
  intros w cfg dir s. subst s.
  set (allowed := local_archive_file (ignore_patterns cfg) dir).
  assert (H : trace_extends (transfers_only allowed) (init_state dir)
                (state_after (run_try w cfg) (init_state dir))).
  { apply run_try_trace_invariant.
    - apply framed_run_setup; intros; exact I.
    - intros ftp [b set] s Hin. apply only_process_one.
      intros v Hv. destruct (local_sets_entry _ _ _ _ Hin) as [_ [_ Hmem]].
      apply Hmem in Hv. destruct Hv as [Hdir Hkey].
      apply locator_key_base in Hkey. destruct Hkey as [Hign Hbase].
      split; [exact Hdir |]. split; [exact Hign |]. exists b. exact Hbase.
    - intros ftp. apply framed_cleanup_old_ftp_backups_gen; intros; exact I.
    - apply framed_cleanup_local_archives; intros; exact I. }
  destruct H as [d [Ht Hd]]. cbn [trace init_state] in Ht. rewrite app_nil_r in Ht.
  rewrite Ht. apply transfers_only_observed. exact Hd.
Qed.

(** ** Components of the state that the methods leave alone *)

Lemma keeps_ret_gen {X A} (proj : State -> X) (a : A) : keeps proj (ret a).
Proof. intros s. reflexivity. Qed.

Lemma keeps_raise_gen {X A} (proj : State -> X) e : keeps proj (@raise A e).
Proof. intros s. reflexivity. Qed.

Lemma keeps_get_state_gen {X} (proj : State -> X) : keeps proj get_state.
Proof. intros s. reflexivity. Qed.

Lemma keeps_modify_gen {X} (proj : State -> X) f :
  (forall s, proj (f s) = proj s) -> keeps proj (modify f).
Proof. intros H s. apply H. Qed.

Lemma keeps_bind_gen {X A B} (proj : State -> X) (m : M A) (f : A -> M B) :
  keeps proj m -> (forall a, keeps proj (f a)) -> keeps proj (bind m f).
Proof.
  intros Hm Hf s. specialize (Hm s). unfold state_after, bind in *.
  destruct (m s) as [[a | e] s1]; cbn [fst snd] in *; [| exact Hm].
  rewrite <- Hm. apply Hf.
Qed.

Lemma keeps_try_except_gen {X A} (proj : State -> X) (body : M A) handler :
  keeps proj body -> (forall e h, handler e = Some h -> keeps proj h) ->
  keeps proj (try_except body handler).
Proof.
  intros Hb Hh s. specialize (Hb s). unfold state_after, try_except in *.
  destruct (body s) as [[a | e] s1]; cbn [fst snd] in *; [exact Hb |].
  destruct (handler e) as [h |] eqn:E; [| exact Hb].
  rewrite <- Hb. apply (Hh e h E).
Qed.

Lemma keeps_try_finally_gen {X A} (proj : State -> X) (body : M A) cleanup :
  keeps proj body -> keeps proj cleanup -> keeps proj (try_finally body cleanup).
Proof.
  intros Hb Hc s. specialize (Hb s). unfold state_after, try_finally in *.
  destruct (body s) as [r s1]; cbn [fst snd] in *.
  specialize (Hc s1). unfold state_after in Hc.
  destruct (cleanup s1) as [[u | e] s2]; cbn [fst snd] in *; destruct r;
    cbn [fst snd]; congruence.
Qed.

Lemma keeps_for_each_gen {X A} (proj : State -> X) (l : list A) (body : A -> M unit) :
  (forall x, keeps proj (body x)) -> keeps proj (for_each l body).
Proof.
  intros H. induction l as [| x l IH]; cbn [for_each].
  - apply keeps_ret_gen.
  - apply keeps_bind_gen; [apply H | intros _; exact IH].
Qed.

Lemma keeps_handler_Exception {X A} (proj : State -> X) (h : M A) :
  keeps proj h -> forall e h', except_Exception h e = Some h' -> keeps proj h'.
Proof.
  intros H e h' E. unfold except_Exception in E.
  destruct (is_Exception e); inversion E; subst. exact H.
Qed.

Lemma keeps_handler_all {X A} (proj : State -> X) (h : M A) :
  keeps proj h -> forall e h', except_all h e = Some h' -> keeps proj h'.
Proof. intros H e h' E. inversion E; subst. exact H. Qed.

Lemma keeps_handler_error_perm {X A} (proj : State -> X) (h : M A) :
  keeps proj h -> forall e h', except_error_perm h e = Some h' -> keeps proj h'.
Proof.
  intros H e h' E. destruct e; inversion E; subst. exact H.
Qed.

Section Keeps.

Context {X : Type} (proj : State -> X).
Variable w : World.
Hypothesis proj_log : forall ev s, proj (log_event ev s) = proj s.
Hypothesis proj_tick : forall s, proj (tick s) = proj s.
Hypothesis proj_new_session : forall s, proj (new_session s) = proj s.
Hypothesis proj_add_successful : forall b s, proj (add_successful b s) = proj s.
Hypothesis proj_add_failed : forall b s, proj (add_failed b s) = proj s.
Hypothesis proj_set_local_dir : forall d s, proj (set_local_dir d s) = proj s.

Lemma keeps_perform_gen o : keeps proj (perform w o).
Proof.
  intros s. unfold state_after, perform.
  destruct (r_exn (w (clock s) o)); cbn [snd]; rewrite proj_log, proj_tick; reflexivity.
Qed.

Lemma keeps_sleep_gen z : keeps proj (sleep z).
Proof. intros s. unfold state_after, sleep, modify. cbn [snd]. apply proj_log. Qed.

Ltac keeps_step :=
  first [ apply keeps_ret_gen
        | apply keeps_raise_gen
        | apply keeps_get_state_gen
        | apply keeps_perform_gen
        | apply keeps_sleep_gen
        | apply keeps_bind_gen; [| intros ?]
        | apply keeps_try_except_gen;
          [| first [ apply keeps_handler_Exception
                   | apply keeps_handler_all
                   | apply keeps_handler_error_perm ] ] ].

Lemma keeps_stat file : keeps proj (stat w file).
Proof. unfold stat. repeat keeps_step. destruct (r_size _); repeat keeps_step. Qed.

Lemma keeps_glob pattern matches : keeps proj (glob w pattern matches).
Proof. unfold glob. repeat keeps_step. Qed.

Lemma keeps_connect_once : keeps proj (connect_once w).
Proof.
  unfold connect_once. repeat keeps_step.
  apply keeps_modify_gen. exact proj_new_session.
Qed.

Lemma keeps_connect_from n : keeps proj (_connect_ftp_from w n).
Proof.
  induction n as [| n IH]; cbn [_connect_ftp_from];
    apply keeps_try_except_gen; try apply keeps_connect_once;
    apply keeps_handler_Exception; repeat keeps_step. exact IH.
Qed.

Lemma keeps_connect : keeps proj (_connect_ftp w).
Proof. apply keeps_connect_from. Qed.

Lemma keeps_ensure_parts ftp parts : forall cur, keeps proj (ensure_parts w ftp parts cur).
Proof.
  induction parts as [| part rest IH]; intros cur; cbn [ensure_parts].
  - apply keeps_ret_gen.
  - apply keeps_bind_gen; [repeat keeps_step | intros _; apply IH].
Qed.

Lemma keeps_ensure_remote_directory ftp path parts :
  keeps proj (_ensure_remote_directory w ftp path parts).
Proof.
  unfold _ensure_remote_directory.
  apply keeps_try_except_gen; [repeat keeps_step |].
  apply keeps_handler_error_perm.
  apply keeps_bind_gen; [apply keeps_ensure_parts | intros _]. repeat keeps_step.
Qed.

Lemma keeps_get_multi_volume_archives ignore :
  keeps proj (_get_multi_volume_archives w ignore).
Proof.
  unfold _get_multi_volume_archives.
  apply keeps_bind_gen; [apply keeps_glob | intros ?].
  apply keeps_bind_gen; [apply keeps_glob | intros ?]. apply keeps_ret_gen.
Qed.

Lemma keeps_check_archive_exists ftp base rd :
  keeps proj (_check_archive_exists_on_ftp w ftp base rd).
Proof. unfold _check_archive_exists_on_ftp. repeat keeps_step. Qed.

Lemma keeps_verify ftp lf rf : keeps proj (_verify_file_integrity w ftp lf rf).
Proof.
  unfold _verify_file_integrity.
  apply keeps_try_except_gen; [| apply keeps_handler_Exception; apply keeps_ret_gen].
  apply keeps_bind_gen; [apply keeps_stat | intros n].
  apply keeps_bind_gen; [apply keeps_perform_gen | intros r].
  destruct (r_size r); [destruct (negb _) |]; apply keeps_ret_gen.
Qed.

Lemma keeps_upload_try ftp lf rf rd : keeps proj (upload_try w ftp lf rf rd).
Proof.
  unfold upload_try.
  apply keeps_bind_gen; [apply keeps_perform_gen | intros _].
  apply keeps_bind_gen; [apply keeps_stat | intros _].
  apply keeps_bind_gen; [apply keeps_perform_gen | intros _].
  apply keeps_bind_gen; [apply keeps_perform_gen | intros _].
  apply keeps_verify.
Qed.

Lemma keeps_quit_quietly ftp : keeps proj (quit_quietly w ftp).
Proof. unfold quit_quietly. repeat keeps_step. Qed.

Lemma keeps_upload_attempt mr attempt ftp lf rf rd :
  keeps proj (upload_attempt w mr attempt ftp lf rf rd).
Proof.
  unfold upload_attempt. apply keeps_try_except_gen.
  - apply keeps_bind_gen; [apply keeps_upload_try | intros b].
    destruct b; apply keeps_ret_gen.
  - intros e h He.
    destruct e; inversion He; subst; clear He;
      destruct (attempt <? mr - 1)%nat;
      repeat first [ apply keeps_quit_quietly | apply keeps_connect | keeps_step ].
Qed.

Lemma keeps_upload_loop mr attempts lf rf rd :
  forall ftp, keeps proj (upload_loop w mr attempts ftp lf rf rd).
Proof.
  induction attempts as [| a rest IH]; intros ftp; cbn [upload_loop].
  - apply keeps_ret_gen.
  - apply keeps_bind_gen; [apply keeps_upload_attempt | intros st].
    destruct st; [apply keeps_ret_gen | apply IH].
Qed.

Lemma keeps_upload ftp lf rf rd mr :
  keeps proj (_upload_file_to_ftp_with_retry w ftp lf rf rd mr).
Proof.
  intros s. unfold state_after, _upload_file_to_ftp_with_retry.
  pose proof (keeps_upload_loop mr (seq 0 mr) lf rf rd ftp s) as H.
  unfold state_after in H.
  destruct (upload_loop w mr (seq 0 mr) ftp lf rf rd s) as [r s1]; cbn [fst snd] in *.
  rewrite proj_log. exact H.
Qed.

Lemma keeps_upload_volumes ftp wanted rd volumes :
  keeps proj (upload_volumes w ftp volumes wanted rd).
Proof.
  induction volumes as [| v rest IH]; cbn [upload_volumes].
  - apply keeps_ret_gen.
  - destruct (wanted v); [| exact IH].
    apply keeps_bind_gen; [apply keeps_upload | intros b].
    destruct b; [exact IH | apply keeps_ret_gen].
Qed.

Lemma keeps_process_archive_set ftp base set rd :
  keeps proj (_process_archive_set w ftp base set rd).
Proof.
  unfold _process_archive_set.
  apply keeps_try_except_gen; [| apply keeps_handler_Exception; apply keeps_ret_gen].
  apply keeps_bind_gen; [apply keeps_check_archive_exists | intros [ex existing]].
  destruct ex; [| apply keeps_upload_volumes].
  destruct (_ =? _)%nat; [apply keeps_ret_gen |].
  destruct (filter _ set); [apply keeps_ret_gen | apply keeps_upload_volumes].
Qed.

Lemma keeps_process_one ftp rd e : keeps proj (process_one w ftp rd e).
Proof.
  destruct e as [b set]. unfold process_one.
  apply keeps_try_except_gen.
  - apply keeps_bind_gen; [apply keeps_process_archive_set | intros ok].
    destruct ok; apply keeps_modify_gen; intros s;
      [apply proj_add_successful | apply proj_add_failed].
  - apply keeps_handler_Exception. apply keeps_modify_gen. intros s. apply proj_add_failed.
Qed.

Lemma keeps_cleanup_old_ftp_backups ftp rd k :
  keeps proj (_cleanup_old_ftp_backups w ftp rd k).
Proof.
  unfold _cleanup_old_ftp_backups.
  apply keeps_try_except_gen; [| apply keeps_handler_Exception; apply keeps_ret_gen].
  apply keeps_bind_gen; [apply keeps_perform_gen | intros _].
  apply keeps_bind_gen; [apply keeps_perform_gen | intros r].
  apply keeps_bind_gen; [apply keeps_get_state_gen | intros s0].
  apply keeps_for_each_gen. intros x. apply keeps_for_each_gen. intros f.
  unfold delete_quietly. repeat keeps_step.
Qed.

Lemma keeps_glob_pattern pattern : keeps proj (glob_pattern w pattern).
Proof.
  unfold glob_pattern. destruct (String.eqb pattern "**"); [repeat keeps_step |].
  destruct (PyStr.contains "**" pattern); [apply keeps_raise_gen | apply keeps_glob].
Qed.

Lemma keeps_find_successful_sets bases :
  forall acc, keeps proj (find_successful_sets w bases acc).
Proof.
  induction bases as [| b rest IH]; intros acc; cbn [find_successful_sets].
  - apply keeps_ret_gen.
  - apply keeps_bind_gen; [apply keeps_glob_pattern | intros files]. apply IH.
Qed.

Lemma keeps_run_finally : keeps proj (run_finally w).
Proof.
  unfold run_finally. apply keeps_bind_gen; [apply keeps_get_state_gen | intros s0].
  destruct (self_ftp s0); [apply keeps_quit_quietly | apply keeps_ret_gen].
Qed.

Lemma keeps_unlink_quietly f : keeps proj (unlink_quietly w f).
Proof.
  unfold unlink_quietly.
  apply keeps_try_except_gen; [| apply keeps_handler_Exception; apply keeps_ret_gen].
  apply keeps_bind_gen; [apply keeps_get_state_gen | intros s0].
  destruct (str_in f (local_dir s0)); [| apply keeps_ret_gen].
  apply keeps_bind_gen; [apply keeps_stat | intros _].
  apply keeps_bind_gen; [apply keeps_perform_gen | intros _].
  apply keeps_modify_gen. intros s. apply proj_set_local_dir.
Qed.

Lemma keeps_cleanup_local_archives : keeps proj (_cleanup_local_archives w).
Proof.
  unfold _cleanup_local_archives.
  apply keeps_try_except_gen; [| apply keeps_handler_Exception; apply keeps_ret_gen].
  apply keeps_bind_gen; [apply keeps_get_state_gen | intros s0].
  apply keeps_bind_gen; [apply keeps_find_successful_sets | intros sets].
  destruct (_ <=? _)%nat; [apply keeps_ret_gen |].
  destruct (stamp_local_sets sets); [apply keeps_ret_gen |].
  apply keeps_for_each_gen. intros x. apply keeps_for_each_gen. intros f.
  apply keeps_unlink_quietly.
Qed.

Lemma keeps_run_sets cfg ftp sets : keeps proj (run_sets w cfg ftp sets).
Proof.
  unfold run_sets.
  apply keeps_bind_gen; [apply keeps_for_each_gen; intros e; apply keeps_process_one
                        | intros _].
  apply keeps_bind_gen; [apply keeps_get_state_gen | intros s1].
  apply keeps_bind_gen.
  - destruct (successful_uploads s1); [apply keeps_ret_gen |].
    apply keeps_bind_gen; [apply keeps_cleanup_old_ftp_backups | intros _].
    apply keeps_cleanup_local_archives.
  - intros _. apply keeps_bind_gen; [apply keeps_get_state_gen | intros s2].
    destruct (failed_uploads s2); apply keeps_ret_gen.
Qed.

End Keeps.
(** ** The session of a run *)

Lemma no_quit_in_connect d sid r :
  Forall connect_event d -> ~ In (EvOp (OpQuit sid) r) d.
Proof.
  intros H Hin. rewrite Forall_forall in H. exact (H _ Hin).
Qed.

Lemma run_try_after_connect w cfg s0 :
  run_try w cfg s0
  = match _connect_ftp w s0 with
    | (Ok ftp, s1) => run_after_connect w cfg ftp (set_self_ftp (Some ftp) s1)
    | (Raise e, s1) => (Raise e, s1)
    end.
Proof.
  unfold run_try, run_setup, run_after_connect, bind, modify.
  destruct (_connect_ftp w s0) as [[ftp | e] s1]; [| reflexivity].
  destruct (_ensure_remote_directory w ftp (remote_dir cfg) (remote_parts cfg) _)
    as [[[] | e] s2]; [| reflexivity].
  destruct (_get_multi_volume_archives w (ignore_patterns cfg) s2) as [[sets | e] s3];
    reflexivity.
Qed.

Lemma keeps_run_after_connect {X} (proj : State -> X) w cfg ftp :
  (forall ev s, proj (log_event ev s) = proj s) ->
  (forall s, proj (tick s) = proj s) ->
  (forall s, proj (new_session s) = proj s) ->
  (forall b s, proj (add_successful b s) = proj s) ->
  (forall b s, proj (add_failed b s) = proj s) ->
  (forall d s, proj (set_local_dir d s) = proj s) ->
  keeps proj (run_after_connect w cfg ftp).
Proof.
  intros H1 H2 H3 H4 H5 H6. unfold run_after_connect.
  apply keeps_bind_gen; [apply keeps_ensure_remote_directory; assumption | intros _].
  apply keeps_bind_gen; [apply keeps_get_multi_volume_archives; assumption | intros sets].
  destruct sets; [apply keeps_ret_gen | apply keeps_run_sets; assumption].
Qed.

(** [run] keeps in [self.ftp] the session that [_connect_ftp] returned
    first: nothing that follows, not even a reconnection of the Executor,
    stores another one.  Whatever happens after the connection, the last
    operation of the run is the [quit] of that session.  When no
    connection can be opened, [self.ftp] stays unset and no [quit] is
    sent. *)
Theorem run_session_is_the_first :
  forall (w : World) (cfg : Config) (dir : list string),
    let s := state_after (run w cfg) (init_state dir) in
    match result_of (_connect_ftp w) (init_state dir) with
    | Ok ftp =>
        self_ftp s = Some ftp /\
        exists r d, trace s = EvOp (OpQuit ftp) r :: d
    | Raise _ =>
        self_ftp s = None /\
        forall sid r, ~ In (EvOp (OpQuit sid) r) (trace s)
    end.
Proof.
  intros w cfg dir s. subst s.
  destruct (run_decompose w cfg (init_state dir)) as [Hst _]. rewrite Hst. clear Hst.
  assert (Hk : keeps self_ftp (_connect_ftp w))
    by (apply keeps_connect; intros; reflexivity).
  specialize (Hk (init_state dir)).
  destruct (connect_from_spec w 2 (init_state dir)) as [dc [Htc [Hfc _]]].
  fold (_connect_ftp w) in Htc.
  unfold result_of, state_after in *. rewrite run_try_after_connect.
  destruct (_connect_ftp w (init_state dir)) as [[ftp | e] s1]; cbn [fst snd] in *.
  - assert (Hself : self_ftp (snd (run_after_connect w cfg ftp
                                     (set_self_ftp (Some ftp) s1))) = Some ftp).
    { apply (keeps_run_after_connect self_ftp w cfg ftp); intros; reflexivity. }
    destruct (run_after_connect w cfg ftp (set_self_ftp (Some ftp) s1)) as [r s4];
      cbn [fst snd] in *.
    unfold run_finally, bind, get_state. rewrite Hself, quit_quietly_eq.
    cbn [snd self_ftp trace log_event tick]. split; [exact Hself |]. eauto.
  - cbn [self_ftp init_state] in Hk.
    unfold run_finally, bind, get_state. rewrite Hk. cbn [ret snd].
    split; [exact Hk |]. intros sid r. rewrite Htc. cbn [trace init_state].
    rewrite app_nil_r. apply no_quit_in_connect. exact Hfc.
Qed.

(** ** The local prune *)

Lemma unlink_attempts_app d1 d2 :
  unlink_attempts (d2 ++ d1) = unlink_attempts d1 ++ unlink_attempts d2.
Proof. apply observe_app. Qed.

Lemma remove_name_In f dir g : In g (remove_name f dir) <-> In g dir /\ g <> f.
Proof.
  unfold remove_name. rewrite filter_In. split; intros [H1 H2]; split; try exact H1.
  - intros ->. rewrite String.eqb_refl in H2. discriminate.
  - apply negb_true_iff. apply String.eqb_neq. exact H2.
Qed.

Lemma unlink_quietly_unfold w f s :
  let r1 := w (clock s) (OpStat f) in
  let s1 := log_event (EvOp (OpStat f) r1) (tick s) in
  let r2 := w (S (clock s)) (OpUnlink f) in
  let s2 := log_event (EvOp (OpUnlink f) r2) (tick s1) in
  unlink_quietly w f s
  = if str_in f (local_dir s) then
      match r_exn r1 with
      | Some e => (if is_Exception e then Ok tt else Raise e, s1)
      | None =>
          match r_size r1 with
          | None => (Ok tt, s1)
          | Some _ =>
              match r_exn r2 with
              | Some e => (if is_Exception e then Ok tt else Raise e, s2)
              | None => (Ok tt, set_local_dir (remove_name f (local_dir s2)) s2)
              end
          end
      end
    else (Ok tt, s).
Proof.
  cbv zeta. unfold unlink_quietly, try_except, bind at 1, get_state.
  destruct (str_in f (local_dir s)); [| reflexivity].
  unfold bind at 1, stat, bind at 1, perform at 1.
  destruct (r_exn (w (clock s) (OpStat f))) as [e |].
  { unfold except_Exception. destruct (is_Exception e); reflexivity. }
  destruct (r_size (w (clock s) (OpStat f))); [| reflexivity].
  cbn [ret]. unfold bind, perform, modify. cbn [clock log_event tick].
  destruct (r_exn (w (S (clock s)) (OpUnlink f))) as [e |]; [| reflexivity].
  unfold except_Exception. destruct (is_Exception e); reflexivity.
Qed.

(** What one pass of the innermost loop does to the trace and to the
    source directory. *)
Lemma unlink_quietly_spec w f s :
  let m := unlink_quietly w f in
  let s' := state_after m s in
  exists d,
    trace s' = d ++ trace s /\
    (forall g, In g (unlink_attempts d) -> g = f /\ In f (local_dir s)) /\
    (forall g, In g (local_dir s') -> In g (local_dir s)) /\
    (forall g, In g (local_dir s) -> g <> f -> In g (local_dir s')) /\
    successful_uploads s' = successful_uploads s /\
    (result_of m s = Ok tt \/ result_of m s = Raise KeyboardInterrupt).
Proof.
  intros m s'. subst m s'. unfold state_after, result_of.
  rewrite unlink_quietly_unfold. cbv zeta.
  destruct (str_in f (local_dir s)) eqn:Hin.
  2:{ exists []. cbn [fst snd].
      split; [reflexivity |]. split; [intros g [] |]. split; [auto |]. split; [auto |].
      split; [reflexivity | left; reflexivity]. }
  apply str_in_iff in Hin.
  assert (Hres : forall e : exn,
             (if is_Exception e then Ok tt else Raise e) = Ok tt \/
             (if is_Exception e then @Ok unit tt else Raise e) = Raise KeyboardInterrupt).
  { intros e. destruct e; cbn; auto. }
  set (ev1 := EvOp (OpStat f) (w (clock s) (OpStat f))).
  set (ev2 := EvOp (OpUnlink f) (w (S (clock s)) (OpUnlink f))).
  destruct (r_exn (w (clock s) (OpStat f))) as [e |].
  { exists [ev1]. cbn [fst snd trace local_dir successful_uploads log_event tick].
    split; [reflexivity |]. split; [intros g [] |]. split; [auto |]. split; [auto |].
    split; [reflexivity | apply Hres]. }
  destruct (r_size (w (clock s) (OpStat f))).
  2:{ exists [ev1]. cbn [fst snd trace local_dir successful_uploads log_event tick].
      split; [reflexivity |]. split; [intros g [] |]. split; [auto |]. split; [auto |].
      split; [reflexivity | left; reflexivity]. }
  assert (Hu : forall g, In g (unlink_attempts [ev2; ev1]) -> g = f /\ In f (local_dir s)).
  { intros g Hg. unfold unlink_attempts, observe in Hg. cbn in Hg.
    destruct Hg as [<- | []]. split; [reflexivity | exact Hin]. }
  destruct (r_exn (w (S (clock s)) (OpUnlink f))) as [e |].
  { exists [ev2; ev1]. cbn [fst snd trace local_dir successful_uploads log_event tick].
    split; [reflexivity |]. split; [exact Hu |]. split; [auto |]. split; [auto |].
    split; [reflexivity | apply Hres]. }
  exists [ev2; ev1].
  cbn [fst snd trace local_dir successful_uploads log_event tick set_local_dir].
  split; [reflexivity |]. split; [exact Hu |].
  split; [intros g Hg; apply remove_name_In in Hg; apply Hg |].
  split; [intros g Hg Hne; apply remove_name_In; split; assumption |].
  split; [reflexivity | left; reflexivity].
Qed.

Lemma unlink_files_spec w files :
  forall s,
    let m := for_each files (unlink_quietly w) in
    let s' := state_after m s in
    exists d,
      trace s' = d ++ trace s /\
      (forall g, In g (unlink_attempts d) -> In g files /\ In g (local_dir s)) /\
      (forall g, In g (local_dir s') -> In g (local_dir s)) /\
      (forall g, In g (local_dir s) -> ~ In g files -> In g (local_dir s')) /\
      successful_uploads s' = successful_uploads s /\
      (result_of m s = Ok tt \/ result_of m s = Raise KeyboardInterrupt).
Proof.
  induction files as [| f files IH]; intros s m s'; subst m s'.
  - exists []. cbn.
    split; [reflexivity |]. split; [intros g [] |]. split; [auto |]. split; [auto |].
    split; [reflexivity | left; reflexivity].
  - destruct (unlink_quietly_spec w f s) as [d1 [Ht1 [Hu1 [Hs1 [Hk1 [Hsu1 Hr1]]]]]].
    cbn [for_each]. unfold state_after, result_of, bind in *.
    destruct (unlink_quietly w f s) as [[[] | e] s1]; cbn [fst snd] in *.
    + destruct (IH s1) as [d2 [Ht2 [Hu2 [Hs2 [Hk2 [Hsu2 Hr2]]]]]].
      exists (d2 ++ d1). split; [rewrite Ht2, Ht1, app_assoc; reflexivity |].
      split.
      { intros g Hg. rewrite unlink_attempts_app in Hg. apply in_app_or in Hg.
        destruct Hg as [Hg | Hg].
        - destruct (Hu1 g Hg) as [-> Hin]. split; [left; reflexivity | exact Hin].
        - destruct (Hu2 g Hg) as [Hin Hd]. split; [right; exact Hin | apply Hs1; exact Hd]. }
      split; [intros g Hg; apply Hs1, Hs2; exact Hg |].
      split.
      { intros g Hg Hn. apply Hk2.
        - apply Hk1; [exact Hg |]. intros ->. apply Hn. left. reflexivity.
        - intros Hin. apply Hn. right. exact Hin. }
      split; [congruence | exact Hr2].
    + exists d1. split; [exact Ht1 |].
      split.
      { intros g Hg. destruct (Hu1 g Hg) as [-> Hin]. split; [left; reflexivity | exact Hin]. }
      split; [exact Hs1 |].
      split.
      { intros g Hg Hn. apply Hk1; [exact Hg |]. intros ->. apply Hn. left. reflexivity. }
      split; [exact Hsu1 | exact Hr1].
Qed.

Lemma unlink_sets_spec w (sets : list StampedSet) :
  forall s,
    let m := for_each sets (fun x => for_each (ss_files x) (unlink_quietly w)) in
    let s' := state_after m s in
    exists d,
      trace s' = d ++ trace s /\
      (forall g, In g (unlink_attempts d) ->
                 (exists x, In x sets /\ In g (ss_files x)) /\ In g (local_dir s)) /\
      (forall g, In g (local_dir s') -> In g (local_dir s)) /\
      (forall g, In g (local_dir s) ->
                 (forall x, In x sets -> ~ In g (ss_files x)) -> In g (local_dir s')) /\
      successful_uploads s' = successful_uploads s /\
      (result_of m s = Ok tt \/ result_of m s = Raise KeyboardInterrupt).
Proof.
  induction sets as [| x sets IH]; intros s m s'; subst m s'.
  - exists []. cbn.
    split; [reflexivity |]. split; [intros g [] |]. split; [auto |]. split; [auto |].
    split; [reflexivity | left; reflexivity].
  - destruct (unlink_files_spec w (ss_files x) s) as [d1 [Ht1 [Hu1 [Hs1 [Hk1 [Hsu1 Hr1]]]]]].
    cbn [for_each]. unfold state_after, result_of, bind in *.
    destruct (for_each (ss_files x) (unlink_quietly w) s) as [[[] | e] s1];
      cbn [fst snd] in *.
    + destruct (IH s1) as [d2 [Ht2 [Hu2 [Hs2 [Hk2 [Hsu2 Hr2]]]]]].
      exists (d2 ++ d1). split; [rewrite Ht2, Ht1, app_assoc; reflexivity |].
      split.
      { intros g Hg. rewrite unlink_attempts_app in Hg. apply in_app_or in Hg.
        destruct Hg as [Hg | Hg].
        - destruct (Hu1 g Hg) as [Hin Hd]. split; [| exact Hd].
          exists x. split; [left; reflexivity | exact Hin].
        - destruct (Hu2 g Hg) as [[y [Hy Hin]] Hd]. split; [| apply Hs1; exact Hd].
          exists y. split; [right; exact Hy | exact Hin]. }
      split; [intros g Hg; apply Hs1, Hs2; exact Hg |].
      split.
      { intros g Hg Hn. apply Hk2.
        - apply Hk1; [exact Hg |]. apply Hn. left. reflexivity.
        - intros y Hy. apply Hn. right. exact Hy. }
      split; [congruence | exact Hr2].
    + exists d1. split; [exact Ht1 |].
      split.
      { intros g Hg. destruct (Hu1 g Hg) as [Hin Hd]. split; [| exact Hd].
        exists x. split; [left; reflexivity | exact Hin]. }
      split; [exact Hs1 |].
      split.
      { intros g Hg Hn. apply Hk1; [exact Hg |]. apply Hn. left. reflexivity. }
      split; [exact Hsu1 | exact Hr1].
Qed.

Lemma no_unlink_attempts d : Forall not_unlink_event d -> unlink_attempts d = [].
Proof.
  induction d as [| ev d IH]; intros H; [reflexivity |].
  inversion H as [| ? ? Hev Hd]; subst. unfold unlink_attempts in *.
  rewrite observe_cons, IH by assumption.
  destruct ev as [o r | z | n r]; cbn in *; try reflexivity.
  destruct o; cbn in *; try reflexivity. contradiction.
Qed.

Lemma dict_set_In {V} (d : dict V) k v k' v' :
  In (k', v') (dict_set d k v) -> (k' = k /\ v' = v) \/ In (k', v') d.
Proof.
  induction d as [| [k0 v0] d IH]; cbn [dict_set].
  - intros [H | []]. inversion H; subst. left. split; reflexivity.
  - destruct (String.eqb_spec k0 k) as [-> | Hne].
    + intros [H | H]; [inversion H; subst; left; split; reflexivity | right; right; exact H].
    + intros [H | H]; [right; left; exact H |].
      destruct (IH H) as [H' | H']; [left; exact H' | right; right; exact H'].
Qed.

Lemma dict_set_keys {V} (d : dict V) k v :
  map fst (dict_set d k v) = if dict_mem d k then map fst d else map fst d ++ [k].
Proof.
  induction d as [| [k0 v0] d IH]; cbn [dict_set dict_mem map fst app]; [reflexivity |].
  destruct (String.eqb k0 k); cbn [orb map fst]; [reflexivity |].
  rewrite IH. destruct (dict_mem d k); reflexivity.
Qed.

Lemma dict_set_NoDup {V} (d : dict V) k v :
  NoDup (map fst d) -> NoDup (map fst (dict_set d k v)).
Proof.
  intros H. rewrite dict_set_keys. destruct (dict_mem d k) eqn:E; [exact H |].
  apply NoDup_app; [exact H | |].
  - constructor; [intros [] | constructor].
  - intros a Ha [<- | []]. apply (dict_mem_iff (fun _ => None)) in Ha. congruence.
Qed.

Lemma glob_pattern_Ok_inv w pattern s l s' :
  glob_pattern w pattern s = (Ok l, s') ->
  local_dir s' = local_dir s /\
  ((pattern = "**" /\ l = ["."]) \/
   (PyStr.contains "**" pattern = false /\
    l = filter (Fnmatch.fnmatch pattern) (local_dir s))).
Proof.
  unfold glob_pattern. destruct (String.eqb_spec pattern "**") as [-> | Hne].
  - intros H. apply bind_Ok_inv in H. destruct H as [r [s1 [H1 H2]]].
    apply perform_Ok_inv in H1. destruct H1 as [_ [_ ->]].
    unfold ret in H2. inversion H2; subst. split; [reflexivity |]. left. split; reflexivity.
  - destruct (PyStr.contains "**" pattern) eqn:E; [discriminate |].
    intros H. apply glob_Ok_inv in H. destruct H as [-> Hd].
    split; [exact Hd |]. right. split; reflexivity.
Qed.

Lemma star_pattern_inv (b : string) : (b ++ "*")%string = "**" -> b = "*".
Proof.
  destruct b as [| c [| c2 b2]]; cbn; intros H; inversion H; subst; try reflexivity.
  destruct b2; discriminate.
Qed.

Lemma find_successful_sets_spec w bases :
  forall acc s d s',
    find_successful_sets w bases acc s = (Ok d, s') ->
    (forall b files,
        In (b, files) d ->
        In (b, files) acc \/
        (In b bases /\ files <> [] /\
         (b = "*" \/ files = filter (matches_base b) (local_dir s)))) /\
    (NoDup (map fst acc) -> NoDup (map fst d)).
Proof.
  induction bases as [| b0 rest IH]; intros acc s d s' H.
  - cbn in H. inversion H; subst. split; [intros b files Hin; left; exact Hin | auto].
  - cbn [find_successful_sets] in H. apply bind_Ok_inv in H.
    destruct H as [files0 [s1 [Hg H]]].
    destruct (glob_pattern_Ok_inv w _ s files0 s1 Hg) as [Hdir Hfiles].
    destruct (IH _ _ _ _ H) as [Hmem Hnd]. split.
    + intros b files Hin. destruct (Hmem b files Hin) as [Hacc | [Hb [Hne Hf]]].
      * destruct files0 as [| f0 fs0] eqn:E; [left; exact Hacc |].
        apply dict_set_In in Hacc. destruct Hacc as [[-> ->] | Hacc]; [| left; exact Hacc].
        right. split; [left; reflexivity |]. split; [discriminate |].
        destruct Hfiles as [[Hp _] | [_ Hfl]].
        -- left. apply star_pattern_inv. exact Hp.
        -- right. exact Hfl.
      * right. split; [right; exact Hb |]. split; [exact Hne |]. rewrite <- Hdir. exact Hf.
    + intros Hacc. apply Hnd. destruct files0; [exact Hacc | apply dict_set_NoDup; exact Hacc].
Qed.

(** A base name that holds [**] stops the first loop: [glob] refuses its
    pattern. *)
Lemma find_successful_sets_refused w bases b :
  In b bases -> b <> "*" -> PyStr.contains "**" (b ++ "*") = true ->
  forall acc s, exists e s', find_successful_sets w bases acc s = (Raise e, s').
Proof.
  intros Hin Hb Hc. induction bases as [| b0 rest IH]; [destruct Hin |].
  intros acc s. cbn [find_successful_sets]. unfold bind at 1.
  destruct Hin as [-> | Hin].
  - unfold glob_pattern.
    destruct (String.eqb_spec (b ++ "*")%string "**") as [He | _];
      [elim Hb; apply star_pattern_inv; exact He |].
    rewrite Hc. unfold raise. eauto.
  - destruct (glob_pattern w (b0 ++ "*") s) as [[files | e] s1]; [| eauto].
    apply (IH Hin).
Qed.

Lemma set_iter_In w (l : list string) (x : string) : In x (set_iter w l) <-> In x l.
Proof. unfold set_iter. apply sort_by_In. Qed.

Lemma stamp_local_sets_In sets x :
  In x (stamp_local_sets sets) ->
  In (ss_base_name x, ss_files x) sets /\
  _get_archive_timestamp (ss_base_name x) = Some (ss_timestamp x).
Proof.
  unfold stamp_local_sets. rewrite in_flat_map. intros [[b files] [Hin Hx]].
  cbn [fst snd] in Hx. destruct (_get_archive_timestamp b) as [t |] eqn:E; [| destruct Hx].
  destruct Hx as [<- | []]. cbn. split; [exact Hin | exact E].
Qed.

Lemma stamp_local_sets_keys sets :
  NoDup (map fst sets) ->
  NoDup (map ss_base_name (stamp_local_sets sets)) /\
  incl (map ss_base_name (stamp_local_sets sets)) (map fst sets).
Proof.
  unfold stamp_local_sets.
  induction sets as [| [b files] sets IH]; intros H; cbn [flat_map map fst].
  - split; [constructor | intros x []].
  - inversion H as [| ? ? Hnotin Hnd]; subst. destruct (IH Hnd) as [IH1 IH2].
    cbn [fst snd]. destruct (_get_archive_timestamp b); cbn [app map].
    + split.
      * constructor; [| exact IH1]. intros Hin. apply Hnotin. apply IH2. exact Hin.
      * intros x [<- | Hx]; [left; reflexivity | right; apply IH2; exact Hx].
    + split; [exact IH1 | intros x Hx; right; apply IH2; exact Hx].
Qed.

Lemma slice_to_last_short {A} (l : list A) : length l <= 1 -> slice_to (-1) l = [].
Proof.
  intros H. unfold slice_to. cbn [Z.ltb Z.compare].
  replace (Z.to_nat (Z.max 0 (-1 + Z.of_nat (length l)))) with 0 by lia. reflexivity.
Qed.

Lemma local_prune_body w s sets s1 :
  find_successful_sets w (set_iter w (successful_uploads s)) [] s = (Ok sets, s1) ->
  local_dir s1 = local_dir s ->
  let to_remove :=
    if (length sets <=? 1)%nat then []
    else
      match stamp_local_sets sets with
      | [] => []
      | _ :: _ => slice_to (-1) (sort_by ss_timestamp datetime_ltb (stamp_local_sets sets))
      end in
  (forall x g, In x to_remove -> In g (ss_files x) ->
               exists b, In b (successful_uploads s) /\
                         matches_base b g = true /\
                         _get_archive_timestamp b <> None) /\
  (length (local_candidates (successful_uploads s) (local_dir s)) <= 1 -> to_remove = []).
Proof.
  intros Hfind Hdir to_remove.
  destruct (find_successful_sets_spec w _ _ _ _ _ Hfind) as [Hmem Hnd].
  specialize (Hnd (NoDup_nil _)).
  assert (Hstamp : forall x, In x (stamp_local_sets sets) ->
             In (ss_base_name x) (successful_uploads s) /\
             ss_files x <> [] /\
             ss_files x = filter (matches_base (ss_base_name x)) (local_dir s) /\
             _get_archive_timestamp (ss_base_name x) = Some (ss_timestamp x)).
  { intros x Hx. destruct (stamp_local_sets_In sets x Hx) as [Hin Hts].
    destruct (Hmem _ _ Hin) as [[] | [Hb [Hne Hf]]].
    apply set_iter_In in Hb.
    destruct Hf as [Hstar | Hf]; [rewrite Hstar in Hts; discriminate |].
    repeat split; assumption. }
  assert (Hsub : forall x, In x to_remove -> In x (stamp_local_sets sets)).
  { intros x Hx. subst to_remove. destruct (length sets <=? 1)%nat; [destruct Hx |].
    destruct (stamp_local_sets sets) eqn:E; [destruct Hx |]. rewrite <- E in *.
    apply In_slice_to in Hx. apply sort_by_In in Hx. exact Hx. }
  split.
  - intros x g Hx Hg. destruct (Hstamp x (Hsub x Hx)) as [Hb [_ [Hf Hts]]].
    exists (ss_base_name x). split; [exact Hb |]. split.
    + rewrite Hf in Hg. apply filter_In in Hg. apply Hg.
    + rewrite Hts. discriminate.
  - intros Hfew. subst to_remove. destruct (length sets <=? 1)%nat; [reflexivity |].
    destruct (stamp_local_sets sets) eqn:E; [reflexivity |]. rewrite <- E in *.
    apply slice_to_last_short. rewrite sort_by_length.
    destruct (stamp_local_sets_keys sets Hnd) as [Hnd' _].
    rewrite <- (length_map ss_base_name).
    eapply Nat.le_trans; [| exact Hfew].
    apply NoDup_incl_length; [exact Hnd' |].
    intros b Hb. apply in_map_iff in Hb. destruct Hb as [x [<- Hx]].
    destruct (Hstamp x Hx) as [Hb [Hne [Hf Hts]]].
    unfold local_candidates. apply filter_In. split; [exact Hb |].
    apply andb_true_iff. split.
    + unfold has_local_files. rewrite Hf in Hne.
      destruct (filter _ (local_dir s)) as [| n rest_n] eqn:El; [contradiction |].
      assert (Hn : In n (filter (matches_base (ss_base_name x)) (local_dir s)))
        by (rewrite El; left; reflexivity).
      apply filter_In in Hn. apply existsb_exists. exists n. exact Hn.
    + unfold has_timestamp. rewrite Hts. reflexivity.
Qed.

Lemma cleanup_local_archives_unfold w s :
  _cleanup_local_archives w s
  = match find_successful_sets w (set_iter w (successful_uploads s)) [] s with
    | (Raise e, s1) => (if is_Exception e then Ok tt else Raise e, s1)
    | (Ok sets, s1) =>
        let to_remove :=
          if (length sets <=? 1)%nat then []
          else
            match stamp_local_sets sets with
            | [] => []
            | _ :: _ =>
                slice_to (-1) (sort_by ss_timestamp datetime_ltb (stamp_local_sets sets))
            end in
        match for_each to_remove (fun x => for_each (ss_files x) (unlink_quietly w)) s1 with
        | (Ok u, s2) => (Ok u, s2)
        | (Raise e, s2) => (if is_Exception e then Ok tt else Raise e, s2)
        end
    end.
Proof.
  unfold _cleanup_local_archives, try_except, bind, get_state.
  destruct (find_successful_sets w (set_iter w (successful_uploads s)) [] s)
    as [[sets | e] s1].
  - cbv zeta. destruct (length sets <=? 1)%nat; [reflexivity |].
    destruct (stamp_local_sets sets) as [| x0 xs] eqn:E; [reflexivity |]. rewrite <- E.
    destruct (for_each _ _ s1) as [[u | e] s2]; [reflexivity |].
    unfold except_Exception. destruct (is_Exception e); reflexivity.
  - unfold except_Exception. destruct (is_Exception e); reflexivity.
Qed.

Lemma local_prune_unlinks :
  forall (w : World) (s : State),
    let m := _cleanup_local_archives w in
    let s' := state_after m s in
    exists d,
      trace s' = d ++ trace s /\
      (forall f, In f (unlink_attempts d) ->
                 In f (local_dir s) /\ uploaded_match (successful_uploads s) f) /\
      (forall f, In f (local_dir s') -> In f (local_dir s)) /\
      (forall f, In f (local_dir s) ->
                 ~ uploaded_match (successful_uploads s) f ->
                 In f (local_dir s')) /\
      (length (local_candidates (successful_uploads s) (local_dir s)) <= 1 ->
       unlink_attempts d = []) /\
      ((exists b, In b (successful_uploads s) /\ b <> "*" /\
                  PyStr.contains "**" (b ++ "*") = true) ->
       unlink_attempts d = []) /\
      (result_of m s = Ok tt \/ result_of m s = Raise KeyboardInterrupt).
Proof.
  intros w s m s'. subst m s'.
  assert (Hres : forall e : exn,
             (if is_Exception e then Ok tt else Raise e) = Ok tt \/
             (if is_Exception e then @Ok unit tt else Raise e) = Raise KeyboardInterrupt).
  { intros e. destruct e; cbn; auto. }
  assert (Fk : keeps local_dir
                 (find_successful_sets w (set_iter w (successful_uploads s)) []))
    by (apply keeps_find_successful_sets; intros; reflexivity).
  assert (Ff : framed not_unlink_event
                 (find_successful_sets w (set_iter w (successful_uploads s)) []))
    by (apply framed_find_successful_sets; intros; exact I).
  specialize (Fk s). destruct (Ff s) as [[d0 [Ht0 Hd0]] _]. clear Ff.
  pose proof (local_prune_body w s) as Hbody.
  assert (Hrefused :
    (exists b, In b (successful_uploads s) /\ b <> "*" /\
               PyStr.contains "**" (b ++ "*") = true) ->
    exists e s1,
      find_successful_sets w (set_iter w (successful_uploads s)) [] s = (Raise e, s1)).
  { intros [b [Hb [Hne Hc]]].
    apply (find_successful_sets_refused w _ b); [apply set_iter_In; exact Hb | exact Hne | exact Hc]. }
  unfold state_after, result_of in *. rewrite cleanup_local_archives_unfold.
  destruct (find_successful_sets w (set_iter w (successful_uploads s)) [] s)
    as [[sets | e] s1]; cbn [fst snd] in *.
  2:{ exists d0. split; [exact Ht0 |].
      split; [intros f Hf; rewrite (no_unlink_attempts d0 Hd0) in Hf; destruct Hf |].
      split; [intros f Hf; rewrite <- Fk; exact Hf |].
      split; [intros f Hf _; rewrite Fk; exact Hf |].
      split; [intros _; apply no_unlink_attempts; exact Hd0 |].
      split; [intros _; apply no_unlink_attempts; exact Hd0 | apply Hres]. }
  specialize (Hbody sets s1 eq_refl Fk). cbv zeta in *. destruct Hbody as [Hpre Hfew].
  set (to_remove :=
         if (length sets <=? 1)%nat then []
         else
           match stamp_local_sets sets with
           | [] => []
           | _ :: _ =>
               slice_to (-1) (sort_by ss_timestamp datetime_ltb (stamp_local_sets sets))
           end) in *.
  destruct (unlink_sets_spec w to_remove s1) as [d2 [Ht2 [Hu2 [Hs2 [Hk2 [_ Hr2]]]]]].
  unfold state_after, result_of in *.
  destruct (for_each to_remove (fun x => for_each (ss_files x) (unlink_quietly w)) s1)
    as [r s2]; cbn [fst snd] in *.
  exists (d2 ++ d0).
  assert (Hstate : snd (match r with
                        | Ok u => (Ok u, s2)
                        | Raise e => (if is_Exception e then Ok tt else Raise e, s2)
                        end) = s2) by (destruct r; reflexivity).
  rewrite Hstate.
  split; [rewrite Ht2, Ht0, app_assoc; reflexivity |].
  split.
  { intros f Hf. rewrite unlink_attempts_app, (no_unlink_attempts d0 Hd0) in Hf.
    cbn [app] in Hf. destruct (Hu2 f Hf) as [[x [Hx Hin]] Hd].
    split; [rewrite <- Fk; exact Hd | exact (Hpre x f Hx Hin)]. }
  split; [intros f Hf; rewrite <- Fk; apply Hs2; exact Hf |].
  split.
  { intros f Hf Hno. apply Hk2; [rewrite Fk; exact Hf |].
    intros x Hx Hin. apply Hno. exact (Hpre x f Hx Hin). }
  split.
  { intros Hle. rewrite unlink_attempts_app, (no_unlink_attempts d0 Hd0). cbn [app].
    destruct (unlink_attempts d2) as [| f l] eqn:Eu; [reflexivity |].
    exfalso. destruct (Hu2 f (or_introl eq_refl)) as [[x [Hx _]] _].
    rewrite (Hfew Hle) in Hx. destruct Hx. }
  split.
  { intros Hb. destruct (Hrefused Hb) as [e [s1' He]]. discriminate. }
  destruct Hr2 as [-> | ->]; cbn [is_Exception fst]; auto.
Qed.

Lemma only_star_matches_all (name : string) : Fnmatch.fullmatch [Fnmatch.Star] name = true.
Proof.
  induction name as [| c name IH]; [reflexivity |].
  cbn [Fnmatch.fullmatch] in *. rewrite IH. reflexivity.
Qed.

Lemma plain_cons (c : ascii) (b : string) :
  plain (String c b) = true ->
  Ascii.eqb c "*" = false /\ Ascii.eqb c "?" = false /\ Ascii.eqb c "[" = false /\
  plain b = true.
Proof.
  assert (Hp : String.prefix "" b = true) by (destruct b; reflexivity).
  unfold plain. cbn [PyStr.contains String.prefix]. rewrite Hp.
  destruct (ascii_dec "*" c) as [<- | H1]; [discriminate |].
  destruct (ascii_dec "?" c) as [<- | H2]; [cbn; rewrite andb_false_r; discriminate |].
  destruct (ascii_dec "[" c) as [<- | H3]; [cbn; rewrite andb_false_r; discriminate |].
  cbn [orb]. intros H.
  split; [apply Ascii.eqb_neq; congruence |].
  split; [apply Ascii.eqb_neq; congruence |].
  split; [apply Ascii.eqb_neq; congruence | exact H].
Qed.

(** For a base name free of pattern syntax the pattern of the local prune
    matches the names that start with the base name. *)
Lemma matches_base_plain (b name : string) :
  plain b = true -> matches_base b name = PyStr.startswith name b.
Proof.
  unfold matches_base, Fnmatch.fnmatch, Fnmatch.translate, PyStr.startswith.
  revert name. induction b as [| c b IH]; intros name Hp.
  - cbn. rewrite only_star_matches_all. destruct name; reflexivity.
  - destruct (plain_cons c b Hp) as [H1 [H2 [H3 Hb]]].
    cbn [String.append Fnmatch.pieces]. rewrite H1, H2, H3.
    cbn [Fnmatch.fullmatch]. destruct name as [| c' name]; [reflexivity |].
    cbn [Fnmatch.matches_char String.prefix]. rewrite (IH name Hb).
    destruct (ascii_dec c c') as [E | E].
    + subst c'. rewrite Ascii.eqb_refl. reflexivity.
    + apply Ascii.eqb_neq in E. rewrite E. reflexivity.
Qed.

(** The local prune, as the code has it.  A file is unlinked only if it
    is in the source directory and the pattern [base_name*] of a set
    recorded as uploaded that has a timestamp matches its name; files that
    no such pattern matches stay, and no file is added.  The pattern is a
    shell pattern: for a base name without [*], [?] and [[] it matches the
    names that start with the base name, and a base name that holds [**]
    makes [glob] refuse it, which ends the prune before anything is
    unlinked.  With fewer than two uploaded sets that have local files and
    a timestamp nothing is unlinked.  An error ends the prune without an
    exception; only an interrupt leaves it. *)
Theorem local_prune_only_matched :
  forall (w : World) (s : State),
    entry_names (local_dir s) ->
    entry_names (successful_uploads s) ->
    let m := _cleanup_local_archives w in
    let s' := state_after m s in
    (exists d,
        trace s' = d ++ trace s /\
        (forall f, In f (unlink_attempts d) ->
                   In f (local_dir s) /\
                   exists b, In b (successful_uploads s) /\
                             Fnmatch.fnmatch (b ++ "*") f = true /\
                             _get_archive_timestamp b <> None) /\
        (forall f, In f (local_dir s') -> In f (local_dir s)) /\
        (forall f, In f (local_dir s) ->
                   (forall b, In b (successful_uploads s) ->
                              _get_archive_timestamp b <> None ->
                              Fnmatch.fnmatch (b ++ "*") f = false) ->
                   In f (local_dir s')) /\
        (length (local_candidates (successful_uploads s) (local_dir s)) <= 1 ->
         unlink_attempts d = []) /\
        ((exists b, In b (successful_uploads s) /\ b <> "*" /\
                    PyStr.contains "**" (b ++ "*") = true) ->
         unlink_attempts d = []) /\
        (result_of m s = Ok tt \/ result_of m s = Raise KeyboardInterrupt)) /\
    (forall b f, plain b = true ->
                 Fnmatch.fnmatch (b ++ "*") f = PyStr.startswith f b).
Proof.
  intros w s _ _ m s'. split; [| intros b f Hb; apply (matches_base_plain b f Hb)].
  destruct (local_prune_unlinks w s) as [d [Ht [Hu [Hsub [Hkeep [Hfew [Hstar Hres]]]]]]].
  exists d. split; [exact Ht |]. split; [exact Hu |]. split; [exact Hsub |].
  split; [| split; [exact Hfew | split; [exact Hstar | exact Hres]]].
  intros f Hf Hno. apply Hkeep; [exact Hf |].
  intros [b [Hb [Hm Hts]]]. unfold matches_base in Hm. rewrite (Hno b Hb Hts) in Hm.
  discriminate.
Qed.

Lemma local_prune_only_matched_witness :
  let s := pruning_state in
  let m := _cleanup_local_archives Scenario.prune_world in
  let s' := state_after m s in
  (exists d,
      trace s' = d ++ trace s /\
      (forall f, In f (unlink_attempts d) ->
                 In f (local_dir s) /\
                 exists b, In b (successful_uploads s) /\
                           Fnmatch.fnmatch (b ++ "*") f = true /\
                           _get_archive_timestamp b <> None) /\
      (forall f, In f (local_dir s') -> In f (local_dir s)) /\
      (forall f, In f (local_dir s) ->
                 (forall b, In b (successful_uploads s) ->
                            _get_archive_timestamp b <> None ->
                            Fnmatch.fnmatch (b ++ "*") f = false) ->
                 In f (local_dir s')) /\
      (length (local_candidates (successful_uploads s) (local_dir s)) <= 1 ->
       unlink_attempts d = []) /\
      ((exists b, In b (successful_uploads s) /\ b <> "*" /\
                  PyStr.contains "**" (b ++ "*") = true) ->
       unlink_attempts d = []) /\
      (result_of m s = Ok tt \/ result_of m s = Raise KeyboardInterrupt)) /\
  (forall b f, plain b = true ->
               Fnmatch.fnmatch (b ++ "*") f = PyStr.startswith f b).
Proof.
  apply (local_prune_only_matched Scenario.prune_world pruning_state).
  - intros n [<- | [<- | [<- | []]]]; reflexivity.
  - intros n [<- | [<- | []]]; reflexivity.
Defined.

(** ** The Locator *)

Lemma locator_key_iff ignore f b :
  locator_key ignore f = Some b <->
  _should_ignore ignore f = false /\ _get_archive_base_name f = Some b.
Proof.
  split; [apply locator_key_base |].
  intros [Hi Hb]. unfold locator_key. rewrite Hi, Hb, (base_name_nonempty f b Hb).
  reflexivity.
Qed.

Lemma count_occ_filter (p : string -> bool) (l : list string) (v : string) :
  count_occ string_dec (filter p l) v = if p v then count_occ string_dec l v else 0.
Proof.
  induction l as [| x l IH]; cbn [filter count_occ]; [destruct (p v); reflexivity |].
  destruct (p x) eqn:Ex; cbn [count_occ]; destruct (string_dec x v) as [-> | Hne];
    rewrite IH; try rewrite Ex; reflexivity.
Qed.

Lemma count_occ_NoDup_In (l : list string) (v : string) :
  NoDup l -> In v l -> count_occ string_dec l v = 1.
Proof.
  intros Hnd Hin. pose proof (proj1 (NoDup_count_occ string_dec l) Hnd v) as Hle.
  pose proof (proj1 (count_occ_In string_dec l v) Hin). lia.
Qed.

Lemma local_sets_groups ignore dir :
  let tars := filter (fun n => PyStr.endswith n ".tar") dir in
  let vols := filter (PyStr.contains ".tar.") dir in
  exists d,
    grouped (locator_key ignore) (tars ++ vols) d /\
    local_sets ignore dir
    = map (fun e => (fst e, sort_by _get_volume_number Z.ltb (snd e))) d.
Proof.
  intros tars vols. unfold local_sets, group_archive_files. fold tars vols.
  rewrite !fold_add_archive_file.
  pose proof (grouped_fold (locator_key ignore) tars [] [] (grouped_nil _)) as G1.
  pose proof (grouped_fold (locator_key ignore) vols _ _ G1) as G2.
  cbn [app] in G2. eexists. split; [exact G2 | reflexivity].
Qed.

(** What the Locator returns.  The base names of the sets are distinct.
    A set is not empty, is sorted by ascending volume number and holds
    exactly the names of the source directory that are not ignored and have
    its base name; every such name is in a set.  In a directory listing
    without repetition a name is entered once for each of the two patterns
    ['*.tar'] and ['*.tar.*'] it matches: a name that matches both is in
    its set twice. *)
Theorem locator_sets :
  forall (w : World) (ignore : list string) (s : State) (sets : dict (list string)),
    result_of (_get_multi_volume_archives w ignore) s = Ok sets ->
    let dir := local_dir s in
    NoDup (map fst sets) /\
    (forall b set,
        In (b, set) sets ->
        set <> [] /\ StronglySorted volume_le set /\
        forall v, In v set <->
                  In v dir /\ _should_ignore ignore v = false /\
                  _get_archive_base_name v = Some b) /\
    (forall v b,
        In v dir -> _should_ignore ignore v = false ->
        _get_archive_base_name v = Some b ->
        exists set, In (b, set) sets /\ In v set) /\
    (NoDup dir ->
     forall b set v,
       In (b, set) sets -> In v set ->
       count_occ string_dec set v
       = (if PyStr.endswith v ".tar" then 1 else 0) +
         (if PyStr.contains ".tar." v then 1 else 0)).
Proof.
  intros w ignore s sets Hres dir.
  assert (Hsets : sets = local_sets ignore dir).
  { unfold result_of in Hres.
    destruct (_get_multi_volume_archives w ignore s) as [r s'] eqn:E. cbn [fst] in Hres.
    subst r. exact (locate_Ok_inv w ignore s sets s' E). }
  subst sets.
  split; [apply local_sets_keys |]. split; [| split].
  - intros b set Hin. destruct (local_sets_entry _ _ _ _ Hin) as [Hne [Hs Hm]].
    split; [exact Hne |]. split; [exact Hs |].
    intros v. rewrite Hm, locator_key_iff. tauto.
  - intros v b Hv Hi Hb.
    destruct (local_sets_groups ignore dir) as [d [[Hnd Hget] Heq]].
    assert (Hk : locator_key ignore v = Some b) by (apply locator_key_iff; split; assumption).
    assert (Hin : In v (filter (has_key (locator_key ignore) b)
                          (filter (fun n => PyStr.endswith n ".tar") dir ++
                           filter (PyStr.contains ".tar.") dir))).
    { apply filter_In. split; [| apply has_key_iff; exact Hk].
      apply in_or_app. destruct (base_name_is_archive v b Hb) as [He | Hc];
        [left | right]; apply filter_In; split; assumption. }
    specialize (Hget b).
    destruct (filter (has_key (locator_key ignore) b) _) as [| x fl] eqn:Ef;
      [destruct Hin |].
    cbn [nonempty] in Hget.
    apply (dict_get_In (locator_key ignore) d b _ Hnd) in Hget.
    exists (sort_by _get_volume_number Z.ltb (x :: fl)). split.
    + rewrite Heq. apply in_map_iff. exists (b, x :: fl). split; [reflexivity | exact Hget].
    + apply sort_by_In. exact Hin.
  - intros Hdir b set v Hin Hv.
    destruct (local_sets_entry _ _ _ _ Hin) as [_ [_ Hm]].
    apply Hm in Hv. destruct Hv as [Hvd Hk].
    destruct (local_sets_groups ignore dir) as [d [G Heq]].
    rewrite Heq in Hin. apply in_map_iff in Hin. destruct Hin as [[b' fl] [E Hd]].
    cbn [fst snd] in E. inversion E; subst b' set. clear E.
    destruct (grouped_entry _ _ _ _ _ G Hd) as [Hfl _].
    rewrite (proj1 (Permutation_count_occ string_dec _ _)
                   (sort_by_perm _get_volume_number Z.ltb fl) v).
    rewrite Hfl, count_occ_filter.
    rewrite (proj2 (has_key_iff (locator_key ignore) b v) Hk).
    rewrite count_occ_app, !count_occ_filter, (count_occ_NoDup_In dir v Hdir Hvd).
    reflexivity.
Qed.

Lemma locator_sets_witness :
  NoDup (map fst [(Scenario.vol0, [Scenario.vol0; Scenario.vol1; Scenario.vol2])]) /\
  (forall b set,
      In (b, set) [(Scenario.vol0, [Scenario.vol0; Scenario.vol1; Scenario.vol2])] ->
      set <> [] /\ StronglySorted volume_le set /\
      forall v, In v set <->
                In v Scenario.repair_dir /\ _should_ignore [] v = false /\
                _get_archive_base_name v = Some b) /\
  (forall v b,
      In v Scenario.repair_dir -> _should_ignore [] v = false ->
      _get_archive_base_name v = Some b ->
      exists set,
        In (b, set) [(Scenario.vol0, [Scenario.vol0; Scenario.vol1; Scenario.vol2])] /\
        In v set) /\
  (NoDup Scenario.repair_dir ->
   forall b set v,
     In (b, set) [(Scenario.vol0, [Scenario.vol0; Scenario.vol1; Scenario.vol2])] ->
     In v set ->
     count_occ string_dec set v
     = (if PyStr.endswith v ".tar" then 1 else 0) +
       (if PyStr.contains ".tar." v then 1 else 0)).
Proof.
  apply (locator_sets Scenario.repair_world [] (init_state Scenario.repair_dir)).
  vm_compute. reflexivity.
Defined.

(** ** The two outcome sets *)

Lemma set_add_NoDup x l : NoDup l -> NoDup (set_add x l).
Proof.
  intros H. unfold set_add. destruct (str_in x l) eqn:E; [exact H |].
  apply NoDup_app; [exact H | |].
  - constructor; [intros [] | constructor].
  - intros a Ha [<- | []]. apply str_in_iff in Ha. congruence.
Qed.

Lemma process_loop_outcomes w ftp rd sets :
  forall s,
    NoDup (map fst sets) ->
    NoDup (successful_uploads s) -> NoDup (failed_uploads s) ->
    (forall b, In b (successful_uploads s) -> ~ In b (failed_uploads s)) ->
    (forall b, In b (map fst sets) ->
               ~ In b (successful_uploads s) /\ ~ In b (failed_uploads s)) ->
    let s' := state_after (for_each sets (process_one w ftp rd)) s in
    NoDup (successful_uploads s') /\ NoDup (failed_uploads s') /\
    (forall b, In b (successful_uploads s') -> ~ In b (failed_uploads s')) /\
    (forall b, In b (successful_uploads s') ->
               In b (successful_uploads s) \/ In b (map fst sets)) /\
    (forall b, In b (failed_uploads s') ->
               In b (failed_uploads s) \/ In b (map fst sets)).
Proof.
  induction sets as [| [b set] sets IH]; intros s Hk Hs Hf Hdis Hnew s'; subst s'.
  - cbn [for_each state_after ret snd].
    split; [exact Hs |]. split; [exact Hf |]. split; [exact Hdis |]. split; auto.
  - inversion Hk as [| ? ? Hb Hk']; subst.
    destruct (process_one_spec w ftp rd b set s) as [d [_ Hcase]].
    cbn [for_each]. unfold state_after, result_of, bind in *.
    destruct (process_one w ftp rd (b, set) s) as [r s1]; cbn [fst snd] in *.
    destruct (Hnew b (or_introl eq_refl)) as [Hbs Hbf].
    assert (Hstep :
      NoDup (successful_uploads s1) /\ NoDup (failed_uploads s1) /\
      (forall x, In x (successful_uploads s1) -> ~ In x (failed_uploads s1)) /\
      (forall x, In x (successful_uploads s1) -> In x (successful_uploads s) \/ x = b) /\
      (forall x, In x (failed_uploads s1) -> In x (failed_uploads s) \/ x = b)).
    { destruct Hcase as [[_ [E1 [E2 _]]] | [[_ [E1 E2]] | [_ [E1 E2]]]]; rewrite E1, E2.
      - split; [apply set_add_NoDup; exact Hs |]. split; [exact Hf |].
        split; [| split; [| auto]].
        + intros x Hx. apply set_add_In in Hx. destruct Hx as [-> | Hx];
            [exact Hbf | apply Hdis; exact Hx].
        + intros x Hx. apply set_add_In in Hx. tauto.
      - split; [exact Hs |]. split; [apply set_add_NoDup; exact Hf |].
        split; [| split; [auto |]].
        + intros x Hx Hx'. apply set_add_In in Hx'. destruct Hx' as [-> | Hx'];
            [exact (Hbs Hx) | exact (Hdis x Hx Hx')].
        + intros x Hx. apply set_add_In in Hx. tauto.
      - split; [exact Hs |]. split; [exact Hf |]. split; [exact Hdis |]. split; auto. }
    destruct Hstep as [Hs1 [Hf1 [Hdis1 [Hsub1 Hsubf1]]]].
    destruct r as [[] | e]; cbn [fst snd].
    2:{ split; [exact Hs1 |]. split; [exact Hf1 |]. split; [exact Hdis1 |].
        split; intros x Hx; [destruct (Hsub1 x Hx) as [H | ->] | destruct (Hsubf1 x Hx) as [H | ->]];
          auto; right; left; reflexivity. }
    assert (Hnew1 : forall x, In x (map fst sets) ->
                              ~ In x (successful_uploads s1) /\ ~ In x (failed_uploads s1)).
    { intros x Hx. destruct (Hnew x (or_intror Hx)) as [Hxs Hxf]. split; intros Hin.
      - destruct (Hsub1 x Hin) as [H | ->]; [exact (Hxs H) | exact (Hb Hx)].
      - destruct (Hsubf1 x Hin) as [H | ->]; [exact (Hxf H) | exact (Hb Hx)]. }
    destruct (IH s1 Hk' Hs1 Hf1 Hdis1 Hnew1) as [R1 [R2 [R3 [R4 R5]]]].
    split; [exact R1 |]. split; [exact R2 |]. split; [exact R3 |].
    split; intros x Hx.
    + destruct (R4 x Hx) as [H | H]; [| right; right; exact H].
      destruct (Hsub1 x H) as [H' | ->]; [left; exact H' | right; left; reflexivity].
    + destruct (R5 x Hx) as [H | H]; [| right; right; exact H].
      destruct (Hsubf1 x H) as [H' | ->]; [left; exact H' | right; left; reflexivity].
Qed.

Lemma run_outcomes_partition_try :
  forall (w : World) (cfg : Config) (dir : list string),
    let s := state_after (run w cfg) (init_state dir) in
    let found := map fst (local_sets (ignore_patterns cfg) dir) in
    NoDup (successful_uploads s) /\ NoDup (failed_uploads s) /\
    (forall b, In b (successful_uploads s) -> In b found) /\
    (forall b, In b (failed_uploads s) -> In b found) /\
    (forall b, In b (successful_uploads s) -> ~ In b (failed_uploads s)) /\
    (forall code, result_of (run_try w cfg) (init_state dir) = Ok (Some code) ->
                  forall b, In b found ->
                            In b (successful_uploads s) \/ In b (failed_uploads s)).
Proof.
  intros w cfg dir s found. subst s found.
  destruct (run_decompose w cfg (init_state dir)) as [Hst _]. rewrite Hst. clear Hst.
  assert (F4 : framed any_event (run_finally w))
    by (apply framed_run_finally; intros; exact I).
  destruct (F4 (state_after (run_try w cfg) (init_state dir))) as [_ [Hs4 Hf4]].
  rewrite Hs4, Hf4. clear F4 Hs4 Hf4.
  assert (F1 : framed any_event (run_setup w cfg))
    by (apply framed_run_setup; intros; exact I).
  destruct (F1 (init_state dir)) as [_ [Hs1 Hf1]]. clear F1.
  pose proof (run_setup_Ok w cfg (init_state dir)) as Hsets.
  pose proof (run_try_cases w cfg (init_state dir) eq_refl) as Hcases.
  cbv zeta in Hcases.
  unfold run_try, state_after, result_of, bind in *.
  destruct (run_setup w cfg (init_state dir)) as [[[ftp sets] | e] s1]; cbn [fst snd] in *.
  2:{ rewrite Hs1, Hf1. cbn [successful_uploads failed_uploads init_state].
      split; [constructor |]. split; [constructor |]. split; [intros b [] |].
      split; [intros b [] |]. split; [intros b [] |]. intros code Hc. discriminate. }
  specialize (Hsets ftp sets s1 eq_refl). cbn [local_dir init_state] in Hsets.
  rewrite <- Hsets.
  cbn [successful_uploads failed_uploads init_state] in Hs1, Hf1.
  destruct sets as [| e0 sets'] eqn:Esets.
  { cbn [ret fst snd]. rewrite Hs1, Hf1.
    split; [constructor |]. split; [constructor |]. split; [intros b [] |].
    split; [intros b [] |]. split; [intros b [] |]. intros code Hc. discriminate. }
  rewrite <- Esets in *. clear Esets e0 sets'.
  assert (Hloop := process_loop_outcomes w ftp (remote_dir cfg) sets s1).
  assert (Hnd : NoDup (map fst sets)) by (rewrite Hsets; apply local_sets_keys).
  rewrite Hs1, Hf1 in Hloop.
  assert (Hno : forall b : string, ~ In b []) by (intros b []).
  specialize (Hloop Hnd (NoDup_nil _) (NoDup_nil _) (fun b _ => Hno b)
                    (fun b _ => conj (Hno b) (Hno b))).
  cbv zeta in Hloop. destruct Hloop as [R1 [R2 [R3 [R4 R5]]]].
  destruct (run_sets_after_loop w cfg ftp sets s1) as [[_ [Hs3 Hf3]] _].
  unfold state_after in *. rewrite Hs3, Hf3.
  split; [exact R1 |]. split; [exact R2 |].
  split; [intros b Hb; destruct (R4 b Hb) as [[] | H]; exact H |].
  split; [intros b Hb; destruct (R5 b Hb) as [[] | H]; exact H |].
  split; [exact R3 |].
  intros code Hc b Hb.
  destruct Hcases as [Hc' | [[Hc' _] | [_ Hall]]]; [congruence | congruence |].
  rewrite Hs3, Hf3 in Hall. exact (Hall b Hb).
Qed.

(** At the end of every run the sets recorded as uploaded and the sets
    recorded as failed are base names the Locator found, each recorded
    once, and no set is in both.  When the run returns a status, every set
    the Locator found is in one of the two. *)
Theorem run_outcomes_partition :
  forall (w : World) (cfg : Config) (dir : list string),
    let s := state_after (run w cfg) (init_state dir) in
    let found := map fst (local_sets (ignore_patterns cfg) dir) in
    NoDup (successful_uploads s) /\ NoDup (failed_uploads s) /\
    (forall b, In b (successful_uploads s) -> In b found) /\
    (forall b, In b (failed_uploads s) -> In b found) /\
    (forall b, In b (successful_uploads s) -> ~ In b (failed_uploads s)) /\
    (forall code, result_of (run w cfg) (init_state dir) = Ok (Some code) ->
                  code <> 2%Z ->
                  forall b, In b found ->
                            In b (successful_uploads s) \/ In b (failed_uploads s)).
Proof.
  intros w cfg dir s found.
  destruct (run_outcomes_partition_try w cfg dir) as [H1 [H2 [H3 [H4 [H5 H6]]]]].
  split; [exact H1 |]. split; [exact H2 |]. split; [exact H3 |]. split; [exact H4 |].
  split; [exact H5 |].
  intros code Hc Hne. apply (H6 code).
  destruct (run_decompose w cfg (init_state dir)) as [_ Hres]. rewrite Hres in Hc.
  destruct (result_of (run_try w cfg) (init_state dir)) as [r | e]; [exact Hc |].
  destruct (is_Exception e); inversion Hc. congruence.
Qed.

(** ** The Reconciler by names *)

Lemma check_archive_exists_unfold w ftp base rd s :
  let r1 := w (clock s) (OpCwd ftp rd) in
  let s1 := log_event (EvOp (OpCwd ftp rd) r1) (tick s) in
  let r2 := w (S (clock s)) (OpNlst ftp) in
  let s2 := log_event (EvOp (OpNlst ftp) r2) (tick s1) in
  _check_archive_exists_on_ftp w ftp base rd s
  = match r_exn r1 with
    | Some e => (if is_Exception e then Ok (false, []) else Raise e, s1)
    | None =>
        match r_exn r2 with
        | Some e => (if is_Exception e then Ok (false, []) else Raise e, s2)
        | None =>
            let existing := filter (fun f => PyStr.startswith f base) (r_names r2) in
            (Ok (negb (length existing =? 0)%nat, existing), s2)
        end
    end.
Proof.
  cbv zeta. unfold _check_archive_exists_on_ftp, try_except, bind, perform.
  destruct (r_exn (w (clock s) (OpCwd ftp rd))) as [e |].
  { unfold except_Exception. destruct (is_Exception e); reflexivity. }
  cbn [clock tick log_event].
  destruct (r_exn (w (S (clock s)) (OpNlst ftp))) as [e |]; [| reflexivity].
  unfold except_Exception. destruct (is_Exception e); reflexivity.
Qed.

(** The existence check as a function of the two replies: it returns
    the listed names that start with [base_name], in the order of the
    listing, and whether there is one; an error of [CWD] or [NLST] gives
    [(False, [])], an interrupt is raised. *)
Theorem check_archive_exists_by_prefix :
  forall (w : World) (ftp : session) (base_name remote_dir : string) (s : State),
    let m := _check_archive_exists_on_ftp w ftp base_name remote_dir in
    let r_cwd := w (clock s) (OpCwd ftp remote_dir) in
    let r_nlst := w (S (clock s)) (OpNlst ftp) in
    let existing := filter (fun f => PyStr.startswith f base_name) (r_names r_nlst) in
    match r_exn r_cwd, r_exn r_nlst with
    | None, None =>
        result_of m s = Ok (negb (length existing =? 0)%nat, existing) /\
        trace (state_after m s)
        = EvOp (OpNlst ftp) r_nlst :: EvOp (OpCwd ftp remote_dir) r_cwd :: trace s
    | None, Some e =>
        result_of m s = (if is_Exception e then Ok (false, []) else Raise e) /\
        trace (state_after m s)
        = EvOp (OpNlst ftp) r_nlst :: EvOp (OpCwd ftp remote_dir) r_cwd :: trace s
    | Some e, _ =>
        result_of m s = (if is_Exception e then Ok (false, []) else Raise e) /\
        trace (state_after m s) = EvOp (OpCwd ftp remote_dir) r_cwd :: trace s
    end.
Proof.
  intros w ftp b rd s m r_cwd r_nlst existing. subst m existing.
  unfold result_of, state_after. rewrite check_archive_exists_unfold. cbv zeta.
  fold r_cwd r_nlst.
  destruct (r_exn r_cwd); [split; reflexivity |].
  destruct (r_exn r_nlst); split; reflexivity.
Qed.

Lemma filter_nil_iff {A} (p : A -> bool) (l : list A) :
  filter p l = [] <-> forall x, In x l -> p x = false.
Proof.
  split.
  - intros H x Hx. destruct (p x) eqn:E; [| reflexivity].
    assert (Hin : In x (filter p l)) by (apply filter_In; split; assumption).
    rewrite H in Hin. destruct Hin.
  - intros H. induction l as [| x l IH]; [reflexivity |]. cbn [filter].
    rewrite (H x (or_introl eq_refl)). apply IH. intros y Hy. apply H. right. exact Hy.
Qed.

(** With a listing that succeeds, the Reconciler decides by names at the
    two ends.  When every local volume of a set of the Locator is listed,
    the set is processed with the [CWD] and the [NLST] only and succeeds,
    whatever else the listing holds.  When no listed name starts with the
    base name, the Executor is called for the volumes of the set from the
    first one on, in order, up to the first call that fails, and the set
    succeeds only if every volume has been stored and size-verified. *)
Theorem reconciler_by_names :
  (forall (w : World) (ignore dir : list string) (ftp : session)
          (base_name remote_dir : string) (archive_set : list string) (s : State),
      In (base_name, archive_set) (local_sets ignore dir) ->
      r_exn (w (clock s) (OpCwd ftp remote_dir)) = None ->
      r_exn (w (S (clock s)) (OpNlst ftp)) = None ->
      (forall v, In v archive_set -> In v (r_names (w (S (clock s)) (OpNlst ftp)))) ->
      _process_archive_set w ftp base_name archive_set remote_dir s
      = (Ok true,
         log_event (EvOp (OpNlst ftp) (w (S (clock s)) (OpNlst ftp)))
                   (tick (log_event (EvOp (OpCwd ftp remote_dir)
                                          (w (clock s) (OpCwd ftp remote_dir)))
                                    (tick s)))))
  /\
  (forall (w : World) (ftp : session) (base_name remote_dir : string)
          (archive_set : list string) (s : State),
      r_exn (w (clock s) (OpCwd ftp remote_dir)) = None ->
      r_exn (w (S (clock s)) (OpNlst ftp)) = None ->
      (forall f, In f (r_names (w (S (clock s)) (OpNlst ftp))) ->
                 PyStr.startswith f base_name = false) ->
      let m := _process_archive_set w ftp base_name archive_set remote_dir in
      exists d,
        trace (state_after m s) = d ++ trace s /\
        uploads_in_order set_fail archive_set (upload_results d) (result_of m s) /\
        (result_of m s = Ok true ->
         forall v, In v archive_set -> stored_and_verified d v v)).
Proof.
  split.
  - intros w ignore dir ftp b rd set s Hin Hcwd Hnlst Hall.
    destruct (local_sets_entry _ _ _ _ Hin) as [Hne _].
    set (listing := r_names (w (S (clock s)) (OpNlst ftp))) in *.
    set (existing := filter (fun f => PyStr.startswith f b) listing).
    assert (Hex : forall v, In v set -> In v existing).
    { intros v Hv. apply filter_In. split; [apply Hall; exact Hv |].
      apply (local_sets_prefix _ _ _ _ _ Hin Hv). }
    assert (Hlen : (length existing =? 0)%nat = false).
    { destruct set as [| v0 rest]; [contradiction |].
      specialize (Hex v0 (or_introl eq_refl)).
      destruct existing; [destruct Hex | reflexivity]. }
    assert (Hmiss : filter (fun f => negb (str_in f existing)) set = []).
    { apply filter_nil_iff. intros v Hv. apply negb_false_iff. apply str_in_iff.
      apply Hex. exact Hv. }
    unfold _process_archive_set, try_except, bind at 1.
    rewrite check_archive_exists_unfold. cbv zeta. rewrite Hcwd, Hnlst.
    fold listing. fold existing. rewrite Hlen. cbn [negb].
    destruct (length existing =? length set)%nat; [reflexivity |].
    rewrite Hmiss. reflexivity.
  - intros w ftp b rd set s Hcwd Hnlst Hnone m. subst m.
    assert (Hc : exists s1, _check_archive_exists_on_ftp w ftp b rd s = (Ok (false, []), s1)).
    { rewrite check_archive_exists_unfold. cbv zeta. rewrite Hcwd, Hnlst.
      rewrite (proj2 (filter_nil_iff _ _) Hnone). eexists. reflexivity. }
    destruct Hc as [s1 Hc].
    destruct (check_spec w ftp b rd s false [] s1 Hc) as [d1 [Ht1 [Hu1 _]]].
    destruct (process_after_check w ftp b set rd s false [] s1 Hc) as [d [Ht [Hu Hv]]].
    cbn [volumes_to_upload] in Hu, Hv. exists (d ++ d1). split; [| split].
    + rewrite Ht, Ht1, app_assoc. reflexivity.
    + rewrite upload_results_app, Hu1. exact Hu.
    + intros Hr v Hin. specialize (Hv Hr v Hin).
      apply (stored_and_verified_mono d v v d1 []) in Hv. exact Hv.
Qed.

Lemma reconciler_by_names_witness :
  _process_archive_set Scenario.retention_world 0 Scenario.t1_v0
                       [Scenario.t1_v0; Scenario.t1_v1] "/backup"
                       Scenario.retention_state
  = (Ok true,
     log_event (EvOp (OpNlst 0)
                     (Scenario.retention_world (S (clock Scenario.retention_state))
                                               (OpNlst 0)))
               (tick (log_event (EvOp (OpCwd 0 "/backup")
                                      (Scenario.retention_world
                                         (clock Scenario.retention_state)
                                         (OpCwd 0 "/backup")))
                                (tick Scenario.retention_state)))).
Proof.
  apply (proj1 reconciler_by_names Scenario.retention_world [] Scenario.retention_dir).
  - vm_compute. do 4 right. left. reflexivity.
  - reflexivity.
  - reflexivity.
  - intros v Hv. vm_compute in Hv. vm_compute.
    destruct Hv as [<- | [<- | []]]; auto 10.
Defined.

(** ** The Transfer Executor: what [True] means *)

Lemma upload_try_true_last w ftp lf rf rd s s' :
  upload_try w ftp lf rf rd s = (Ok true, s') ->
  exists r_stor r_stat r_sz n older,
    trace s' = EvOp (OpSize ftp rf) r_sz :: EvOp (OpStat lf) r_stat
                 :: EvOp (OpStor ftp rf) r_stor :: older /\
    r_exn r_stor = None /\
    r_exn r_stat = None /\ r_size r_stat = Some n /\
    r_exn r_sz = None /\ r_size r_sz = Some n.
Proof.
  unfold upload_try. intros H.
  apply bind_Ok_inv in H. destruct H as [r1 [s1 [H1 H]]].
  apply bind_Ok_inv in H. destruct H as [n0 [s2 [H2 H]]].
  apply bind_Ok_inv in H. destruct H as [r3 [s3 [H3 H]]].
  apply bind_Ok_inv in H. destruct H as [r4 [s4 [H4 H]]].
  apply perform_Ok_inv in H4. destruct H4 as [_ [He4 Hs4]].
  apply verify_true in H. destruct H as [rst [rsz [n [Ht [E1 [E2 [E3 E4]]]]]]].
  exists r4, rst, rsz, n, (trace s3). split.
  - rewrite Ht, Hs4. reflexivity.
  - repeat split; assumption.
Qed.

Lemma upload_loop_true_last w mr lf rf rd attempts :
  forall ftp s s',
    upload_loop w mr attempts ftp lf rf rd s = (Ok true, s') ->
    exists sid r_stor r_stat r_sz n older,
      trace s' = EvOp (OpSize sid rf) r_sz :: EvOp (OpStat lf) r_stat
                   :: EvOp (OpStor sid rf) r_stor :: older /\
      r_exn r_stor = None /\
      r_exn r_stat = None /\ r_size r_stat = Some n /\
      r_exn r_sz = None /\ r_size r_sz = Some n.
Proof.
  induction attempts as [| a rest IH]; intros ftp s s' H; cbn [upload_loop] in H.
  - discriminate.
  - apply bind_Ok_inv in H. destruct H as [st [s1 [H1 H2]]].
    destruct st as [b | ftp'].
    + inversion H2; subst. apply upload_attempt_Return_true in H1.
      exists ftp. apply (upload_try_true_last w ftp lf rf rd s s' H1).
    + exact (IH ftp' s1 s' H2).
Qed.

(** [_upload_file_to_ftp_with_retry] returns [True] only straight after
    a [STOR] of the remote name that succeeded and was followed by a
    successful size check with equal sizes: these are its last three
    operations.  Whatever [max_retries], at most that many [STOR] commands
    are issued; with [max_retries = 0] nothing is attempted and the call
    returns [False]. *)
Theorem executor_true_means_verified :
  forall (w : World) (ftp : session) (local_file remote_filename remote_dir : string)
         (max_retries : nat) (s : State),
    let m := _upload_file_to_ftp_with_retry w ftp local_file remote_filename remote_dir
                                            max_retries in
    (result_of m s = Ok true ->
     exists sid r_stor r_stat r_sz n older,
       trace (state_after m s)
       = EvUpload remote_filename (Ok true)
           :: EvOp (OpSize sid remote_filename) r_sz
           :: EvOp (OpStat local_file) r_stat
           :: EvOp (OpStor sid remote_filename) r_stor :: older /\
       r_exn r_stor = None /\
       r_exn r_stat = None /\ r_size r_stat = Some n /\
       r_exn r_sz = None /\ r_size r_sz = Some n) /\
    (exists d, trace (state_after m s) = d ++ trace s /\
               length (stor_attempts d) <= max_retries) /\
    (max_retries = 0 ->
     m s = (Ok false, log_event (EvUpload remote_filename (Ok false)) s)).
Proof.
  intros w ftp lf rf rd mr s m. subst m. split; [| split].
  - unfold result_of, state_after, _upload_file_to_ftp_with_retry.
    destruct (upload_loop w mr (seq 0 mr) ftp lf rf rd s) as [r s1] eqn:E.
    cbn [fst snd]. intros ->.
    destruct (upload_loop_true_last w mr lf rf rd _ ftp s s1 E)
      as [sid [r1 [r2 [r3 [n [older [Ht Hr]]]]]]].
    exists sid, r1, r2, r3, n, older. split; [| exact Hr].
    cbn [trace log_event]. rewrite Ht. reflexivity.
  - apply upload_stores.
  - intros ->. reflexivity.
Qed.

(** ** What a run removes *)

Lemma quiet_split d :
  Forall quiet_event d -> Forall not_delete_event d /\ Forall not_unlink_event d.
Proof.
  intros H. split; eapply Forall_impl; try exact H; intros ev [H1 H2]; assumption.
Qed.

Lemma prunes_quiet succ dir d : Forall quiet_event d -> prunes_within succ dir d dir.
Proof.
  intros H. destruct (quiet_split d H) as [Hd Hu].
  unfold prunes_within. rewrite (no_delete_attempts d Hd), (no_unlink_attempts d Hu).
  split; [intros f [] |]. split; [intros f [] |]. split; auto.
Qed.

Lemma prunes_app succ dir d1 dir1 d2 dir2 :
  prunes_within succ dir d1 dir1 -> prunes_within succ dir1 d2 dir2 ->
  prunes_within succ dir (d2 ++ d1) dir2.
Proof.
  intros [U1 [D1 [S1 K1]]] [U2 [D2 [S2 K2]]]. unfold prunes_within.
  rewrite unlink_attempts_app, delete_attempts_app.
  split; [| split; [| split]].
  - intros f Hf. apply in_app_or in Hf. destruct Hf as [Hf | Hf]; [exact (U1 f Hf) |].
    destruct (U2 f Hf) as [Hin Hp]. split; [apply S1; exact Hin | exact Hp].
  - intros f Hf. apply in_app_or in Hf. destruct Hf as [Hf | Hf]; auto.
  - intros f Hf. apply S1, S2. exact Hf.
  - intros f Hf Hn. apply K2; [apply K1; assumption | exact Hn].
Qed.

Lemma cleanup_old_prunes w ftp rd k s :
  let s' := state_after (_cleanup_old_ftp_backups w ftp rd k) s in
  exists d,
    trace s' = d ++ trace s /\
    prunes_within (successful_uploads s) (local_dir s) d (local_dir s') /\
    successful_uploads s' = successful_uploads s.
Proof.
  intros s'. subst s'.
  destruct (cleanup_old_ftp_backups_prunable w ftp rd k s) as [deleted [Hdel Hpr]].
  assert (F : framed not_unlink_event (_cleanup_old_ftp_backups w ftp rd k))
    by (apply framed_cleanup_old_ftp_backups_gen; intros; exact I).
  destruct (F s) as [[d [Ht Hd]] [Hs _]].
  assert (K : keeps local_dir (_cleanup_old_ftp_backups w ftp rd k))
    by (apply keeps_cleanup_old_ftp_backups; intros; reflexivity).
  exists d. split; [exact Ht |]. split; [| exact Hs].
  rewrite (K s). unfold prunes_within. rewrite (no_unlink_attempts d Hd).
  split; [intros f [] |]. split; [| split; auto].
  intros f Hf. rewrite Ht, delete_attempts_app in Hdel.
  apply app_inv_head in Hdel. rewrite Hdel in Hf.
  destruct (Hpr f Hf) as [_ H]. exact H.
Qed.

Lemma cleanup_local_prunes w s :
  let s' := state_after (_cleanup_local_archives w) s in
  exists d,
    trace s' = d ++ trace s /\
    prunes_within (successful_uploads s) (local_dir s) d (local_dir s') /\
    successful_uploads s' = successful_uploads s.
Proof.
  intros s'. subst s'.
  destruct (local_prune_unlinks w s) as [d [Ht [Hu [Hsub [Hkeep _]]]]].
  assert (F : framed not_delete_event (_cleanup_local_archives w))
    by (apply framed_cleanup_local_archives; intros; reflexivity).
  destruct (F s) as [[d' [Ht' Hd']] [Hs _]].
  assert (d' = d) by (rewrite Ht in Ht'; apply app_inv_tail in Ht'; congruence).
  subst d'. exists d. split; [exact Ht |]. split; [| exact Hs].
  unfold prunes_within. rewrite (no_delete_attempts d Hd').
  split; [exact Hu |]. split; [intros f [] |]. split; [exact Hsub |].
  intros f Hf Hn. apply Hkeep; [exact Hf | exact Hn].
Qed.

Lemma process_one_removes_nothing w ftp rd e s :
  trace_extends quiet_event s (state_after (process_one w ftp rd e) s).
Proof.
  destruct e as [b set].
  assert (F : framed quiet_event (_process_archive_set w ftp b set rd))
    by (apply framed_process_archive_set; intros; split; exact I || reflexivity).
  destruct (F s) as [Ht _]. clear F.
  unfold process_one, state_after, try_except, bind, modify in *.
  destruct (_process_archive_set w ftp b set rd s) as [[[|] | e] s1]; cbn [fst snd] in *;
    try exact Ht.
  destruct e; cbn; exact Ht.
Qed.

Lemma run_sets_state w cfg ftp sets s :
  state_after (run_sets w cfg ftp sets) s
  = match for_each sets (process_one w ftp (remote_dir cfg)) s with
    | (Raise _, s2) => s2
    | (Ok _, s2) =>
        match successful_uploads s2 with
        | [] => s2
        | _ :: _ =>
            match _cleanup_old_ftp_backups w ftp (remote_dir cfg) (max_copies cfg) s2 with
            | (Raise _, s3) => s3
            | (Ok _, s3) => state_after (_cleanup_local_archives w) s3
            end
        end
    end.
Proof.
  unfold run_sets, state_after, bind, get_state.
  destruct (for_each sets (process_one w ftp (remote_dir cfg)) s) as [[[] | e] s2];
    [| reflexivity].
  destruct (successful_uploads s2) as [| b bs].
  { cbn [ret]. destruct (failed_uploads s2); reflexivity. }
  destruct (_cleanup_old_ftp_backups w ftp (remote_dir cfg) (max_copies cfg) s2)
    as [[[] | e] s3]; [| reflexivity].
  destruct (_cleanup_local_archives w s3) as [[[] | e] s4]; [| reflexivity].
  cbn [snd]. destruct (failed_uploads s4); reflexivity.
Qed.

Lemma run_sets_prunes w cfg ftp sets s :
  let s' := state_after (run_sets w cfg ftp sets) s in
  exists d,
    trace s' = d ++ trace s /\
    prunes_within (successful_uploads s') (local_dir s) d (local_dir s').
Proof.
  intros s'. subst s'. rewrite run_sets_state.
  assert (Hloop : trace_extends quiet_event s
            (state_after (for_each sets (process_one w ftp (remote_dir cfg))) s)).
  { apply for_each_trace_extends. intros x s0 _. apply process_one_removes_nothing. }
  assert (Kloop : keeps local_dir (for_each sets (process_one w ftp (remote_dir cfg)))).
  { apply keeps_for_each_gen. intros e. apply keeps_process_one; intros; reflexivity. }
  specialize (Kloop s). destruct Hloop as [d1 [Ht1 Hq1]].
  unfold state_after in Kloop, Ht1.
  destruct (for_each sets (process_one w ftp (remote_dir cfg)) s) as [[[] | e] s2];
    cbn [fst snd] in *.
  2:{ exists d1. split; [exact Ht1 |]. rewrite Kloop. apply prunes_quiet. exact Hq1. }
  destruct (successful_uploads s2) as [| b bs] eqn:Es.
  { exists d1. split; [exact Ht1 |]. rewrite Kloop. apply prunes_quiet. exact Hq1. }
  clear Es b bs.
  destruct (cleanup_old_prunes w ftp (remote_dir cfg) (max_copies cfg) s2)
    as [d3 [Ht3 [Hp3 Hs3]]].
  unfold state_after in Ht3, Hp3, Hs3.
  destruct (_cleanup_old_ftp_backups w ftp (remote_dir cfg) (max_copies cfg) s2)
    as [[[] | e] s3]; cbn [fst snd] in *.
  2:{ exists (d3 ++ d1). split; [rewrite Ht3, Ht1, app_assoc; reflexivity |].
      rewrite Hs3. apply (prunes_app _ _ d1 (local_dir s2)); [| exact Hp3].
      rewrite Kloop. apply prunes_quiet. exact Hq1. }
  destruct (cleanup_local_prunes w s3) as [d4 [Ht4 [Hp4 Hs4]]].
  exists (d4 ++ d3 ++ d1). split; [rewrite Ht4, Ht3, Ht1, !app_assoc; reflexivity |].
  rewrite Hs4, Hs3.
  apply (prunes_app _ _ (d3 ++ d1) (local_dir s3)); [| rewrite <- Hs3; exact Hp4].
  apply (prunes_app _ _ d1 (local_dir s2)); [| exact Hp3].
  rewrite Kloop. apply prunes_quiet. exact Hq1.
Qed.

Lemma state_after_bind {A B} (m : M A) (f : A -> M B) s :
  state_after (bind m f) s
  = match m s with
    | (Ok a, s1) => state_after (f a) s1
    | (Raise _, s1) => s1
    end.
Proof. unfold state_after, bind. destruct (m s) as [[a | e] s1]; reflexivity. Qed.

Lemma run_try_state w cfg s0 :
  state_after (run_try w cfg) s0
  = match _connect_ftp w s0 with
    | (Ok ftp, s1) => state_after (run_after_connect w cfg ftp) (set_self_ftp (Some ftp) s1)
    | (Raise _, s1) => s1
    end.
Proof.
  unfold state_after. rewrite run_try_after_connect.
  destruct (_connect_ftp w s0) as [[ftp | e] s1]; reflexivity.
Qed.

(** What the [try] block of [run] removes: from the connection to the
    return code, the two prunes included.  A local file is unlinked only if
    it was in the source directory and the pattern [base_name*] of a set
    recorded as uploaded that has a timestamp matches its name; a remote
    file is deleted only if its base name is such a set.  No file is added
    to the source directory, and the files that no such pattern matches are
    still there at the end.  In particular, when no set was uploaded
    nothing is removed. *)
Theorem run_try_removes_only_uploaded :
  forall (w : World) (cfg : Config) (dir : list string),
    entry_names dir ->
    let s := state_after (run_try w cfg) (init_state dir) in
    prunes_within (successful_uploads s) dir (trace s) (local_dir s) /\
    (successful_uploads s = [] ->
     unlink_attempts (trace s) = [] /\ delete_attempts (trace s) = [] /\
     forall f, In f dir <-> In f (local_dir s)).
Proof.
  intros w cfg dir _ s. subst s.
  assert (Hmain : prunes_within
                    (successful_uploads (state_after (run_try w cfg) (init_state dir))) dir
                    (trace (state_after (run_try w cfg) (init_state dir)))
                    (local_dir (state_after (run_try w cfg) (init_state dir)))).
  { rewrite run_try_state.
    assert (F1 : framed quiet_event (_connect_ftp w))
      by (apply framed_connect; intros; split; exact I || reflexivity).
    assert (K1 : keeps local_dir (_connect_ftp w))
      by (apply keeps_connect; intros; reflexivity).
    destruct (F1 (init_state dir)) as [[d1 [Ht1 Hq1]] _]. specialize (K1 (init_state dir)).
    unfold state_after in Ht1, K1. cbn [trace local_dir init_state] in Ht1, K1.
    rewrite app_nil_r in Ht1.
    destruct (_connect_ftp w (init_state dir)) as [[ftp | e] s1]; cbn [fst snd] in *.
    2:{ rewrite Ht1, K1. apply prunes_quiet. exact Hq1. }
    set (s1' := set_self_ftp (Some ftp) s1).
    assert (Ht1' : trace s1' = d1) by exact Ht1.
    assert (K1' : local_dir s1' = dir) by exact K1.
    clearbody s1'. clear Ht1 K1 s1.
    unfold run_after_connect. rewrite state_after_bind.
    assert (F2 : framed quiet_event
                   (_ensure_remote_directory w ftp (remote_dir cfg) (remote_parts cfg)))
      by (apply framed_ensure_remote_directory; intros; split; exact I || reflexivity).
    assert (K2 : keeps local_dir
                   (_ensure_remote_directory w ftp (remote_dir cfg) (remote_parts cfg)))
      by (apply keeps_ensure_remote_directory; intros; reflexivity).
    destruct (F2 s1') as [[d2 [Ht2 Hq2]] _]. specialize (K2 s1').
    unfold state_after in Ht2, K2.
    destruct (_ensure_remote_directory w ftp (remote_dir cfg) (remote_parts cfg) s1')
      as [[[] | e] s2]; cbn [fst snd] in *.
    2:{ rewrite Ht2, Ht1', K2, K1'. apply prunes_quiet. apply Forall_app. split; assumption. }
    rewrite state_after_bind.
    assert (F3 : framed quiet_event (_get_multi_volume_archives w (ignore_patterns cfg)))
      by (apply framed_get_multi_volume_archives; intros; split; exact I || reflexivity).
    assert (K3 : keeps local_dir (_get_multi_volume_archives w (ignore_patterns cfg)))
      by (apply keeps_get_multi_volume_archives; intros; reflexivity).
    destruct (F3 s2) as [[d3 [Ht3 Hq3]] _]. specialize (K3 s2).
    unfold state_after in Ht3, K3.
    destruct (_get_multi_volume_archives w (ignore_patterns cfg) s2)
      as [[sets | e] s3]; cbn [fst snd] in *.
    2:{ rewrite Ht3, Ht2, Ht1', K3, K2, K1'. apply prunes_quiet.
        repeat (apply Forall_app; split); assumption. }
    assert (Hq : Forall quiet_event (d3 ++ d2 ++ d1))
      by (repeat (apply Forall_app; split); assumption).
    assert (Hd3 : local_dir s3 = dir) by congruence.
    assert (Hts3 : trace s3 = d3 ++ d2 ++ d1) by (rewrite Ht3, Ht2, Ht1'; reflexivity).
    destruct sets as [| e0 sets'] eqn:Esets.
    { unfold state_after. cbn [ret fst snd]. rewrite Hts3, Hd3. apply prunes_quiet. exact Hq. }
    rewrite <- Esets. clear Esets e0 sets'.
    destruct (run_sets_prunes w cfg ftp sets s3) as [d5 [Ht5 Hp5]].
    rewrite Ht5, Hts3.
    rewrite Hd3 in Hp5. apply (prunes_app _ _ (d3 ++ d2 ++ d1) dir); [| exact Hp5].
    apply prunes_quiet. exact Hq. }
  split; [exact Hmain |].
  intros Hnone. rewrite Hnone in Hmain. destruct Hmain as [U [D [S K]]].
  assert (Hno : forall f, ~ uploaded_match [] f) by (intros f [b [[] _]]).
  split; [| split].
  - destruct (unlink_attempts _) as [| f l]; [reflexivity |].
    destruct (U f (or_introl eq_refl)) as [_ H]. destruct (Hno f H).
  - destruct (delete_attempts _) as [| f l]; [reflexivity |].
    destruct (D f (or_introl eq_refl)) as [b [t [_ [[] _]]]].
  - intros f. split; [intros Hf; apply K; [exact Hf | apply Hno] | apply S].
Qed.

Lemma run_try_removes_only_uploaded_witness :
  let s := state_after (run_try Scenario.prune_world Scenario.cfg)
                       (init_state Scenario.prune_dir) in
  prunes_within (successful_uploads s) Scenario.prune_dir (trace s) (local_dir s) /\
  (successful_uploads s = [] ->
   unlink_attempts (trace s) = [] /\ delete_attempts (trace s) = [] /\
   forall f, In f Scenario.prune_dir <-> In f (local_dir s)).
Proof.
  apply (run_try_removes_only_uploaded Scenario.prune_world Scenario.cfg Scenario.prune_dir).
  intros n [<- | [<- | [<- | []]]]; reflexivity.
Defined.

(** ** Retention of log files *)

Lemma StronglySorted_app_cross {A} (R : A -> A -> Prop) (l1 l2 : list A) :
  StronglySorted R (l1 ++ l2) ->
  forall a b, In a l1 -> In b l2 -> R a b.
Proof.
  induction l1 as [| x l1 IH]; intros H a b Ha Hb; [destruct Ha |].
  cbn [app] in H. inversion H as [| ? ? Hs Hall]; subst.
  destruct Ha as [<- | Ha].
  - rewrite Forall_forall in Hall. apply Hall. apply in_or_app. right. exact Hb.
  - exact (IH Hs a b Ha Hb).
Qed.

Lemma mtime_sort_sorted (l : list LogFile) :
  StronglySorted (key_le lf_mtime Z.ltb) (sort_by lf_mtime Z.ltb l).
Proof.
  apply sort_by_sorted.
  - intros a b Hab. apply Z.ltb_lt in Hab. apply Z.ltb_ge. lia.
  - intros a b c Hab Hbc. apply Z.ltb_ge in Hab, Hbc. apply Z.ltb_ge. lia.
Qed.

Lemma mtime_prefix_older (l : list LogFile) (n : nat) :
  forall a b, In a (firstn n (sort_by lf_mtime Z.ltb l)) ->
              In b (skipn n (sort_by lf_mtime Z.ltb l)) ->
              (lf_mtime a <= lf_mtime b)%Z.
Proof.
  intros a b Ha Hb.
  pose proof (mtime_sort_sorted l) as Hs.
  rewrite <- (firstn_skipn n (sort_by lf_mtime Z.ltb l)) in Hs.
  pose proof (StronglySorted_app_cross _ _ _ Hs a b Ha Hb) as H.
  unfold key_le in H. apply Z.ltb_ge in H. exact H.
Qed.

(** Which log files the two clean-ups select.  The selected files and the
    files left make up the directory listing, and no selected file is newer
    than a file left.  For a count of at least one the files left are as
    many as the count allows; for a count of zero nothing is selected, so
    every file stays; for a negative count that many of the oldest files
    are selected. *)
Theorem log_retention_selection :
  forall (files : list LogFile) (count : Z),
    let removed := oldest_beyond count files in
    exists kept,
      Permutation (removed ++ kept) files /\
      (forall a b, In a removed -> In b kept -> (lf_mtime a <= lf_mtime b)%Z) /\
      ((1 <= count)%Z -> length kept = Nat.min (length files) (Z.to_nat count)) /\
      (count = 0%Z -> removed = []) /\
      ((count < 0)%Z -> length removed = Nat.min (length files) (Z.to_nat (- count))).
Proof.
  intros files count removed.
  assert (Hpre : exists n, removed = firstn n (sort_by lf_mtime Z.ltb files) /\
                           ((1 <= count)%Z -> n = length files - Z.to_nat count) /\
                           (count = 0%Z -> n = 0) /\
                           ((count < 0)%Z -> n = Nat.min (length files) (Z.to_nat (- count)))).
  { subst removed. unfold oldest_beyond. cbv zeta.
    destruct (Z_lt_le_dec count 1) as [Hlt | Hge].
    - unfold slice_to. rewrite sort_by_length.
      destruct (Z.gtb_spec (Z.of_nat (length files)) count) as [Hgt | Hle].
      + destruct (Z.ltb_spec (- count) 0) as [Hneg | Hpos]; [lia |].
        eexists. split; [reflexivity |]. split; [lia |]. split; lia.
      + exists 0. split; [reflexivity |]. split; [lia |]. split; lia.
    - rewrite (slice_all_but_newest _ count Hge), sort_by_length.
      eexists. split; [reflexivity |]. split; [lia |]. split; lia. }
  destruct Hpre as [n [Hrem [H1 [H0 Hneg]]]].
  exists (skipn n (sort_by lf_mtime Z.ltb files)).
  split; [| split; [| split; [| split]]].
  - rewrite Hrem, firstn_skipn. apply sort_by_perm.
  - rewrite Hrem. apply mtime_prefix_older.
  - intros Hc. rewrite length_skipn, sort_by_length, (H1 Hc). lia.
  - intros Hc. rewrite Hrem, (H0 Hc). reflexivity.
  - intros Hc. rewrite Hrem, length_firstn, sort_by_length, (Hneg Hc). lia.
Qed.











